(** * fairseq-vqvae-text: the convolutional mask and the VQ-VAE codebook

    A shallow embedding of [fairseq/models/conv_encoder.py] and
    [fairseq/models/vqvae_lm.py].

    Conventions of the embedding.
    - A tensor is a nested list, outermost dimension first.
    - An integer tensor ([lengths], [embed_ind]) holds 64-bit signed
      integers: [Z] with the wrap-around written out ([wrap64]).  The [/]
      of two integer operands is the truncating integer division of the
      torch version the code targets (the same version that accepts
      [add_(scalar, tensor)]).
    - A floating tensor is embedded twice.  In [Torch], [conv_encoder]
      and [vqvae_lm] it holds exact rationals ([Qc]), with the
      arithmetic laws of a field: what the code does with shapes, masks,
      events and update rules is proved there, and rounding, infinities
      and NaN are outside that model.  In [Float32], [Torch32] and
      [vqvae_lm32] it holds the numbers of binary32 with the operations
      of IEEE 754, every result rounded to nearest, ties to even, with
      the infinities and NaN: what depends on the values the code
      computes (the code assigned to a vector, the value of the
      straight-through step, the codes of [extract_codes], the number of
      words [mask_words] drops) is proved there.
    - A torch call that raises (shape mismatch, empty reduction, division
      of integers by zero) returns [None].
    - The state of a module (the buffers of [Quantize]) is passed in and
      returned; a call of [torch.distributed.all_reduce] is an event of
      the computation ([Prog]), answered by the process group ([Comm]);
      [torch.cuda.device_count()] is the argument [device_count]. *)

From Stdlib Require Import String ZArith List Lia Bool QArith Qcanon.
From Stdlib Require Import Qround Qabs Qpower.
Import ListNotations.

Declare Scope opt_scope.
Delimit Scope opt_scope with opt.
Notation "x <- e ;; k" :=
  (match e with Some x => k | None => None end)
  (at level 61, e at next level, right associativity) : opt_scope.
Notation "' p <- e ;; k" :=
  (match e with Some p => k | None => None end)
  (at level 61, p pattern, e at next level, right associativity) : opt_scope.

Declare Scope prog_scope.
Delimit Scope prog_scope with prog.

(** ** The torch primitives the two files call *)

Module Torch.

Local Open Scope Z_scope.

(** Two's-complement reduction of a 64-bit signed integer. *)
Definition wrap64 (z : Z) : Z := (z + 2 ^ 63) mod 2 ^ 64 - 2 ^ 63.

(** [t - c], [t / c] and [t + c] for an integer tensor [t] of one
    dimension and a scalar [c]. *)
Definition isub_scalar (t : list Z) (c : Z) : list Z :=
  map (fun x => wrap64 (x - c)) t.

Definition iadd_scalar (t : list Z) (c : Z) : list Z :=
  map (fun x => wrap64 (x + c)) t.

Definition idiv_scalar (t : list Z) (c : Z) : option (list Z) :=
  if c =? 0 then None else Some (map (fun x => wrap64 (Z.quot x c)) t).

(** [torch.max(t).item()]: raises on a tensor without elements. *)
Definition imax (t : list Z) : option Z :=
  match t with
  | [] => None
  | x :: r => Some (fold_left Z.max r x)
  end.

(** [torch.arange(n)]: raises on a negative bound. *)
Definition arange (n : Z) : option (list Z) :=
  if n <? 0 then None else Some (map Z.of_nat (seq 0 (Z.to_nat n))).

(** [t.expand(b, len(t))] for a tensor of one dimension. *)
Definition expand_rows (b : nat) (t : list Z) : list (list Z) := repeat t b.

(** [m < v.unsqueeze(1)] for [m] of shape [B x T] and [v] of shape [B]. *)
Definition lt_unsqueeze1 (m : list (list Z)) (v : list Z) : list (list bool) :=
  map (fun '(row, x) => map (fun t => t <? x) row) (combine m v).

(** *** Floating tensors *)

Local Open Scope Qc_scope.

Abbreviation tensor1 := (list Qc) (only parsing).
Abbreviation tensor2 := (list (list Qc)) (only parsing).
Abbreviation tensor3 := (list (list (list Qc))) (only parsing).

Fixpoint traverse {A B : Type} (f : A -> option B) (l : list A)
  : option (list B) :=
  match l with
  | [] => Some []
  | a :: r =>
      match f a, traverse f r with
      | Some b, Some bs => Some (b :: bs)
      | _, _ => None
      end
  end.

(** One dimension of torch's broadcasting: sizes agree, or one of them
    is 1 and that operand is repeated; anything else raises. *)
Definition bcast {A B C : Type} (f : A -> B -> option C)
    (x : list A) (y : list B) : option (list C) :=
  if Nat.eqb (length x) (length y)
  then traverse (fun p => f (fst p) (snd p)) (combine x y)
  else match x, y with
       | _, [b] => traverse (fun a => f a b) x
       | [a], _ => traverse (fun b => f a b) y
       | _, _ => None
       end.

Definition lift2 {A B C : Type} (f : A -> B -> C) (a : A) (b : B)
  : option C := Some (f a b).

(** Elementwise operations of two and three dimensions, broadcasting. *)
Definition mul2 : tensor2 -> tensor2 -> option tensor2 :=
  bcast (bcast (lift2 Qcmult)).
Definition add2 : tensor2 -> tensor2 -> option tensor2 :=
  bcast (bcast (lift2 Qcplus)).
Definition sub2 : tensor2 -> tensor2 -> option tensor2 :=
  bcast (bcast (lift2 Qcminus)).
Definition div2 : tensor2 -> tensor2 -> option tensor2 :=
  bcast (bcast (lift2 Qcdiv)).
Definition mul3 : tensor3 -> tensor3 -> option tensor3 :=
  bcast (bcast (bcast (lift2 Qcmult))).
Definition add3 : tensor3 -> tensor3 -> option tensor3 :=
  bcast (bcast (bcast (lift2 Qcplus))).
Definition sub3 : tensor3 -> tensor3 -> option tensor3 :=
  bcast (bcast (bcast (lift2 Qcminus))).

(** [m.type_as(x)] for a boolean [m]. *)
Definition of_bool (b : bool) : Qc := if b then 1 else 0.

(** [unsqueeze(1)] of [B x T] and [unsqueeze(-1)] of [T x B]. *)
Definition unsqueeze1 {A : Type} (m : list (list A)) : list (list (list A)) :=
  map (fun r => [r]) m.
Definition unsqueeze_last {A : Type} (m : list (list A))
  : list (list (list A)) :=
  map (map (fun a => [a])) m.

Definition qsum (l : list Qc) : Qc := fold_right Qcplus 0 l.

Definition relu (x : Qc) : Qc :=
  match 0 ?= x with Lt => x | _ => 0 end.

(** The size of the second and of the third dimension; a tensor whose
    outer dimension is empty has inner dimensions of size 0. *)
Definition size1 {A : Type} (m : list (list A)) : nat := length (hd [] m).
Definition size2 {A : Type} (x : list (list (list A))) : nat :=
  length (hd [] (hd [] x)).

(** [m.transpose(0, 1)] for [m] of shape [R x n]; the nested list of a
    tensor without rows does not record [n], so it is an argument. *)
Definition transpose {A : Type} (d : A) (n : nat) (m : list (list A))
  : list (list A) :=
  map (fun j => map (fun r => nth j r d) m) (seq 0 n).

(** [x.permute(2, 0, 1)]: [B x C x T] to [T x B x C]. *)
Definition permute201 (x : tensor3) : tensor3 :=
  map (fun t => map (map (fun r => nth t r 0)) x) (seq 0 (size2 x)).

(** [x.permute(1, 2, 0)]: [T x B x C] to [B x C x T]. *)
Definition permute120 (x : tensor3) : tensor3 :=
  map (fun b =>
         map (fun c => map (fun xt => nth c (nth b xt []) 0) x)
             (seq 0 (size2 x)))
      (seq 0 (size1 x)).

(** *** nn.Conv1d

    The cross-correlation of torch's documentation: for an input of
    shape [B x Cin x T], a weight of shape [Cout x Cin x k] and a bias of
    shape [Cout],
    [out[b][o][t] = bias[o] + sum_c sum_j weight[o][c][j] * pad(x[b][c])[t * stride + j]]
    with [T_out = (T + 2 * padding - k) / stride + 1]. *)
Record Conv1d := {
  weight : tensor3;
  bias : tensor1;
  kernel_size : Z;
  padding : Z;
  stride : Z
}.

Definition dot (u v : tensor1) : Qc :=
  qsum (map (fun p => fst p * snd p) (combine u v)).

Definition pad1 (p : Z) (r : tensor1) : tensor1 :=
  repeat 0 (Z.to_nat p) ++ r ++ repeat 0 (Z.to_nat p).

Definition conv1d_out_len (L : Conv1d) (T : nat) : Z :=
  ((Z.of_nat T + 2 * padding L - kernel_size L) / stride L + 1)%Z.

Definition conv1d_at (L : Conv1d) (w : tensor2) (x : tensor2) (t : nat) : Qc :=
  qsum (map (fun p =>
               dot (fst p)
                   (firstn (Z.to_nat (kernel_size L))
                      (skipn (t * Z.to_nat (stride L))
                         (pad1 (padding L) (snd p)))))
            (combine w x)).

Definition conv1d_example (L : Conv1d) (x : tensor2) : tensor2 :=
  map (fun p =>
         map (fun t => snd p + conv1d_at L (fst p) x t)
             (seq 0 (Z.to_nat (conv1d_out_len L (size1 x)))))
      (combine (weight L) (bias L)).

Definition conv1d (L : Conv1d) (x : tensor3) : option tensor3 :=
  if ((stride L <=? 0) || (kernel_size L <=? 0) || (padding L <? 0)
      || (Z.of_nat (size2 x) + 2 * padding L <? kernel_size L))%Z
     || negb (forallb (fun w => Nat.eqb (length w) (size1 x)) (weight L))
     || negb (Nat.eqb (length (weight L)) (length (bias L)))
  then None
  else Some (map (conv1d_example L) x).

(** *** Reductions, indexing and views *)

(** [m.sum(0)] for [m] of shape [R x n]. *)
Definition sum0 (n : nat) (m : tensor2) : tensor1 :=
  map (fun j => qsum (map (fun r => nth j r 0) m)) (seq 0 n).

(** [m.sum(1, keepdim=True)] *)
Definition sum1_keepdim (m : tensor2) : tensor2 :=
  map (fun r => [qsum r]) m.

Definition pow2 (x : Qc) : Qc := x * x.

(** [a @ b] for [a] of shape [R x m] and [b] of shape [m x n]; raises
    when the inner sizes differ. *)
Definition matmul (n : nat) (a b : tensor2) : option tensor2 :=
  if forallb (fun r => Nat.eqb (length r) (length b)) a
  then Some (map (fun r =>
                    map (fun j => dot r (map (fun br => nth j br 0) b))
                        (seq 0 n)) a)
  else None.

(** [x.mean()] of all the elements; the mean of a tensor without
    elements, NaN in torch, has no counterpart here (the quotient by
    zero of [Qc] is 0). *)
Definition mean_all (l : list Qc) : Qc :=
  qsum l / Q2Qc (inject_Z (Z.of_nat (length l))).

(** [t.reshape(-1, n)] and [t.view(-1, n)] of the elements [l] of [t]
    in row-major order. *)
Definition view_rows (n : nat) (l : list Qc) : option tensor2 :=
  if Nat.eqb n 0 then None
  else if Nat.eqb (length l mod n) 0
  then Some (map (fun i => firstn n (skipn (i * n) l))
                 (seq 0 (length l / n)))
  else None.

(** [t.view(T, B)] of a tensor of one dimension. *)
Definition view2 {A : Type} (T B : nat) (l : list A)
  : option (list (list A)) :=
  if Nat.eqb (length l) (T * B)
  then Some (map (fun i => firstn B (skipn (i * B) l)) (seq 0 T))
  else None.

Definition Qcltb (x y : Qc) : bool :=
  match x ?= y with Lt => true | _ => false end.

(** The index of the first greatest element, as [max(1)] returns it;
    [best] at index [bi] is the greatest so far, [i] the next index. *)
Fixpoint argmax_from (best : Qc) (bi i : nat) (l : tensor1) : nat :=
  match l with
  | [] => bi
  | x :: r =>
      if Qcltb best x then argmax_from x i (S i) r
      else argmax_from best bi (S i) r
  end.

Definition argmax (l : tensor1) : option Z :=
  match l with
  | [] => None
  | x :: r => Some (Z.of_nat (argmax_from x 0 1 r))
  end.

(** [F.one_hot(ids, n)]: raises on an index outside [0, n). *)
Definition one_hot (n : nat) (i : Z) : option tensor1 :=
  if ((0 <=? i) && (i <? Z.of_nat n))%Z
  then Some (map (fun k => if Nat.eqb k (Z.to_nat i) then 1 else 0)
                 (seq 0 n))
  else None.

(** [F.embedding(ids, w)]: the rows of [w] at [ids]. *)
Definition embedding (w : tensor2) (ids : list (list Z)) : option tensor3 :=
  traverse
    (traverse (fun i =>
       if ((0 <=? i) && (i <? Z.of_nat (length w)))%Z
       then Some (nth (Z.to_nat i) w [])
       else None))
    ids.

(** [m[mask]] for a boolean [mask] of one dimension: the rows of [m]
    at which [mask] holds; the sizes must agree. *)
Definition index_rows (m : tensor2) (mask : list bool) : option tensor2 :=
  if Nat.eqb (length m) (length mask)
  then Some (map fst (filter snd (combine m mask)))
  else None.

(** [torch.masked_select(x, mask)]: the two operands are broadcast, and
    the selected elements come in row-major order. *)
Definition masked_select (x : tensor2) (mask : list (list bool))
  : option (list Qc) :=
  match bcast (bcast (lift2 (@pair Qc bool))) x mask with
  | Some r => Some (map fst (filter snd (concat r)))
  | None => None
  end.

(** An in-place operation [self.op_(other)]: [other] is broadcast to the
    shape of [self], which does not change. *)
Definition inplace {A B : Type} (f : A -> B -> option A)
    (self : list A) (other : list B) : option (list A) :=
  if Nat.eqb (length self) (length other)
  then traverse (fun p => f (fst p) (snd p)) (combine self other)
  else match other with
       | [b] => traverse (fun a => f a b) self
       | _ => None
       end.

(** [self.masked_fill(mask, v)] *)
Definition masked_fill (self : list (list Z)) (mask : list (list bool))
    (v : Z) : option (list (list Z)) :=
  inplace (inplace (lift2 (fun (a : Z) (m : bool) => if m then v else a)))
          self mask.

(** [torch.mean] and [torch.var] (unbiased) of a tensor of one
    dimension. *)
Definition mean1 (l : tensor1) : Qc := mean_all l.
Definition var1 (l : tensor1) : Qc :=
  qsum (map (fun x => pow2 (x - mean1 l)) l)
  / Q2Qc (inject_Z (Z.of_nat (length l) - 1)).

(** *** torch.distributed

    A computation that may raise and may call [all_reduce], on a tensor
    of one or of two dimensions; the continuation receives the reduced
    tensor. *)
Inductive Prog (A : Type) : Type :=
| Ret (a : A)
| Raise
| AllReduce1 (t : tensor1) (k : tensor1 -> Prog A)
| AllReduce2 (t : tensor2) (k : tensor2 -> Prog A).

Arguments Ret {A} a.
Arguments Raise {A}.
Arguments AllReduce1 {A} t k.
Arguments AllReduce2 {A} t k.

Fixpoint bind {A B : Type} (p : Prog A) (f : A -> Prog B) : Prog B :=
  match p with
  | Ret a => f a
  | Raise => Raise
  | AllReduce1 t k => AllReduce1 t (fun r => bind (k r) f)
  | AllReduce2 t k => AllReduce2 t (fun r => bind (k r) f)
  end.

Definition lift {A : Type} (o : option A) : Prog A :=
  match o with Some a => Ret a | None => Raise end.

Definition all_reduce1 (t : tensor1) : Prog tensor1 :=
  AllReduce1 t (fun r => Ret r).
Definition all_reduce2 (t : tensor2) : Prog tensor2 :=
  AllReduce2 t (fun r => Ret r).

(** The process group as one process sees it: what [all_reduce] leaves
    in the tensor the process contributed. *)
Record Comm := {
  reduce1 : tensor1 -> tensor1;
  reduce2 : tensor2 -> tensor2
}.

(** The default reduction, the sum over the processes: [peers1] and
    [peers2] are the tensors the other processes contribute. *)
Definition vadd (u v : tensor1) : tensor1 :=
  map (fun p => fst p + snd p) (combine u v).
Definition madd (a b : tensor2) : tensor2 :=
  map (fun p => vadd (fst p) (snd p)) (combine a b).
Definition sum_group (peers1 : list tensor1) (peers2 : list tensor2) : Comm :=
  {| reduce1 := fun t => fold_left vadd peers1 t;
     reduce2 := fun t => fold_left madd peers2 t |}.

Fixpoint run {A : Type} (w : Comm) (p : Prog A) : option A :=
  match p with
  | Ret a => Some a
  | Raise => None
  | AllReduce1 t k => run w (k (reduce1 w t))
  | AllReduce2 t k => run w (k (reduce2 w t))
  end.

(** The collective calls of a run, in order, with the tensor each one
    was given. *)
Inductive Collective : Type :=
| Reduced1 (t : tensor1)
| Reduced2 (t : tensor2).

Fixpoint collectives {A : Type} (w : Comm) (p : Prog A) : list Collective :=
  match p with
  | Ret _ => []
  | Raise => []
  | AllReduce1 t k => Reduced1 t :: collectives w (k (reduce1 w t))
  | AllReduce2 t k => Reduced2 t :: collectives w (k (reduce2 w t))
  end.

Local Open Scope Z_scope.
Local Open Scope opt_scope.

(** *** The operations of [VQVAE.mask_words] *)

(** [x.long()] of a floating [x]: the truncation toward zero. *)
Definition to_long (q : Qc) : Z := Z.quot (Qnum q) (Z.pos (Qden q)).

(** [t.long()] of a boolean [t]. *)
Definition long_of_bool (b : bool) : Z := if b then 1 else 0.

(** [a.ge(b)] on integer tensors of two dimensions, broadcasting. *)
Definition ige2 : list (list Z) -> list (list Z) -> option (list (list bool)) :=
  bcast (bcast (lift2 (fun a b : Z => b <=? a))).

(** The list [l] with [v] at the index [i]. *)
Definition set_nth {A : Type} (i : nat) (v : A) (l : list A) : list A :=
  firstn i l ++ v :: skipn (S i) l.

(** One row of [self.scatter(1, index, src)]:
    [self[index[j]] = src[j]] for every [j] of [index], in order;
    raises on an index outside [self], and when [index] is longer than
    [src]. *)
Fixpoint scatter_row (self index src : list Z) : option (list Z) :=
  match index, src with
  | [], _ => Some self
  | i :: index', v :: src' =>
      if (0 <=? i) && (i <? Z.of_nat (length self))
      then scatter_row (set_nth (Z.to_nat i) v self) index' src'
      else None
  | _ :: _, [] => None
  end.

(** [self.scatter(1, index, src)] on tensors of two dimensions: the
    rows of [self] beyond those of [index] are kept; raises when
    [index] has more rows than [self] or than [src]. *)
Fixpoint scatter1 (self index src : list (list Z)) {struct index}
  : option (list (list Z)) :=
  match index, self, src with
  | [], _, _ => Some self
  | i :: index', s :: self', v :: src' =>
      r <- scatter_row s i v ;;
      rest <- scatter1 self' index' src' ;;
      Some (r :: rest)
  | _, _, _ => None
  end.

(** [self[mask] = v] for a boolean [mask], which must have the shape of
    [self]. *)
Definition setitem_mask (self : list (list Z)) (mask : list (list bool))
    (v : Z) : option (list (list Z)) :=
  if Nat.eqb (length self) (length mask)
  then traverse
         (fun p =>
            if Nat.eqb (length (fst p)) (length (snd p))
            then Some (map (fun q : Z * bool => if snd q then v else fst q)
                           (combine (fst p) (snd p)))
            else None)
         (combine self mask)
  else None.

Local Open Scope Z_scope.
Local Open Scope opt_scope.

(** *** The operations of the blocks of [conv_encoder.py] *)

(** [F.pad(x, (left, right), 'constant', 0)]: a negative amount narrows
    the last dimension, first on the left and then on the right, and
    raises when it takes more than there is; a positive amount adds
    zeros. *)
Definition pad_row (left right : Z) (r : tensor1) : option tensor1 :=
  r <- (if left <? 0
        then if Z.of_nat (length r) + left <? 0 then None
             else Some (skipn (Z.to_nat (- left)) r)
        else Some r) ;;
  r <- (if right <? 0
        then if Z.of_nat (length r) + right <? 0 then None
             else Some (firstn (Z.to_nat (Z.of_nat (length r) + right)) r)
        else Some r) ;;
  Some ((repeat (Q2Qc 0) (Z.to_nat left) ++ r)
        ++ repeat (Q2Qc 0) (Z.to_nat right)).

Definition pad_last (left right : Z) (x : tensor3) : option tensor3 :=
  traverse (traverse (pad_row left right)) x.

(** [torch.cat(ts, dim=1)] of tensors of three dimensions: raises on an
    empty list and when the tensors differ in the first or in the
    last size. *)
Definition cat1 (ts : list tensor3) : option tensor3 :=
  match ts with
  | [] => None
  | t0 :: _ =>
      if forallb (fun t => Nat.eqb (length t) (length t0)
                           && Nat.eqb (size2 t) (size2 t0)) ts
      then Some (map (fun b => concat (map (fun t => nth b t []) ts))
                     (seq 0 (length t0)))
      else None
  end.

(** [enumerate(l)] *)
Definition enumerate {A : Type} (l : list A) : list (nat * A) :=
  combine (seq 0 (length l)) l.

End Torch.

Notation "x <- e ;; k" :=
  (Torch.bind e (fun x => k))
  (at level 61, e at next level, right associativity) : prog_scope.
Notation "' p <- e ;; k" :=
  (Torch.bind e (fun x => match x with p => k end))
  (at level 61, p pattern, e at next level, right associativity) : prog_scope.

(** ** The float32 numbers of the tensors *)

Module Float32.
Local Open Scope Z_scope.

(** A number of a binary format of IEEE 754: the rational it denotes,
    an infinity, or NaN.  The two zeros are one value, as they are for
    the comparisons of torch; the sign of a zero shows only in the sign
    of the infinity a division by it returns, which is taken here as
    the sign of the dividend. *)
Inductive float : Type :=
| Fin (q : Qc)
| Inf (negative : bool)
| NaN.

(** The greatest [e] with [2 ^ e <= q], for a positive [q]. *)
Definition ilog2 (q : Q) : Z :=
  let e := Z.log2 (Qnum q) - Z.log2 (Zpos (Qden q)) in
  if Qle_bool (Qpower 2 e) q then e else e - 1.

(** The integer nearest to [m], the even one of two that are equally
    near. *)
Definition nearest_even (m : Q) : Z :=
  let f := Qfloor m in
  match Qcompare (m - inject_Z f) (1 # 2) with
  | Lt => f
  | Gt => f + 1
  | Eq => if Z.even f then f else f + 1
  end.

(** Rounding to nearest, ties to even, in the format of [prec] bits of
    precision whose numbers are below [2 ^ emax]: a number of magnitude
    [2 ^ e] and more has the spacing [2 ^ (e - prec + 1)], the
    subnormal numbers have the spacing of the least normal ones, and a
    result of [2 ^ emax] or more is an infinity. *)
Definition round (prec emax : Z) (q : Qc) : float :=
  if Qeq_bool q 0 then Fin q
  else
    let a := Qabs q in
    let ex := Z.max (ilog2 a) (2 - emax) - (prec - 1) in
    let r := (inject_Z (nearest_even (a / Qpower 2 ex)) * Qpower 2 ex)%Q in
    let negative := match Qcompare q 0 with Lt => true | _ => false end in
    if Qle_bool (Qpower 2 emax) r then Inf negative
    else Fin (Q2Qc (if negative then - r else r)).

(** binary32, the [float] of torch, and binary64, the [float] of
    Python. *)
Definition round32 : Qc -> float := round 24 128.
Definition round64 : Qc -> float := round 53 1024.

(** The conversion of a [float] of Python to the type of a tensor. *)
Definition cast32 (x : float) : float :=
  match x with Fin q => round32 q | _ => x end.

Definition negative (q : Qc) : bool :=
  match (q ?= 0)%Qc with Lt => true | _ => false end.

Definition is_zero (q : Qc) : bool := Qeq_bool q 0.

(** The operations of IEEE 754 on binary32: the exact result,
    rounded. *)
Definition neg (x : float) : float :=
  match x with
  | Fin q => Fin (- q)%Qc
  | Inf s => Inf (negb s)
  | NaN => NaN
  end.

Definition add (x y : float) : float :=
  match x, y with
  | Fin a, Fin b => round32 (a + b)%Qc
  | NaN, _ | _, NaN => NaN
  | Inf s, Inf s' => if Bool.eqb s s' then Inf s else NaN
  | Inf s, Fin _ | Fin _, Inf s => Inf s
  end.

Definition sub (x y : float) : float := add x (neg y).

Definition mul (x y : float) : float :=
  match x, y with
  | Fin a, Fin b => round32 (a * b)%Qc
  | NaN, _ | _, NaN => NaN
  | Inf s, Inf s' => Inf (xorb s s')
  | Inf s, Fin b | Fin b, Inf s =>
      if is_zero b then NaN else Inf (xorb s (negative b))
  end.

Definition div (x y : float) : float :=
  match x, y with
  | Fin a, Fin b =>
      if is_zero b
      then if is_zero a then NaN else Inf (negative a)
      else round32 (a / b)%Qc
  | NaN, _ | _, NaN => NaN
  | Inf _, Inf _ => NaN
  | Inf s, Fin b => Inf (xorb s (negative b))
  | Fin _, Inf _ => Fin 0%Qc
  end.

Definition pow2 (x : float) : float := mul x x.

(** [x <= y] and [x < y]: false when an operand is NaN. *)
Definition leb (x y : float) : bool :=
  match x, y with
  | Fin a, Fin b => match (a ?= b)%Qc with Gt => false | _ => true end
  | NaN, _ | _, NaN => false
  | Inf s, Inf s' => s || negb s'
  | Inf s, Fin _ => s
  | Fin _, Inf s => negb s
  end.

Definition ltb (x y : float) : bool :=
  match x, y with
  | NaN, _ | _, NaN => false
  | _, _ => negb (leb y x)
  end.

Definition is_nan (x : float) : bool :=
  match x with NaN => true | _ => false end.

Definition finite (x : float) : bool :=
  match x with Fin _ => true | _ => false end.

(** [m.type_as(x)] for a boolean, [t.float()] for an integer, and
    [F.relu]. *)
Definition of_bool (b : bool) : float := Fin (if b then 1 else 0)%Qc.
Definition of_Z (z : Z) : float := round32 (Q2Qc (inject_Z z)).
Definition of_nat (n : nat) : float := of_Z (Z.of_nat n).
Definition relu (x : float) : float :=
  if leb x (Fin 0%Qc) then Fin 0%Qc else x.

(** [t.long()]: the integer part; the conversion of a value that is no
    number of 64 bits is not defined by torch, and is what the
    conversion of the processor returns, the least number. *)
Definition to_long (x : float) : Z :=
  match x with
  | Fin q =>
      let z := Z.quot (Qnum q) (Zpos (Qden q)) in
      if (- 2 ^ 63 <=? z) && (z <? 2 ^ 63) then z else - 2 ^ 63
  | _ => - 2 ^ 63
  end.

(** What IEEE 754 leaves to a kernel of torch: the order in which a
    reduction adds its terms, and whether a product that is added is
    rounded first.  [ksum] is the sum of a slice, [kacc i ps] is [i]
    plus the sum of the products of the pairs [ps], as a matrix
    product and a convolution accumulate it, [kaxpy a c b] is
    [a + c * b], and [kmean] and [kvar] are the mean and the unbiased
    variance of a slice. *)
Record Kernels := {
  ksum : list float -> float;
  kacc : float -> list (float * float) -> float;
  kaxpy : float -> float -> float -> float;
  kmean : list float -> float;
  kvar : list float -> float
}.

(** The kernels that add one term after the other, from the left, and
    round every product. *)
Definition sum_seq (l : list float) : float := fold_left add l (Fin 0%Qc).
Definition mean_seq (l : list float) : float :=
  div (sum_seq l) (of_nat (length l)).
Definition sequential : Kernels :=
  {| ksum := sum_seq;
     kacc := fun i ps => fold_left (fun s p => add s (mul (fst p) (snd p)))
                                   ps i;
     kaxpy := fun a c b => add a (mul c b);
     kmean := mean_seq;
     kvar := fun l =>
       div (sum_seq (map (fun x => pow2 (sub x (mean_seq l))) l))
           (of_Z (Z.of_nat (length l) - 1)) |}.

End Float32.

(** ** fairseq/models/conv_encoder.py *)

Module conv_encoder.
Import Torch.
Local Open Scope opt_scope.

Definition compute_conv_mask (lengths : list Z) (stride : Z)
  : option (list Z * list (list bool)) :=
  q <- idiv_scalar (isub_scalar lengths 1) stride ;;
  let valid_lengths := iadd_scalar q 1 in
  max_length <- imax valid_lengths ;;
  r <- arange max_length ;;
  let mask := expand_rows (length lengths) r in
  let mask := lt_unsqueeze1 mask valid_lengths in
  Some (valid_lengths, mask).

Record ConvEncoder := {
  strides : list Z;
  conv_blocks : list Conv1d;
  quant_conv : Conv1d
}.

(** [__init__]: one [Conv1d] with [padding = k // 2] and [stride = s] for
    each pair of [zip(kernels, strides)], and the 1 x 1 [quant_conv].
    The initial weights, which torch draws, are given as [params] (for
    the blocks, of shape [input_channel x input_channel x k]) and
    [qparams] (of shape [latent_dim x input_channel x 1]). *)
Definition ConvEncoder_init (kernels strides : list Z)
    (params : list (tensor3 * tensor1)) (qparams : tensor3 * tensor1)
  : ConvEncoder :=
  {| strides := strides;
     conv_blocks :=
       map (fun p =>
              {| weight := fst (snd p); bias := snd (snd p);
                 kernel_size := fst (fst p);
                 padding := (fst (fst p) / 2)%Z;
                 stride := snd (fst p) |})
           (combine (combine kernels strides) params);
     quant_conv :=
       {| weight := fst qparams; bias := snd qparams;
          kernel_size := 1; padding := 0; stride := 1 |} |}.

(** The variables of the loop of [forward]: [input], [length_] and
    [new_mask] ([None] before the first layer). *)
Definition loop_state : Type :=
  (tensor3 * list Z * option (list (list bool)))%type.

(** One iteration of the loop, for the pair [(conv_layer, s)]. *)
Definition forward_step (st : loop_state) (ls : Conv1d * Z)
  : option loop_state :=
  let '(input, length_, _) := st in
  y <- conv1d (fst ls) input ;;
  let input := map (map (map relu)) y in
  ' (length_, new_mask) <- compute_conv_mask length_ (snd ls) ;;
  input <- mul3 input (unsqueeze1 (map (map of_bool) new_mask)) ;;
  Some (input, length_, Some new_mask).

Fixpoint forward_loop (layers : list (Conv1d * Z)) (st : loop_state)
  : option loop_state :=
  match layers with
  | [] => Some st
  | ls :: r => st' <- forward_step st ls ;; forward_loop r st'
  end.

Definition ConvEncoder_forward (self : ConvEncoder) (input : tensor3)
    (length_ : list Z) : option (tensor3 * option (list (list bool))) :=
  ' (input, _, new_mask) <-
    forward_loop (combine (conv_blocks self) (strides self))
                 (input, length_, None) ;;
  output <- conv1d (quant_conv self) input ;;
  Some (permute201 output, new_mask).

Local Open Scope opt_scope.

(** *** ConvBlock and MultiKernelConvBlock

    An [nn.BatchNorm1d] is taken as the function it applies in the
    mode the block is in; the running statistics it keeps are not
    modelled. *)
Definition BatchNorm1d : Type := tensor3 -> option tensor3.

Record ConvBlock := {
  cb_stride : Z;
  conv1 : Conv1d;
  bn1 : BatchNorm1d;
  conv2 : Conv1d;
  bn2 : BatchNorm1d;
  downsample : Conv1d * BatchNorm1d
}.

(** [ConvBlock.__init__]; [p1], [p2] and [pd] are the initial weights
    and biases of [conv1], of [conv2] (both of shape
    [output_channel x input_channel x kernel]) and of the convolution
    of [downsample] (of shape [output_channel x input_channel x 1]),
    and [b1], [b2], [bd] the three batch normalizations. *)
Definition ConvBlock_init (kernel stride : Z)
    (p1 p2 pd : tensor3 * tensor1) (b1 b2 bd : BatchNorm1d) : ConvBlock :=
  {| cb_stride := stride;
     conv1 := {| weight := fst p1; bias := snd p1; kernel_size := kernel;
                 padding := (kernel / 2)%Z; stride := stride |};
     bn1 := b1;
     conv2 := {| weight := fst p2; bias := snd p2; kernel_size := kernel;
                 padding := (kernel / 2)%Z; stride := 1 |};
     bn2 := b2;
     downsample :=
       ({| weight := fst pd; bias := snd pd; kernel_size := 1;
           padding := 0; stride := stride |}, bd) |}.

Definition ConvBlock_forward (self : ConvBlock) (x : tensor3)
    (input_length : list Z)
  : option (tensor3 * list Z * list (list bool)) :=
  ' (new_length, new_mask) <- compute_conv_mask input_length (cb_stride self) ;;
  r <- conv1d (fst (downsample self)) x ;;
  residual <- snd (downsample self) r ;;
  let mask := map (map of_bool) new_mask in
  out <- conv1d (conv1 self) x ;;
  out <- bn1 self out ;;
  let out := map (map (map relu)) out in
  out <- mul3 out (unsqueeze1 mask) ;;
  out <- conv1d (conv2 self) out ;;
  out <- bn2 self out ;;
  out <- add3 out residual ;;
  let out := map (map (map relu)) out in
  out <- mul3 out (unsqueeze1 mask) ;;
  Some (out, new_length, new_mask).

Record MultiKernelConvBlock := {
  mk_stride : Z;
  mk_kernels : list Z;
  conv_block_1 : list Conv1d;
  mk_bn1 : BatchNorm1d;
  conv_block_2 : list Conv1d;
  mk_bn2 : BatchNorm1d;
  mk_downsample : Conv1d * BatchNorm1d
}.

(** The [Conv1d] of a branch: [padding = k // 2] for an odd kernel
    size, 0 for an even one. *)
Definition branch_conv (stride : Z) (k : Z) (p : tensor3 * tensor1)
  : Conv1d :=
  {| weight := fst p; bias := snd p; kernel_size := k;
     padding := if negb (k mod 2 =? 0)%Z then (k / 2)%Z else 0%Z;
     stride := stride |}.

(** [MultiKernelConvBlock.__init__]; [ps1] and [ps2] are the initial
    weights and biases of the branches of the two stages (of shapes
    [single_output_channel x input_channel x k] and
    [single_output_channel x output_channel x k]). *)
Definition MultiKernelConvBlock_init (kernels : list Z) (stride : Z)
    (ps1 ps2 : list (tensor3 * tensor1)) (pd : tensor3 * tensor1)
    (b1 b2 bd : BatchNorm1d) : MultiKernelConvBlock :=
  {| mk_stride := stride;
     mk_kernels := kernels;
     conv_block_1 :=
       map (fun kp => branch_conv stride (fst kp) (snd kp))
           (combine kernels ps1);
     mk_bn1 := b1;
     conv_block_2 :=
       map (fun kp => branch_conv 1 (fst kp) (snd kp))
           (combine kernels ps2);
     mk_bn2 := b2;
     mk_downsample :=
       ({| weight := fst pd; bias := snd pd; kernel_size := 1;
           padding := 0; stride := stride |}, bd) |}.

(** [convs[ii](x if k % 2 != 0 else F.pad(x, (k//2, k//2-1), 'constant', 0))] *)
Definition branch (convs : list Conv1d) (x : tensor3) (ik : nat * Z)
  : option tensor3 :=
  conv <- nth_error convs (fst ik) ;;
  inpt <- (if negb (snd ik mod 2 =? 0)%Z then Some x
           else pad_last (snd ik / 2) (snd ik / 2 - 1) x) ;;
  conv1d conv inpt.

Definition MultiKernelConvBlock_forward (self : MultiKernelConvBlock)
    (x : tensor3) (input_length : list Z)
  : option (tensor3 * list Z * list (list bool)) :=
  ' (new_length, new_mask) <- compute_conv_mask input_length (mk_stride self) ;;
  r <- conv1d (fst (mk_downsample self)) x ;;
  residual <- snd (mk_downsample self) r ;;
  let mask := map (map of_bool) new_mask in
  outs <- traverse (branch (conv_block_1 self) x)
            (enumerate (mk_kernels self)) ;;
  out <- cat1 outs ;;
  out <- mk_bn1 self out ;;
  let out := map (map (map relu)) out in
  out <- mul3 out (unsqueeze1 mask) ;;
  outs <- traverse (branch (conv_block_2 self) out)
            (enumerate (mk_kernels self)) ;;
  out <- cat1 outs ;;
  out <- mk_bn2 self out ;;
  out <- add3 out residual ;;
  let out := map (map (map relu)) out in
  out <- mul3 out (unsqueeze1 mask) ;;
  Some (out, new_length, new_mask).

(** *** FullConvEncoder

    [embed_tokens] and [embed_positions] are the embeddings of fairseq,
    [dropout] is [F.dropout] with the probability and the mode of the
    module, which draws its mask: the three are taken as functions.
    [embed_positions] is [None] when [PositionalEmbedding] builds
    none. *)
Record FullConvEncoder := {
  embed_tokens : list (list Z) -> option tensor3;
  embed_scale : Qc;
  embed_positions : option (list (list Z) -> option tensor3);
  fc_dropout : tensor3 -> option tensor3;
  fc_conv_blocks : list MultiKernelConvBlock;
  fc_quant_conv : Conv1d;
  fc_pad_index : Z;
  fc_bos_index : Z
}.

(** [forward_embedding]: without [embed_positions] the variable [x] is
    not bound when [F.dropout] reads it, which raises. *)
Definition forward_embedding (self : FullConvEncoder)
    (src_tokens : list (list Z)) : option (tensor3 * tensor3) :=
  e <- embed_tokens self src_tokens ;;
  let embed := map (map (map (fun a => (embed_scale self * a)%Qc))) e in
  x <- match embed_positions self with
       | Some pos => p <- pos src_tokens ;; x <- add3 embed p ;; Some (Some x)
       | None => Some None
       end ;;
  x <- x ;;
  x <- fc_dropout self x ;;
  Some (x, embed).

(** [x.transpose(1, 2)] of a tensor of shape [B x T x C]. *)
Definition transpose12 (x : tensor3) : tensor3 :=
  map (fun xb => transpose 0%Qc (size1 xb) xb) x.

(** The loop of [forward] over the blocks; [mask] is not bound before
    the first block. *)
Fixpoint blocks_loop (blocks : list MultiKernelConvBlock)
    (st : tensor3 * list Z * option (list (list bool)))
  : option (tensor3 * list Z * option (list (list bool))) :=
  match blocks with
  | [] => Some st
  | block :: r =>
      ' (x, length_, mask) <-
        MultiKernelConvBlock_forward block (fst (fst st)) (snd (fst st)) ;;
      blocks_loop r (x, length_, Some mask)
  end.

Definition FullConvEncoder_forward (self : FullConvEncoder)
    (src_tokens : list (list Z)) (length_ : list Z)
  : option (tensor3 * list (list bool)) :=
  ' (x, encoder_embedding) <- forward_embedding self src_tokens ;;
  let encoding_mask :=
    map (map (fun t => of_bool (negb ((t =? fc_pad_index self)%Z
                                      || (t =? fc_bos_index self)%Z))))
        src_tokens in
  x <- mul3 x (unsqueeze_last encoding_mask) ;;
  let x := transpose12 x in
  ' (x, length_, mask) <-
    blocks_loop (fc_conv_blocks self) (x, length_, None) ;;
  x <- conv1d (fc_quant_conv self) x ;;
  mask <- mask ;;
  Some (permute201 x, mask).

End conv_encoder.

(** ** fairseq/models/vqvae_lm.py *)

Module vqvae_lm.
Import Torch.
Local Open Scope opt_scope.

Definition compute_conv_mask (lengths : list Z) (stride : Z)
  : option (list Z * list (list bool)) :=
  q <- idiv_scalar (isub_scalar lengths 1) stride ;;
  let valid_lengths := iadd_scalar q 1 in
  max_length <- imax valid_lengths ;;
  r <- arange max_length ;;
  let mask := expand_rows (length lengths) r in
  let mask := lt_unsqueeze1 mask valid_lengths in
  Some (valid_lengths, mask).

Record ConvEncoder := {
  strides : list Z;
  conv_blocks : list Conv1d;
  quant_conv : Conv1d
}.

(** [__init__]: one [Conv1d] with [padding = k // 2] and [stride = s] for
    each pair of [zip(kernels, strides)], and the 1 x 1 [quant_conv].
    The initial weights, which torch draws, are given as [params] (for
    the blocks, of shape [input_channel x input_channel x k]) and
    [qparams] (of shape [latent_dim x input_channel x 1]). *)
Definition ConvEncoder_init (kernels strides : list Z)
    (params : list (tensor3 * tensor1)) (qparams : tensor3 * tensor1)
  : ConvEncoder :=
  {| strides := strides;
     conv_blocks :=
       map (fun p =>
              {| weight := fst (snd p); bias := snd (snd p);
                 kernel_size := fst (fst p);
                 padding := (fst (fst p) / 2)%Z;
                 stride := snd (fst p) |})
           (combine (combine kernels strides) params);
     quant_conv :=
       {| weight := fst qparams; bias := snd qparams;
          kernel_size := 1; padding := 0; stride := 1 |} |}.

(** The variables of the loop of [forward]: [input], [lengths] and
    [new_mask] ([None] before the first layer). *)
Definition loop_state : Type :=
  (tensor3 * list Z * option (list (list bool)))%type.

(** One iteration of the loop, for the pair [(conv_layer, s)]. *)
Definition forward_step (st : loop_state) (ls : Conv1d * Z)
  : option loop_state :=
  let '(input, lengths, _) := st in
  y <- conv1d (fst ls) input ;;
  let input := map (map (map relu)) y in
  ' (lengths, new_mask) <- compute_conv_mask lengths (snd ls) ;;
  input <- mul3 input (unsqueeze1 (map (map of_bool) new_mask)) ;;
  Some (input, lengths, Some new_mask).

Fixpoint forward_loop (layers : list (Conv1d * Z)) (st : loop_state)
  : option loop_state :=
  match layers with
  | [] => Some st
  | ls :: r => st' <- forward_step st ls ;; forward_loop r st'
  end.

Definition ConvEncoder_forward (self : ConvEncoder) (input : tensor3)
    (lengths : list Z) : option (tensor3 * option (list (list bool))) :=
  ' (input, _, new_mask) <-
    forward_loop (combine (conv_blocks self) (strides self))
                 (input, lengths, None) ;;
  output <- conv1d (quant_conv self) input ;;
  Some (permute201 output, new_mask).

(** *** Quantize *)

Local Open Scope Qc_scope.

(** The attributes [__init__] sets, the three registered buffers, and
    the [training] flag of [nn.Module]. *)
Record Quantize := {
  dim : nat;
  n_embed : nat;
  decay : Qc;
  eps : Qc;
  training : bool;
  embed : tensor2;
  cluster_size : tensor1;
  embed_avg : tensor2
}.

(** [__init__]; [embed0] is the [dim x n_embed] tensor [torch.randn]
    draws. *)
Definition Quantize_init (dim n_embed : nat) (decay eps : Qc)
    (embed0 : tensor2) : Quantize :=
  {| dim := dim; n_embed := n_embed; decay := decay; eps := eps;
     training := true;
     embed := embed0;
     cluster_size := repeat 0 n_embed;
     embed_avg := embed0 |}.

Definition embed_code (self : Quantize) (embed_id : list (list Z))
  : option tensor3 :=
  embedding (transpose 0 (size1 (embed self)) (embed self)) embed_id.

Definition stats_t : Type := list (string * Qc).

Definition of_nat (n : nat) : Qc := Q2Qc (inject_Z (Z.of_nat n)).

(** [forward], lines 86 to 113: the assignment of every input vector to
    a code.  Returns [flatten], [embed_onehot], [embed_ind], [quantize]
    and [stats]. *)
Definition assign (self : Quantize) (input : tensor3)
    (input_mask : list (list bool))
  : option (tensor2 * tensor2 * list (list Z) * tensor3 * stats_t) :=
  (flatten <- view_rows (dim self) (concat (concat input)) ;;
   p <- matmul (size1 (embed self))
          (map (map (fun a => (1 + 1) * a)) flatten) (embed self) ;;
   d <- sub2 (sum1_keepdim (map (map pow2) flatten)) p ;;
   dist <- add2 d [sum0 (size1 (embed self))
                     (map (map pow2) (embed self))] ;;
   embed_ind <- traverse argmax (map (map Qcopp) dist) ;;
   embed_onehot <- traverse (one_hot (n_embed self)) embed_ind ;;
   embed_ind <- view2 (length input) (size1 input) embed_ind ;;
   quantize <- embed_code self embed_ind ;;
   sel <- index_rows embed_onehot (concat input_mask) ;;
   let effective_units :=
     1 / qsum (map (fun c => pow2 (c / of_nat (length sel)))
                   (sum0 (n_embed self) sel)) in
   let stats := [("effective latents per batch"%string, effective_units)] in
   Some (flatten, embed_onehot, embed_ind, quantize, stats))%opt.

(** Lines 115 to 119: [cluster_sum] and [embed_sum] of this batch. *)
Definition batch_statistics (self : Quantize)
    (flatten embed_onehot : tensor2) (input_mask : list (list bool))
  : option (tensor1 * tensor2) :=
  (uf <- masked_select flatten (map (fun b => [b]) (concat input_mask)) ;;
   unmasked_flatten <- view_rows (dim self) uf ;;
   uo <- masked_select embed_onehot
           (map (fun b => [b]) (concat input_mask)) ;;
   unmasked_embed_onehot <- view_rows (n_embed self) uo ;;
   let cluster_sum := sum0 (n_embed self) unmasked_embed_onehot in
   embed_sum <- matmul (n_embed self)
                  (transpose 0 (dim self) unmasked_flatten)
                  unmasked_embed_onehot ;;
   Some (cluster_sum, embed_sum))%opt.

(** Lines 125 to 139: the moving averages, the new codebook, and the
    two statistics of the cluster sizes. *)
Definition ema_update (self : Quantize) (cluster_sum : tensor1)
    (embed_sum : tensor2) : option (Quantize * stats_t) :=
  (cluster_size' <-
     inplace (lift2 (fun a b => a + (1 - decay self) * b))
       (map (fun a => a * decay self) (cluster_size self))
       cluster_sum ;;
   embed_avg' <-
     inplace (inplace (lift2 (fun a b => a + (1 - decay self) * b)))
       (map (map (fun a => a * decay self)) (embed_avg self))
       embed_sum ;;
   let n := qsum cluster_size' in
   let cluster_size_ :=
     map (fun c =>
            (c + eps self) / (n + of_nat (n_embed self) * eps self) * n)
         cluster_size' in
   embed_normalized <- div2 embed_avg' [cluster_size_] ;;
   embed' <- inplace (inplace (lift2 (fun (_ b : Qc) => b)))
               (embed self) embed_normalized ;;
   Some ({| dim := dim self; n_embed := n_embed self;
            decay := decay self; eps := eps self;
            training := training self;
            embed := embed';
            cluster_size := cluster_size';
            embed_avg := embed_avg' |},
         [("moving_avg_cluster_mean"%string, mean1 cluster_size');
          ("moving_avg_cluster_var"%string, var1 cluster_size')]))%opt.

(** The branch [if self.training:], lines 114 to 139, with the two
    calls of [all_reduce] when there is more than one device. *)
Definition update_buffers (self : Quantize) (device_count : nat)
    (flatten embed_onehot : tensor2) (input_mask : list (list bool))
  : Prog (Quantize * stats_t) :=
  (' (cluster_sum, embed_sum) <-
     lift (batch_statistics self flatten embed_onehot input_mask) ;;
   ' (cluster_sum, embed_sum) <-
     (if (1 <? device_count)%nat
      then cs <- all_reduce1 cluster_sum ;;
           es <- all_reduce2 embed_sum ;;
           Ret (cs, es)
      else Ret (cluster_sum, embed_sum)) ;;
   lift (ema_update self cluster_sum embed_sum))%prog.

(** Lines 141 to 145: the masked [quantize] with the straight-through
    estimator ([detach] does not change a value), and [diff]. *)
Definition straight_through (input quantize : tensor3)
    (input_mask : list (list bool)) : option (tensor3 * Qc) :=
  (let input_mask := map (map of_bool) input_mask in
   quantize <- mul3 quantize (unsqueeze_last input_mask) ;;
   input <- mul3 input (unsqueeze_last input_mask) ;;
   e <- sub3 quantize input ;;
   let diff := mean_all (map pow2 (concat (concat e))) in
   e <- sub3 quantize input ;;
   quantize <- add3 input e ;;
   Some (quantize, diff))%opt.

(** [forward]: the module after the call, and the four values
    returned. *)
Definition Quantize_forward (self : Quantize) (device_count : nat)
    (input : tensor3) (input_mask : list (list bool))
  : Prog (Quantize * (tensor3 * Qc * list (list Z) * stats_t)) :=
  (' (flatten, embed_onehot, embed_ind, quantize, stats) <-
     lift (assign self input input_mask) ;;
   ' (self, stats) <-
     (if training self
      then ' (self', more) <-
             update_buffers self device_count flatten embed_onehot
               input_mask ;;
           Ret (self', stats ++ more)
      else Ret (self, stats)) ;;
   ' (quantize, diff) <-
     lift (straight_through input quantize input_mask) ;;
   Ret (self, (quantize, diff, embed_ind, stats)))%prog.

(** *** VQVAE *)

(** What [extract_codes] reads of the output of the text encoder. *)
Record EncoderOut := {
  encoder_out : tensor3;
  encoder_padding_mask : list (list bool)
}.

(** The attributes [extract_codes] uses.  [text_encoder] is the
    [TransformerEncoder] of [fairseq.models.typed_transformer], which is
    not among these files: it is taken as a function of the tokens. *)
Record VQVAE := {
  text_encoder : list (list Z) -> option EncoderOut;
  text_conv_encoder : ConvEncoder;
  bottom_quantizer : option Quantize
}.

Definition extract_codes (self : VQVAE) (device_count : nat)
    (full_tokens : list (list Z)) (full_lengths : list Z)
  : Prog (VQVAE * list (list Z)) :=
  (text_encoder_out <- lift (text_encoder self full_tokens) ;;
   let encoding_mask :=
     map (map (fun b => of_bool (negb b)))
         (encoder_padding_mask text_encoder_out) in
   conv_inpt <-
     lift (mul3 (encoder_out text_encoder_out)
             (unsqueeze_last
                (transpose 0 (size1 encoding_mask) encoding_mask))) ;;
   ' (text_conv_out, mask) <-
     lift (ConvEncoder_forward (text_conv_encoder self)
             (permute120 conv_inpt) full_lengths) ;;
   mask <- lift mask ;;
   quantizer <- lift (bottom_quantizer self) ;;
   ' (quantizer', (quantize, diff, embed_ind, quantize_stats)) <-
     Quantize_forward quantizer device_count text_conv_out
       (transpose false (size1 mask) mask) ;;
   r <- lift (masked_fill (transpose 0%Z (size1 embed_ind) embed_ind)
                (map (map negb) mask) (-1)%Z) ;;
   Ret ({| text_encoder := text_encoder self;
           text_conv_encoder := text_conv_encoder self;
           bottom_quantizer := Some quantizer' |}, r))%prog.

Local Open Scope opt_scope.
Local Open Scope Qc_scope.

(** *** [VQVAE.forward] and [VQVAE.mask_words] *)

(** The model with the attributes [forward] and [mask_words] read
    besides those of [extract_codes].  The entry ['encoder_embedding']
    of the output of the text encoder, the bottom latent encoder (of
    which [forward] reads ['encoder_out']) and the decoder (of which
    [forward] reads the first component) are the transformers of
    [fairseq.models.typed_transformer]: they are taken as functions. *)
Record Model := {
  vqvae : VQVAE;
  encoder_embedding : list (list Z) -> tensor3;
  bottom_latent_encoder :
    option (tensor3 -> list (list bool) -> option tensor3);
  decoder : list (list Z) -> EncoderOut -> tensor3 -> option tensor3;
  pad_index : Z;
  word_drop_rate : Qc;
  pretrain_steps : Z;
  model_training : bool
}.

(** [(lengths.float() * self.word_drop_rate).long()] for one length:
    the length as a number of float32, its float32 product with the
    rate, which is a float of Python (a number of binary64) converted
    to float32, and the integer part of the product. *)
Definition mask_length (rate : Qc) (l : Z) : Z :=
  Float32.to_long
    (Float32.mul (Float32.of_Z l)
                 (Float32.cast32 (Float32.round64 rate))).

(** [mask_words].  The scores are drawn by [uniform_()]; the call of
    [scores.masked_fill(src_masks, 0)] builds a tensor that is dropped,
    so the scores of the padding are not changed; [sorted_idx] is the
    index tensor [torch.sort] returns for the scores.  The result is
    [src_tokens], which is changed in place. *)
Definition mask_words (self : Model) (sorted_idx : list (list Z))
    (src_tokens : list (list Z)) (lengths : list Z)
  : option (list (list Z)) :=
  (let batch := length src_tokens in
   let full_length := size1 src_tokens in
   let mask_lengths := map (mask_length (word_drop_rate self)) lengths in
   r <- arange (Z.of_nat full_length) ;;
   mask <- ige2 (expand_rows batch r) (map (fun x => [x]) mask_lengths) ;;
   let mask := map (map long_of_bool) mask in
   mask <- scatter1 mask sorted_idx mask ;;
   setitem_mask src_tokens
     (map (map (fun x => negb (1 - x =? 0)%Z)) mask)
     (pad_index self))%opt.

(** [diff] is the scalar the quantizer returns, or the tensor
    [new_zeros(1)]. *)
Inductive Diff : Type :=
| Scalar (x : Qc)
| Vector (t : tensor1).

(** [forward]: the model and [decoder_tokens] after the call, and the
    three values returned. *)
Definition VQVAE_forward (self : Model) (device_count : nat)
    (sorted_idx : list (list Z)) (decoder_tokens : list (list Z))
    (lengths : list Z) (full_tokens : list (list Z)) (update_steps : Z)
  : Prog (Model * list (list Z) * (tensor3 * Diff * stats_t)) :=
  (text_encoder_out <- lift (text_encoder (vqvae self) full_tokens) ;;
   let encoding_mask :=
     map (map (fun b => of_bool (negb b)))
         (encoder_padding_mask text_encoder_out) in
   conv_inpt <-
     lift (mul3 (encoder_out text_encoder_out)
             (unsqueeze_last
                (transpose 0 (size1 encoding_mask) encoding_mask))) ;;
   ' (text_conv_out, mask) <-
     lift (ConvEncoder_forward (text_conv_encoder (vqvae self))
             (permute120 conv_inpt) lengths) ;;
   ' (quantizer, quantize, diff, quantize_stats) <-
     match bottom_quantizer (vqvae self) with
     | Some q =>
         if (pretrain_steps self <? update_steps)%Z
         then m <- lift mask ;;
              ' (q', (quantize, diff, embed_ind, quantize_stats)) <-
                Quantize_forward q device_count text_conv_out
                  (transpose false (size1 m) m) ;;
              Ret (Some q', quantize, Scalar diff, quantize_stats)
         else Ret (Some q, text_conv_out, Vector [0], [])
     | None => Ret (None, text_conv_out, Vector [0], [])
     end ;;
   mask <- lift mask ;;
   let padding := map (map negb) mask in
   quantize <-
     match bottom_latent_encoder self with
     | Some f => lift (f quantize padding)
     | None => Ret quantize
     end ;;
   let quantize_out :=
     {| encoder_out := quantize; encoder_padding_mask := padding |} in
   decoder_tokens <-
     (if model_training self && Qcltb 0 (word_drop_rate self)
      then lift (mask_words self sorted_idx decoder_tokens lengths)
      else Ret decoder_tokens) ;;
   logits <-
     lift (decoder self decoder_tokens quantize_out
             (encoder_embedding self full_tokens)) ;;
   Ret ({| vqvae :=
             {| text_encoder := text_encoder (vqvae self);
                text_conv_encoder := text_conv_encoder (vqvae self);
                bottom_quantizer := quantizer |};
           encoder_embedding := encoder_embedding self;
           bottom_latent_encoder := bottom_latent_encoder self;
           decoder := decoder self;
           pad_index := pad_index self;
           word_drop_rate := word_drop_rate self;
           pretrain_steps := pretrain_steps self;
           model_training := model_training self |},
        decoder_tokens, (logits, diff, quantize_stats)))%prog.

Local Open Scope string_scope.

(** *** [base_architecture] *)

(** The values the attributes of [args] hold here, and [args] itself,
    an [argparse.Namespace]: its attributes in the order they were
    set. *)
Inductive value : Type :=
| VNone
| VBool (b : bool)
| VInt (z : Z)
| VFloat (q : Qc)
| VStr (s : string).

Definition Namespace : Type := list (string * value).

(** [getattr(args, name)], [None] for a missing attribute, and
    [setattr(args, name, v)]. *)
Fixpoint getattr (args : Namespace) (name : string) : option value :=
  match args with
  | [] => None
  | (k, v) :: r => if String.eqb k name then Some v else getattr r name
  end.

Fixpoint setattr (args : Namespace) (name : string) (v : value)
  : Namespace :=
  match args with
  | [] => [(name, v)]
  | (k, x) :: r =>
      if String.eqb k name then (k, v) :: r else (k, x) :: setattr r name v
  end.

(** [args.name = getattr(args, 'name', default)] *)
Definition assign_default (name : string) (default : value)
    (args : Namespace) : Namespace :=
  setattr args name
    (match getattr args name with Some v => v | None => default end).

(** [args.name = getattr(args, 'name', args.other)]: the default
    [args.other] is evaluated first, and raises when the attribute is
    missing. *)
Definition assign_default_attr (name other : string) (args : Namespace)
  : option Namespace :=
  match getattr args other with
  | Some d => Some (assign_default name d args)
  | None => None
  end.

Definition base_architecture (args : Namespace) : option Namespace :=
  (let args := assign_default "encoder_embed_path" VNone args in
   let args := assign_default "encoder_embed_dim" (VInt 512) args in
   let args := assign_default "encoder_ffn_embed_dim" (VInt 2048) args in
   let args := assign_default "encoder_layers" (VInt 6) args in
   let args := assign_default "encoder_attention_heads" (VInt 8) args in
   let args := assign_default "encoder_normalize_before" (VBool false) args in
   let args := assign_default "encoder_learned_pos" (VBool false) args in
   let args := assign_default "decoder_embed_path" VNone args in
   args <- assign_default_attr "decoder_embed_dim" "encoder_embed_dim" args ;;
   args <- assign_default_attr "decoder_ffn_embed_dim"
             "encoder_ffn_embed_dim" args ;;
   let args := assign_default "decoder_layers" (VInt 6) args in
   let args := assign_default "decoder_attention_heads" (VInt 8) args in
   let args := assign_default "decoder_normalize_before" (VBool false) args in
   let args := assign_default "decoder_learned_pos" (VBool false) args in
   let args := assign_default "attention_dropout" (VFloat 0) args in
   let args := assign_default "activation_dropout" (VFloat 0) args in
   let args := assign_default "activation_fn" (VStr "relu") args in
   let args := assign_default "dropout" (VFloat (Q2Qc (1 # 10))) args in
   let args := assign_default "adaptive_softmax_cutoff" VNone args in
   let args := assign_default "adaptive_softmax_dropout" (VInt 0) args in
   let args :=
     assign_default "share_decoder_input_output_embed" (VBool false) args in
   let args := assign_default "share_all_embeddings" (VBool false) args in
   let args :=
     assign_default "no_token_positional_embeddings" (VBool false) args in
   let args := assign_default "adaptive_input" (VBool false) args in
   let args := assign_default "no_cross_attention" (VBool false) args in
   let args := assign_default "cross_self_attention" (VBool false) args in
   let args := assign_default "layer_wise_attention" (VBool false) args in
   args <- assign_default_attr "decoder_output_dim" "decoder_embed_dim" args ;;
   args <- assign_default_attr "decoder_input_dim" "decoder_embed_dim" args ;;
   let args := assign_default "bottom_conv_kernel_size" (VStr "5,3") args in
   let args := assign_default "bottom_conv_stride" (VStr "2,2") args in
   args <- assign_default_attr "bottom_latent_dim" "encoder_embed_dim" args ;;
   let args := assign_default "bottom_latent_k" (VInt 4096) args in
   let args := assign_default "use_bottom_quantants_encoder" (VInt 0) args in
   let args := assign_default "bottom_encoder_ffn_embed_dim" (VInt 1024) args in
   let args := assign_default "bottom_encoder_layers" (VInt 3) args in
   let args := assign_default "bottom_encoder_attention_heads" (VInt 4) args in
   let args := assign_default "drop_word_prob" (VFloat 0) args in
   let args := assign_default "use_latent" (VInt 1) args in
   let args := assign_default "pretrain_steps" (VInt (-1)) args in
   Some args)%opt.

End vqvae_lm.

(** ** fairseq/data/raw_label_dataset.py *)

Module raw_label_dataset.
Local Open Scope Z_scope.

(** [l[index]] for a list of Python or an array of numpy of one
    dimension and an integer [index]: a negative index counts from the
    end, and an index outside [-len(l) .. len(l) - 1] raises. *)
Definition getitem {A : Type} (l : list A) (index : Z) : option A :=
  let n := Z.of_nat (length l) in
  if (index <? - n) || (n <=? index) then None
  else nth_error l (Z.to_nat (if index <? 0 then index + n else index)).

(** The labels are sequences ([len] is taken of each); [sizes] is the
    array [__init__] computes. *)
Record RawLabelDataset (A : Type) := {
  labels : list (list A);
  sizes : list Z
}.
Arguments labels {A} _.
Arguments sizes {A} _.

Definition RawLabelDataset_init {A : Type} (labels : list (list A))
  : RawLabelDataset A :=
  {| labels := labels;
     sizes := map (fun l => Z.of_nat (length l)) labels |}.

(** [__getitem__], [__len__] and [size] *)
Definition RawLabelDataset_getitem {A : Type} (self : RawLabelDataset A)
    (index : Z) : option (list A) :=
  getitem (labels self) index.

Definition RawLabelDataset_len {A : Type} (self : RawLabelDataset A) : Z :=
  Z.of_nat (length (labels self)).

Definition size {A : Type} (self : RawLabelDataset A) (index : Z)
  : option Z :=
  getitem (sizes self) index.

End raw_label_dataset.

(** ** The torch primitives on float32 tensors *)

Module Torch32.
Import Torch Float32.
Local Open Scope opt_scope.

Abbreviation tensor1 := (list float) (only parsing).
Abbreviation tensor2 := (list (list float)) (only parsing).
Abbreviation tensor3 := (list (list (list float))) (only parsing).

Definition zero : float := Fin (Q2Qc 0).

(** Elementwise operations of two and three dimensions, broadcasting. *)
Definition mul2 : tensor2 -> tensor2 -> option tensor2 :=
  bcast (bcast (lift2 mul)).
Definition add2 : tensor2 -> tensor2 -> option tensor2 :=
  bcast (bcast (lift2 add)).
Definition sub2 : tensor2 -> tensor2 -> option tensor2 :=
  bcast (bcast (lift2 sub)).
Definition div2 : tensor2 -> tensor2 -> option tensor2 :=
  bcast (bcast (lift2 div)).
Definition mul3 : tensor3 -> tensor3 -> option tensor3 :=
  bcast (bcast (bcast (lift2 mul))).
Definition add3 : tensor3 -> tensor3 -> option tensor3 :=
  bcast (bcast (bcast (lift2 add))).
Definition sub3 : tensor3 -> tensor3 -> option tensor3 :=
  bcast (bcast (bcast (lift2 sub))).

(** [x.permute(2, 0, 1)] and [x.permute(1, 2, 0)]. *)
Definition permute201 (x : tensor3) : tensor3 :=
  map (fun t => map (map (fun r => nth t r zero)) x) (seq 0 (size2 x)).
Definition permute120 (x : tensor3) : tensor3 :=
  map (fun b =>
         map (fun c => map (fun xt => nth c (nth b xt []) zero) x)
             (seq 0 (size2 x)))
      (seq 0 (size1 x)).

(** *** nn.Conv1d *)
Record Conv1d := {
  weight : tensor3;
  bias : tensor1;
  kernel_size : Z;
  padding : Z;
  stride : Z
}.

Definition pad1 (p : Z) (r : tensor1) : tensor1 :=
  repeat zero (Z.to_nat p) ++ r ++ repeat zero (Z.to_nat p).

Definition conv1d_out_len (L : Conv1d) (T : nat) : Z :=
  ((Z.of_nat T + 2 * padding L - kernel_size L) / stride L + 1)%Z.

(** The entry [[o][t]] of the output for one example [x]: the bias and
    the products of the weights [w] of the filter [o] with the window
    at [t] of every channel. *)
Definition conv1d_at (K : Kernels) (L : Conv1d) (b : float) (w : tensor2)
    (x : tensor2) (t : nat) : float :=
  kacc K b
    (concat
       (map (fun p =>
               combine (fst p)
                 (firstn (Z.to_nat (kernel_size L))
                    (skipn (t * Z.to_nat (stride L))
                       (pad1 (padding L) (snd p)))))
            (combine w x))).

Definition conv1d_example (K : Kernels) (L : Conv1d) (x : tensor2)
  : tensor2 :=
  map (fun p =>
         map (fun t => conv1d_at K L (snd p) (fst p) x t)
             (seq 0 (Z.to_nat (conv1d_out_len L (size1 x)))))
      (combine (weight L) (bias L)).

Definition conv1d (K : Kernels) (L : Conv1d) (x : tensor3)
  : option tensor3 :=
  if ((stride L <=? 0) || (kernel_size L <=? 0) || (padding L <? 0)
      || (Z.of_nat (size2 x) + 2 * padding L <? kernel_size L))%Z
     || negb (forallb (fun w => Nat.eqb (length w) (size1 x)) (weight L))
     || negb (Nat.eqb (length (weight L)) (length (bias L)))
  then None
  else Some (map (conv1d_example K L) x).

(** *** Reductions, indexing and views *)

Definition sum0 (K : Kernels) (n : nat) (m : tensor2) : tensor1 :=
  map (fun j => ksum K (map (fun r => nth j r zero) m)) (seq 0 n).

Definition sum1_keepdim (K : Kernels) (m : tensor2) : tensor2 :=
  map (fun r => [ksum K r]) m.

(** [m.mean(0)] for [m] of shape [R x n]. *)
Definition mean0 (K : Kernels) (n : nat) (m : tensor2) : tensor1 :=
  map (fun j => kmean K (map (fun r => nth j r zero) m)) (seq 0 n).

Definition matmul (K : Kernels) (n : nat) (a b : tensor2)
  : option tensor2 :=
  if forallb (fun r => Nat.eqb (length r) (length b)) a
  then Some (map (fun r =>
                    map (fun j =>
                           kacc K zero
                             (combine r (map (fun br => nth j br zero) b)))
                        (seq 0 n)) a)
  else None.

Definition view_rows (n : nat) (l : list float) : option tensor2 :=
  if Nat.eqb n 0 then None
  else if Nat.eqb (length l mod n) 0
  then Some (map (fun i => firstn n (skipn (i * n) l))
                 (seq 0 (length l / n)))
  else None.

(** The index [max(1)] returns for a row: that of the first NaN if
    there is one, else that of the first greatest element; [best] at
    index [bi] is the greatest so far, [i] the next index. *)
Fixpoint argmax_from (best : float) (bi i : nat) (l : tensor1) : nat :=
  match l with
  | [] => bi
  | x :: r =>
      if is_nan best then bi
      else if leb x best then argmax_from best bi (S i) r
      else argmax_from x i (S i) r
  end.

Definition argmax (l : tensor1) : option Z :=
  match l with
  | [] => None
  | x :: r => Some (Z.of_nat (argmax_from x 0 1 r))
  end.

Definition one_hot (n : nat) (i : Z) : option tensor1 :=
  if ((0 <=? i) && (i <? Z.of_nat n))%Z
  then Some (map (fun k => of_bool (Nat.eqb k (Z.to_nat i))) (seq 0 n))
  else None.

Definition embedding (w : tensor2) (ids : list (list Z)) : option tensor3 :=
  traverse
    (traverse (fun i =>
       if ((0 <=? i) && (i <? Z.of_nat (length w)))%Z
       then Some (nth (Z.to_nat i) w [])
       else None))
    ids.

Definition index_rows (m : tensor2) (mask : list bool) : option tensor2 :=
  if Nat.eqb (length m) (length mask)
  then Some (map fst (filter snd (combine m mask)))
  else None.

Definition masked_select (x : tensor2) (mask : list (list bool))
  : option (list float) :=
  match bcast (bcast (lift2 (@pair float bool))) x mask with
  | Some r => Some (map fst (filter snd (concat r)))
  | None => None
  end.

(** The process group as one process sees it. *)
Record Comm := {
  reduce1 : tensor1 -> tensor1;
  reduce2 : tensor2 -> tensor2
}.

End Torch32.

(** ** fairseq/models/vqvae_lm.py on float32 tensors *)

Module vqvae_lm32.
Import Torch Float32 Torch32.
Local Open Scope opt_scope.

Record ConvEncoder := {
  strides : list Z;
  conv_blocks : list Conv1d;
  quant_conv : Conv1d
}.

Definition ConvEncoder_init (kernels strides : list Z)
    (params : list (tensor3 * tensor1)) (qparams : tensor3 * tensor1)
  : ConvEncoder :=
  {| strides := strides;
     conv_blocks :=
       map (fun p =>
              {| weight := fst (snd p); bias := snd (snd p);
                 kernel_size := fst (fst p);
                 padding := (fst (fst p) / 2)%Z;
                 stride := snd (fst p) |})
           (combine (combine kernels strides) params);
     quant_conv :=
       {| weight := fst qparams; bias := snd qparams;
          kernel_size := 1; padding := 0; stride := 1 |} |}.

Definition loop_state : Type :=
  (tensor3 * list Z * option (list (list bool)))%type.

Definition forward_step (K : Kernels) (st : loop_state) (ls : Conv1d * Z)
  : option loop_state :=
  let '(input, lengths, _) := st in
  y <- conv1d K (fst ls) input ;;
  let input := map (map (map relu)) y in
  ' (lengths, new_mask) <- vqvae_lm.compute_conv_mask lengths (snd ls) ;;
  input <- mul3 input (unsqueeze1 (map (map of_bool) new_mask)) ;;
  Some (input, lengths, Some new_mask).

Fixpoint forward_loop (K : Kernels) (layers : list (Conv1d * Z))
    (st : loop_state) : option loop_state :=
  match layers with
  | [] => Some st
  | ls :: r => st' <- forward_step K st ls ;; forward_loop K r st'
  end.

Definition ConvEncoder_forward (K : Kernels) (self : ConvEncoder)
    (input : tensor3) (lengths : list Z)
  : option (tensor3 * option (list (list bool))) :=
  ' (input, _, new_mask) <-
    forward_loop K (combine (conv_blocks self) (strides self))
                 (input, lengths, None) ;;
  output <- conv1d K (quant_conv self) input ;;
  Some (permute201 output, new_mask).

(** *** Quantize

    [decay] and [eps] are floats of Python: the rationals two numbers
    of binary64 denote. *)
Record Quantize := {
  dim : nat;
  n_embed : nat;
  decay : Qc;
  eps : Qc;
  training : bool;
  embed : tensor2;
  cluster_size : tensor1;
  embed_avg : tensor2
}.

Definition embed_code (self : Quantize) (embed_id : list (list Z))
  : option tensor3 :=
  embedding (transpose zero (size1 (embed self)) (embed self)) embed_id.

Definition stats_t : Type := list (string * float).

(** [forward], lines 86 to 113. *)
Definition assign (K : Kernels) (self : Quantize) (input : tensor3)
    (input_mask : list (list bool))
  : option (tensor2 * tensor2 * list (list Z) * tensor3 * stats_t) :=
  flatten <- view_rows (dim self) (concat (concat input)) ;;
  p <- matmul K (size1 (embed self))
         (map (map (mul (of_Z 2))) flatten) (embed self) ;;
  d <- sub2 (sum1_keepdim K (map (map pow2) flatten)) p ;;
  dist <- add2 d [sum0 K (size1 (embed self))
                    (map (map pow2) (embed self))] ;;
  embed_ind <- traverse argmax (map (map neg) dist) ;;
  embed_onehot <- traverse (one_hot (n_embed self)) embed_ind ;;
  embed_ind <- view2 (length input) (size1 input) embed_ind ;;
  quantize <- embed_code self embed_ind ;;
  sel <- index_rows embed_onehot (concat input_mask) ;;
  let effective_units :=
    div (of_Z 1)
        (ksum K (map pow2 (mean0 K (n_embed self) sel))) in
  let stats := [("effective latents per batch"%string, effective_units)] in
  Some (flatten, embed_onehot, embed_ind, quantize, stats).

(** Lines 115 to 119. *)
Definition batch_statistics (K : Kernels) (self : Quantize)
    (flatten embed_onehot : tensor2) (input_mask : list (list bool))
  : option (tensor1 * tensor2) :=
  uf <- masked_select flatten (map (fun b => [b]) (concat input_mask)) ;;
  unmasked_flatten <- view_rows (dim self) uf ;;
  uo <- masked_select embed_onehot
          (map (fun b => [b]) (concat input_mask)) ;;
  unmasked_embed_onehot <- view_rows (n_embed self) uo ;;
  let cluster_sum := sum0 K (n_embed self) unmasked_embed_onehot in
  embed_sum <- matmul K (n_embed self)
                 (transpose zero (dim self) unmasked_flatten)
                 unmasked_embed_onehot ;;
  Some (cluster_sum, embed_sum).

(** Lines 125 to 139.  [1 - self.decay] and [self.n_embed * self.eps]
    are computed by Python, in binary64; a float of Python is converted
    to float32 when a tensor is its other operand. *)
Definition ema_update (K : Kernels) (self : Quantize)
    (cluster_sum : tensor1) (embed_sum : tensor2)
  : option (Quantize * stats_t) :=
  let d := round32 (decay self) in
  let c := cast32 (round64 (1 - decay self)%Qc) in
  cluster_size' <-
    inplace (lift2 (fun a b => kaxpy K a c b))
      (map (fun a => mul a d) (cluster_size self)) cluster_sum ;;
  embed_avg' <-
    inplace (inplace (lift2 (fun a b => kaxpy K a c b)))
      (map (map (fun a => mul a d)) (embed_avg self)) embed_sum ;;
  let n := ksum K cluster_size' in
  let keps :=
    cast32 (round64 (Q2Qc (inject_Z (Z.of_nat (n_embed self)))
                     * eps self)%Qc) in
  let cluster_size_ :=
    map (fun x => mul (div (add x (round32 (eps self))) (add n keps)) n)
        cluster_size' in
  embed_normalized <- div2 embed_avg' [cluster_size_] ;;
  embed' <- inplace (inplace (lift2 (fun (_ b : float) => b)))
              (embed self) embed_normalized ;;
  Some ({| dim := dim self; n_embed := n_embed self;
           decay := decay self; eps := eps self;
           training := training self;
           embed := embed';
           cluster_size := cluster_size';
           embed_avg := embed_avg' |},
        [("moving_avg_cluster_mean"%string, kmean K cluster_size');
         ("moving_avg_cluster_var"%string, kvar K cluster_size')]).

(** The branch [if self.training:], lines 114 to 139. *)
Definition update_buffers (K : Kernels) (w : Comm) (self : Quantize)
    (device_count : nat) (flatten embed_onehot : tensor2)
    (input_mask : list (list bool)) : option (Quantize * stats_t) :=
  ' (cluster_sum, embed_sum) <-
    batch_statistics K self flatten embed_onehot input_mask ;;
  let cluster_sum :=
    if (1 <? device_count)%nat then reduce1 w cluster_sum
    else cluster_sum in
  let embed_sum :=
    if (1 <? device_count)%nat then reduce2 w embed_sum else embed_sum in
  ema_update K self cluster_sum embed_sum.

(** Lines 141 to 145. *)
Definition straight_through (K : Kernels) (input quantize : tensor3)
    (input_mask : list (list bool)) : option (tensor3 * float) :=
  let input_mask := map (map of_bool) input_mask in
  quantize <- mul3 quantize (unsqueeze_last input_mask) ;;
  input <- mul3 input (unsqueeze_last input_mask) ;;
  e <- sub3 quantize input ;;
  let diff := kmean K (map pow2 (concat (concat e))) in
  e <- sub3 quantize input ;;
  quantize <- add3 input e ;;
  Some (quantize, diff).

(** [forward]: the module after the call, and the four values
    returned; [w] is what [all_reduce] does. *)
Definition Quantize_forward (K : Kernels) (w : Comm) (self : Quantize)
    (device_count : nat) (input : tensor3) (input_mask : list (list bool))
  : option (Quantize * (tensor3 * float * list (list Z) * stats_t)) :=
  ' (flatten, embed_onehot, embed_ind, quantize, stats) <-
    assign K self input input_mask ;;
  ' (self, stats) <-
    (if training self
     then ' (self', more) <-
            update_buffers K w self device_count flatten embed_onehot
              input_mask ;;
          Some (self', stats ++ more)
     else Some (self, stats)) ;;
  ' (quantize, diff) <- straight_through K input quantize input_mask ;;
  Some (self, (quantize, diff, embed_ind, stats)).

(** *** VQVAE *)

Record EncoderOut := {
  encoder_out : tensor3;
  encoder_padding_mask : list (list bool)
}.

Record VQVAE := {
  text_encoder : list (list Z) -> option EncoderOut;
  text_conv_encoder : ConvEncoder;
  bottom_quantizer : option Quantize
}.

Definition extract_codes (K : Kernels) (w : Comm) (self : VQVAE)
    (device_count : nat) (full_tokens : list (list Z))
    (full_lengths : list Z) : option (VQVAE * list (list Z)) :=
  text_encoder_out <- text_encoder self full_tokens ;;
  let encoding_mask :=
    map (map (fun b => of_bool (negb b)))
        (encoder_padding_mask text_encoder_out) in
  conv_inpt <-
    mul3 (encoder_out text_encoder_out)
      (unsqueeze_last
         (transpose zero (size1 encoding_mask) encoding_mask)) ;;
  ' (text_conv_out, mask) <-
    ConvEncoder_forward K (text_conv_encoder self)
      (permute120 conv_inpt) full_lengths ;;
  mask <- mask ;;
  quantizer <- bottom_quantizer self ;;
  ' (quantizer', (quantize, diff, embed_ind, quantize_stats)) <-
    Quantize_forward K w quantizer device_count text_conv_out
      (transpose false (size1 mask) mask) ;;
  r <- masked_fill (transpose 0%Z (size1 embed_ind) embed_ind)
         (map (map negb) mask) (-1)%Z ;;
  Some ({| text_encoder := text_encoder self;
           text_conv_encoder := text_conv_encoder self;
           bottom_quantizer := Some quantizer' |}, r).

End vqvae_lm32.

(** * Shapes and the quantities the properties speak of *)

Module Shape.
Import Torch vqvae_lm.
Local Open Scope Qc_scope.

(** A nested list that is a tensor of shape [R x n], or [B x C x T]. *)
Definition shape2 {A : Type} (R n : nat) (m : list (list A)) : Prop :=
  length m = R /\ Forall (fun r => length r = n) m.
Definition shape3 {A : Type} (B C T : nat) (x : list (list (list A)))
  : Prop :=
  length x = B /\ Forall (shape2 C T) x.

(** The entry [x[i][c][t]]. *)
Definition at3 (x : tensor3) (i c t : nat) : Qc :=
  nth t (nth c (nth i x []) []) 0.

(** [x * mask.type_as(x).unsqueeze(1)] when the shapes agree. *)
Definition apply_mask (x : tensor3) (mask : list (list bool)) : tensor3 :=
  map (fun p =>
         map (fun xc =>
                map (fun q => fst q * of_bool (snd q))
                    (combine xc (snd p)))
             (fst p))
      (combine x mask).

(** A layer as [ConvEncoder.__init__] builds it from an odd kernel
    size, for [C] channels. *)
Definition wf_layer (C : nat) (L : Conv1d) : Prop :=
  (1 <= kernel_size L)%Z
  /\ (kernel_size L mod 2 = 1)%Z
  /\ padding L = (kernel_size L / 2)%Z
  /\ (1 <= stride L < 2 ^ 63)%Z
  /\ length (weight L) = C
  /\ length (bias L) = C
  /\ Forall (fun w => length w = C) (weight L).

(** The lengths after the layers of strides [ss]. *)
Definition strided_lengths (ss : list Z) (lengths : list Z) : list Z :=
  fold_left (fun l s => map (fun v => (v - 1) / s + 1)%Z l) ss lengths.

(** The variables of the loop of [ConvEncoder.forward] describe a batch:
    [B] examples of [C] channels and [T] time steps, [T] being the
    greatest of the lengths. *)
Definition batch_ok (B C T : nat) (x : tensor3) (l : list Z) : Prop :=
  (1 <= B)%nat /\ (1 <= C)%nat /\ (1 <= T)%nat
  /\ (Z.of_nat T < 2 ^ 63)%Z
  /\ shape3 B C T x
  /\ length l = B
  /\ Forall (fun v => 1 <= v <= Z.of_nat T)%Z l
  /\ In (Z.of_nat T) l.

(** The mask [m] marks the positions before the lengths [l], and the
    activation [x] is zero wherever [m] is false, that is at every
    position from its example's length on. *)
Definition masked (B C T : nat) (x : tensor3) (l : list Z)
    (m : list (list bool)) : Prop :=
  shape2 B T m
  /\ (forall i t : nat,
        (i < B)%nat -> (t < T)%nat ->
        (nth t (nth i m []) false = true <-> (Z.of_nat t < nth i l 0)%Z))
  /\ (forall i c t : nat,
        (i < B)%nat -> (c < C)%nat -> (t < T)%nat ->
        nth t (nth i m []) false = false -> at3 x i c t = 0)
  /\ (forall i c t : nat,
        (i < B)%nat -> (c < C)%nat ->
        (nth i l 0 <= Z.of_nat t)%Z -> at3 x i c t = 0).



(** ** The codebook *)

(** The code [embed[:, k]]. *)
Definition column (k : nat) (m : tensor2) : tensor1 :=
  map (fun r => nth k r 0) m.

(** The squared Euclidean distance of two vectors. *)
Definition sqdist (x e : tensor1) : Qc :=
  qsum (map (fun p => pow2 (fst p - snd p)) (combine x e)).

(** The row of [dist] for the input vector [x], as [forward] computes
    it from the codebook [E] of [K] codes. *)
Definition dist_row (E : tensor2) (K : nat) (x : tensor1) : tensor1 :=
  map (fun j =>
         qsum (map pow2 x)
         - dot (map (fun a => (1 + 1) * a) x) (column j E)
         + qsum (column j (map (map pow2) E)))
      (seq 0 K).

(** The index [(-dist).max(1)] gives the input vector [x]. *)
Definition nearest (E : tensor2) (K : nat) (x : tensor1) : Z :=
  match map Qcopp (dist_row E K x) with
  | [] => 0%Z
  | v :: r => Z.of_nat (argmax_from v 0 1 r)
  end.

(** The code assigned to [x], and the row [F.one_hot] makes of an
    index. *)
Definition code (E : tensor2) (K : nat) (x : tensor1) : tensor1 :=
  column (Z.to_nat (nearest E K x)) E.

Definition hot (n : nat) (i : Z) : tensor1 :=
  map (fun k => if Nat.eqb k (Z.to_nat i) then 1 else 0) (seq 0 n).

(** A tensor of shape [T x B x C] computed position by position from an
    input of shape [T x B x C] and a mask of shape [T x B]. *)
Definition map_tb {A B C : Type} (f : A -> B -> C) (x : list (list A))
    (m : list (list B)) : list (list C) :=
  map (fun p => map (fun q => f (fst q) (snd q)) (combine (fst p) (snd p)))
      (combine x m).

Definition vmask (v : tensor1) (m : bool) : tensor1 :=
  map (fun a => a * of_bool m) v.
Definition vsub (u v : tensor1) : tensor1 :=
  map (fun p => fst p - snd p) (combine u v).

(** The buffers and the input of a [Quantize] of [dim] = [C] and
    [n_embed] = [K], as [__init__] shapes them. *)
Definition wf_quantize (self : Quantize) : Prop :=
  (1 <= dim self)%nat /\ (1 <= n_embed self)%nat
  /\ shape2 (dim self) (n_embed self) (embed self)
  /\ length (cluster_size self) = n_embed self
  /\ shape2 (dim self) (n_embed self) (embed_avg self).

(** The number of unmasked vectors assigned to the code [k], and the sum
    of their components [c]. *)
Definition assigned (E : tensor2) (K k : nat) (xm : tensor1 * bool) : bool :=
  snd xm && Z.eqb (nearest E K (fst xm)) (Z.of_nat k).

Definition count_assigned (E : tensor2) (K : nat)
    (xs : list (tensor1 * bool)) (k : nat) : Qc :=
  of_nat (length (filter (assigned E K k) xs)).

Definition sum_assigned (E : tensor2) (K : nat)
    (xs : list (tensor1 * bool)) (c k : nat) : Qc :=
  qsum (map (fun xm => nth c (fst xm) 0) (filter (assigned E K k) xs)).

(** [cluster_sum] and [embed_sum] of the batch [xs] of vectors with their
    mask bits, for [K] codes of dimension [C]. *)
Definition cluster_sum_of (E : tensor2) (K : nat)
    (xs : list (tensor1 * bool)) : tensor1 :=
  map (count_assigned E K xs) (seq 0 K).

Definition embed_sum_of (E : tensor2) (C K : nat)
    (xs : list (tensor1 * bool)) : tensor2 :=
  map (fun c => map (sum_assigned E K xs c) (seq 0 K)) (seq 0 C).

(** The moving average [a * d + (1 - d) * b] of two vectors, and the
    divisor [(c + eps) / (n + K * eps) * n] of the code whose moving
    count is [c]. *)
Definition ema (d : Qc) (a b : tensor1) : tensor1 :=
  map (fun p => fst p * d + (1 - d) * snd p) (combine a b).

Definition smoothed (eps : Qc) (K : nat) (n c : Qc) : Qc :=
  (c + eps) / (n + of_nat K * eps) * n.

(** A process group that gives back tensors of the shape it was given,
    for [K] codes of dimension [C]. *)
Definition comm_ok (C K : nat) (w : Comm) : Prop :=
  (forall t, length t = K -> length (reduce1 w t) = K)
  /\ (forall t, shape2 C K t -> shape2 C K (reduce2 w t)).

(** The statistics the moving averages are fed: those of the batch, or
    what [all_reduce] makes of them when there is more than one device. *)
Definition fed1 (w : Comm) (device_count : nat) (t : tensor1) : tensor1 :=
  if (1 <? device_count)%nat then reduce1 w t else t.
Definition fed2 (w : Comm) (device_count : nat) (t : tensor2) : tensor2 :=
  if (1 <? device_count)%nat then reduce2 w t else t.

(** The module after lines 125 to 136, for the statistics [cluster_sum]
    and [embed_sum]. *)
Definition updated (self : Quantize) (cluster_sum : tensor1)
    (embed_sum : tensor2) : Quantize :=
  let cluster_size' := ema (decay self) (cluster_size self) cluster_sum in
  let embed_avg' :=
    map (fun p => ema (decay self) (fst p) (snd p))
        (combine (embed_avg self) embed_sum) in
  let n := qsum cluster_size' in
  {| dim := dim self; n_embed := n_embed self;
     decay := decay self; eps := eps self;
     training := training self;
     embed :=
       map (fun row =>
              map (fun p => fst p / snd p)
                  (combine row
                     (map (smoothed (eps self) (n_embed self) n)
                          cluster_size')))
           embed_avg';
     cluster_size := cluster_size';
     embed_avg := embed_avg' |}.

(** The value [forward] returns first and the error whose mean square
    is [diff], at a position holding the vector [x] and the mask bit
    [m]. *)
Definition ste_out (E : tensor2) (K : nat) (x : tensor1) (m : bool)
  : tensor1 :=
  map (fun p => fst p + snd p)
      (combine (vmask x m) (vsub (vmask (code E K x) m) (vmask x m))).
Definition ste_err (E : tensor2) (K : nat) (x : tensor1) (m : bool)
  : tensor1 :=
  vsub (vmask (code E K x) m) (vmask x m).



(** The valid length [compute_conv_mask] gives a length [l] for the
    stride [s], with the wrap-around of each of the three operations. *)
Definition valid_length (l s : Z) : Z :=
  wrap64 (wrap64 (Z.quot (wrap64 (l - 1)) s) + 1).

(** The product of the strides of the layers. *)
Definition stride_product (ss : list Z) : Z := fold_right Z.mul 1%Z ss.

(** Successive calls of [forward] on the batches [batches], each on the
    module the call before left: the module after the last call. *)
Fixpoint forward_all (w : Comm) (device_count : nat) (self : Quantize)
    (batches : list (tensor3 * list (list bool))) : option Quantize :=
  match batches with
  | [] => Some self
  | b :: r =>
      match run w (Quantize_forward self device_count (fst b) (snd b)) with
      | Some (self', _) => forward_all w device_count self' r
      | None => None
      end
  end.

Local Open Scope string_scope.

(** ** The defaults of [base_architecture] *)

(** The default of an attribute: a constant, or the value of another
    attribute. *)
Inductive default : Type :=
| Const (v : value)
| Attr (other : string).

(** The attributes [base_architecture] sets, each with its default, in
    the order of the assignments. *)
Definition defaults : list (string * default) :=
  [("encoder_embed_path", Const VNone);
   ("encoder_embed_dim", Const (VInt 512));
   ("encoder_ffn_embed_dim", Const (VInt 2048));
   ("encoder_layers", Const (VInt 6));
   ("encoder_attention_heads", Const (VInt 8));
   ("encoder_normalize_before", Const (VBool false));
   ("encoder_learned_pos", Const (VBool false));
   ("decoder_embed_path", Const VNone);
   ("decoder_embed_dim", Attr "encoder_embed_dim");
   ("decoder_ffn_embed_dim", Attr "encoder_ffn_embed_dim");
   ("decoder_layers", Const (VInt 6));
   ("decoder_attention_heads", Const (VInt 8));
   ("decoder_normalize_before", Const (VBool false));
   ("decoder_learned_pos", Const (VBool false));
   ("attention_dropout", Const (VFloat 0%Qc));
   ("activation_dropout", Const (VFloat 0%Qc));
   ("activation_fn", Const (VStr "relu"));
   ("dropout", Const (VFloat (Q2Qc (1 # 10))));
   ("adaptive_softmax_cutoff", Const VNone);
   ("adaptive_softmax_dropout", Const (VInt 0));
   ("share_decoder_input_output_embed", Const (VBool false));
   ("share_all_embeddings", Const (VBool false));
   ("no_token_positional_embeddings", Const (VBool false));
   ("adaptive_input", Const (VBool false));
   ("no_cross_attention", Const (VBool false));
   ("cross_self_attention", Const (VBool false));
   ("layer_wise_attention", Const (VBool false));
   ("decoder_output_dim", Attr "decoder_embed_dim");
   ("decoder_input_dim", Attr "decoder_embed_dim");
   ("bottom_conv_kernel_size", Const (VStr "5,3"));
   ("bottom_conv_stride", Const (VStr "2,2"));
   ("bottom_latent_dim", Attr "encoder_embed_dim");
   ("bottom_latent_k", Const (VInt 4096));
   ("use_bottom_quantants_encoder", Const (VInt 0));
   ("bottom_encoder_ffn_embed_dim", Const (VInt 1024));
   ("bottom_encoder_layers", Const (VInt 3));
   ("bottom_encoder_attention_heads", Const (VInt 4));
   ("drop_word_prob", Const (VFloat 0%Qc));
   ("use_latent", Const (VInt 1));
   ("pretrain_steps", Const (VInt (-1)))].

(** One assignment, and a sequence of assignments. *)
Definition assign_step (s : string * default) (args : Namespace)
  : option Namespace :=
  match snd s with
  | Const v => Some (assign_default (fst s) v args)
  | Attr other => assign_default_attr (fst s) other args
  end.

Fixpoint assign_steps (l : list (string * default)) (args : Namespace)
  : option Namespace :=
  match l with
  | [] => Some args
  | s :: r =>
      match assign_step s args with
      | Some args' => assign_steps r args'
      | None => None
      end
  end.

(** Every default that is an attribute is set by an earlier
    assignment, or is among [seen]. *)
Fixpoint ordered (seen : list string) (l : list (string * default)) : bool :=
  match l with
  | [] => true
  | (n, d) :: r =>
      match d with
      | Const _ => true
      | Attr o => existsb (String.eqb o) seen
      end && ordered (n :: seen) r
  end.

Fixpoint distinct (l : list string) : bool :=
  match l with
  | [] => true
  | a :: r => negb (existsb (String.eqb a) r) && distinct r
  end.

(** A layer (a batch normalization, a dropout) that returns, on a
    tensor of shape [B x C x T], a tensor of that shape. *)
Definition keeps_shape (bn : tensor3 -> option tensor3) (B C T : nat)
  : Prop :=
  forall y, shape3 B C T y -> exists z, bn y = Some z /\ shape3 B C T z.

(** A batch normalization that, when it returns, returns a tensor of
    the shape of its argument. *)
Definition bn_shape (bn : conv_encoder.BatchNorm1d) : Prop :=
  forall B C T y z, shape3 B C T y -> bn y = Some z -> shape3 B C T z.

(** Weights and biases of [C'] filters on [C] channels. *)
Definition filters (C' C : nat) (p : tensor3 * tensor1) : Prop :=
  length (fst p) = C' /\ length (snd p) = C'
  /\ Forall (fun w => length w = C) (fst p).

(** An embedding that returns [C] numbers for each of [B x T] tokens. *)
Definition embeds (f : list (list Z) -> option tensor3) (B T C : nat)
    (tokens : list (list Z)) : Prop :=
  exists e, f tokens = Some e /\ shape3 B T C e.

(** The blocks follow one another from [C] channels and [T] time steps:
    each is built by [MultiKernelConvBlock.__init__] from kernel sizes
    that are at least 1 and a stride, with [S] filters for each kernel
    size on the channels the block before returns, and its batch
    normalizations keep the shape of its batch. *)
Fixpoint chain (S B C T : nat)
    (blocks : list conv_encoder.MultiKernelConvBlock) : Prop :=
  match blocks with
  | [] => True
  | block :: r =>
      exists kernels stride ps1 ps2 pd b1 b2 bd,
        block = conv_encoder.MultiKernelConvBlock_init kernels stride
                  ps1 ps2 pd b1 b2 bd
        /\ kernels <> [] /\ Forall (fun k => 1 <= k)%Z kernels
        /\ (1 <= stride < 2 ^ 63)%Z
        /\ length ps1 = length kernels /\ length ps2 = length kernels
        /\ Forall (filters S C) ps1
        /\ Forall (filters S (length kernels * S)) ps2
        /\ filters (length kernels * S) C pd
        /\ keeps_shape b1 B (length kernels * S)
             (Z.to_nat ((Z.of_nat T - 1) / stride + 1))
        /\ keeps_shape b2 B (length kernels * S)
             (Z.to_nat ((Z.of_nat T - 1) / stride + 1))
        /\ keeps_shape bd B (length kernels * S)
             (Z.to_nat ((Z.of_nat T - 1) / stride + 1))
        /\ chain S B (length kernels * S)
             (Z.to_nat ((Z.of_nat T - 1) / stride + 1)) r
  end.

(** The channels the last of the blocks returns. *)
Fixpoint channels (S C : nat)
    (blocks : list conv_encoder.MultiKernelConvBlock) : nat :=
  match blocks with
  | [] => C
  | block :: r =>
      channels S (length (conv_encoder.mk_kernels block) * S) r
  end.

End Shape.

(** ** Shapes and quantities of the float32 tensors *)

Module Shape32.
Import Torch Float32 Torch32 vqvae_lm32 Shape.

(** The values of the format: the numbers [round32] leaves as they
    are, the infinities and NaN. *)
Definition is_float32 (x : float) : Prop :=
  match x with Fin q => round32 q = Fin q | _ => True end.

(** The code [embed[:, k]]. *)
Definition column (k : nat) (m : tensor2) : tensor1 :=
  map (fun r => nth k r zero) m.

(** The row of [dist] for the input vector [x], as [forward] computes
    it from the codebook [E] of [n] codes: for the code [j], the
    rounded sum of the squares of [x], minus the rounded product of
    [2 * x] with the code, plus the rounded sum of the squares of the
    code, each of the two operations rounded. *)
Definition dist_row (K : Kernels) (E : tensor2) (n : nat) (x : tensor1)
  : tensor1 :=
  map (fun j =>
         add (sub (ksum K (map pow2 x))
                  (kacc K zero
                     (combine (map (mul (of_Z 2)) x) (column j E))))
             (ksum K (column j (map (map pow2) E))))
      (seq 0 n).

(** The entry of [dist] for the input vector [x] and the code [e]. *)
Definition computed_dist (K : Kernels) (x e : tensor1) : float :=
  add (sub (ksum K (map pow2 x))
           (kacc K zero (combine (map (mul (of_Z 2)) x) e)))
      (ksum K (map pow2 e)).

(** The rational a finite number denotes. *)
Definition exact (x : float) : Qc :=
  match x with Fin q => q | _ => Q2Qc 0 end.

(** The index [(-dist).max(1)] gives the input vector [x], and the
    code assigned to [x]. *)
Definition nearest (K : Kernels) (E : tensor2) (n : nat) (x : tensor1)
  : Z :=
  match map neg (dist_row K E n x) with
  | [] => 0%Z
  | v :: r => Z.of_nat (argmax_from v 0 1 r)
  end.

Definition code (K : Kernels) (E : tensor2) (n : nat) (x : tensor1)
  : tensor1 :=
  column (Z.to_nat (nearest K E n x)) E.

Definition hot (n : nat) (i : Z) : tensor1 :=
  map (fun k => of_bool (Nat.eqb k (Z.to_nat i))) (seq 0 n).

Definition vmask (v : tensor1) (m : bool) : tensor1 :=
  map (fun a => mul a (of_bool m)) v.
Definition vsub (u v : tensor1) : tensor1 :=
  map (fun p => sub (fst p) (snd p)) (combine u v).

(** The value [forward] returns first at a position holding the vector
    [x] and the mask bit [m], for the code [q] assigned to [x]. *)
Definition ste_out (q x : tensor1) (m : bool) : tensor1 :=
  map (fun p => add (fst p) (snd p))
      (combine (vmask x m) (vsub (vmask q m) (vmask x m))).

Definition wf_quantize (self : Quantize) : Prop :=
  (1 <= dim self)%nat /\ (1 <= n_embed self)%nat
  /\ shape2 (dim self) (n_embed self) (embed self)
  /\ length (cluster_size self) = n_embed self
  /\ shape2 (dim self) (n_embed self) (embed_avg self).

Definition comm_ok (C n : nat) (w : Comm) : Prop :=
  (forall t, length t = n -> length (reduce1 w t) = n)
  /\ (forall t, shape2 C n t -> shape2 C n (reduce2 w t)).

Definition wf_layer (C : nat) (L : Conv1d) : Prop :=
  (1 <= kernel_size L)%Z
  /\ (kernel_size L mod 2 = 1)%Z
  /\ padding L = (kernel_size L / 2)%Z
  /\ (1 <= stride L < 2 ^ 63)%Z
  /\ length (weight L) = C
  /\ length (bias L) = C
  /\ Forall (fun w => length w = C) (weight L).

Definition batch_ok (B C T : nat) (x : tensor3) (l : list Z) : Prop :=
  (1 <= B)%nat /\ (1 <= C)%nat /\ (1 <= T)%nat
  /\ (Z.of_nat T < 2 ^ 63)%Z
  /\ shape3 B C T x
  /\ length l = B
  /\ Forall (fun v => 1 <= v <= Z.of_nat T)%Z l
  /\ In (Z.of_nat T) l.

(** The mask of a batch of [B] examples and [T] steps whose lengths are
    [l]: true before the length of the example. *)
Definition valid_mask (B T : nat) (l : list Z) (m : list (list bool))
  : Prop :=
  shape2 B T m
  /\ forall i t : nat,
       (i < B)%nat -> (t < T)%nat ->
       (nth t (nth i m []) false = true <-> (Z.of_nat t < nth i l 0)%Z).

End Shape32.

(** * Concrete instances *)

Module Example.
Import Torch vqvae_lm.
Local Open Scope Qc_scope.

Definition qz (z : Z) : Qc := Q2Qc (inject_Z z).

(** A codebook of the three codes (0,0), (1,1) and (4,4), in training
    mode and in evaluation mode. *)
Definition quantizer : Quantize :=
  Quantize_init 2 3 (Q2Qc (1 # 2)) (Q2Qc (1 # 10))
    [[qz 0; qz 1; qz 4]; [qz 0; qz 1; qz 4]].

Definition quantizer_eval : Quantize :=
  {| dim := dim quantizer; n_embed := n_embed quantizer;
     decay := decay quantizer; eps := eps quantizer;
     training := false;
     embed := embed quantizer;
     cluster_size := cluster_size quantizer;
     embed_avg := embed_avg quantizer |}.

(** An input of shape 2 x 2 x 2 with one masked position. *)
Definition input : tensor3 :=
  [[[qz 1; qz 1]; [qz 3; qz 3]]; [[qz 0; qz 1]; [qz 5; qz 5]]].
Definition input_mask : list (list bool) :=
  [[true; true]; [true; false]].

(** A process alone, and a process with one peer that counted one
    vector, (1,1), for the code 0. *)
Definition alone : Comm := sum_group [] [].
Definition with_peer : Comm :=
  sum_group [[qz 1; qz 0; qz 0]]
            [[[qz 1; qz 0; qz 0]; [qz 1; qz 0; qz 0]]].

(** An encoder of one layer of kernel 3 and stride 2 on one channel,
    with two output channels, and a batch of lengths 5 and 3. *)
Definition kernels : list Z := [3%Z].
Definition strides_ : list Z := [2%Z].
Definition params : list (tensor3 * tensor1) :=
  [([[[qz 1; qz 1; qz 1]]], [qz 0])].
Definition qparams : tensor3 * tensor1 :=
  ([[[qz 1]]; [[qz 2]]], [qz 0; qz 1]).
Definition batch : tensor3 :=
  [[[qz 1; qz 2; qz 3; qz 4; qz 5]]; [[qz 1; qz 2; qz 3; qz 0; qz 0]]].
Definition lengths : list Z := [5%Z; 3%Z].

(** A text encoder that returns, for any tokens, the batch above as
    [T x B x C] with its padding mask. *)
Definition encoder_output : EncoderOut :=
  {| encoder_out :=
       [[[qz 1]; [qz 1]]; [[qz 2]; [qz 2]]; [[qz 3]; [qz 3]];
        [[qz 4]; [qz 7]]; [[qz 5]; [qz 7]]];
     encoder_padding_mask :=
       [[false; false; false; false; false];
        [false; false; false; true; true]] |}.
Definition encoder (tokens : list (list Z)) : option EncoderOut :=
  Some encoder_output.

(** A model around the encoder and the quantizer above, in training
    mode, that drops half of the words; its decoder returns what it is
    given as the encoder output. *)
Definition model : Model :=
  {| vqvae :=
       {| text_encoder := encoder;
          text_conv_encoder := ConvEncoder_init kernels strides_ params qparams;
          bottom_quantizer := Some quantizer |};
     encoder_embedding := fun _ => [];
     bottom_latent_encoder := None;
     decoder := fun _ eo _ => Some (encoder_out eo);
     pad_index := 1%Z;
     word_drop_rate := Q2Qc (1 # 2);
     pretrain_steps := (-1)%Z;
     model_training := true |}.

(** The same model during its pretraining steps. *)
Definition pretraining_model : Model :=
  {| vqvae := vqvae model;
     encoder_embedding := encoder_embedding model;
     bottom_latent_encoder := bottom_latent_encoder model;
     decoder := decoder model;
     pad_index := pad_index model;
     word_drop_rate := word_drop_rate model;
     pretrain_steps := 1000%Z;
     model_training := model_training model |}.

Definition decoder_tokens : list (list Z) :=
  [[5; 6; 7; 8; 9]; [5; 6; 7; 1; 1]]%Z.
Definition sorted_idx : list (list Z) :=
  [[4; 3; 2; 1; 0]; [0; 1; 2; 3; 4]]%Z.

(** A block of the kernel sizes 2 and 3 and of stride 2, with one
    filter for each kernel size, whose batch normalizations return
    their argument, and an encoder of one channel with this block. *)
Definition one : Qc := Q2Qc (inject_Z 1).
Definition zero : Qc := Q2Qc (inject_Z 0).
Definition block : conv_encoder.MultiKernelConvBlock :=
  conv_encoder.MultiKernelConvBlock_init [2%Z; 3%Z] 2%Z
    [([[[one; one]]], [zero]); ([[[one; one; one]]], [zero])]
    [([[[one; one]; [one; one]]], [zero]);
     ([[[one; one; one]; [one; one; one]]], [zero])]
    ([[[one]]; [[one]]], [zero; zero])
    Some Some Some.
Definition signal : tensor3 :=
  [[[one; Q2Qc (inject_Z 2); Q2Qc (inject_Z 3); Q2Qc (inject_Z 4)]]].
Definition embedding (tokens : list (list Z)) : option tensor3 :=
  Some (map (map (fun t => [Q2Qc (inject_Z t)])) tokens).
Definition full_encoder (blocks : list conv_encoder.MultiKernelConvBlock)
  : conv_encoder.FullConvEncoder :=
  {| conv_encoder.embed_tokens := embedding;
     conv_encoder.embed_scale := one;
     conv_encoder.embed_positions := Some embedding;
     conv_encoder.fc_dropout := Some;
     conv_encoder.fc_conv_blocks := blocks;
     conv_encoder.fc_quant_conv :=
       {| weight := [[[one]; [one]]]; bias := [zero]; kernel_size := 1;
          padding := 0; stride := 1 |};
     conv_encoder.fc_pad_index := 1;
     conv_encoder.fc_bos_index := 0 |}.

End Example.

Module Example32.
Import Torch Float32 Torch32 vqvae_lm32.

Definition fz (z : Z) : float := of_Z z.

(** A process alone. *)
Definition alone : Comm :=
  {| reduce1 := fun t => t; reduce2 := fun t => t |}.

(** A codebook of the three codes (0,0), (1,1) and (4,4), in training
    mode, and an input of shape 2 x 2 x 2 with one masked position. *)
Definition quantizer : Quantize :=
  {| dim := 2; n_embed := 3;
     decay := Q2Qc (1 # 2); eps := Q2Qc (1 # 10);
     training := true;
     embed := [[fz 0; fz 1; fz 4]; [fz 0; fz 1; fz 4]];
     cluster_size := [zero; zero; zero];
     embed_avg := [[fz 0; fz 1; fz 4]; [fz 0; fz 1; fz 4]] |}.

Definition input : tensor3 :=
  [[[fz 1; fz 1]; [fz 3; fz 3]]; [[fz 0; fz 1]; [fz 5; fz 5]]].
Definition input_mask : list (list bool) :=
  [[true; true]; [true; false]].

(** The two codes 4099 and 4096 of one dimension, and the input
    4097: the squares 4097 * 4097 and 4099 * 4099 and the product
    2 * 4097 * 4099 are no numbers of float32. *)
Definition close_codes : Quantize :=
  {| dim := 1; n_embed := 2;
     decay := Q2Qc (99 # 100); eps := Q2Qc (1 # 100000);
     training := false;
     embed := [[fz 4099; fz 4096]];
     cluster_size := [zero; zero];
     embed_avg := [[fz 4099; fz 4096]] |}.
Definition close_input : tensor3 := [[[fz 4097]]].

(** The one code 0.1, and the inputs 0.7, at a position the mask
    keeps, and infinity, at a position the mask drops, as float32
    holds them. *)
Definition tenth : float := round32 (Q2Qc (1 # 10)).
Definition seven_tenths : float := round32 (Q2Qc (7 # 10)).
Definition tenth_code : Quantize :=
  {| dim := 1; n_embed := 1;
     decay := Q2Qc (99 # 100); eps := Q2Qc (1 # 100000);
     training := false;
     embed := [[tenth]];
     cluster_size := [zero];
     embed_avg := [[tenth]] |}.
Definition tenth_input : tensor3 := [[[seven_tenths]; [Inf false]]].
Definition tenth_mask : list (list bool) := [[true; false]].

(** An encoder of one layer of kernel 3 and stride 2 on one channel,
    with two output channels, a batch of lengths 5 and 3, and a text
    encoder that returns, for any tokens, a batch of shape 5 x 2 x 1
    with its padding mask. *)
Definition kernels : list Z := [3%Z].
Definition strides_ : list Z := [2%Z].
Definition params : list (tensor3 * tensor1) :=
  [([[[fz 1; fz 1; fz 1]]], [fz 0])].
Definition qparams : tensor3 * tensor1 :=
  ([[[fz 1]]; [[fz 2]]], [fz 0; fz 1]).
Definition lengths : list Z := [5%Z; 3%Z].
Definition encoder_output : EncoderOut :=
  {| encoder_out :=
       [[[fz 1]; [fz 1]]; [[fz 2]; [fz 2]]; [[fz 3]; [fz 3]];
        [[fz 4]; [fz 7]]; [[fz 5]; [fz 7]]];
     encoder_padding_mask :=
       [[false; false; false; false; false];
        [false; false; false; true; true]] |}.
Definition encoder (tokens : list (list Z)) : option EncoderOut :=
  Some encoder_output.

(** A text encoder that returns 4097 for one token, and a
    convolutional encoder that leaves it as it is: one layer of kernel
    1, stride 1 and weight 1, and the weight 1 in [quant_conv]. *)
Definition close_encoder (tokens : list (list Z)) : option EncoderOut :=
  Some {| encoder_out := close_input;
          encoder_padding_mask := [[false]] |}.
Definition unit_params : list (tensor3 * tensor1) := [([[[fz 1]]], [fz 0])].
Definition unit_qparams : tensor3 * tensor1 := ([[[fz 1]]], [fz 0]).

End Example32.

(** * Properties *)

(** ** 64-bit integers and the convolutional mask *)

Section ConvMask.
Import Torch.
Local Open Scope Z_scope.

Lemma wrap64_small (z : Z) : - 2 ^ 63 <= z < 2 ^ 63 -> wrap64 z = z.
Proof.
  intros H. unfold wrap64.
  rewrite Z.mod_small by lia. lia.
Qed.

Lemma fold_left_max_ge (l : list Z) (a : Z) : a <= fold_left Z.max l a.
Proof.
  revert a. induction l as [|x l IH]; intros a; simpl; [lia|].
  specialize (IH (Z.max a x)). lia.
Qed.

Lemma fold_left_max_bound (l : list Z) (a : Z) :
  Forall (fun v => v <= fold_left Z.max l a) l.
Proof.
  revert a. induction l as [|x l IH]; intros a; simpl; constructor.
  - pose proof (fold_left_max_ge l (Z.max a x)). lia.
  - apply IH.
Qed.

Lemma fold_left_max_in (l : list Z) (a : Z) :
  fold_left Z.max l a = a \/ In (fold_left Z.max l a) l.
Proof.
  revert a. induction l as [|x l IH]; intros a; simpl; [now left|].
  destruct (IH (Z.max a x)) as [E|E].
  - rewrite E. destruct (Z.max_spec a x) as [[_ ->]|[_ ->]]; auto.
  - auto.
Qed.

Lemma imax_spec (l : list Z) (m : Z) :
  imax l = Some m -> In m l /\ Forall (fun v => v <= m) l.
Proof.
  destruct l as [|x l]; simpl; [discriminate|].
  intros [= <-]. split.
  - destruct (fold_left_max_in l x) as [-> | H]; auto.
  - constructor; [apply fold_left_max_ge | apply fold_left_max_bound].
Qed.

Lemma imax_some (l : list Z) : l <> [] -> exists m, imax l = Some m.
Proof. destruct l; [congruence | simpl; eauto]. Qed.

(** Within the range of [int64] and for lengths of at least 1 the three
    integer operations do not wrap, and truncation is the floor. *)
Lemma valid_lengths_exact (lengths : list Z) (s : Z) :
  Forall (fun l => 1 <= l < 2 ^ 63) lengths ->
  1 <= s < 2 ^ 63 ->
  idiv_scalar (isub_scalar lengths 1) s
  = Some (map (fun l => (l - 1) / s) lengths)
  /\ iadd_scalar (map (fun l => (l - 1) / s) lengths) 1
     = map (fun l => (l - 1) / s + 1) lengths
  /\ Forall (fun v => 1 <= v < 2 ^ 63)
       (map (fun l => (l - 1) / s + 1) lengths).
Proof.
  intros Hl Hs. unfold idiv_scalar, isub_scalar, iadd_scalar.
  destruct (Z.eqb_spec s 0) as [E|_]; [lia|].
  rewrite !map_map.
  assert (P : forall l, 1 <= l < 2 ^ 63 ->
              0 <= (l - 1) / s /\ (l - 1) / s <= l - 1).
  { intros l Hr. split.
    - apply Z.div_pos; lia.
    - apply Z.div_le_upper_bound; [lia|]. nia. }
  repeat split.
  - f_equal. apply map_ext_in. intros l Hin.
    rewrite Forall_forall in Hl. specialize (Hl _ Hin).
    destruct (P l Hl).
    rewrite (wrap64_small (l - 1)) by lia.
    rewrite Z.quot_div_nonneg by lia.
    apply wrap64_small. lia.
  - apply map_ext_in. intros l Hin.
    rewrite Forall_forall in Hl. specialize (Hl _ Hin).
    destruct (P l Hl). apply wrap64_small. lia.
  - rewrite Forall_forall in *. intros v Hv.
    apply in_map_iff in Hv. destruct Hv as (l & <- & Hin).
    specialize (Hl _ Hin). destruct (P l Hl). lia.
Qed.

Lemma combine_repeat_l {A B : Type} (r : A) (v : list B) :
  combine (repeat r (length v)) v = map (fun x => (r, x)) v.
Proof. induction v; simpl; congruence. Qed.

Lemma lt_unsqueeze1_expand (r v : list Z) :
  lt_unsqueeze1 (expand_rows (length v) r) v
  = map (fun x => map (fun t => t <? x) r) v.
Proof.
  unfold lt_unsqueeze1, expand_rows.
  rewrite combine_repeat_l, map_map. reflexivity.
Qed.

Lemma map_seq_const {A : Type} (f : nat -> A) (c : A) (a n : nat) :
  (forall i, (a <= i < a + n)%nat -> f i = c) ->
  map f (seq a n) = repeat c n.
Proof.
  revert a. induction n as [|n IH]; intros a H; simpl; [reflexivity|].
  rewrite H by lia. f_equal. apply IH. intros i Hi. apply H. lia.
Qed.

(** A row of the mask: a prefix of [true], then [false]. *)
Lemma mask_row_prefix (n : nat) (x : Z) :
  0 <= x <= Z.of_nat n ->
  map (fun t => t <? x) (map Z.of_nat (seq 0 n))
  = repeat true (Z.to_nat x) ++ repeat false (n - Z.to_nat x).
Proof.
  intros Hx. rewrite map_map.
  replace n with (Z.to_nat x + (n - Z.to_nat x))%nat at 1 by lia.
  rewrite seq_app, map_app. f_equal; apply map_seq_const; intros i Hi.
  - apply Z.ltb_lt. lia.
  - apply Z.ltb_ge. lia.
Qed.

Lemma mask_row_nth (n : nat) (x : Z) (t : nat) :
  (t < n)%nat ->
  nth t (map (fun t => t <? x) (map Z.of_nat (seq 0 n))) false
  = (Z.of_nat t <? x).
Proof.
  intros Ht. rewrite map_map.
  rewrite (nth_indep _ false (Z.of_nat 0 <? x))
    by (rewrite length_map, length_seq; exact Ht).
  rewrite (map_nth (fun t => Z.of_nat t <? x)), seq_nth by exact Ht.
  reflexivity.
Qed.

Lemma compute_conv_mask_eval (lengths : list Z) (s : Z) :
  lengths <> [] ->
  Forall (fun l => 1 <= l < 2 ^ 63) lengths ->
  1 <= s < 2 ^ 63 ->
  exists T' : nat,
    let valid_lengths := map (fun l => (l - 1) / s + 1) lengths in
    vqvae_lm.compute_conv_mask lengths s
    = Some (valid_lengths,
            map (fun x => map (fun t => t <? x)
                              (map Z.of_nat (seq 0 T')))
                valid_lengths)
    /\ In (Z.of_nat T') valid_lengths
    /\ Forall (fun v => 1 <= v <= Z.of_nat T') valid_lengths.
Proof.
  intros Hne Hl Hs.
  destruct (valid_lengths_exact lengths s Hl Hs) as (E1 & E2 & Hv).
  set (vl := map (fun l => (l - 1) / s + 1) lengths) in *.
  assert (Hvne : vl <> []).
  { unfold vl. destruct lengths; [congruence | discriminate]. }
  destruct (imax_some vl Hvne) as (m & Em).
  destruct (imax_spec _ _ Em) as (Hin & Hmax).
  assert (Hm : 1 <= m).
  { rewrite Forall_forall in Hv. apply Hv in Hin. lia. }
  exists (Z.to_nat m). cbv zeta.
  rewrite Z2Nat.id by lia. repeat split.
  - unfold vqvae_lm.compute_conv_mask. rewrite E1, E2. fold vl.
    rewrite Em. unfold arange.
    destruct (Z.ltb_spec m 0) as [?|_]; [lia|].
    replace (length lengths) with (length vl)
      by (unfold vl; apply length_map).
    rewrite lt_unsqueeze1_expand. reflexivity.
  - exact Hin.
  - rewrite Forall_forall in *. intros v Hvin.
    specialize (Hv _ Hvin). specialize (Hmax _ Hvin). simpl in Hmax. lia.
Qed.

Lemma compute_conv_mask_same (lengths : list Z) (s : Z) :
  conv_encoder.compute_conv_mask lengths s
  = vqvae_lm.compute_conv_mask lengths s.
Proof. reflexivity. Qed.

(** C4. For a batch (with at least one example) of lengths, each at
    least 1, and a stride of at least 1, all within [int64],
    [compute_conv_mask] of either file returns [valid_lengths] equal
    elementwise to [(lengths - 1) / s + 1] and a mask of shape
    [batch x T'], where [T'] is the greatest of [valid_lengths]; the
    entry [mask[i][t]] is true exactly when [t < valid_lengths[i]], so
    that row [i] is [valid_lengths[i]] times true followed by false. *)
Theorem compute_conv_mask_valid_prefix (lengths : list Z) (s : Z) :
  lengths <> [] ->
  Forall (fun l => 1 <= l < 2 ^ 63) lengths ->
  1 <= s < 2 ^ 63 ->
  exists (valid_lengths : list Z) (mask : list (list bool)) (T' : nat),
    vqvae_lm.compute_conv_mask lengths s = Some (valid_lengths, mask)
    /\ conv_encoder.compute_conv_mask lengths s = Some (valid_lengths, mask)
    /\ valid_lengths = map (fun l => (l - 1) / s + 1) lengths
    /\ In (Z.of_nat T') valid_lengths
    /\ Forall (fun v => v <= Z.of_nat T') valid_lengths
    /\ length mask = length lengths
    /\ Forall (fun row => length row = T') mask
    /\ (forall i t : nat,
          (i < length lengths)%nat -> (t < T')%nat ->
          (nth t (nth i mask []) false = true
           <-> Z.of_nat t < nth i valid_lengths 0))
    /\ (forall i : nat,
          (i < length lengths)%nat ->
          nth i mask []
          = repeat true (Z.to_nat (nth i valid_lengths 0))
            ++ repeat false (T' - Z.to_nat (nth i valid_lengths 0))).
Proof.
  intros Hne Hl Hs.
  destruct (compute_conv_mask_eval lengths s Hne Hl Hs)
    as (T' & E & Hin & Hb).
  cbv zeta in *.
  set (vl := map (fun l => (l - 1) / s + 1) lengths) in *.
  set (row := fun x : Z => map (fun t => t <? x) (map Z.of_nat (seq 0 T'))).
  assert (Hlen : length vl = length lengths) by apply length_map.
  assert (Hrow : forall i, (i < length lengths)%nat ->
                   nth i (map row vl) [] = row (nth i vl 0)).
  { intros i Hi.
    rewrite (nth_indep _ [] (row 0)) by (rewrite length_map; lia).
    apply (map_nth row). }
  assert (Hnth : forall i, (i < length lengths)%nat ->
                   1 <= nth i vl 0 <= Z.of_nat T').
  { intros i Hi. rewrite Forall_forall in Hb. apply Hb.
    apply nth_In. lia. }
  exists vl, (map row vl), T'. repeat split.
  - exact E.
  - rewrite compute_conv_mask_same. exact E.
  - exact Hin.
  - eapply Forall_impl; [|exact Hb]. simpl. intros; lia.
  - rewrite length_map. exact Hlen.
  - rewrite Forall_forall. intros r Hr.
    apply in_map_iff in Hr. destruct Hr as (x & <- & _).
    unfold row. rewrite !length_map, length_seq. reflexivity.
  - rewrite Hrow by assumption. unfold row.
    rewrite mask_row_nth by assumption. apply Z.ltb_lt.
  - rewrite Hrow by assumption. unfold row.
    rewrite mask_row_nth by assumption. apply Z.ltb_lt.
  - intros i Hi. rewrite Hrow by assumption. unfold row.
    apply mask_row_prefix. specialize (Hnth i Hi). lia.
Qed.

Lemma compute_conv_mask_valid_prefix_witness :
  exists (valid_lengths : list Z) (mask : list (list bool)) (T' : nat),
    vqvae_lm.compute_conv_mask [5; 3; 1] 2 = Some (valid_lengths, mask)
    /\ conv_encoder.compute_conv_mask [5; 3; 1] 2
       = Some (valid_lengths, mask)
    /\ valid_lengths = map (fun l => (l - 1) / 2 + 1) [5; 3; 1]
    /\ In (Z.of_nat T') valid_lengths
    /\ Forall (fun v => v <= Z.of_nat T') valid_lengths
    /\ length mask = length [5; 3; 1]
    /\ Forall (fun row => length row = T') mask
    /\ (forall i t : nat,
          (i < length [5; 3; 1])%nat -> (t < T')%nat ->
          (nth t (nth i mask []) false = true
           <-> Z.of_nat t < nth i valid_lengths 0))
    /\ (forall i : nat,
          (i < length [5; 3; 1])%nat ->
          nth i mask []
          = repeat true (Z.to_nat (nth i valid_lengths 0))
            ++ repeat false (T' - Z.to_nat (nth i valid_lengths 0))).
Proof.
  apply (compute_conv_mask_valid_prefix [5; 3; 1] 2).
  - discriminate.
  - repeat constructor; lia.
  - lia.
Defined.

End ConvMask.

(** ** The two copies of the convolutional encoder *)

Section TwoFiles.
Import Torch.

Lemma forward_step_same (st : tensor3 * list Z * option (list (list bool)))
    (ls : Conv1d * Z) :
  conv_encoder.forward_step st ls = vqvae_lm.forward_step st ls.
Proof. reflexivity. Qed.

Lemma forward_loop_same (layers : list (Conv1d * Z))
    (st : tensor3 * list Z * option (list (list bool))) :
  conv_encoder.forward_loop layers st = vqvae_lm.forward_loop layers st.
Proof.
  revert st. induction layers as [|ls r IH]; intros st; simpl.
  - reflexivity.
  - rewrite forward_step_same.
    destruct (vqvae_lm.forward_step st ls); [apply IH | reflexivity].
Qed.

(** C10. The two definitions of [compute_conv_mask] are the same
    function, and the two [ConvEncoder] classes, built from the same
    arguments or holding the same parameters, return the same output and
    mask on the same input. *)
Theorem conv_encoder_copies_agree
    (e1 : conv_encoder.ConvEncoder) (e2 : vqvae_lm.ConvEncoder)
    (input : tensor3) (lengths : list Z) (s : Z) :
  conv_encoder.strides e1 = vqvae_lm.strides e2 ->
  conv_encoder.conv_blocks e1 = vqvae_lm.conv_blocks e2 ->
  conv_encoder.quant_conv e1 = vqvae_lm.quant_conv e2 ->
  conv_encoder.compute_conv_mask lengths s
  = vqvae_lm.compute_conv_mask lengths s
  /\ conv_encoder.ConvEncoder_forward e1 input lengths
     = vqvae_lm.ConvEncoder_forward e2 input lengths
  /\ (forall kernels strides params qparams,
        let a := conv_encoder.ConvEncoder_init kernels strides params qparams in
        let b := vqvae_lm.ConvEncoder_init kernels strides params qparams in
        conv_encoder.strides a = vqvae_lm.strides b
        /\ conv_encoder.conv_blocks a = vqvae_lm.conv_blocks b
        /\ conv_encoder.quant_conv a = vqvae_lm.quant_conv b).
Proof.
  intros Hs Hc Hq. split; [reflexivity|]. split.
  - unfold conv_encoder.ConvEncoder_forward, vqvae_lm.ConvEncoder_forward.
    rewrite Hs, Hc, Hq, forward_loop_same. reflexivity.
  - intros. repeat split; reflexivity.
Qed.

End TwoFiles.

(** ** Broadcasting on tensors of agreeing shapes *)

Section Broadcast.
Import Torch Shape.

Lemma traverse_map_some {A B : Type} (f : A -> option B) (g : A -> B)
    (l : list A) :
  (forall a, In a l -> f a = Some (g a)) ->
  traverse f l = Some (map g l).
Proof.
  induction l as [|a l IH]; intros H; simpl; [reflexivity|].
  rewrite (H a) by (now left). rewrite IH; [reflexivity|].
  intros b Hb. apply H. now right.
Qed.

Lemma bcast_same_length {A B C : Type} (f : A -> B -> option C)
    (g : A -> B -> C) (x : list A) (y : list B) :
  length x = length y ->
  (forall p, In p (combine x y) -> f (fst p) (snd p) = Some (g (fst p) (snd p))) ->
  bcast f x y = Some (map (fun p => g (fst p) (snd p)) (combine x y)).
Proof.
  intros Hlen H. unfold bcast. rewrite Hlen, Nat.eqb_refl.
  apply (traverse_map_some (fun p => f (fst p) (snd p))). exact H.
Qed.

Lemma bcast_single_r {A B C : Type} (f : A -> B -> option C)
    (g : A -> B -> C) (x : list A) (b : B) :
  (forall a, In a x -> f a b = Some (g a b)) ->
  bcast f x [b] = Some (map (fun a => g a b) x).
Proof.
  intros H. unfold bcast.
  destruct (Nat.eqb_spec (length x) (length [b])) as [E|E].
  - destruct x as [|a [|a' x]]; try discriminate. simpl.
    rewrite (H a) by (now left). reflexivity.
  - assert (G : traverse (fun a => f a b) x
               = Some (map (fun a => g a b) x))
      by (apply (traverse_map_some (fun a => f a b)); exact H).
    destruct x as [|a [|a' x]]; exact G.
Qed.

Lemma nth_map_in {A B : Type} (f : A -> B) (l : list A) (i : nat)
    (d : A) (d' : B) :
  (i < length l)%nat -> nth i (map f l) d' = f (nth i l d).
Proof.
  intros H. rewrite (nth_indep _ d' (f d)) by (rewrite length_map; exact H).
  apply map_nth.
Qed.

Lemma combine_map_r {A B C : Type} (h : B -> C) (x : list A) (y : list B) :
  combine x (map h y) = map (fun p => (fst p, h (snd p))) (combine x y).
Proof.
  revert y. induction x as [|a x IH]; intros [|b y]; simpl; try reflexivity.
  f_equal. apply IH.
Qed.

Lemma in_combine_shape {A B : Type} (P : A -> Prop) (Q : B -> Prop)
    (x : list A) (y : list B) (p : A * B) :
  Forall P x -> Forall Q y -> In p (combine x y) -> P (fst p) /\ Q (snd p).
Proof.
  intros HP HQ Hin. destruct p as [a b]. rewrite Forall_forall in *.
  split; [apply HP; eapply in_combine_l | apply HQ; eapply in_combine_r];
    exact Hin.
Qed.

Lemma mul3_mask (B C T : nat) (x : tensor3) (mask : list (list bool)) :
  shape3 B C T x -> shape2 B T mask ->
  mul3 x (unsqueeze1 (map (map of_bool) mask)) = Some (apply_mask x mask).
Proof.
  intros [Hx Hxs] [Hm Hms]. unfold mul3, unsqueeze1, apply_mask.
  rewrite map_map.
  rewrite (bcast_same_length _
             (fun xb m1 =>
                map (fun xc => map (fun q => (fst q * snd q)%Qc)
                                   (combine xc (hd [] m1))) xb)).
  - f_equal. rewrite combine_map_r, map_map. apply map_ext.
    intros [xb mr]. simpl.
    apply map_ext. intros xc. rewrite combine_map_r, map_map. reflexivity.
  - rewrite length_map. congruence.
  - intros p Hp. rewrite combine_map_r in Hp. apply in_map_iff in Hp.
    destruct Hp as ([xb mr] & <- & Hin). simpl.
    destruct (in_combine_shape _ _ _ _ _ Hxs Hms Hin) as [[Hb Hbs] Hr].
    simpl in *.
    apply (bcast_single_r _
             (fun xc m1 => map (fun q => (fst q * snd q)%Qc) (combine xc m1))).
    intros xc Hxc. rewrite Forall_forall in Hbs. specialize (Hbs _ Hxc).
    apply (bcast_same_length (lift2 Qcmult) Qcmult).
    + rewrite length_map. congruence.
    + intros; reflexivity.
Qed.

End Broadcast.

(** ** The masking invariant of [ConvEncoder.forward] *)

Section Masking.
Import Torch Shape.
Local Open Scope Z_scope.

Lemma shape3_size (B C T : nat) (x : tensor3) :
  shape3 B C T x -> (1 <= B)%nat -> (1 <= C)%nat ->
  size1 x = C /\ size2 x = T.
Proof.
  intros [Hx Hxs] HB HC. destruct x as [|xb x]; simpl in *; [lia|].
  inversion Hxs as [|? ? Hsh _]. destruct Hsh as [Hb Hbs].
  unfold size1, size2. simpl. split; [exact Hb|].
  destruct xb as [|r xb]; simpl in *; [lia|].
  inversion Hbs as [|? ? Hr _]. exact Hr.
Qed.

Lemma shape2_size {A : Type} (R n : nat) (m : list (list A)) :
  shape2 R n m -> (1 <= R)%nat -> size1 m = n.
Proof.
  intros [Hm Hms] HR. destruct m as [|r m]; simpl in *; [lia|].
  inversion Hms as [|? ? Hr _]. exact Hr.
Qed.

Lemma conv1d_shape (B C T : nat) (L : Conv1d) (x : tensor3) :
  shape3 B C T x -> (1 <= B)%nat -> (1 <= C)%nat -> (1 <= T)%nat ->
  wf_layer C L ->
  exists y,
    conv1d L x = Some y
    /\ shape3 B C (Z.to_nat ((Z.of_nat T - 1) / stride L + 1)) y.
Proof.
  intros Hx HB HC HT (Hk & Hodd & Hp & Hs & Hw & Hb & Hws).
  destruct (shape3_size _ _ _ _ Hx HB HC) as [S1 S2].
  pose proof (Z.div_mod (kernel_size L) 2 ltac:(lia)) as Hdm.
  assert (Hlen : forall T', conv1d_out_len L T'
                       = (Z.of_nat T' - 1) / stride L + 1).
  { intros T'. unfold conv1d_out_len. do 2 f_equal. lia. }
  exists (map (conv1d_example L) x). split.
  - unfold conv1d. rewrite S1, S2.
    replace (forallb _ (weight L)) with true.
    2:{ symmetry. apply forallb_forall. intros w Hin.
        rewrite Forall_forall in Hws. apply Nat.eqb_eq. auto. }
    rewrite Hw, Hb, Nat.eqb_refl.
    destruct (Z.leb_spec (stride L) 0); [lia|].
    destruct (Z.leb_spec (kernel_size L) 0); [lia|].
    destruct (Z.ltb_spec (padding L) 0); [lia|].
    destruct (Z.ltb_spec (Z.of_nat T + 2 * padding L) (kernel_size L));
      [lia|].
    reflexivity.
  - destruct Hx as [Hx Hxs]. split; [rewrite length_map; exact Hx|].
    rewrite Forall_forall in *. intros yb Hyb.
    apply in_map_iff in Hyb. destruct Hyb as (xb & <- & Hin).
    specialize (Hxs _ Hin).
    unfold conv1d_example. rewrite (shape2_size _ _ _ Hxs HC). split.
    + rewrite length_map, length_combine. lia.
    + rewrite Forall_forall. intros r Hr.
      apply in_map_iff in Hr. destruct Hr as (p & <- & _).
      rewrite length_map, length_seq, Hlen. reflexivity.
Qed.

Lemma relu_shape (B C T : nat) (x : tensor3) :
  shape3 B C T x -> shape3 B C T (map (map (map relu)) x).
Proof.
  intros [Hx Hxs]. split; [rewrite length_map; exact Hx|].
  rewrite Forall_forall in *. intros yb Hyb.
  apply in_map_iff in Hyb. destruct Hyb as (xb & <- & Hin).
  destruct (Hxs _ Hin) as [Hb Hbs]. split; [rewrite length_map; exact Hb|].
  rewrite Forall_forall in *. intros r Hr.
  apply in_map_iff in Hr. destruct Hr as (q & <- & Hq).
  rewrite length_map. auto.
Qed.

Lemma apply_mask_shape (B C T : nat) (x : tensor3) (mask : list (list bool)) :
  shape3 B C T x -> shape2 B T mask -> shape3 B C T (apply_mask x mask).
Proof.
  intros [Hx Hxs] [Hm Hms]. unfold apply_mask. split.
  - rewrite length_map, length_combine. lia.
  - rewrite Forall_forall. intros yb Hyb.
    apply in_map_iff in Hyb. destruct Hyb as ([xb mr] & <- & Hin).
    destruct (in_combine_shape _ _ _ _ _ Hxs Hms Hin) as [[Hb Hbs] Hr].
    simpl in *. split; [rewrite length_map; exact Hb|].
    rewrite Forall_forall in *. intros r Hq.
    apply in_map_iff in Hq. destruct Hq as (xc & <- & Hxc).
    rewrite length_map, length_combine, (Hbs _ Hxc). lia.
Qed.

Lemma apply_mask_at (B C T : nat) (x : tensor3) (mask : list (list bool))
    (i c t : nat) :
  shape3 B C T x -> shape2 B T mask ->
  (i < B)%nat -> (c < C)%nat -> (t < T)%nat ->
  at3 (apply_mask x mask) i c t
  = (at3 x i c t * of_bool (nth t (nth i mask []) false))%Qc.
Proof.
  intros [Hx Hxs] [Hm Hms] Hi Hc Ht. unfold at3, apply_mask.
  rewrite (nth_map_in _ (combine x mask) i ([], []) [])
    by (rewrite length_combine; lia).
  rewrite combine_nth by lia. simpl.
  assert (Hb : shape2 C T (nth i x [])).
  { rewrite Forall_forall in Hxs. apply Hxs, nth_In. lia. }
  assert (Hr : length (nth i mask []) = T).
  { rewrite Forall_forall in Hms. apply Hms, nth_In. lia. }
  destruct Hb as [Hb Hbs].
  rewrite (nth_map_in _ _ _ [] []) by lia.
  assert (Hq : length (nth c (nth i x []) []) = T).
  { rewrite Forall_forall in Hbs. apply Hbs, nth_In. lia. }
  rewrite (nth_map_in _ _ _ (Q2Qc 0, false) _) by (rewrite length_combine; lia).
  rewrite combine_nth by lia. reflexivity.
Qed.

Lemma compute_conv_mask_facts (lengths : list Z) (s : Z) :
  lengths <> [] ->
  Forall (fun l => 1 <= l < 2 ^ 63) lengths ->
  1 <= s < 2 ^ 63 ->
  exists (T' : nat) (mask : list (list bool)),
    let valid_lengths := map (fun l => (l - 1) / s + 1) lengths in
    vqvae_lm.compute_conv_mask lengths s = Some (valid_lengths, mask)
    /\ In (Z.of_nat T') valid_lengths
    /\ Forall (fun v => 1 <= v <= Z.of_nat T') valid_lengths
    /\ shape2 (length lengths) T' mask
    /\ (forall i t : nat,
          (i < length lengths)%nat -> (t < T')%nat ->
          nth t (nth i mask []) false
          = (Z.of_nat t <? nth i valid_lengths 0)).
Proof.
  intros Hne Hl Hs.
  destruct (compute_conv_mask_eval lengths s Hne Hl Hs)
    as (T' & E & Hin & Hb).
  cbv zeta in *.
  set (vl := map (fun l => (l - 1) / s + 1) lengths) in *.
  set (row := fun x : Z => map (fun t => t <? x) (map Z.of_nat (seq 0 T'))).
  assert (Hlen : length vl = length lengths) by apply length_map.
  exists T', (map row vl). repeat split; try assumption.
  - rewrite length_map. exact Hlen.
  - rewrite Forall_forall. intros r Hr.
    apply in_map_iff in Hr. destruct Hr as (x & <- & _).
    unfold row. rewrite !length_map, length_seq. reflexivity.
  - intros i t Hi Ht.
    rewrite (nth_map_in row vl i 0 []) by lia.
    unfold row. apply mask_row_nth. exact Ht.
Qed.

(** Dividing by the stride keeps the greatest length the greatest. *)
Lemma strided_max (l : list Z) (s : Z) (T T' : nat) :
  1 <= s ->
  Forall (fun v => 1 <= v <= Z.of_nat T) l ->
  In (Z.of_nat T) l ->
  In (Z.of_nat T') (map (fun v => (v - 1) / s + 1) l) ->
  Forall (fun v => 1 <= v <= Z.of_nat T')
         (map (fun v => (v - 1) / s + 1) l) ->
  Z.of_nat T' = (Z.of_nat T - 1) / s + 1.
Proof.
  intros Hs Hl HT HT' Hb. rewrite Forall_forall in *.
  apply in_map_iff in HT'. destruct HT' as (v & Ev & Hv).
  specialize (Hl _ Hv).
  assert (Hle : (v - 1) / s <= (Z.of_nat T - 1) / s)
    by (apply Z.div_le_mono; lia).
  assert (Hge : 1 <= (Z.of_nat T - 1) / s + 1 <= Z.of_nat T').
  { apply Hb. apply in_map_iff. exists (Z.of_nat T). split; auto. }
  lia.
Qed.

Lemma forward_step_masks (B C T : nat) (x : tensor3) (l : list Z)
    (om : option (list (list bool))) (L : Conv1d) :
  batch_ok B C T x l -> wf_layer C L ->
  exists (T' : nat) (x' : tensor3) (m : list (list bool)),
    let l' := map (fun v => (v - 1) / stride L + 1) l in
    vqvae_lm.forward_step (x, l, om) (L, stride L) = Some (x', l', Some m)
    /\ vqvae_lm.compute_conv_mask l (stride L) = Some (l', m)
    /\ batch_ok B C T' x' l'
    /\ masked B C T' x' l' m.
Proof.
  intros (HB & HC & HT & HT63 & Hx & Hlen & Hl & Hin) HL.
  destruct (conv1d_shape B C T L x Hx HB HC HT HL) as (y & Ey & Hy).
  pose proof HL as (_ & _ & _ & Hs & _).
  assert (Hne : l <> []) by (destruct l; simpl in *; [lia | discriminate]).
  assert (Hl63 : Forall (fun v => 1 <= v < 2 ^ 63) l).
  { eapply Forall_impl; [|exact Hl]. simpl. intros; lia. }
  destruct (compute_conv_mask_facts l (stride L) Hne Hl63 Hs)
    as (T' & m & Em & Hin' & Hb' & Hm & Hnth).
  cbv zeta in *.
  set (l' := map (fun v => (v - 1) / stride L + 1) l) in *.
  pose proof (strided_max l (stride L) T T' ltac:(lia) Hl Hin Hin' Hb') as ET.
  rewrite <- ET, Nat2Z.id in Hy. rewrite Hlen in Hm.
  apply relu_shape in Hy.
  exists T', (apply_mask (map (map (map relu)) y) m), m.
  assert (HT' : (1 <= T')%nat).
  { pose proof (Z.div_pos (Z.of_nat T - 1) (stride L)). lia. }
  assert (HT'63 : Z.of_nat T' < 2 ^ 63).
  { assert ((Z.of_nat T - 1) / stride L <= Z.of_nat T - 1)
      by (apply Z.div_le_upper_bound; nia).
    lia. }
  assert (Hl'len : length l' = B) by (unfold l'; rewrite length_map; exact Hlen).
  pose proof (apply_mask_shape B C T' _ m Hy Hm) as Hsh.
  assert (Hzero : forall i c t, (i < B)%nat -> (c < C)%nat -> (t < T')%nat ->
            nth t (nth i m []) false = false ->
            at3 (apply_mask (map (map (map relu)) y) m) i c t = Q2Qc 0).
  { intros i c t Hi Hc Ht Hf.
    rewrite (apply_mask_at B C T') by assumption.
    rewrite Hf. simpl. ring. }
  split; [|split; [exact Em|split]].
  - unfold vqvae_lm.forward_step. simpl fst. simpl snd.
    rewrite Ey, Em. rewrite (mul3_mask B C T') by assumption. reflexivity.
  - exact (conj HB (conj HC (conj HT' (conj HT'63
             (conj Hsh (conj Hl'len (conj Hb' Hin'))))))).
  - refine (conj Hm (conj _ (conj Hzero _))).
    + intros i t Hi Ht. rewrite Hnth by lia. apply Z.ltb_lt.
    + intros i c t Hi Hc Hge.
      destruct (Nat.lt_ge_cases t T') as [Ht|Ht].
      * apply Hzero; try assumption.
        rewrite Hnth by lia. apply Z.ltb_ge. exact Hge.
      * unfold at3. apply nth_overflow.
        destruct Hsh as [Hs1 Hs2]. rewrite Forall_forall in Hs2.
        destruct (Hs2 (nth i (apply_mask (map (map (map relu)) y) m) []))
          as [Hb1 Hb2]; [apply nth_In; lia|].
        rewrite Forall_forall in Hb2.
        rewrite (Hb2 (nth c (nth i (apply_mask (map (map (map relu)) y) m) []) []))
          by (apply nth_In; lia).
        exact Ht.
Qed.


Lemma forward_loop_masks (B C : nat) (layers : list (Conv1d * Z)) :
  Forall (fun ls => wf_layer C (fst ls) /\ stride (fst ls) = snd ls) layers ->
  layers <> [] ->
  forall (T : nat) (x : tensor3) (l : list Z)
         (om : option (list (list bool))),
    batch_ok B C T x l ->
    exists (T' : nat) (x' : tensor3) (m : list (list bool)),
      let l' := strided_lengths (map snd layers) l in
      vqvae_lm.forward_loop layers (x, l, om) = Some (x', l', Some m)
      /\ batch_ok B C T' x' l'
      /\ masked B C T' x' l' m.
Proof.
  induction layers as [|[L s] r IH]; intros Hwf Hne T x l om Hok;
    [congruence|].
  inversion Hwf as [|? ? [HL Hs] Hr]; subst. simpl in Hs. subst s.
  destruct (forward_step_masks B C T x l om L Hok HL)
    as (T1 & x1 & m1 & E1 & _ & Hok1 & Hm1).
  cbv zeta in *.
  cbn [vqvae_lm.forward_loop map snd strided_lengths fold_left].
  rewrite E1.
  destruct r as [|ls r'].
  - exists T1, x1, m1. simpl. auto.
  - apply (IH Hr ltac:(discriminate) T1 x1 _ (Some m1) Hok1).
Qed.

Lemma init_layers_wf (C : nat) (kernels strides : list Z)
    (params : list (tensor3 * tensor1)) (qparams : tensor3 * tensor1) :
  Forall (fun k => 1 <= k /\ k mod 2 = 1) kernels ->
  Forall (fun s => 1 <= s < 2 ^ 63) strides ->
  Forall (fun p => length (fst p) = C /\ length (snd p) = C
                   /\ Forall (fun w => length w = C) (fst p)) params ->
  let self := vqvae_lm.ConvEncoder_init kernels strides params qparams in
  Forall (fun ls => wf_layer C (fst ls) /\ stride (fst ls) = snd ls)
         (combine (vqvae_lm.conv_blocks self) (vqvae_lm.strides self)).
Proof.
  intros Hk Hs Hp. simpl.
  revert strides params Hs Hp.
  induction Hk as [|k ks [Hk1 Hk2] _ IH]; intros strides params Hs Hp;
    [constructor|].
  destruct Hs as [|s ss Hs1 Hs]; [constructor|].
  destruct Hp as [|[w b] ps (Hw & Hb & Hws) Hp]; [constructor|].
  simpl. constructor.
  - simpl. unfold wf_layer. simpl. auto 10.
  - apply IH; assumption.
Qed.

End Masking.

(** ** The masking invariant on tensors of any shape *)

Section MaskingAnyShape.
Import Torch Shape.
Local Open Scope nat_scope.

Lemma traverse_nth {A B : Type} (f : A -> option B) (l : list A)
    (z : list B) (da : A) (db : B) :
  traverse f l = Some z ->
  length z = length l
  /\ forall i, i < length l -> f (nth i l da) = Some (nth i z db).
Proof.
  revert z. induction l as [|a l IH]; intros z H; simpl in H.
  - injection H as <-. split; [reflexivity|]. simpl. intros i Hi. lia.
  - destruct (f a) as [b|] eqn:Ea; [|discriminate].
    destruct (traverse f l) as [bs|]; [|discriminate].
    injection H as <-. destruct (IH bs eq_refl) as [Hlen Hnth].
    split; [simpl; congruence|].
    intros [|i] Hi; simpl in *; [exact Ea|]. apply Hnth. lia.
Qed.






End MaskingAnyShape.

(** ** The masking invariant, layer by layer *)

Section MaskingInvariant.
Import Torch Shape.
Local Open Scope Z_scope.


End MaskingInvariant.

(** ** Views of a flattened tensor *)

Section Views.
Import Torch Shape.
Local Open Scope nat_scope.

Lemma length_concat_rows {A : Type} (n : nat) (rows : list (list A)) :
  Forall (fun r => length r = n) rows ->
  length (concat rows) = length rows * n.
Proof.
  induction 1 as [|r rows Hr _ IH]; simpl; [reflexivity|].
  rewrite length_app, IH, Hr. reflexivity.
Qed.

Lemma chunks_concat {A : Type} (n : nat) (rows : list (list A)) :
  Forall (fun r => length r = n) rows ->
  map (fun i => firstn n (skipn (i * n) (concat rows)))
      (seq 0 (length rows))
  = rows.
Proof.
  induction 1 as [|r rows Hr _ IH]; simpl; [reflexivity|].
  f_equal.
  - rewrite firstn_app, Hr, Nat.sub_diag, firstn_O, app_nil_r.
    apply firstn_all2. lia.
  - rewrite <- seq_shift, map_map. rewrite <- IH at 2.
    apply map_ext. intros i.
    replace (S i * n) with (length r + i * n) by lia.
    rewrite skipn_app, skipn_all2 by lia. simpl.
    replace (length r + i * n - length r) with (i * n) by lia.
    reflexivity.
Qed.

Lemma view_rows_concat (n : nat) (rows : tensor2) :
  (1 <= n)%nat ->
  Forall (fun r => length r = n) rows ->
  view_rows n (concat rows) = Some rows.
Proof.
  intros Hn Hrows. unfold view_rows.
  destruct (Nat.eqb_spec n 0) as [?|_]; [lia|].
  rewrite (length_concat_rows n) by exact Hrows.
  rewrite Nat.Div0.mod_mul, Nat.div_mul by lia. simpl.
  f_equal. apply chunks_concat. exact Hrows.
Qed.

Lemma view2_concat {A : Type} (T B : nat) (m : list (list A)) :
  shape2 T B m -> view2 T B (concat m) = Some m.
Proof.
  intros [Hm Hrows]. unfold view2.
  rewrite (length_concat_rows B) by exact Hrows.
  rewrite Hm, Nat.eqb_refl. f_equal. rewrite <- Hm.
  apply chunks_concat. exact Hrows.
Qed.

Lemma traverse_map_map_some {A A' B : Type} (f : A' -> option B)
    (h : A -> A') (g : A -> B) (l : list A) :
  (forall a, In a l -> f (h a) = Some (g a)) ->
  traverse f (map h l) = Some (map g l).
Proof.
  induction l as [|a l IH]; intros H; simpl; [reflexivity|].
  rewrite (H a) by (now left). rewrite IH; [reflexivity|].
  intros b Hb. apply H. now right.
Qed.

Lemma combine_map_both {A B C : Type} (f : A -> B) (g : A -> C)
    (l : list A) :
  combine (map f l) (map g l) = map (fun a => (f a, g a)) l.
Proof. induction l; simpl; congruence. Qed.

Lemma bcast_single_l {A B C : Type} (f : A -> B -> option C)
    (g : A -> B -> C) (a : A) (y : list B) :
  (forall b, In b y -> f a b = Some (g a b)) ->
  bcast f [a] y = Some (map (fun b => g a b) y).
Proof.
  intros H.
  assert (G : traverse (fun b => f a b) y = Some (map (fun b => g a b) y))
    by (apply (traverse_map_some (fun b => f a b)); exact H).
  unfold bcast.
  destruct (Nat.eqb_spec (length [a]) (length y)) as [E|E].
  - destruct y as [|b [|b' y]]; try discriminate. simpl.
    rewrite (H b) by (now left). reflexivity.
  - destruct y as [|b [|b' y]]; exact G.
Qed.

End Views.

(** ** The assignment of the input vectors to codes *)

Section Assignment.
Import Torch Shape vqvae_lm.
Local Open Scope nat_scope.

Lemma matmul_rows (K : nat) (f : Qc -> Qc) (F E : tensor2) :
  Forall (fun x => length x = length E) F ->
  matmul K (map (map f) F) E
  = Some (map (fun x => map (fun j => dot (map f x) (column j E)) (seq 0 K))
              F).
Proof.
  intros H. unfold matmul.
  replace (forallb _ (map (map f) F)) with true.
  - rewrite map_map. reflexivity.
  - symmetry. apply forallb_forall. intros r Hr.
    apply in_map_iff in Hr. destruct Hr as (x & <- & Hx).
    rewrite Forall_forall in H. rewrite length_map, (H _ Hx).
    apply Nat.eqb_refl.
Qed.

Lemma sub2_keepdim (K : nat) (P : tensor1 -> nat -> Qc) (F : tensor2) :
  sub2 (sum1_keepdim (map (map pow2) F))
       (map (fun x => map (fun j => P x j) (seq 0 K)) F)
  = Some (map (fun x => map (fun j => (qsum (map pow2 x) - P x j)%Qc)
                            (seq 0 K)) F).
Proof.
  unfold sub2, sum1_keepdim. rewrite map_map.
  rewrite (bcast_same_length _
             (fun a row => map (fun b => (hd (Q2Qc 0) a - b)%Qc) row)).
  - rewrite combine_map_both, map_map. f_equal.
    apply map_ext. intros x. simpl. rewrite map_map. reflexivity.
  - rewrite !length_map. reflexivity.
  - intros p Hp. rewrite combine_map_both in Hp.
    apply in_map_iff in Hp. destruct Hp as (x & <- & _). simpl.
    apply (bcast_single_l (lift2 Qcminus) Qcminus). reflexivity.
Qed.

Lemma add2_row (K : nat) (D : tensor1 -> nat -> Qc) (c : nat -> Qc)
    (F : tensor2) :
  add2 (map (fun x => map (fun j => D x j) (seq 0 K)) F)
       [map c (seq 0 K)]
  = Some (map (fun x => map (fun j => (D x j + c j)%Qc) (seq 0 K)) F).
Proof.
  unfold add2.
  rewrite (bcast_single_r _
             (fun row crow => map (fun q => (fst q + snd q)%Qc)
                                  (combine row crow))).
  - rewrite map_map. f_equal. apply map_ext. intros x.
    rewrite combine_map_both, map_map. reflexivity.
  - intros row Hrow. apply in_map_iff in Hrow.
    destruct Hrow as (x & <- & _).
    apply (bcast_same_length (lift2 Qcplus) Qcplus).
    + rewrite !length_map. reflexivity.
    + reflexivity.
Qed.

Lemma dist_eval (C K : nat) (E F : tensor2) :
  1 <= C -> shape2 C K E -> Forall (fun x => length x = C) F ->
  (match matmul (size1 E) (map (map (fun a => ((1 + 1) * a)%Qc)) F) E with
   | Some p =>
       match sub2 (sum1_keepdim (map (map pow2) F)) p with
       | Some d => add2 d [sum0 (size1 E) (map (map pow2) E)]
       | None => None
       end
   | None => None
   end)
  = Some (map (dist_row E K) F).
Proof.
  intros HC HE HF.
  rewrite (shape2_size C K E HE HC).
  destruct HE as [HE _].
  assert (HF' : Forall (fun x => length x = length E) F)
    by (rewrite HE; exact HF).
  rewrite matmul_rows by exact HF'.
  rewrite (sub2_keepdim K
             (fun x j => dot (map (fun a => ((1 + 1) * a)%Qc) x) (column j E))).
  unfold sum0.
  rewrite (add2_row K _
             (fun j => qsum (map (fun r => nth j r (Q2Qc 0))
                                 (map (map pow2) E)))).
  reflexivity.
Qed.

Lemma Qcltb_lt (a b : Qc) : Qcltb a b = true <-> (a < b)%Qc.
Proof.
  unfold Qcltb. rewrite Qclt_alt.
  destruct (a ?= b)%Qc; split; congruence.
Qed.

Lemma Qcltb_ge (a b : Qc) : Qcltb a b = false <-> (b <= a)%Qc.
Proof.
  split.
  - intros H. apply Qcnot_lt_le. intros Hlt.
    apply Qcltb_lt in Hlt. congruence.
  - intros H. destruct (Qcltb a b) eqn:E; [|reflexivity].
    apply Qcltb_lt in E. apply Qcle_not_lt in H. contradiction.
Qed.

Lemma argmax_from_spec (l pre : tensor1) (best : Qc) (bi n : nat) :
  n = length pre ->
  bi < n ->
  nth bi pre (Q2Qc 0) = best ->
  (forall j, j < n -> (nth j pre (Q2Qc 0) <= best)%Qc) ->
  argmax_from best bi n l < n + length l
  /\ forall j, j < n + length l ->
       (nth j (pre ++ l) (Q2Qc 0)
        <= nth (argmax_from best bi n l) (pre ++ l) (Q2Qc 0))%Qc.
Proof.
  revert pre best bi n.
  induction l as [|x r IH]; intros pre best bi n Hn Hbi Hb Hmax.
  - simpl. rewrite app_nil_r, Nat.add_0_r, Hb. auto.
  - assert (Hlen : S n = length (pre ++ [x]))
      by (rewrite length_app; simpl; lia).
    assert (Happ : pre ++ x :: r = (pre ++ [x]) ++ r)
      by (rewrite <- app_assoc; reflexivity).
    simpl argmax_from. simpl length. rewrite Happ.
    replace (n + S (length r)) with (S n + length r) by lia.
    destruct (Qcltb best x) eqn:Ecmp.
    + apply Qcltb_lt in Ecmp. apply (IH (pre ++ [x]) x n (S n) Hlen).
      * lia.
      * rewrite app_nth2 by lia. replace (n - length pre) with 0 by lia.
        reflexivity.
      * intros j Hj. destruct (Nat.eq_dec j n) as [->|Hne].
        -- rewrite app_nth2 by lia.
           replace (n - length pre) with 0 by lia. apply Qcle_refl.
        -- rewrite app_nth1 by lia.
           apply Qcle_trans with best; [apply Hmax; lia|].
           apply Qclt_le_weak. exact Ecmp.
    + apply Qcltb_ge in Ecmp. apply (IH (pre ++ [x]) best bi (S n) Hlen).
      * lia.
      * rewrite app_nth1 by lia. exact Hb.
      * intros j Hj. destruct (Nat.eq_dec j n) as [->|Hne].
        -- rewrite app_nth2 by lia.
           replace (n - length pre) with 0 by lia. exact Ecmp.
        -- rewrite app_nth1 by lia. apply Hmax. lia.
Qed.

(** [max(1)] on a row with at least one entry: an index of the row at
    which the entry is greatest. *)
Lemma argmax_spec (l : tensor1) :
  l <> [] ->
  exists i : nat,
    argmax l = Some (Z.of_nat i)
    /\ i < length l
    /\ forall j, j < length l ->
         (nth j l (Q2Qc 0) <= nth i l (Q2Qc 0))%Qc.
Proof.
  destruct l as [|v r]; [congruence|]. intros _.
  exists (argmax_from v 0 1 r). split; [reflexivity|].
  apply (argmax_from_spec r [v] v 0 1); simpl; auto.
  intros j Hj. replace j with 0 by lia. apply Qcle_refl.
Qed.

Lemma dist_row_length (E : tensor2) (K : nat) (x : tensor1) :
  length (dist_row E K x) = K.
Proof. unfold dist_row. rewrite length_map, length_seq. reflexivity. Qed.

Lemma argmax_nearest (E : tensor2) (K : nat) (x : tensor1) :
  1 <= K -> argmax (map Qcopp (dist_row E K x)) = Some (nearest E K x).
Proof.
  intros HK. unfold nearest, argmax.
  destruct (map Qcopp (dist_row E K x)) eqn:El; [|reflexivity].
  apply (f_equal (@length Qc)) in El.
  rewrite length_map, dist_row_length in El. simpl in El. lia.
Qed.

(** The index chosen for [x] is a code, and no code has a smaller entry
    in the row of [dist]. *)
Lemma nearest_spec (E : tensor2) (K : nat) (x : tensor1) :
  1 <= K ->
  (0 <= nearest E K x < Z.of_nat K)%Z
  /\ forall k, k < K ->
       (nth (Z.to_nat (nearest E K x)) (dist_row E K x) (Q2Qc 0)
        <= nth k (dist_row E K x) (Q2Qc 0))%Qc.
Proof.
  intros HK.
  assert (Hne : map Qcopp (dist_row E K x) <> []).
  { intros El. apply (f_equal (@length Qc)) in El.
    rewrite length_map, dist_row_length in El. simpl in El. lia. }
  destruct (argmax_spec _ Hne) as (i & Ei & Hi & Hmax).
  rewrite argmax_nearest in Ei by exact HK. injection Ei as Ei.
  rewrite length_map, dist_row_length in Hi, Hmax.
  rewrite Ei, Nat2Z.id. split; [lia|].
  intros k Hk. specialize (Hmax k Hk).
  rewrite !(nth_map_in Qcopp _ _ (Q2Qc 0))
    in Hmax by (rewrite dist_row_length; lia).
  apply Qcopp_le_compat in Hmax. rewrite !Qcopp_involutive in Hmax.
  exact Hmax.
Qed.

Lemma shape3_concat {A : Type} (T B C : nat) (x : list (list (list A))) :
  shape3 T B C x ->
  Forall (fun r => length r = C) (concat x) /\ length (concat x) = T * B.
Proof.
  intros [Hx Hxs]. split.
  - apply Forall_concat. eapply Forall_impl; [|exact Hxs].
    intros xb [_ H]. exact H.
  - rewrite (length_concat_rows B), Hx; [reflexivity|].
    eapply Forall_impl; [|exact Hxs]. intros xb [H _]. exact H.
Qed.

Lemma shape2_concat {A : Type} (T B : nat) (m : list (list A)) :
  shape2 T B m -> length (concat m) = T * B.
Proof.
  intros [Hm Hms]. rewrite (length_concat_rows B), Hm; auto.
Qed.

Lemma shape3_rows {A : Type} (T B C : nat) (x : list (list (list A))) :
  shape3 T B C x -> shape2 T B x.
Proof.
  intros [Hx Hxs]. split; [exact Hx|].
  eapply Forall_impl; [|exact Hxs]. intros xb [H _]. exact H.
Qed.

Lemma shape2_map {A A' : Type} (f : A -> A') (T B : nat)
    (m : list (list A)) :
  shape2 T B m -> shape2 T B (map (map f) m).
Proof.
  intros [Hm Hms]. split; [rewrite length_map; exact Hm|].
  rewrite Forall_forall in *. intros r Hr.
  apply in_map_iff in Hr. destruct Hr as (q & <- & Hq).
  rewrite length_map. auto.
Qed.

Lemma embed_code_eval (self : Quantize) (ids : list (list Z)) :
  wf_quantize self ->
  Forall (Forall (fun i => (0 <= i < Z.of_nat (n_embed self))%Z)) ids ->
  embed_code self ids
  = Some (map (map (fun i => column (Z.to_nat i) (embed self))) ids).
Proof.
  intros (HC & HK & HE & _) Hids. unfold embed_code, embedding.
  rewrite (shape2_size _ _ _ HE HC).
  apply (traverse_map_some _ (map (fun i => column (Z.to_nat i) (embed self)))).
  intros row Hrow. rewrite Forall_forall in Hids. specialize (Hids _ Hrow).
  apply (traverse_map_some _ (fun i => column (Z.to_nat i) (embed self))).
  intros i Hi. rewrite Forall_forall in Hids. specialize (Hids _ Hi).
  unfold transpose. rewrite length_map, length_seq.
  destruct (Z.leb_spec 0 i); [|lia].
  destruct (Z.ltb_spec i (Z.of_nat (n_embed self))); [|lia]. simpl.
  f_equal. rewrite (nth_map_in _ _ _ 0%nat) by (rewrite length_seq; lia).
  rewrite seq_nth by lia. reflexivity.
Qed.

Lemma one_hot_eval (n : nat) (i : Z) :
  (0 <= i < Z.of_nat n)%Z -> one_hot n i = Some (hot n i).
Proof.
  intros Hi. unfold one_hot.
  destruct (Z.leb_spec 0 i); [|lia].
  destruct (Z.ltb_spec i (Z.of_nat n)); [|lia]. reflexivity.
Qed.

(** Lines 86 to 113 on well-shaped arguments. *)
Lemma assign_eval (self : Quantize) (T B : nat) (input : tensor3)
    (input_mask : list (list bool)) :
  wf_quantize self -> 1 <= T ->
  shape3 T B (dim self) input -> shape2 T B input_mask ->
  exists stats,
    assign self input input_mask
    = Some (concat input,
            map (fun x => hot (n_embed self)
                            (nearest (embed self) (n_embed self) x))
                (concat input),
            map (map (nearest (embed self) (n_embed self))) input,
            map (map (code (embed self) (n_embed self))) input,
            stats).
Proof.
  intros Hwf HT Hin Hmask.
  pose proof Hwf as (HC & HK & HE & _).
  destruct (shape3_concat T B _ input Hin) as [Hrows Hlen].
  set (E := embed self) in *. set (K := n_embed self) in *.
  eexists. unfold assign.
  rewrite (view_rows_concat _ _ HC Hrows).
  pose proof (dist_eval _ K E (concat input) HC HE Hrows) as Hd.
  fold E. destruct (matmul _ _ E) as [p|]; [|discriminate].
  destruct (sub2 _ p) as [d|]; [|discriminate].
  rewrite Hd. clear Hd.
  rewrite map_map.
  rewrite (traverse_map_map_some argmax _ (nearest E K))
    by (intros x _; apply argmax_nearest; exact HK).
  rewrite (traverse_map_map_some (one_hot K) _ (fun x => hot K (nearest E K x)))
    by (intros x _; apply one_hot_eval, nearest_spec; exact HK).
  assert (Hs1 : size1 input = B)
    by (apply (shape2_size T B); [apply (shape3_rows T B (dim self))|];
        assumption).
  rewrite Hs1. destruct Hin as [HinT Hins].
  rewrite HinT.
  rewrite concat_map.
  rewrite (view2_concat T B)
    by (apply shape2_map, (shape3_rows T B (dim self)); split; assumption).
  rewrite embed_code_eval; [|exact Hwf|].
  2:{ rewrite Forall_forall. intros r Hr. apply in_map_iff in Hr.
      destruct Hr as (xb & <- & _). rewrite Forall_forall. intros i Hi.
      apply in_map_iff in Hi. destruct Hi as (x & <- & _).
      apply nearest_spec. exact HK. }
  rewrite map_map.
  unfold index_rows. rewrite length_map.
  rewrite Hlen, (shape2_concat T B) by exact Hmask.
  rewrite Nat.eqb_refl.
  replace (map (fun x => map (fun i => column (Z.to_nat i) (embed self))
                             (map (nearest E K) x)) input)
    with (map (map (code E K)) input)
    by (apply map_ext; intros xb; rewrite map_map; reflexivity).
  reflexivity.
Qed.

End Assignment.

(** ** The straight-through estimator and [diff] *)

Section StraightThrough.
Import Torch Shape vqvae_lm.
Local Open Scope nat_scope.

Lemma bcast_map_same {A A' B' C : Type} (F : A' -> B' -> option C)
    (G : A -> C) (f : A -> A') (g : A -> B') (l : list A) :
  (forall a, In a l -> F (f a) (g a) = Some (G a)) ->
  bcast F (map f l) (map g l) = Some (map G l).
Proof.
  intros H. unfold bcast. rewrite !length_map, Nat.eqb_refl.
  rewrite combine_map_both.
  apply (traverse_map_map_some (fun p => F (fst p) (snd p))
           (fun a => (f a, g a)) G).
  exact H.
Qed.

Lemma bcast_map2 {A B A' B' C : Type} (F : A' -> B' -> option C)
    (G : A -> B -> C) (f : A -> A') (g : B -> B')
    (x : list A) (y : list B) :
  length x = length y ->
  (forall p, In p (combine x y) ->
     F (f (fst p)) (g (snd p)) = Some (G (fst p) (snd p))) ->
  bcast F (map f x) (map g y)
  = Some (map (fun p => G (fst p) (snd p)) (combine x y)).
Proof.
  intros Hlen H.
  replace (map f x) with (map (fun p => f (fst p)) (combine x y)).
  2:{ rewrite <- (map_map fst f). f_equal.
      clear H. revert y Hlen. induction x as [|a x IH]; intros [|b y] Hlen;
        simpl in *; try discriminate; [reflexivity|].
      f_equal. apply IH. lia. }
  replace (map g y) with (map (fun p => g (snd p)) (combine x y)).
  2:{ rewrite <- (map_map snd g). f_equal.
      clear H. revert y Hlen. induction x as [|a x IH]; intros [|b y] Hlen;
        simpl in *; try discriminate; [reflexivity|].
      f_equal. apply IH. lia. }
  apply bcast_map_same. exact H.
Qed.

(** [x * input_mask.unsqueeze(-1)] for [x] computed vector by vector
    from the input. *)
Lemma mul3_mask_last (T B : nat) (h : list Qc -> list Qc)
    (input : tensor3) (mask : list (list bool)) :
  shape2 T B input -> shape2 T B mask ->
  mul3 (map (map h) input) (unsqueeze_last (map (map of_bool) mask))
  = Some (map_tb (fun x m => vmask (h x) m) input mask).
Proof.
  intros [Hi His] [Hm Hms]. unfold mul3, unsqueeze_last, map_tb.
  rewrite map_map.
  apply (bcast_map2 _
           (fun xr mr => map (fun q => vmask (h (fst q)) (snd q))
                             (combine xr mr))); [congruence|].
  intros [xr mr] Hp. simpl.
  destruct (in_combine_shape _ _ _ _ _ His Hms Hp) as [Hx Hr]. simpl in *.
  rewrite map_map.
  apply (bcast_map2 (bcast (lift2 Qcmult))
           (fun x m => vmask (h x) m) h (fun m => [of_bool m]) xr mr);
    [congruence|].
  intros [x m] _. simpl.
  apply (bcast_single_r (lift2 Qcmult) Qcmult). reflexivity.
Qed.

(** An elementwise operation of two tensors computed vector by vector
    from the same input and mask. *)
Lemma bcast3_tb (P : list Qc -> Prop) (op : Qc -> Qc -> Qc)
    (f g : list Qc -> bool -> list Qc)
    (input : tensor3) (mask : list (list bool)) :
  Forall (Forall P) input ->
  (forall x m, P x -> length (f x m) = length (g x m)) ->
  bcast (bcast (bcast (lift2 op)))
        (map_tb f input mask) (map_tb g input mask)
  = Some (map_tb (fun x m =>
                    map (fun p => op (fst p) (snd p))
                        (combine (f x m) (g x m)))
                 input mask).
Proof.
  intros HP Hlen. unfold map_tb.
  apply (bcast_map_same (bcast (bcast (lift2 op)))). intros [xr mr] Hr.
  apply in_combine_l in Hr. rewrite Forall_forall in HP.
  specialize (HP _ Hr). simpl.
  apply (bcast_map_same (bcast (lift2 op))). intros [x m] Hx.
  apply in_combine_l in Hx. rewrite Forall_forall in HP.
  specialize (HP _ Hx). simpl.
  apply (bcast_same_length (lift2 op) op); [apply Hlen, HP | reflexivity].
Qed.

Lemma map_map_id {A : Type} (x : list (list A)) :
  map (map (fun a => a)) x = x.
Proof.
  rewrite <- (map_id x) at 2. apply map_ext. intros r. apply map_id.
Qed.

(** Lines 141 to 145 on a well-shaped input whose [quantize] is the
    lookup of the assigned codes. *)
Lemma straight_through_eval (C K T B : nat) (E : tensor2)
    (input : tensor3) (mask : list (list bool)) :
  shape2 C K E -> shape3 T B C input -> shape2 T B mask ->
  let out := fun x m =>
    map (fun p => (fst p + snd p)%Qc)
        (combine (vmask x m)
                 (vsub (vmask (code E K x) m) (vmask x m))) in
  let err := fun x m => vsub (vmask (code E K x) m) (vmask x m) in
  straight_through input (map (map (code E K)) input) mask
  = Some (map_tb out input mask,
          mean_all (map pow2 (concat (concat (map_tb err input mask))))).
Proof.
  intros HE Hin Hmask. cbv zeta. unfold straight_through, vsub.
  pose proof (shape3_rows T B C input Hin) as Hrows.
  rewrite (mul3_mask_last T B (code E K)) by assumption.
  pose proof (mul3_mask_last T B (fun a => a) input mask Hrows Hmask) as Hx.
  rewrite map_map_id in Hx. cbv beta in Hx. rewrite Hx. clear Hx.
  assert (HP : Forall (Forall (fun x : list Qc => length x = C)) input).
  { destruct Hin as [_ Hin]. eapply Forall_impl; [|exact Hin].
    intros xb [_ H]. exact H. }
  assert (Hl : forall x m, length x = C ->
                 length (vmask (code E K x) m) = length (vmask x m)).
  { intros x m Hx. unfold vmask, code, column. rewrite !length_map.
    destruct HE as [HE _]. congruence. }
  unfold sub3.
  rewrite (bcast3_tb _ Qcminus (fun x m => vmask (code E K x) m)
             (fun x m => vmask x m) input mask HP Hl).
  unfold add3.
  rewrite (bcast3_tb _ Qcplus (fun x m => vmask x m)
             (fun x m => map (fun p => (fst p - snd p)%Qc)
                             (combine (vmask (code E K x) m) (vmask x m)))
             input mask HP).
  - reflexivity.
  - intros x m Hx.
    rewrite length_map, length_combine, (Hl x m Hx). lia.
Qed.

End StraightThrough.

(** ** The statistics of a batch and the moving averages *)

Section Codebook.
Import Torch Shape vqvae_lm.
Local Open Scope nat_scope.

Lemma selected_concat {A : Type} (xs : list (list A * bool)) :
  map fst (filter snd
             (concat (map (fun p => map (fun a => (a, snd p)) (fst p)) xs)))
  = concat (map fst (filter snd xs)).
Proof.
  induction xs as [|[x b] xs IH]; simpl; [reflexivity|].
  rewrite filter_app, map_app, IH. destruct b; simpl.
  - f_equal. induction x as [|a x IHx]; simpl; congruence.
  - replace (filter snd (map (fun a => (a, false)) x)) with (@nil (A * bool)).
    + reflexivity.
    + induction x as [|a x IHx]; simpl; auto.
Qed.

(** [masked_select(m, mask.view(-1, 1)).view(-1, n)]: the rows of [m]
    at which the mask holds. *)
Lemma masked_select_rows (n : nat) (F : tensor2) (mflat : list bool) :
  1 <= n -> length F = length mflat ->
  Forall (fun r => length r = n) F ->
  match masked_select F (map (fun b => [b]) mflat) with
  | Some uf => view_rows n uf
  | None => None
  end
  = Some (map fst (filter snd (combine F mflat))).
Proof.
  intros Hn Hlen HF. unfold masked_select.
  rewrite <- (map_id F) at 1.
  rewrite (bcast_map2 _ (fun (x : list Qc) (b : bool) => map (fun a => (a, b)) x)
             (fun x => x) (fun b => [b]) F mflat Hlen).
  - rewrite (selected_concat (combine F mflat)).
    apply view_rows_concat; [exact Hn|].
    rewrite Forall_forall in *. intros r Hr.
    apply in_map_iff in Hr. destruct Hr as ([x b] & <- & Hin).
    apply filter_In in Hin. destruct Hin as [Hin _].
    apply in_combine_l in Hin. auto.
  - intros [x b] _. simpl.
    apply (bcast_single_r (lift2 (@pair Qc bool)) (@pair Qc bool)).
    reflexivity.
Qed.

Lemma filter_combine_map {A A' : Type} (f : A -> A') (F : list A)
    (m : list bool) :
  map fst (filter snd (combine (map f F) m))
  = map (fun xm => f (fst xm)) (filter snd (combine F m)).
Proof.
  revert m. induction F as [|x F IH]; intros [|b m]; simpl; try reflexivity.
  destruct b; simpl; rewrite IH; reflexivity.
Qed.

Lemma of_nat_S (n : nat) : of_nat (S n) = (1 + of_nat n)%Qc.
Proof.
  unfold of_nat. apply Qc_is_canon.
  unfold Qcplus. cbn [this Q2Qc]. rewrite !Qred_correct.
  rewrite Nat2Z.inj_succ. unfold Z.succ. rewrite inject_Z_plus.
  apply Qplus_comm.
Qed.

Lemma hot_nth (K : nat) (i : Z) (k : nat) :
  k < K ->
  nth k (hot K i) (Q2Qc 0)
  = if Nat.eqb k (Z.to_nat i) then Q2Qc 1 else Q2Qc 0.
Proof.
  intros Hk. unfold hot.
  rewrite (nth_map_in _ _ _ 0) by (rewrite length_seq; exact Hk).
  rewrite seq_nth by exact Hk. reflexivity.
Qed.

Lemma assigned_hot (E : tensor2) (K k : nat) (xm : list Qc * bool) :
  1 <= K -> k < K ->
  nth k (hot K (nearest E K (fst xm))) (Q2Qc 0)
  = if Z.eqb (nearest E K (fst xm)) (Z.of_nat k) then Q2Qc 1 else Q2Qc 0.
Proof.
  intros HK Hk. rewrite hot_nth by exact Hk.
  destruct (nearest_spec E K (fst xm) HK) as [Hn _].
  destruct (Nat.eqb_spec k (Z.to_nat (nearest E K (fst xm))));
    destruct (Z.eqb_spec (nearest E K (fst xm)) (Z.of_nat k));
    try reflexivity; lia.
Qed.

Lemma dot_map (A : Type) (a b : A -> Qc) (l : list A) :
  dot (map a l) (map b l) = qsum (map (fun x => (a x * b x)%Qc) l).
Proof.
  unfold dot. rewrite combine_map_both, map_map. reflexivity.
Qed.

(** Summing over the unmasked vectors with the one-hot entry of the code
    [k] as a weight is summing over the vectors assigned to [k]. *)
Lemma qsum_assigned (E : tensor2) (K k : nat) (a : list Qc * bool -> Qc)
    (xs : list (list Qc * bool)) :
  1 <= K -> k < K ->
  qsum (map (fun xm => (a xm * nth k (hot K (nearest E K (fst xm))) (Q2Qc 0))%Qc)
            (filter snd xs))
  = qsum (map a (filter (assigned E K k) xs)).
Proof.
  intros HK Hk. induction xs as [|[x b] xs IH]; simpl; [reflexivity|].
  unfold assigned at 1. simpl.
  destruct b; simpl; [|exact IH].
  pose proof (assigned_hot E K k (x, true) HK Hk) as Hh. simpl in Hh.
  rewrite Hh, IH.
  destruct (Z.eqb (nearest E K x) (Z.of_nat k)); simpl; ring.
Qed.

Lemma length_qsum_ones {A : Type} (l : list A) :
  qsum (map (fun _ => Q2Qc 1) l) = of_nat (length l).
Proof.
  induction l as [|a l IH]; simpl length.
  - apply Qc_is_canon. reflexivity.
  - rewrite of_nat_S. simpl. rewrite IH. reflexivity.
Qed.

(** Lines 115 to 119 on the flattened input and its one-hot rows. *)
Lemma batch_statistics_eval (self : Quantize) (F : tensor2)
    (input_mask : list (list bool)) :
  1 <= dim self -> 1 <= n_embed self ->
  length F = length (concat input_mask) ->
  Forall (fun r => length r = dim self) F ->
  let E := embed self in
  let K := n_embed self in
  batch_statistics self F
    (map (fun x => hot K (nearest E K x)) F) input_mask
  = Some (cluster_sum_of E K (combine F (concat input_mask)),
          embed_sum_of E (dim self) K (combine F (concat input_mask))).
Proof.
  intros HC HK Hlen HF. cbv zeta. unfold batch_statistics.
  set (E := embed self). set (K := n_embed self) in *.
  set (mflat := concat input_mask) in *.
  set (xs := combine F mflat).
  pose proof (masked_select_rows (dim self) F mflat HC Hlen HF) as H1.
  destruct (masked_select F _) as [uf|]; [|discriminate].
  rewrite H1. clear H1 uf.
  pose proof (masked_select_rows K (map (fun x => hot K (nearest E K x)) F)
                mflat HK) as H2.
  rewrite filter_combine_map in H2. fold xs in H2.
  destruct (masked_select (map _ F) _) as [uo|].
  2:{ exfalso. assert (@None (list (list Qc)) = Some
        (map (fun xm => hot K (nearest E K (fst xm))) (filter snd xs)));
        [|discriminate].
      apply H2; [rewrite length_map; exact Hlen|].
      rewrite Forall_forall. intros r Hr. apply in_map_iff in Hr.
      destruct Hr as (x & <- & _). unfold hot.
      rewrite length_map, length_seq. reflexivity. }
  rewrite H2.
  2:{ rewrite length_map; exact Hlen. }
  2:{ rewrite Forall_forall. intros r Hr. apply in_map_iff in Hr.
      destruct Hr as (x & <- & _). unfold hot.
      rewrite length_map, length_seq. reflexivity. }
  clear H2 uo. fold xs.
  set (L := filter snd xs).
  unfold matmul, transpose.
  replace (forallb _ _) with true.
  2:{ symmetry. apply forallb_forall. intros r Hr.
      apply in_map_iff in Hr. destruct Hr as (c & <- & _).
      rewrite !length_map. apply Nat.eqb_refl. }
  f_equal. f_equal.
  - unfold sum0, cluster_sum_of. apply map_ext_in. intros k Hk.
    apply in_seq in Hk. rewrite map_map. unfold count_assigned.
    rewrite <- length_qsum_ones.
    rewrite <- (qsum_assigned E K k (fun _ => Q2Qc 1) xs HK) by lia.
    fold L. f_equal. apply map_ext. intros xm. ring.
  - unfold embed_sum_of. rewrite map_map. apply map_ext. intros c.
    apply map_ext_in. intros k Hk. apply in_seq in Hk.
    unfold sum_assigned.
    rewrite <- (qsum_assigned E K k (fun xm => nth c (fst xm) (Q2Qc 0)) xs HK)
      by lia.
    fold L. rewrite map_map.
    replace (map (fun br : list Qc => nth k br (Q2Qc 0))
                 (map (fun xm : list Qc * bool => hot K (nearest E K (fst xm))) L))
      with (map (fun xm : list Qc * bool =>
                   nth k (hot K (nearest E K (fst xm))) (Q2Qc 0)) L)
      by (rewrite map_map; reflexivity).
    apply dot_map.
Qed.

Lemma inplace_same_length {A B : Type} (f : A -> B -> option A)
    (g : A -> B -> A) (a : list A) (b : list B) :
  length a = length b ->
  (forall p, In p (combine a b) ->
     f (fst p) (snd p) = Some (g (fst p) (snd p))) ->
  inplace f a b = Some (map (fun p => g (fst p) (snd p)) (combine a b)).
Proof.
  intros Hlen H. unfold inplace. rewrite Hlen, Nat.eqb_refl.
  apply (traverse_map_some (fun p => f (fst p) (snd p))). exact H.
Qed.

Lemma map_snd_combine {A B : Type} (a : list A) (b : list B) :
  length a = length b -> map snd (combine a b) = b.
Proof.
  revert b. induction a as [|x a IH]; intros [|y b] Hlen;
    simpl in *; try discriminate; [reflexivity|].
  f_equal. apply IH. lia.
Qed.

Lemma combine_map_l {A A' B : Type} (f : A -> A') (a : list A)
    (b : list B) :
  combine (map f a) b = map (fun p => (f (fst p), snd p)) (combine a b).
Proof.
  revert b. induction a as [|x a IH]; intros [|y b]; simpl; try reflexivity.
  f_equal. apply IH.
Qed.

Lemma inplace_map_gen {A B : Type} (F : A -> B -> option A)
    (G : A -> B -> A) (f : A -> A) (a : list A) (b : list B) :
  length a = length b ->
  (forall p, In p (combine a b) ->
     F (f (fst p)) (snd p) = Some (G (fst p) (snd p))) ->
  inplace F (map f a) b
  = Some (map (fun p => G (fst p) (snd p)) (combine a b)).
Proof.
  intros Hlen H. unfold inplace. rewrite length_map, Hlen, Nat.eqb_refl.
  rewrite combine_map_l.
  apply (traverse_map_map_some (fun p => F (fst p) (snd p))
           (fun p => (f (fst p), snd p)) (fun p => G (fst p) (snd p))).
  exact H.
Qed.

Lemma inplace_map_l (op : Qc -> Qc -> Qc) (f : Qc -> Qc) (a b : list Qc) :
  length a = length b ->
  inplace (lift2 op) (map f a) b
  = Some (map (fun p => op (f (fst p)) (snd p)) (combine a b)).
Proof.
  intros Hlen.
  rewrite (inplace_same_length (lift2 op) op).
  - rewrite combine_map_l, map_map. reflexivity.
  - rewrite length_map. exact Hlen.
  - reflexivity.
Qed.

Lemma ema_length (d : Qc) (a b : list Qc) (K : nat) :
  length a = K -> length b = K -> length (ema d a b) = K.
Proof.
  intros Ha Hb. unfold ema. rewrite length_map, length_combine. lia.
Qed.

(** Lines 125 to 139 on statistics of the shapes of the buffers. *)
Lemma ema_update_eval (self : Quantize) (cluster_sum : tensor1)
    (embed_sum : tensor2) :
  wf_quantize self ->
  length cluster_sum = n_embed self ->
  shape2 (dim self) (n_embed self) embed_sum ->
  let d := decay self in
  let cluster_size' := ema d (cluster_size self) cluster_sum in
  let embed_avg' :=
    map (fun p => ema d (fst p) (snd p))
        (combine (embed_avg self) embed_sum) in
  let n := qsum cluster_size' in
  let embed' :=
    map (fun row =>
           map (fun p => (fst p / snd p)%Qc)
               (combine row
                  (map (smoothed (eps self) (n_embed self) n)
                       cluster_size')))
        embed_avg' in
  exists stats,
    ema_update self cluster_sum embed_sum
    = Some ({| dim := dim self; n_embed := n_embed self;
               decay := decay self; eps := eps self;
               training := training self;
               embed := embed';
               cluster_size := cluster_size';
               embed_avg := embed_avg' |}, stats).
Proof.
  intros (HC & HK & HE & Hcs & Hea) Hsum Hes. cbv zeta.
  unfold ema_update.
  rewrite inplace_map_l by congruence. fold (ema (decay self) (cluster_size self) cluster_sum).
  set (cs' := ema (decay self) (cluster_size self) cluster_sum).
  assert (Hcs' : length cs' = n_embed self) by (apply ema_length; assumption).
  destruct Hea as [Hea1 Hea2]. destruct Hes as [Hes1 Hes2].
  rewrite (inplace_map_gen _ (fun a b => ema (decay self) a b)).
  2:{ congruence. }
  2:{ intros [a0 b0] Hin.
      destruct (in_combine_shape _ _ _ _ _ Hea2 Hes2 Hin) as [Ha Hb].
      simpl in *. apply inplace_map_l. congruence. }
  set (ea' := map (fun p => ema (decay self) (fst p) (snd p))
                  (combine (embed_avg self) embed_sum)).
  assert (Hea' : shape2 (dim self) (n_embed self) ea').
  { split.
    - unfold ea'. rewrite length_map, length_combine. lia.
    - rewrite Forall_forall. intros r Hr. apply in_map_iff in Hr.
      destruct Hr as ([a b] & <- & Hin).
      destruct (in_combine_shape _ _ _ _ _ Hea2 Hes2 Hin) as [Ha Hb].
      apply ema_length; assumption. }
  set (norm := map _ cs').
  assert (Hnorm : length norm = n_embed self)
    by (unfold norm; rewrite length_map; exact Hcs').
  unfold div2.
  rewrite (bcast_single_r _
             (fun row nrm => map (fun p => (fst p / snd p)%Qc)
                                 (combine row nrm))).
  2:{ intros row Hrow. destruct Hea' as [_ Hea'].
      rewrite Forall_forall in Hea'. specialize (Hea' _ Hrow).
      apply (bcast_same_length (lift2 Qcdiv) Qcdiv);
        [congruence | reflexivity]. }
  set (en := map (fun row => map _ (combine row norm)) ea').
  assert (Hen : shape2 (dim self) (n_embed self) en).
  { destruct Hea' as [H1 H2]. split.
    - unfold en. rewrite length_map. exact H1.
    - rewrite Forall_forall in *. intros r Hr. apply in_map_iff in Hr.
      destruct Hr as (row & <- & Hin).
      rewrite length_map, length_combine, (H2 _ Hin). lia. }
  destruct HE as [HE1 HE2]. destruct Hen as [Hen1 Hen2].
  rewrite (inplace_same_length _ (fun (_ b : list Qc) => b)).
  2:{ congruence. }
  2:{ intros [a b] Hin.
      destruct (in_combine_shape _ _ _ _ _ HE2 Hen2 Hin) as [Ha Hb].
      simpl in *.
      rewrite (inplace_same_length _ (fun (_ b : Qc) => b));
        [|congruence|reflexivity].
      f_equal. apply map_snd_combine. congruence. }
  cbv beta.
  replace (map (fun p : list Qc * list Qc => snd p) (combine (embed self) en))
    with en by (symmetry; apply map_snd_combine; congruence).
  eexists. reflexivity.
Qed.

End Codebook.

(** ** Runs of [Quantize.forward] *)

Section Runs.
Import Torch Shape vqvae_lm.
Local Open Scope nat_scope.

Lemma run_bind {A B : Type} (w : Comm) (p : Prog A) (f : A -> Prog B) :
  run w (bind p f)
  = match run w p with Some a => run w (f a) | None => None end.
Proof.
  induction p as [a| |t k IH|t k IH]; simpl; auto.
Qed.

Lemma collectives_bind {A B : Type} (w : Comm) (p : Prog A)
    (f : A -> Prog B) :
  collectives w (bind p f)
  = collectives w p
    ++ match run w p with Some a => collectives w (f a) | None => [] end.
Proof.
  induction p as [a| |t k IH|t k IH]; simpl; auto; f_equal; apply IH.
Qed.

Lemma run_lift {A : Type} (w : Comm) (o : option A) : run w (lift o) = o.
Proof. destruct o; reflexivity. Qed.

Lemma collectives_lift {A : Type} (w : Comm) (o : option A) :
  collectives w (lift o) = [].
Proof. destruct o; reflexivity. Qed.

(** The run of the branch [if self.training:]. *)
Lemma update_buffers_run (w : Comm) (self : Quantize) (device_count : nat)
    (flatten embed_onehot : tensor2) (input_mask : list (list bool)) :
  run w (update_buffers self device_count flatten embed_onehot input_mask)
  = match batch_statistics self flatten embed_onehot input_mask with
    | Some (cluster_sum, embed_sum) =>
        ema_update self (fed1 w device_count cluster_sum)
                   (fed2 w device_count embed_sum)
    | None => None
    end.
Proof.
  unfold update_buffers, fed1, fed2. rewrite run_bind, run_lift.
  destruct (batch_statistics _ _ _ _) as [[cs es]|]; [|reflexivity].
  rewrite run_bind.
  destruct (1 <? device_count); simpl; apply run_lift.
Qed.

Lemma update_buffers_collectives (w : Comm) (self : Quantize)
    (device_count : nat) (flatten embed_onehot : tensor2)
    (input_mask : list (list bool)) :
  collectives w
    (update_buffers self device_count flatten embed_onehot input_mask)
  = match batch_statistics self flatten embed_onehot input_mask with
    | Some (cluster_sum, embed_sum) =>
        if 1 <? device_count
        then [Reduced1 cluster_sum; Reduced2 embed_sum]
        else []
    | None => []
    end.
Proof.
  unfold update_buffers. rewrite collectives_bind, run_lift, collectives_lift.
  destruct (batch_statistics _ _ _ _) as [[cs es]|]; [|reflexivity].
  simpl app. rewrite collectives_bind.
  destruct (1 <? device_count); simpl.
  - rewrite collectives_lift. reflexivity.
  - apply collectives_lift.
Qed.

(** [forward] as the composition of its three parts. *)
Lemma forward_run (w : Comm) (self : Quantize) (device_count : nat)
    (input : tensor3) (input_mask : list (list bool)) :
  run w (Quantize_forward self device_count input input_mask)
  = match assign self input input_mask with
    | Some (flatten, embed_onehot, embed_ind, quantize, stats) =>
        match (if training self
               then match run w (update_buffers self device_count flatten
                                   embed_onehot input_mask) with
                    | Some (self', more) => Some (self', stats ++ more)
                    | None => None
                    end
               else Some (self, stats)) with
        | Some (self', stats') =>
            match straight_through input quantize input_mask with
            | Some (quantize', diff) =>
                Some (self', (quantize', diff, embed_ind, stats'))
            | None => None
            end
        | None => None
        end
    | None => None
    end.
Proof.
  unfold Quantize_forward. rewrite run_bind, run_lift.
  destruct (assign _ _ _) as [[[[[flatten onehot] ei] q] stats]|];
    [|reflexivity].
  rewrite run_bind.
  destruct (training self).
  - rewrite run_bind.
    destruct (run w (update_buffers _ _ _ _ _)) as [[self' more]|];
      [|reflexivity].
    cbn [run]. rewrite run_bind, run_lift.
    destruct (straight_through _ _ _) as [[q' diff]|]; reflexivity.
  - cbn [run]. rewrite run_bind, run_lift.
    destruct (straight_through _ _ _) as [[q' diff]|]; reflexivity.
Qed.

Lemma forward_collectives (w : Comm) (self : Quantize) (device_count : nat)
    (input : tensor3) (input_mask : list (list bool)) :
  collectives w (Quantize_forward self device_count input input_mask)
  = match assign self input input_mask with
    | Some (flatten, embed_onehot, _, _, _) =>
        if training self
        then collectives w (update_buffers self device_count flatten
                              embed_onehot input_mask)
        else []
    | None => []
    end.
Proof.
  unfold Quantize_forward. rewrite collectives_bind, run_lift, collectives_lift.
  destruct (assign _ _ _) as [[[[[flatten onehot] ei] q] stats]|];
    [|reflexivity].
  simpl app. rewrite collectives_bind.
  destruct (training self).
  - rewrite collectives_bind, run_bind.
    destruct (run w (update_buffers _ _ _ _ _)) as [[self' more]|].
    + cbn [run collectives]. rewrite collectives_bind, collectives_lift, run_lift.
      destruct (straight_through _ _ _) as [[q' diff]|];
        simpl; rewrite !app_nil_r; reflexivity.
    + rewrite !app_nil_r. reflexivity.
  - cbn [run collectives]. rewrite collectives_bind, collectives_lift, run_lift.
    destruct (straight_through _ _ _) as [[q' diff]|]; reflexivity.
Qed.

Lemma cluster_sum_of_length (E : tensor2) (K : nat)
    (xs : list (list Qc * bool)) :
  length (cluster_sum_of E K xs) = K.
Proof. unfold cluster_sum_of. rewrite length_map, length_seq. reflexivity. Qed.

Lemma embed_sum_of_shape (E : tensor2) (C K : nat)
    (xs : list (list Qc * bool)) :
  shape2 C K (embed_sum_of E C K xs).
Proof.
  unfold embed_sum_of. split.
  - rewrite length_map, length_seq. reflexivity.
  - rewrite Forall_forall. intros r Hr. apply in_map_iff in Hr.
    destruct Hr as (c & <- & _). rewrite length_map, length_seq. reflexivity.
Qed.

Lemma fed_shapes (C K : nat) (w : Comm) (device_count : nat)
    (cs : list Qc) (es : list (list Qc)) :
  comm_ok C K w -> length cs = K -> shape2 C K es ->
  length (fed1 w device_count cs) = K
  /\ shape2 C K (fed2 w device_count es).
Proof.
  intros [H1 H2] Hcs Hes. unfold fed1, fed2.
  destruct (1 <? device_count); auto.
Qed.

(** The run of [forward] on well-shaped arguments: it returns, and what
    it returns. *)
Lemma forward_eval (w : Comm) (self : Quantize) (device_count T B : nat)
    (input : tensor3) (input_mask : list (list bool)) :
  wf_quantize self -> 1 <= T ->
  shape3 T B (dim self) input -> shape2 T B input_mask ->
  comm_ok (dim self) (n_embed self) w ->
  let E := embed self in
  let K := n_embed self in
  let xs := combine (concat input) (concat input_mask) in
  let self' :=
    if training self
    then updated self (fed1 w device_count (cluster_sum_of E K xs))
                 (fed2 w device_count (embed_sum_of E (dim self) K xs))
    else self in
  exists stats,
    run w (Quantize_forward self device_count input input_mask)
    = Some (self',
            (map_tb (ste_out E K) input input_mask,
             mean_all (map pow2
                         (concat (concat (map_tb (ste_err E K)
                                            input input_mask)))),
             map (map (nearest E K)) input,
             stats)).
Proof.
  intros Hwf HT Hin Hmask Hw. cbv zeta.
  pose proof Hwf as (HC & HK & HE & _).
  rewrite forward_run.
  destruct (assign_eval self T B input input_mask Hwf HT Hin Hmask)
    as (stats0 & Ea).
  rewrite Ea.
  rewrite (straight_through_eval (dim self) (n_embed self) T B
             (embed self) input input_mask HE Hin Hmask).
  destruct (training self).
  - rewrite update_buffers_run.
    destruct (shape3_concat T B _ input Hin) as [Hrows Hlen].
    rewrite batch_statistics_eval;
      [|assumption|assumption
       |rewrite Hlen; symmetry; apply (shape2_concat T B); exact Hmask
       |exact Hrows].
    destruct (fed_shapes (dim self) (n_embed self) w device_count
                (cluster_sum_of (embed self) (n_embed self)
                   (combine (concat input) (concat input_mask)))
                (embed_sum_of (embed self) (dim self) (n_embed self)
                   (combine (concat input) (concat input_mask)))
                Hw (cluster_sum_of_length _ _ _)
                (embed_sum_of_shape _ _ _ _)) as [H1 H2].
    destruct (ema_update_eval self _ _ Hwf H1 H2) as (more & Eu).
    cbv zeta in Eu. rewrite Eu.
    eexists. reflexivity.
  - eexists. reflexivity.
Qed.

End Runs.

(** ** What [Quantize.forward] returns *)

Section Returned.
Import Torch Shape vqvae_lm.
Local Open Scope nat_scope.

Lemma map_tb_nth {A B C : Type} (f : A -> B -> C) (T Bn : nat)
    (x : list (list A)) (m : list (list B)) (t b : nat)
    (da : A) (db : B) (dc : C) :
  shape2 T Bn x -> shape2 T Bn m -> t < T -> b < Bn ->
  nth b (nth t (map_tb f x m) []) dc
  = f (nth b (nth t x []) da) (nth b (nth t m []) db).
Proof.
  intros [Hx Hxs] [Hm Hms] Ht Hb. unfold map_tb.
  rewrite (nth_map_in _ (combine x m) t ([], []) [])
    by (rewrite length_combine; lia).
  rewrite combine_nth by lia. simpl.
  assert (Hxr : length (nth t x []) = Bn)
    by (rewrite Forall_forall in Hxs; apply Hxs, nth_In; lia).
  assert (Hmr : length (nth t m []) = Bn)
    by (rewrite Forall_forall in Hms; apply Hms, nth_In; lia).
  rewrite (nth_map_in _ _ b (da, db) dc) by (rewrite length_combine; lia).
  rewrite combine_nth by lia. reflexivity.
Qed.







Lemma nth2_map_map {A A' : Type} (f : A -> A') (T Bn : nat)
    (x : list (list A)) (t b : nat) (da : A) (dc : A') :
  shape2 T Bn x -> t < T -> b < Bn ->
  nth b (nth t (map (map f) x) []) dc = f (nth b (nth t x []) da).
Proof.
  intros [Hx Hxs] Ht Hb.
  rewrite (nth_map_in _ x t [] []) by lia.
  apply nth_map_in.
  rewrite Forall_forall in Hxs. rewrite (Hxs (nth t x [])); [exact Hb|].
  apply nth_In. lia.
Qed.

Lemma shape3_vector {A : Type} (T Bn C : nat) (x : list (list (list A)))
    (t b : nat) :
  shape3 T Bn C x -> t < T -> b < Bn ->
  length (nth b (nth t x []) []) = C.
Proof.
  intros [Hx Hxs] Ht Hb. rewrite Forall_forall in Hxs.
  destruct (Hxs (nth t x [])) as [Hr Hrs]; [apply nth_In; lia|].
  rewrite Forall_forall in Hrs. apply Hrs, nth_In. lia.
Qed.

End Returned.

(** ** The commitment loss [diff] *)

Section Diff.
Import Torch Shape vqvae_lm.
Local Open Scope nat_scope.

Lemma pow2_nonneg (x : Qc) : (Q2Qc 0 <= pow2 x)%Qc.
Proof.
  unfold pow2, Qcle, Qcmult. cbn [this Q2Qc].
  rewrite !Qred_correct.
  destruct x as [[n d] Hx]. cbn [this]. unfold Qle, Qmult. simpl.
  rewrite Z.mul_1_r. apply Z.square_nonneg.
Qed.

Lemma qsum_nonneg (l : list Qc) :
  Forall (fun a => (Q2Qc 0 <= a)%Qc) l -> (Q2Qc 0 <= qsum l)%Qc.
Proof.
  induction 1 as [|a l Ha _ IH]; simpl.
  - apply Qcle_refl.
  - replace (Q2Qc 0) with (Q2Qc 0 + Q2Qc 0)%Qc by ring.
    apply Qcplus_le_compat; assumption.
Qed.

Lemma of_nat_nonneg (n : nat) : (Q2Qc 0 <= of_nat n)%Qc.
Proof.
  induction n as [|n IH].
  - unfold of_nat. simpl. apply Qcle_refl.
  - rewrite of_nat_S.
    replace (Q2Qc 0) with (Q2Qc 0 + Q2Qc 0)%Qc by ring.
    apply Qcplus_le_compat; [|exact IH].
    unfold Qcle. simpl. unfold Qle. simpl. lia.
Qed.







Lemma qsum_zeros (l : list Qc) :
  Forall (fun a => a = Q2Qc 0) l -> qsum l = Q2Qc 0.
Proof.
  induction 1 as [|a l Ha _ IH]; simpl; [reflexivity|].
  rewrite Ha, IH. ring.
Qed.






End Diff.

(** ** The update of the codebook *)

Section Update.
Import Torch Shape vqvae_lm.
Local Open Scope nat_scope.







(** C8. A call of [forward] in evaluation mode that returns leaves the
    module, and so the three buffers, as they were, whatever the input,
    the mask, the number of devices and the process group; on
    well-shaped arguments the call does return. *)
Theorem eval_mode_keeps_buffers (w : Comm) (self : Quantize)
    (device_count : nat) (input : tensor3)
    (input_mask : list (list bool)) :
  training self = false ->
  (forall self' out,
     run w (Quantize_forward self device_count input input_mask)
     = Some (self', out) ->
     self' = self
     /\ embed self' = embed self
     /\ cluster_size self' = cluster_size self
     /\ embed_avg self' = embed_avg self)
  /\ (forall T B,
        wf_quantize self -> 1 <= T ->
        shape3 T B (dim self) input -> shape2 T B input_mask ->
        exists out,
          run w (Quantize_forward self device_count input input_mask)
          = Some (self, out)).
Proof.
  intros Htr. split.
  - intros self' out Hrun. rewrite forward_run, Htr in Hrun.
    destruct (assign _ _ _) as [[[[[flatten onehot] ei] q] stats]|];
      [|discriminate].
    destruct (straight_through _ _ _) as [[q' diff]|]; [|discriminate].
    injection Hrun as <- _. auto.
  - intros T B Hwf HT Hin Hmask.
    rewrite forward_run, Htr.
    destruct (assign_eval self T B input input_mask Hwf HT Hin Hmask)
      as (stats0 & Ea).
    rewrite Ea.
    pose proof Hwf as (_ & _ & HE & _).
    rewrite (straight_through_eval (dim self) (n_embed self) T B
               (embed self) input input_mask HE Hin Hmask).
    eexists. reflexivity.
Qed.

(** [extract_codes] makes no collective call of its own: those of a run
    are those of the call of the bottom quantizer. *)
Lemma extract_codes_collectives (w : Comm) (vq : VQVAE)
    (device_count : nat) (full_tokens : list (list Z))
    (full_lengths : list Z) :
  collectives w (extract_codes vq device_count full_tokens full_lengths)
  = []
  \/ exists q x m,
       bottom_quantizer vq = Some q
       /\ collectives w
            (extract_codes vq device_count full_tokens full_lengths)
          = collectives w (Quantize_forward q device_count x m).
Proof.
  unfold extract_codes.
  rewrite collectives_bind, collectives_lift, run_lift.
  destruct (text_encoder vq full_tokens) as [eo|]; [|left; reflexivity].
  simpl app. rewrite collectives_bind, collectives_lift, run_lift.
  destruct (mul3 _ _) as [ci|]; [|left; reflexivity].
  simpl app. rewrite collectives_bind, collectives_lift, run_lift.
  destruct (ConvEncoder_forward _ _ _) as [[out om]|]; [|left; reflexivity].
  simpl app. rewrite collectives_bind, collectives_lift, run_lift.
  destruct om as [m|]; [|left; reflexivity].
  simpl app. rewrite collectives_bind, collectives_lift, run_lift.
  destruct (bottom_quantizer vq) as [q|] eqn:Eq; [|left; reflexivity].
  simpl app. rewrite collectives_bind.
  right. exists q, out, (transpose false (size1 m) m). split; [reflexivity|].
  destruct (run w (Quantize_forward q device_count out _))
    as [[q' [[[qz diff] ei] st]]|]; [|apply app_nil_r].
  rewrite collectives_bind, collectives_lift, run_lift.
  destruct (masked_fill _ _ _); simpl; rewrite !app_nil_r; reflexivity.
Qed.

(** The collective calls of a run of [Quantize.forward], read off its
    branches. *)
Lemma quantize_collectives_cases (w : Comm) (self : Quantize)
    (device_count : nat) (input : tensor3)
    (input_mask : list (list bool)) :
  collectives w (Quantize_forward self device_count input input_mask)
  = match assign self input input_mask with
    | Some (flatten, embed_onehot, _, _, _) =>
        if training self
        then match batch_statistics self flatten embed_onehot
                     input_mask with
             | Some (cluster_sum, embed_sum) =>
                 if 1 <? device_count
                 then [Reduced1 cluster_sum; Reduced2 embed_sum]
                 else []
             | None => []
             end
        else []
    | None => []
    end.
Proof.
  rewrite forward_collectives.
  destruct (assign _ _ _) as [[[[[flatten onehot] ei] q] stats]|];
    [|reflexivity].
  destruct (training self); [|reflexivity].
  apply update_buffers_collectives.
Qed.

(** [VQVAE.forward] makes no collective call of its own: those of a run
    are those of its call of the bottom quantizer, which it makes only
    after the pretraining steps. *)
Lemma vqvae_forward_collectives (w : Comm) (self : Model)
    (device_count : nat) (sorted_idx decoder_tokens : list (list Z))
    (lengths : list Z) (full_tokens : list (list Z)) (update_steps : Z) :
  collectives w
    (VQVAE_forward self device_count sorted_idx decoder_tokens lengths
       full_tokens update_steps)
  = []
  \/ exists q x m,
       bottom_quantizer (vqvae self) = Some q
       /\ (pretrain_steps self < update_steps)%Z
       /\ collectives w
            (VQVAE_forward self device_count sorted_idx decoder_tokens
               lengths full_tokens update_steps)
          = collectives w (Quantize_forward q device_count x m).
Proof.
  assert (Hlatent : forall (quantize : tensor3) (m : list (list bool)),
            collectives w
              match bottom_latent_encoder self with
              | Some f => lift (f quantize (map (map negb) m))
              | None => Ret quantize
              end = []).
  { intros quantize m. destruct (bottom_latent_encoder self);
      [apply collectives_lift | reflexivity]. }
  assert (Hdrop : collectives w
                    (if model_training self
                        && Qcltb (Q2Qc 0) (word_drop_rate self)
                     then lift (mask_words self sorted_idx decoder_tokens
                                  lengths)
                     else Ret decoder_tokens) = []).
  { destruct (model_training self && Qcltb (Q2Qc 0) (word_drop_rate self));
      [apply collectives_lift | reflexivity]. }
  unfold VQVAE_forward.
  rewrite collectives_bind, collectives_lift, run_lift.
  destruct (text_encoder (vqvae self) full_tokens) as [eo|];
    [|left; reflexivity].
  rewrite collectives_bind, collectives_lift, run_lift.
  destruct (mul3 _ _) as [ci|]; [|left; reflexivity].
  rewrite collectives_bind, collectives_lift, run_lift.
  destruct (ConvEncoder_forward _ _ _) as [[out om]|]; [|left; reflexivity].
  cbn [app]. rewrite collectives_bind.
  destruct (bottom_quantizer (vqvae self)) as [q|] eqn:Eq.
  - destruct (Z.ltb_spec (pretrain_steps self) update_steps) as [Hlt|Hge].
    + rewrite collectives_bind, collectives_lift, run_bind, run_lift.
      destruct om as [m|]; [|left; reflexivity].
      cbn [app]. rewrite collectives_bind, run_bind.
      right. exists q, out, (transpose false (size1 m) m).
      split; [reflexivity|]. split; [exact Hlt|].
      destruct (run w (Quantize_forward q device_count out _))
        as [[q' [[[qz diff] ei] st]]|]; [|rewrite !app_nil_r; reflexivity].
      cbn [collectives run]. rewrite app_nil_r.
      rewrite collectives_bind, collectives_lift, run_lift. cbn [app].
      rewrite collectives_bind, Hlatent. cbn [app].
      destruct (run w _) as [qz'|]; [|apply app_nil_r].
      rewrite collectives_bind, Hdrop. cbn [app].
      destruct (run w _) as [dt|]; [|apply app_nil_r].
      rewrite collectives_bind, collectives_lift, run_lift. cbn [app].
      destruct (decoder _ _ _ _); apply app_nil_r.
    + left. cbn [collectives run app].
      rewrite collectives_bind, collectives_lift, run_lift.
      destruct om as [m|]; [|reflexivity].
      cbn [app]. rewrite collectives_bind, Hlatent. cbn [app].
      destruct (run w _) as [qz'|]; [|reflexivity].
      rewrite collectives_bind, Hdrop. cbn [app].
      destruct (run w _) as [dt|]; [|reflexivity].
      rewrite collectives_bind, collectives_lift, run_lift. cbn [app].
      destruct (decoder _ _ _ _); reflexivity.
  - left. cbn [collectives run app].
    rewrite collectives_bind, collectives_lift, run_lift.
    destruct om as [m|]; [|reflexivity].
    cbn [app]. rewrite collectives_bind, Hlatent. cbn [app].
    destruct (run w _) as [qz'|]; [|reflexivity].
    rewrite collectives_bind, Hdrop. cbn [app].
    destruct (run w _) as [dt|]; [|reflexivity].
    rewrite collectives_bind, collectives_lift, run_lift. cbn [app].
    destruct (decoder _ _ _ _); reflexivity.
Qed.

(** C7. The only collective calls of the code are the two
    [all_reduce] of [Quantize.forward], of [cluster_sum] and then of
    [embed_sum]: a run makes them only in training mode with more than
    one device, and on well-shaped arguments it then makes exactly
    these two; in evaluation mode or with at most one device a run
    makes none.  [VQVAE.extract_codes] and [VQVAE.forward], the two
    functions that call the quantizer, make no collective call of
    their own: the calls of a run are those of their one call of
    [Quantize.forward], so that a run makes one only with a quantizer
    in training mode and more than one device, and [VQVAE.forward] only
    after the pretraining steps. *)
Theorem collectives_only_in_training (w : Comm) (self : Quantize)
    (device_count : nat) (input : tensor3)
    (input_mask : list (list bool)) :
  (collectives w (Quantize_forward self device_count input input_mask)
   <> [] ->
   training self = true /\ 1 < device_count)
  /\ (forall cs,
        collectives w (Quantize_forward self device_count input input_mask)
        = cs ->
        cs = []
        \/ exists cluster_sum embed_sum,
             cs = [Reduced1 cluster_sum; Reduced2 embed_sum])
  /\ (forall T B,
        wf_quantize self -> 1 <= T ->
        shape3 T B (dim self) input -> shape2 T B input_mask ->
        training self = true -> 1 < device_count ->
        let xs := combine (concat input) (concat input_mask) in
        collectives w (Quantize_forward self device_count input input_mask)
        = [Reduced1 (cluster_sum_of (embed self) (n_embed self) xs);
           Reduced2 (embed_sum_of (embed self) (dim self) (n_embed self)
                       xs)])
  /\ (forall (vq : VQVAE) (full_tokens : list (list Z))
             (full_lengths : list Z),
        let cs := collectives w
                    (extract_codes vq device_count full_tokens
                       full_lengths) in
        (cs = []
         \/ exists q x m,
              bottom_quantizer vq = Some q
              /\ cs = collectives w (Quantize_forward q device_count x m))
        /\ (cs <> [] ->
            exists q,
              bottom_quantizer vq = Some q
              /\ training q = true /\ 1 < device_count))
  /\ (forall (model : Model) (sorted_idx decoder_tokens : list (list Z))
             (lengths : list Z) (full_tokens : list (list Z))
             (update_steps : Z),
        let cs := collectives w
                    (VQVAE_forward model device_count sorted_idx
                       decoder_tokens lengths full_tokens update_steps) in
        (cs = []
         \/ exists q x m,
              bottom_quantizer (vqvae model) = Some q
              /\ (pretrain_steps model < update_steps)%Z
              /\ cs = collectives w (Quantize_forward q device_count x m))
        /\ (cs <> [] ->
            exists q,
              bottom_quantizer (vqvae model) = Some q
              /\ (pretrain_steps model < update_steps)%Z
              /\ training q = true /\ 1 < device_count)).
Proof.
  assert (Hne : forall (q : Quantize) (x : tensor3)
                       (m : list (list bool)),
            collectives w (Quantize_forward q device_count x m) <> [] ->
            training q = true /\ 1 < device_count).
  { intros q x m. rewrite quantize_collectives_cases.
    destruct (assign _ _ _) as [[[[[flatten onehot] ei] qz] stats]|];
      [|congruence].
    destruct (training q); [|congruence].
    destruct (batch_statistics _ _ _ _) as [[cs es]|]; [|congruence].
    destruct (Nat.ltb_spec 1 device_count); [auto | congruence]. }
  split; [|split; [|split; [|split]]].
  - apply Hne.
  - intros cs <-. rewrite quantize_collectives_cases.
    destruct (assign _ _ _) as [[[[[flatten onehot] ei] q] stats]|];
      [|auto].
    destruct (training self); [|auto].
    destruct (batch_statistics _ _ _ _) as [[cs es]|]; [|auto].
    destruct (1 <? device_count); [right; eauto | auto].
  - intros T B Hwf HT Hin Hmask Htr Hdc. cbv zeta.
    rewrite quantize_collectives_cases.
    destruct (assign_eval self T B input input_mask Hwf HT Hin Hmask)
      as (stats0 & Ea).
    rewrite Ea, Htr.
    pose proof Hwf as (HC & HK & _).
    destruct (shape3_concat T B _ input Hin) as [Hrows Hlen].
    rewrite batch_statistics_eval;
      [|assumption|assumption
       |rewrite Hlen; symmetry; apply (shape2_concat T B); exact Hmask
       |exact Hrows].
    destruct (Nat.ltb_spec 1 device_count); [reflexivity | lia].
  - intros vq full_tokens full_lengths cs.
    pose proof (extract_codes_collectives w vq device_count full_tokens
                  full_lengths) as H.
    fold cs in H. split; [exact H|].
    intros Hcs. destruct H as [H|(q & x & m & Eq & H)]; [contradiction|].
    exists q. split; [exact Eq|]. apply (Hne q x m). rewrite <- H.
    exact Hcs.
  - intros model sorted_idx decoder_tokens lengths full_tokens
           update_steps cs.
    pose proof (vqvae_forward_collectives w model device_count sorted_idx
                  decoder_tokens lengths full_tokens update_steps) as H.
    fold cs in H. split; [exact H|].
    intros Hcs. destruct H as [H|(q & x & m & Eq & Hlt & H)];
      [contradiction|].
    exists q. split; [exact Eq|]. split; [exact Hlt|].
    apply (Hne q x m). rewrite <- H. exact Hcs.
Qed.

End Update.

(** ** [VQVAE.extract_codes] *)

Section ExtractCodes.
Import Torch Shape vqvae_lm.
Local Open Scope nat_scope.

Lemma transpose_shape {A : Type} (d : A) (n : nat) (m : list (list A)) :
  shape2 n (length m) (transpose d n m).
Proof.
  unfold transpose. split.
  - rewrite length_map, length_seq. reflexivity.
  - rewrite Forall_forall. intros r Hr. apply in_map_iff in Hr.
    destruct Hr as (j & <- & _). apply length_map.
Qed.

Lemma transpose_nth {A : Type} (d : A) (R n : nat) (m : list (list A))
    (i j : nat) :
  length m = R -> i < R -> j < n ->
  nth i (nth j (transpose d n m) []) d = nth j (nth i m []) d.
Proof.
  intros Hm Hi Hj. unfold transpose.
  rewrite (nth_map_in _ _ j 0) by (rewrite length_seq; exact Hj).
  rewrite seq_nth by exact Hj. simpl.
  apply (nth_map_in (fun r => nth j r d) m i [] d). lia.
Qed.

Lemma transpose_map {A A' : Type} (f : A -> A') (d : A) (n : nat)
    (m : list (list A)) :
  transpose (f d) n (map (map f) m) = map (map f) (transpose d n m).
Proof.
  unfold transpose. rewrite map_map. apply map_ext. intros j.
  rewrite !map_map. apply map_ext. intros r. apply map_nth.
Qed.

Lemma permute201_shape (B C T : nat) (x : tensor3) :
  shape3 B C T x -> 1 <= B -> 1 <= C -> shape3 T B C (permute201 x).
Proof.
  intros Hx HB HC. destruct (shape3_size B C T x Hx HB HC) as [S1 S2].
  destruct Hx as [Hx Hxs]. unfold permute201. rewrite S2. split.
  - rewrite length_map, length_seq. reflexivity.
  - rewrite Forall_forall. intros r Hr. apply in_map_iff in Hr.
    destruct Hr as (t & <- & _). split.
    + rewrite length_map. exact Hx.
    + rewrite Forall_forall in *. intros v Hv. apply in_map_iff in Hv.
      destruct Hv as (xb & <- & Hxb). rewrite length_map.
      apply (Hxs _ Hxb).
Qed.

(** The shape of the output of a [Conv1d] of [C'] filters on [C]
    channels. *)
Lemma conv1d_shape_gen (B C C' T : nat) (L : Conv1d) (x : tensor3) :
  shape3 B C T x -> 1 <= B -> 1 <= C ->
  (0 < stride L)%Z -> (0 < kernel_size L)%Z -> (0 <= padding L)%Z ->
  (kernel_size L <= Z.of_nat T + 2 * padding L)%Z ->
  length (weight L) = C' -> length (bias L) = C' ->
  Forall (fun w => length w = C) (weight L) ->
  exists y,
    conv1d L x = Some y
    /\ shape3 B C' (Z.to_nat (conv1d_out_len L T)) y.
Proof.
  intros Hx HB HC Hs Hk Hp HT Hw Hb Hws.
  destruct (shape3_size _ _ _ _ Hx HB HC) as [S1 S2].
  exists (map (conv1d_example L) x). split.
  - unfold conv1d. rewrite S1, S2.
    replace (forallb _ (weight L)) with true.
    2:{ symmetry. apply forallb_forall. intros w Hin.
        rewrite Forall_forall in Hws. apply Nat.eqb_eq. auto. }
    rewrite Hw, Hb, Nat.eqb_refl.
    destruct (Z.leb_spec (stride L) 0); [lia|].
    destruct (Z.leb_spec (kernel_size L) 0); [lia|].
    destruct (Z.ltb_spec (padding L) 0); [lia|].
    destruct (Z.ltb_spec (Z.of_nat T + 2 * padding L) (kernel_size L));
      [lia|].
    reflexivity.
  - destruct Hx as [Hx Hxs]. split; [rewrite length_map; exact Hx|].
    rewrite Forall_forall in *. intros yb Hyb.
    apply in_map_iff in Hyb. destruct Hyb as (xb & <- & Hin).
    specialize (Hxs _ Hin).
    unfold conv1d_example. rewrite (shape2_size _ _ _ Hxs HC). split.
    + rewrite length_map, length_combine. lia.
    + rewrite Forall_forall. intros r Hr.
      apply in_map_iff in Hr. destruct Hr as (p & <- & _).
      rewrite length_map, length_seq. reflexivity.
Qed.

Lemma map_tb_shape_gen {A B C : Type} (f : A -> B -> C) (R n : nat)
    (x : list (list A)) (m : list (list B)) :
  shape2 R n x -> shape2 R n m -> shape2 R n (map_tb f x m).
Proof.
  intros [Hx Hxs] [Hm Hms]. unfold map_tb. split.
  - rewrite length_map, length_combine. lia.
  - rewrite Forall_forall. intros r Hr. apply in_map_iff in Hr.
    destruct Hr as ([xr mr] & <- & Hin).
    destruct (in_combine_shape _ _ _ _ _ Hxs Hms Hin) as [Ha Hb].
    simpl in *. rewrite length_map, length_combine. lia.
Qed.

(** [t.masked_fill(mask, v)] on a mask of the shape of [t]. *)
Lemma masked_fill_eval (R n : nat) (t : list (list Z))
    (mask : list (list bool)) (v : Z) :
  shape2 R n t -> shape2 R n mask ->
  masked_fill t mask v
  = Some (map_tb (fun (a : Z) (m : bool) => if m then v else a) t mask).
Proof.
  intros [Ht Hts] [Hm Hms]. unfold masked_fill, map_tb.
  apply (inplace_same_length _
           (fun (row : list Z) (mrow : list bool) =>
              map (fun q : Z * bool => if snd q then v else fst q)
                  (combine row mrow)));
    [congruence|].
  intros [row mrow] Hin.
  destruct (in_combine_shape _ _ _ _ _ Hts Hms Hin) as [Ha Hb].
  simpl in *.
  apply (inplace_same_length _ (fun (a : Z) (m : bool) => if m then v else a));
    [congruence | reflexivity].
Qed.

End ExtractCodes.

(** ** The order of the float32 numbers *)

Section Float32Order.
Import Float32 Shape32.
Local Open Scope nat_scope.

(** Values of the rounding: 0.1 in float32; the square of 4097 and
    the product 2 * 4097 * 4099, each half way between two numbers of
    float32, go to the one of even significand; a number of 2 ^ 128
    and more is an infinity; half of the least subnormal number,
    2 ^ -149, goes to zero and three halves of it to 2 ^ -148. *)
Lemma round32_values :
  exact (round32 (Q2Qc (1 # 10))) = Q2Qc (13421773 # 134217728)
  /\ exact (of_Z 16785409) = Q2Qc (inject_Z 16785408)
  /\ exact (of_Z 33587206) = Q2Qc (inject_Z 33587208)
  /\ round32 (Q2Qc (inject_Z (2 ^ 128))) = Inf false
  /\ round32 (Q2Qc (inject_Z (- 2 ^ 128))) = Inf true
  /\ finite (round32 (Q2Qc (inject_Z (2 ^ 128 - 2 ^ 103 - 1)))) = true
  /\ exact (round32 (Q2Qc (1 # 2 ^ 150))) = Q2Qc 0
  /\ exact (round32 (Q2Qc (3 # 2 ^ 150))) = Q2Qc (1 # 2 ^ 148).
Proof.
  repeat split; try (vm_compute; reflexivity);
    apply Qc_is_canon; vm_compute; reflexivity.
Qed.

Lemma leb_fin (a b : Qc) : leb (Fin a) (Fin b) = true <-> (a <= b)%Qc.
Proof.
  simpl. rewrite Qcle_alt.
  destruct (a ?= b)%Qc; split; congruence.
Qed.

Lemma leb_refl (x : float) : is_nan x = false -> leb x x = true.
Proof.
  destruct x as [a|s|]; simpl; intros H; try discriminate.
  - apply leb_fin. apply Qcle_refl.
  - destruct s; reflexivity.
Qed.

Lemma leb_not_nan (x y : float) :
  leb x y = true -> is_nan x = false /\ is_nan y = false.
Proof.
  destruct x as [a|s|], y as [b|s'|]; simpl; intros H;
    try discriminate; auto.
Qed.

Lemma leb_trans (x y z : float) :
  leb x y = true -> leb y z = true -> leb x z = true.
Proof.
  destruct x as [a|[|]|], y as [b|[|]|], z as [c|[|]|]; simpl;
    try discriminate; try (intros; reflexivity).
  intros H1 H2. apply leb_fin. apply leb_fin in H1. apply leb_fin in H2.
  apply Qcle_trans with b; assumption.
Qed.

Lemma leb_total (x y : float) :
  is_nan x = false -> is_nan y = false ->
  leb x y = true \/ leb y x = true.
Proof.
  destruct x as [a|s|], y as [b|s'|]; simpl; intros Hx Hy;
    try discriminate.
  - destruct (Qclt_le_dec b a) as [H|H].
    + right. apply leb_fin. apply Qclt_le_weak. exact H.
    + left. apply leb_fin. exact H.
  - destruct s'; auto.
  - destruct s; auto.
  - destruct s, s'; auto.
Qed.

Lemma ltb_leb (x y : float) :
  is_nan x = false -> is_nan y = false ->
  ltb x y = negb (leb y x).
Proof.
  destruct x as [a|s|], y as [b|s'|]; simpl; intros Hx Hy;
    try discriminate; reflexivity.
Qed.

Lemma leb_neg (x y : float) : leb (neg x) (neg y) = leb y x.
Proof.
  destruct x as [a|[|]|], y as [b|[|]|]; simpl; try reflexivity.
  change (leb (Fin (- a)) (Fin (- b)) = leb (Fin b) (Fin a)).
  apply eq_true_iff_eq. rewrite !leb_fin. split; intros H.
  - apply Qcopp_le_compat in H. rewrite !Qcopp_involutive in H. exact H.
  - apply Qcopp_le_compat. exact H.
Qed.

Lemma is_nan_neg (x : float) : is_nan (neg x) = is_nan x.
Proof. destruct x; reflexivity. Qed.

End Float32Order.

(** ** The assignment of the input vectors to codes, in float32 *)

Section Assignment32.
Import Torch Shape Float32 Torch32 vqvae_lm32 Shape32.
Local Open Scope nat_scope.

Lemma view_rows32_concat (n : nat) (rows : tensor2) :
  1 <= n ->
  Forall (fun r => length r = n) rows ->
  view_rows n (concat rows) = Some rows.
Proof.
  intros Hn Hrows. unfold view_rows.
  destruct (Nat.eqb_spec n 0) as [?|_]; [lia|].
  rewrite (length_concat_rows n) by exact Hrows.
  rewrite Nat.Div0.mod_mul, Nat.div_mul by lia. simpl.
  f_equal. apply chunks_concat. exact Hrows.
Qed.

Lemma matmul32_rows (K : Kernels) (n : nat) (f : float -> float)
    (F E : tensor2) :
  Forall (fun x => length x = length E) F ->
  matmul K n (map (map f) F) E
  = Some (map (fun x =>
                 map (fun j => kacc K zero (combine (map f x) (column j E)))
                     (seq 0 n))
              F).
Proof.
  intros H. unfold matmul.
  replace (forallb _ (map (map f) F)) with true.
  - rewrite map_map. reflexivity.
  - symmetry. apply forallb_forall. intros r Hr.
    apply in_map_iff in Hr. destruct Hr as (x & <- & Hx).
    rewrite Forall_forall in H. rewrite length_map, (H _ Hx).
    apply Nat.eqb_refl.
Qed.

Lemma sub2_keepdim32 (K : Kernels) (n : nat) (P : tensor1 -> nat -> float)
    (F : tensor2) :
  sub2 (sum1_keepdim K (map (map pow2) F))
       (map (fun x => map (fun j => P x j) (seq 0 n)) F)
  = Some (map (fun x =>
                 map (fun j => sub (ksum K (map pow2 x)) (P x j)) (seq 0 n))
              F).
Proof.
  unfold sub2, sum1_keepdim. rewrite map_map.
  rewrite (bcast_same_length _
             (fun a row => map (fun b => sub (hd zero a) b) row)).
  - rewrite combine_map_both, map_map. f_equal.
    apply map_ext. intros x. simpl. rewrite map_map. reflexivity.
  - rewrite !length_map. reflexivity.
  - intros p Hp. rewrite combine_map_both in Hp.
    apply in_map_iff in Hp. destruct Hp as (x & <- & _). simpl.
    apply (bcast_single_l (lift2 sub) sub). reflexivity.
Qed.

Lemma add2_row32 (n : nat) (D : tensor1 -> nat -> float)
    (c : nat -> float) (F : tensor2) :
  add2 (map (fun x => map (fun j => D x j) (seq 0 n)) F)
       [map c (seq 0 n)]
  = Some (map (fun x => map (fun j => add (D x j) (c j)) (seq 0 n)) F).
Proof.
  unfold add2.
  rewrite (bcast_single_r _
             (fun row crow => map (fun q => add (fst q) (snd q))
                                  (combine row crow))).
  - rewrite map_map. f_equal. apply map_ext. intros x.
    rewrite combine_map_both, map_map. reflexivity.
  - intros row Hrow. apply in_map_iff in Hrow.
    destruct Hrow as (x & <- & _).
    apply (bcast_same_length (lift2 add) add).
    + rewrite !length_map. reflexivity.
    + reflexivity.
Qed.

(** The tensor [dist] holds, for each row of the flattened input, the
    row [dist_row] describes. *)
Lemma dist32_eval (K : Kernels) (C n : nat) (E F : tensor2) :
  1 <= C -> shape2 C n E -> Forall (fun x => length x = C) F ->
  (match matmul K (size1 E) (map (map (mul (of_Z 2))) F) E with
   | Some p =>
       match sub2 (sum1_keepdim K (map (map pow2) F)) p with
       | Some d => add2 d [sum0 K (size1 E) (map (map pow2) E)]
       | None => None
       end
   | None => None
   end)
  = Some (map (dist_row K E n) F).
Proof.
  intros HC HE HF.
  rewrite (shape2_size C n E HE HC).
  destruct HE as [HE _].
  assert (HF' : Forall (fun x => length x = length E) F)
    by (rewrite HE; exact HF).
  rewrite matmul32_rows by exact HF'.
  rewrite (sub2_keepdim32 K n
             (fun x j => kacc K zero
                           (combine (map (mul (of_Z 2)) x) (column j E)))).
  unfold sum0.
  rewrite (add2_row32 n _
             (fun j => ksum K (map (fun r => nth j r zero)
                                   (map (map pow2) E)))).
  reflexivity.
Qed.

(** The loop of [max(1)] on a row without NaN: the index it returns
    holds a greatest element, and every element before it is
    smaller. *)
Lemma argmax32_from_spec (l pre : tensor1) (best : float) (bi n : nat) :
  n = length pre ->
  bi < n ->
  nth bi pre zero = best ->
  Forall (fun x => is_nan x = false) (pre ++ l) ->
  (forall j, j < n -> leb (nth j pre zero) best = true) ->
  (forall j, j < bi -> leb best (nth j pre zero) = false) ->
  let i := argmax_from best bi n l in
  i < n + length l
  /\ (forall j, j < n + length l ->
        leb (nth j (pre ++ l) zero) (nth i (pre ++ l) zero) = true)
  /\ (forall j, j < i ->
        leb (nth i (pre ++ l) zero) (nth j (pre ++ l) zero) = false).
Proof.
  revert pre best bi n.
  induction l as [|x r IH]; intros pre best bi n Hn Hbi Hb Hnan Hmax Hfirst.
  - cbv zeta. simpl. rewrite app_nil_r, Nat.add_0_r, Hb.
    split; [exact Hbi|]. split; [exact Hmax | exact Hfirst].
  - assert (Hlen : S n = length (pre ++ [x]))
      by (rewrite length_app; simpl; lia).
    assert (Happ : pre ++ x :: r = (pre ++ [x]) ++ r)
      by (rewrite <- app_assoc; reflexivity).
    assert (Hbest : is_nan best = false).
    { rewrite Forall_forall in Hnan. apply Hnan. rewrite <- Hb.
      apply in_or_app. left. apply nth_In. lia. }
    assert (Hx : is_nan x = false).
    { rewrite Forall_forall in Hnan. apply Hnan.
      apply in_or_app. right. left. reflexivity. }
    cbv zeta. simpl argmax_from. simpl length. rewrite Happ, Hbest.
    replace (n + S (length r)) with (S n + length r) by lia.
    rewrite Happ in Hnan.
    destruct (leb x best) eqn:Ecmp.
    + apply (IH (pre ++ [x]) best bi (S n) Hlen).
      * lia.
      * rewrite app_nth1 by lia. exact Hb.
      * exact Hnan.
      * intros j Hj. destruct (Nat.eq_dec j n) as [->|Hne].
        -- rewrite app_nth2 by lia.
           replace (n - length pre) with 0 by lia. exact Ecmp.
        -- rewrite app_nth1 by lia. apply Hmax. lia.
      * intros j Hj. rewrite app_nth1 by lia. apply Hfirst. exact Hj.
    + assert (Hbx : leb best x = true).
      { destruct (leb_total best x Hbest Hx) as [H|H];
          [exact H | congruence]. }
      apply (IH (pre ++ [x]) x n (S n) Hlen).
      * lia.
      * rewrite app_nth2 by lia. replace (n - length pre) with 0 by lia.
        reflexivity.
      * exact Hnan.
      * intros j Hj. destruct (Nat.eq_dec j n) as [->|Hne].
        -- rewrite app_nth2 by lia.
           replace (n - length pre) with 0 by lia. apply leb_refl, Hx.
        -- rewrite app_nth1 by lia.
           apply leb_trans with best; [apply Hmax; lia | exact Hbx].
      * intros j Hj. rewrite app_nth1 by lia.
        destruct (leb x (nth j pre zero)) eqn:E; [|reflexivity].
        rewrite <- Ecmp. symmetry.
        apply leb_trans with (nth j pre zero); [exact E|].
        apply Hmax. lia.
Qed.

Lemma argmax32_spec (l : tensor1) :
  l <> [] -> Forall (fun x => is_nan x = false) l ->
  exists i : nat,
    argmax l = Some (Z.of_nat i)
    /\ i < length l
    /\ (forall j, j < length l ->
          leb (nth j l zero) (nth i l zero) = true)
    /\ (forall j, j < i -> leb (nth i l zero) (nth j l zero) = false).
Proof.
  destruct l as [|v r]; [congruence|]. intros _ Hnan.
  exists (argmax_from v 0 1 r). split; [reflexivity|].
  apply (argmax32_from_spec r [v] v 0 1); simpl; auto.
  - intros j Hj. replace j with 0 by lia. apply leb_refl.
    inversion Hnan; assumption.
  - intros j Hj. lia.
Qed.

(** Whatever the row holds, the index is one of the row. *)
Lemma argmax32_from_range (l : tensor1) (best : float) (bi n : nat) :
  bi < n -> argmax_from best bi n l < n + length l.
Proof.
  revert best bi n. induction l as [|x r IH]; intros best bi n Hbi; simpl.
  - lia.
  - destruct (is_nan best); [lia|].
    destruct (leb x best).
    + specialize (IH best bi (S n)). lia.
    + specialize (IH x n (S n)). lia.
Qed.

Lemma dist_row32_length (K : Kernels) (E : tensor2) (n : nat)
    (x : tensor1) :
  length (dist_row K E n x) = n.
Proof. unfold dist_row. rewrite length_map, length_seq. reflexivity. Qed.

Lemma argmax32_nearest (K : Kernels) (E : tensor2) (n : nat) (x : tensor1) :
  1 <= n -> argmax (map neg (dist_row K E n x)) = Some (nearest K E n x).
Proof.
  intros Hn. unfold nearest, argmax.
  destruct (map neg (dist_row K E n x)) eqn:El; [|reflexivity].
  apply (f_equal (@length float)) in El.
  rewrite length_map, dist_row32_length in El. simpl in El. lia.
Qed.

Lemma nearest32_range (K : Kernels) (E : tensor2) (n : nat) (x : tensor1) :
  1 <= n -> (0 <= nearest K E n x < Z.of_nat n)%Z.
Proof.
  intros Hn. unfold nearest.
  destruct (map neg (dist_row K E n x)) as [|v r] eqn:El.
  - lia.
  - apply (f_equal (@length float)) in El.
    rewrite length_map, dist_row32_length in El. simpl in El.
    pose proof (argmax32_from_range r v 0 1 ltac:(lia)). lia.
Qed.

(** The index chosen for [x], when no entry of its row of [dist] is
    NaN: no code has a smaller entry, and every code before it has a
    greater one. *)
Lemma nearest32_spec (K : Kernels) (E : tensor2) (n : nat) (x : tensor1) :
  1 <= n ->
  Forall (fun d => is_nan d = false) (dist_row K E n x) ->
  let i := Z.to_nat (nearest K E n x) in
  (forall k, k < n ->
     leb (nth i (dist_row K E n x) zero) (nth k (dist_row K E n x) zero)
     = true)
  /\ (forall k, k < i ->
        ltb (nth i (dist_row K E n x) zero)
            (nth k (dist_row K E n x) zero) = true).
Proof.
  intros Hn Hnan. cbv zeta.
  assert (Hne : map neg (dist_row K E n x) <> []).
  { intros El. apply (f_equal (@length float)) in El.
    rewrite length_map, dist_row32_length in El. simpl in El. lia. }
  assert (Hnan' : Forall (fun d => is_nan d = false)
                         (map neg (dist_row K E n x))).
  { rewrite Forall_map. eapply Forall_impl; [|exact Hnan].
    intros d Hd. rewrite is_nan_neg. exact Hd. }
  destruct (argmax32_spec _ Hne Hnan') as (i & Ei & Hi & Hmax & Hfirst).
  rewrite argmax32_nearest in Ei by exact Hn. injection Ei as Ei.
  rewrite length_map, dist_row32_length in Hi, Hmax.
  rewrite Ei, Nat2Z.id.
  assert (Hnth : forall k, k < n ->
            nth k (map neg (dist_row K E n x)) zero
            = neg (nth k (dist_row K E n x) zero)).
  { intros k Hk. apply (nth_map_in neg).
    rewrite dist_row32_length. exact Hk. }
  assert (Hd : forall k, k < n ->
            is_nan (nth k (dist_row K E n x) zero) = false).
  { intros k Hk. rewrite Forall_forall in Hnan. apply Hnan, nth_In.
    rewrite dist_row32_length. exact Hk. }
  split.
  - intros k Hk. specialize (Hmax k Hk).
    rewrite !Hnth in Hmax by assumption.
    rewrite leb_neg in Hmax. exact Hmax.
  - intros k Hk. specialize (Hfirst k Hk).
    rewrite !Hnth in Hfirst by lia.
    rewrite leb_neg in Hfirst.
    rewrite ltb_leb by (apply Hd; lia). rewrite Hfirst. reflexivity.
Qed.

(** The entries of [dist_row] are the values [computed_dist]. *)
Lemma dist_row32_nth (K : Kernels) (C n : nat) (E : tensor2) (x : tensor1)
    (k : nat) :
  shape2 C n E -> k < n ->
  nth k (dist_row K E n x) zero = computed_dist K x (column k E).
Proof.
  intros [HE HEs] Hk. unfold dist_row.
  rewrite (nth_map_in _ (seq 0 n) k 0 zero) by (rewrite length_seq; exact Hk).
  rewrite seq_nth by exact Hk. simpl (0 + k). unfold computed_dist.
  f_equal. f_equal. unfold column. rewrite !map_map.
  apply map_ext_in. intros r Hr. rewrite Forall_forall in HEs.
  apply (nth_map_in pow2 r k zero zero). rewrite (HEs r Hr). exact Hk.
Qed.

(** The loop of [max(1)] on a row with a NaN: the index of the first
    one. *)
Lemma argmax32_from_first_nan (l1 l2 : tensor1) (x best : float)
    (bi n : nat) :
  is_nan best = false ->
  Forall (fun y => is_nan y = false) l1 ->
  is_nan x = true ->
  argmax_from best bi n (l1 ++ x :: l2) = n + length l1.
Proof.
  revert best bi n.
  induction l1 as [|y l1 IH]; intros best bi n Hbest Hl1 Hx.
  - simpl. rewrite Hbest.
    destruct x as [a|s|]; try discriminate Hx. simpl.
    destruct l2; simpl; lia.
  - inversion Hl1 as [|? ? Hy Hl1']; subst.
    simpl. rewrite Hbest.
    destruct (leb y best).
    + rewrite (IH best bi (S n)) by assumption. lia.
    + rewrite (IH y n (S n)) by assumption. lia.
Qed.

Lemma argmax32_first_nan (l : tensor1) (j : nat) :
  j < length l ->
  is_nan (nth j l zero) = true ->
  (forall k, k < j -> is_nan (nth k l zero) = false) ->
  argmax l = Some (Z.of_nat j).
Proof.
  destruct l as [|v r]; simpl length; [lia|]. intros Hj Hnan Hbefore.
  unfold argmax. f_equal. f_equal.
  destruct j as [|j].
  - simpl in Hnan. destruct r as [|y r]; simpl; [reflexivity|].
    rewrite Hnan. reflexivity.
  - simpl in Hnan.
    destruct (nth_split r zero (n := j) ltac:(lia)) as (l1 & l2 & Er & Hl1).
    rewrite Er at 1.
    rewrite argmax32_from_first_nan.
    + lia.
    + apply (Hbefore 0). lia.
    + apply Forall_nth. intros i d Hi.
      rewrite (nth_indep _ d zero) by exact Hi.
      specialize (Hbefore (S i) ltac:(lia)). simpl in Hbefore.
      rewrite Er in Hbefore. rewrite app_nth1 in Hbefore by exact Hi.
      exact Hbefore.
    + exact Hnan.
Qed.

(** The index chosen for [x] when an entry of its row of [dist] is
    NaN: that of the first such entry. *)
Lemma nearest32_nan (K : Kernels) (E : tensor2) (n : nat) (x : tensor1)
    (j : nat) :
  j < n ->
  is_nan (nth j (dist_row K E n x) zero) = true ->
  (forall k, k < j -> is_nan (nth k (dist_row K E n x) zero) = false) ->
  nearest K E n x = Z.of_nat j.
Proof.
  intros Hj Hnan Hbefore.
  assert (Hnth : forall k, k < n ->
            nth k (map neg (dist_row K E n x)) zero
            = neg (nth k (dist_row K E n x) zero)).
  { intros k Hk. apply (nth_map_in neg).
    rewrite dist_row32_length. exact Hk. }
  pose proof (argmax32_first_nan (map neg (dist_row K E n x)) j) as H.
  rewrite length_map, dist_row32_length in H.
  rewrite argmax32_nearest in H by lia.
  assert (G : Some (nearest K E n x) = Some (Z.of_nat j)).
  { apply H; [exact Hj| |].
    - rewrite Hnth by exact Hj. rewrite is_nan_neg. exact Hnan.
    - intros k Hk. rewrite Hnth by lia. rewrite is_nan_neg.
      apply Hbefore. exact Hk. }
  injection G as G. exact G.
Qed.

Lemma embed_code32_eval (self : Quantize) (ids : list (list Z)) :
  wf_quantize self ->
  Forall (Forall (fun i => (0 <= i < Z.of_nat (n_embed self))%Z)) ids ->
  embed_code self ids
  = Some (map (map (fun i => column (Z.to_nat i) (embed self))) ids).
Proof.
  intros (HC & HK & HE & _) Hids. unfold embed_code, embedding.
  rewrite (shape2_size _ _ _ HE HC).
  apply (traverse_map_some _ (map (fun i => column (Z.to_nat i) (embed self)))).
  intros row Hrow. rewrite Forall_forall in Hids. specialize (Hids _ Hrow).
  apply (traverse_map_some _ (fun i => column (Z.to_nat i) (embed self))).
  intros i Hi. rewrite Forall_forall in Hids. specialize (Hids _ Hi).
  unfold transpose. rewrite length_map, length_seq.
  destruct (Z.leb_spec 0 i); [|lia].
  destruct (Z.ltb_spec i (Z.of_nat (n_embed self))); [|lia]. simpl.
  f_equal. rewrite (nth_map_in _ _ _ 0%nat) by (rewrite length_seq; lia).
  rewrite seq_nth by lia. reflexivity.
Qed.

Lemma one_hot32_eval (n : nat) (i : Z) :
  (0 <= i < Z.of_nat n)%Z -> one_hot n i = Some (hot n i).
Proof.
  intros Hi. unfold one_hot.
  destruct (Z.leb_spec 0 i); [|lia].
  destruct (Z.ltb_spec i (Z.of_nat n)); [|lia]. reflexivity.
Qed.

(** Lines 86 to 113 on well-shaped arguments. *)
Lemma assign32_eval (K : Kernels) (self : Quantize) (T B : nat)
    (input : tensor3) (input_mask : list (list bool)) :
  wf_quantize self -> 1 <= T ->
  shape3 T B (dim self) input -> shape2 T B input_mask ->
  exists stats,
    assign K self input input_mask
    = Some (concat input,
            map (fun x => hot (n_embed self)
                            (nearest K (embed self) (n_embed self) x))
                (concat input),
            map (map (nearest K (embed self) (n_embed self))) input,
            map (map (code K (embed self) (n_embed self))) input,
            stats).
Proof.
  intros Hwf HT Hin Hmask.
  pose proof Hwf as (HC & HK & HE & _).
  destruct (shape3_concat T B _ input Hin) as [Hrows Hlen].
  set (E := embed self) in *. set (n := n_embed self) in *.
  eexists. unfold assign.
  rewrite (view_rows32_concat _ _ HC Hrows).
  pose proof (dist32_eval K _ n E (concat input) HC HE Hrows) as Hd.
  fold E. destruct (matmul K _ _ E) as [p|]; [|discriminate].
  destruct (sub2 _ p) as [d|]; [|discriminate].
  rewrite Hd. clear Hd.
  rewrite map_map.
  rewrite (traverse_map_map_some argmax _ (nearest K E n))
    by (intros x _; apply argmax32_nearest; exact HK).
  rewrite (traverse_map_map_some (one_hot n) _
             (fun x => hot n (nearest K E n x)))
    by (intros x _; apply one_hot32_eval, nearest32_range; exact HK).
  assert (Hs1 : size1 input = B)
    by (apply (shape2_size T B); [apply (shape3_rows T B (dim self))|];
        assumption).
  rewrite Hs1. destruct Hin as [HinT Hins].
  rewrite HinT.
  rewrite concat_map.
  rewrite (view2_concat T B)
    by (apply shape2_map, (shape3_rows T B (dim self)); split; assumption).
  rewrite embed_code32_eval; [|exact Hwf|].
  2:{ rewrite Forall_forall. intros r Hr. apply in_map_iff in Hr.
      destruct Hr as (xb & <- & _). rewrite Forall_forall. intros i Hi.
      apply in_map_iff in Hi. destruct Hi as (x & <- & _).
      apply nearest32_range. exact HK. }
  rewrite map_map.
  unfold index_rows. rewrite length_map.
  rewrite Hlen, (shape2_concat T B) by exact Hmask.
  rewrite Nat.eqb_refl.
  replace (map (fun x => map (fun i => column (Z.to_nat i) (embed self))
                             (map (nearest K E n) x)) input)
    with (map (map (code K E n)) input)
    by (apply map_ext; intros xb; rewrite map_map; reflexivity).
  reflexivity.
Qed.

End Assignment32.

(** ** Runs of [Quantize.forward] in float32 *)

Section Runs32.
Import Torch Shape Float32 Torch32 vqvae_lm32 Shape32.
Local Open Scope nat_scope.

Lemma mul3_mask_last32 (T B : nat) (h : tensor1 -> tensor1)
    (input : tensor3) (mask : list (list bool)) :
  shape2 T B input -> shape2 T B mask ->
  mul3 (map (map h) input) (unsqueeze_last (map (map of_bool) mask))
  = Some (map_tb (fun x m => vmask (h x) m) input mask).
Proof.
  intros [Hi His] [Hm Hms]. unfold mul3, unsqueeze_last, map_tb.
  rewrite map_map.
  apply (bcast_map2 _
           (fun xr mr => map (fun q => vmask (h (fst q)) (snd q))
                             (combine xr mr))); [congruence|].
  intros [xr mr] Hp. simpl.
  destruct (in_combine_shape _ _ _ _ _ His Hms Hp) as [Hx Hr]. simpl in *.
  rewrite map_map.
  apply (bcast_map2 (bcast (lift2 mul))
           (fun x m => vmask (h x) m) h (fun m => [of_bool m]) xr mr);
    [congruence|].
  intros [x m] _. simpl.
  apply (bcast_single_r (lift2 mul) mul). reflexivity.
Qed.

Lemma bcast3_tb32 (P : tensor1 -> Prop) (op : float -> float -> float)
    (f g : tensor1 -> bool -> tensor1)
    (input : tensor3) (mask : list (list bool)) :
  Forall (Forall P) input ->
  (forall x m, P x -> length (f x m) = length (g x m)) ->
  bcast (bcast (bcast (lift2 op)))
        (map_tb f input mask) (map_tb g input mask)
  = Some (map_tb (fun x m =>
                    map (fun p => op (fst p) (snd p))
                        (combine (f x m) (g x m)))
                 input mask).
Proof.
  intros HP Hlen. unfold map_tb.
  apply (bcast_map_same (bcast (bcast (lift2 op)))). intros [xr mr] Hr.
  apply in_combine_l in Hr. rewrite Forall_forall in HP.
  specialize (HP _ Hr). simpl.
  apply (bcast_map_same (bcast (lift2 op))). intros [x m] Hx.
  apply in_combine_l in Hx. rewrite Forall_forall in HP.
  specialize (HP _ Hx). simpl.
  apply (bcast_same_length (lift2 op) op); [apply Hlen, HP | reflexivity].
Qed.

(** Lines 141 to 145 on a well-shaped input whose [quantize] is
    computed vector by vector from the input. *)
Lemma straight_through32_eval (K : Kernels) (C T B : nat)
    (q : tensor1 -> tensor1) (input : tensor3) (mask : list (list bool)) :
  (forall x, length x = C -> length (q x) = C) ->
  shape3 T B C input -> shape2 T B mask ->
  exists diff,
    straight_through K input (map (map q) input) mask
    = Some (map_tb (fun x m => ste_out (q x) x m) input mask, diff).
Proof.
  intros Hq Hin Hmask. unfold straight_through, ste_out, vsub.
  pose proof (shape3_rows T B C input Hin) as Hrows.
  rewrite (mul3_mask_last32 T B q) by assumption.
  pose proof (mul3_mask_last32 T B (fun a => a) input mask Hrows Hmask) as Hx.
  rewrite map_map_id in Hx. cbv beta in Hx. rewrite Hx. clear Hx.
  assert (HP : Forall (Forall (fun x : tensor1 => length x = C)) input).
  { destruct Hin as [_ Hin]. eapply Forall_impl; [|exact Hin].
    intros xb [_ H]. exact H. }
  assert (Hl : forall x m, length x = C ->
                 length (vmask (q x) m) = length (vmask x m)).
  { intros x m Hx. unfold vmask. rewrite !length_map.
    rewrite Hq by exact Hx. symmetry. exact Hx. }
  unfold sub3.
  rewrite (bcast3_tb32 _ sub (fun x m => vmask (q x) m)
             (fun x m => vmask x m) input mask HP Hl).
  unfold add3.
  rewrite (bcast3_tb32 _ add (fun x m => vmask x m)
             (fun x m => map (fun p => sub (fst p) (snd p))
                             (combine (vmask (q x) m) (vmask x m)))
             input mask HP).
  - eexists. reflexivity.
  - intros x m Hx.
    rewrite length_map, length_combine, (Hl x m Hx). lia.
Qed.

Lemma masked_select_rows32 (n : nat) (F : tensor2) (mflat : list bool) :
  1 <= n -> length F = length mflat ->
  Forall (fun r => length r = n) F ->
  match masked_select F (map (fun b => [b]) mflat) with
  | Some uf => view_rows n uf
  | None => None
  end
  = Some (map fst (filter snd (combine F mflat))).
Proof.
  intros Hn Hlen HF. unfold masked_select.
  rewrite <- (map_id F) at 1.
  rewrite (bcast_map2 _
             (fun (x : tensor1) (b : bool) => map (fun a => (a, b)) x)
             (fun x => x) (fun b => [b]) F mflat Hlen).
  - rewrite (selected_concat (combine F mflat)).
    apply view_rows32_concat; [exact Hn|].
    rewrite Forall_forall in *. intros r Hr.
    apply in_map_iff in Hr. destruct Hr as ([x b] & <- & Hin).
    apply filter_In in Hin. destruct Hin as [Hin _].
    apply in_combine_l in Hin. auto.
  - intros [x b] _. simpl.
    apply (bcast_single_r (lift2 (@pair float bool)) (@pair float bool)).
    reflexivity.
Qed.

(** Lines 115 to 119 return statistics of the shapes of the buffers. *)
Lemma batch_statistics32_shape (K : Kernels) (self : Quantize)
    (F O : tensor2) (input_mask : list (list bool)) :
  1 <= dim self -> 1 <= n_embed self ->
  length F = length (concat input_mask) ->
  length O = length F ->
  Forall (fun r => length r = dim self) F ->
  Forall (fun r => length r = n_embed self) O ->
  exists cluster_sum embed_sum,
    batch_statistics K self F O input_mask
    = Some (cluster_sum, embed_sum)
    /\ length cluster_sum = n_embed self
    /\ shape2 (dim self) (n_embed self) embed_sum.
Proof.
  intros HC HK Hlen HO HF HOs. unfold batch_statistics.
  set (mflat := concat input_mask) in *.
  pose proof (masked_select_rows32 (dim self) F mflat HC Hlen HF) as H1.
  destruct (masked_select F _) as [uf|]; [|discriminate].
  rewrite H1. clear H1 uf.
  pose proof (masked_select_rows32 (n_embed self) O mflat HK
                ltac:(congruence) HOs) as H2.
  destruct (masked_select O _) as [uo|]; [|discriminate].
  rewrite H2. clear H2 uo.
  unfold matmul, transpose.
  replace (forallb _ _) with true.
  2:{ symmetry. apply forallb_forall. intros r Hr.
      apply in_map_iff in Hr. destruct Hr as (c & <- & _).
      rewrite !length_map.
      assert (E : forall (A B' : Type) (X : list A) (Y : list B')
                         (m : list bool),
                length X = length Y ->
                length (filter snd (combine X m))
                = length (filter snd (combine Y m))).
      { intros A B' X. induction X as [|x X IH]; intros [|y Y] [|b m] Hl;
          simpl in *; try discriminate; try reflexivity.
        destruct b; simpl; rewrite (IH Y m) by lia; reflexivity. }
      rewrite (E _ _ F O mflat) by congruence. apply Nat.eqb_refl. }
  do 2 eexists. split; [reflexivity|]. split.
  - unfold sum0. rewrite length_map, length_seq. reflexivity.
  - split.
    + rewrite !length_map, length_seq. reflexivity.
    + rewrite Forall_forall. intros r Hr. apply in_map_iff in Hr.
      destruct Hr as (x & <- & _). rewrite length_map, length_seq.
      reflexivity.
Qed.

(** Lines 125 to 139 return a module of the same shapes. *)
Lemma ema_update32_shape (K : Kernels) (self : Quantize)
    (cluster_sum : tensor1) (embed_sum : tensor2) :
  wf_quantize self ->
  length cluster_sum = n_embed self ->
  shape2 (dim self) (n_embed self) embed_sum ->
  exists self' stats,
    ema_update K self cluster_sum embed_sum = Some (self', stats)
    /\ wf_quantize self'
    /\ dim self' = dim self /\ n_embed self' = n_embed self
    /\ training self' = training self.
Proof.
  intros (HC & HK & HE & Hcs & Hea) Hsum Hes.
  unfold ema_update.
  set (c := cast32 (round64 (1 - decay self)%Qc)).
  set (d := round32 (decay self)).
  rewrite (inplace_map_gen (lift2 (fun a b => kaxpy K a c b))
             (fun a b => kaxpy K (mul a d) c b))
    by (congruence || reflexivity).
  set (cs' := map _ (combine (cluster_size self) cluster_sum)).
  assert (Hcs' : length cs' = n_embed self)
    by (unfold cs'; rewrite length_map, length_combine; lia).
  destruct Hea as [Hea1 Hea2]. destruct Hes as [Hes1 Hes2].
  rewrite (inplace_map_gen _
             (fun a b => map (fun p => kaxpy K (mul (fst p) d) c (snd p))
                             (combine a b))).
  2:{ congruence. }
  2:{ intros [a0 b0] Hin.
      destruct (in_combine_shape _ _ _ _ _ Hea2 Hes2 Hin) as [Ha Hb].
      simpl in *.
      apply (inplace_map_gen (lift2 (fun a b => kaxpy K a c b))
               (fun a b => kaxpy K (mul a d) c b));
        [congruence | reflexivity]. }
  set (ea' := map _ (combine (embed_avg self) embed_sum)).
  assert (Hea' : shape2 (dim self) (n_embed self) ea').
  { split.
    - unfold ea'. rewrite length_map, length_combine. lia.
    - rewrite Forall_forall. intros r Hr. apply in_map_iff in Hr.
      destruct Hr as ([a b] & <- & Hin).
      destruct (in_combine_shape _ _ _ _ _ Hea2 Hes2 Hin) as [Ha Hb].
      simpl in *. rewrite length_map, length_combine. lia. }
  set (norm := map _ cs').
  assert (Hnorm : length norm = n_embed self)
    by (unfold norm; rewrite length_map; exact Hcs').
  unfold div2.
  rewrite (bcast_single_r _
             (fun row nrm => map (fun p => div (fst p) (snd p))
                                 (combine row nrm))).
  2:{ intros row Hrow. destruct Hea' as [_ Hea'].
      rewrite Forall_forall in Hea'. specialize (Hea' _ Hrow).
      apply (bcast_same_length (lift2 div) div);
        [congruence | reflexivity]. }
  set (en := map (fun row => map _ (combine row norm)) ea').
  assert (Hen : shape2 (dim self) (n_embed self) en).
  { destruct Hea' as [H1 H2]. split.
    - unfold en. rewrite length_map. exact H1.
    - rewrite Forall_forall in *. intros r Hr. apply in_map_iff in Hr.
      destruct Hr as (row & <- & Hin).
      rewrite length_map, length_combine, (H2 _ Hin). lia. }
  destruct HE as [HE1 HE2]. pose proof Hen as [Hen1 Hen2].
  rewrite (inplace_same_length _ (fun (_ b : tensor1) => b)).
  2:{ congruence. }
  2:{ intros [a b] Hin.
      destruct (in_combine_shape _ _ _ _ _ HE2 Hen2 Hin) as [Ha Hb].
      simpl in *.
      rewrite (inplace_same_length _ (fun (_ b : float) => b));
        [|congruence|reflexivity].
      f_equal. apply map_snd_combine. congruence. }
  cbv beta.
  replace (map (fun p : tensor1 * tensor1 => snd p) (combine (embed self) en))
    with en by (symmetry; apply map_snd_combine; congruence).
  do 2 eexists. split; [reflexivity|].
  cbn [dim n_embed training embed cluster_size embed_avg].
  unfold wf_quantize.
  cbn [dim n_embed training embed cluster_size embed_avg].
  auto 10.
Qed.

(** [forward] on well-shaped arguments returns: the tensor it returns
    first is computed vector by vector from the input and the code
    assigned to it, the indices are those of the assignment, and the
    module keeps its shapes, and is the same in evaluation mode. *)
Lemma forward32_eval (K : Kernels) (w : Comm) (self : Quantize)
    (device_count T B : nat) (input : tensor3)
    (input_mask : list (list bool)) :
  wf_quantize self -> 1 <= T ->
  shape3 T B (dim self) input -> shape2 T B input_mask ->
  comm_ok (dim self) (n_embed self) w ->
  let E := embed self in
  let n := n_embed self in
  exists self' diff stats,
    Quantize_forward K w self device_count input input_mask
    = Some (self',
            (map_tb (fun x m => ste_out (code K E n x) x m) input input_mask,
             diff, map (map (nearest K E n)) input, stats))
    /\ wf_quantize self'
    /\ dim self' = dim self /\ n_embed self' = n_embed self
    /\ (training self = false -> self' = self).
Proof.
  intros Hwf HT Hin Hmask Hw. cbv zeta.
  pose proof Hwf as (HC & HK & HE & _).
  destruct (assign32_eval K self T B input input_mask Hwf HT Hin Hmask)
    as (stats0 & Ea).
  unfold Quantize_forward. rewrite Ea.
  destruct (straight_through32_eval K (dim self) T B
              (code K (embed self) (n_embed self)) input input_mask)
    as (diff & Est); try assumption.
  { intros x _. unfold code, column. rewrite length_map.
    destruct HE as [HE _]. exact HE. }
  destruct (training self) eqn:Etr.
  - destruct (shape3_concat T B _ input Hin) as [Hrows Hlen].
    destruct (batch_statistics32_shape K self (concat input)
                (map (fun x => hot (n_embed self)
                                (nearest K (embed self) (n_embed self) x))
                     (concat input))
                input_mask HC HK)
      as (cs & es & Eb & Hcs & Hes).
    { rewrite Hlen. symmetry. apply (shape2_concat T B). exact Hmask. }
    { apply length_map. }
    { exact Hrows. }
    { rewrite Forall_map, Forall_forall. intros x _. unfold hot.
      rewrite length_map, length_seq. reflexivity. }
    unfold update_buffers. rewrite Eb.
    destruct Hw as [Hw1 Hw2].
    destruct (ema_update32_shape K self
                (if 1 <? device_count then reduce1 w cs else cs)
                (if 1 <? device_count then reduce2 w es else es) Hwf)
      as (self' & more & Eu & Hwf' & Hd & Hn & _).
    { destruct (1 <? device_count); [apply Hw1|]; exact Hcs. }
    { destruct (1 <? device_count); [apply Hw2|]; exact Hes. }
    rewrite Eu, Est.
    exists self', diff, (stats0 ++ more).
    split; [reflexivity|]. split; [exact Hwf'|].
    split; [exact Hd|]. split; [exact Hn|]. discriminate.
  - rewrite Est. exists self, diff, stats0.
    split; [reflexivity|]. auto.
Qed.

End Runs32.

(** ** What [Quantize.forward] returns, in float32 *)

Section Returned32.
Import Torch Shape Float32 Torch32 vqvae_lm32 Shape32.
Local Open Scope nat_scope.

Lemma mul_one32 (x : float) : is_float32 x -> mul x (of_bool true) = x.
Proof.
  destruct x as [a|s|]; simpl; intros H.
  - rewrite Qcmult_1_r. exact H.
  - destruct s; reflexivity.
  - reflexivity.
Qed.

Lemma mul_zero32 (x : float) : finite x = true -> mul x (of_bool false) = zero.
Proof.
  destruct x as [a|s|]; simpl; intros H; try discriminate.
  replace (a * 0)%Qc with (Q2Qc 0) by ring. reflexivity.
Qed.

Lemma vmask32_nth (v : tensor1) (m : bool) (c : nat) :
  c < length v -> nth c (vmask v m) zero = mul (nth c v zero) (of_bool m).
Proof.
  intros Hc. unfold vmask.
  apply (nth_map_in (fun a => mul a (of_bool m)) v c zero zero). exact Hc.
Qed.

(** One component of the value returned first. *)
Lemma ste_out32_nth (q x : tensor1) (m : bool) (c : nat) :
  length q = length x -> c < length x ->
  nth c (ste_out q x m) zero
  = add (mul (nth c x zero) (of_bool m))
        (sub (mul (nth c q zero) (of_bool m))
             (mul (nth c x zero) (of_bool m))).
Proof.
  intros Hl Hc. unfold ste_out, vsub.
  assert (Hx : length (vmask x m) = length x) by apply length_map.
  assert (Hq : length (vmask q m) = length x)
    by (unfold vmask; rewrite length_map; exact Hl).
  rewrite (nth_map_in _ _ c (zero, zero) zero).
  2:{ rewrite length_combine, length_map, length_combine. lia. }
  rewrite combine_nth by (rewrite length_map, length_combine; lia).
  cbn [fst snd].
  rewrite (nth_map_in _ _ c (zero, zero) zero)
    by (rewrite length_combine; lia).
  rewrite combine_nth by lia. cbn [fst snd].
  rewrite !vmask32_nth by lia. reflexivity.
Qed.

Lemma ste_out32_length (q x : tensor1) (m : bool) :
  length q = length x -> length (ste_out q x m) = length x.
Proof.
  intros Hl. unfold ste_out, vsub, vmask.
  rewrite length_map, length_combine, !length_map, length_combine,
    !length_map. lia.
Qed.

Lemma code32_length (K : Kernels) (C n : nat) (E : tensor2) (x : tensor1) :
  shape2 C n E -> length (code K E n x) = C.
Proof.
  intros [HE _]. unfold code, column. rewrite length_map. exact HE.
Qed.

(** C2. On well-shaped arguments [forward] assigns to the vector
    [x = input[t][b]], a row of the flattened input, an index
    [i = embed_ind[t][b]] in [[0, n_embed)]: with [d k] the float32
    value of [|x|^2 - 2 x . embed[:, k] + |embed[:, k]|^2] as line 87
    computes it, if no [d k] is NaN then [d i] is a least one and every
    [d k] of a code before [i] is greater, and if some [d k] is NaN
    then [i] is the first such [k].  The tensor [quantize] before
    masking holds [embed[:, i]] at [[t][b]], and [embed_ind] is
    returned by the call. *)
Theorem quantize_assigns_least_computed (K : Kernels) (w : Comm)
    (self : Quantize) (device_count T B : nat) (input : tensor3)
    (input_mask : list (list bool)) :
  wf_quantize self -> 1 <= T ->
  shape3 T B (dim self) input -> shape2 T B input_mask ->
  comm_ok (dim self) (n_embed self) w ->
  exists flatten embed_onehot embed_ind quantize stats,
    assign K self input input_mask
    = Some (flatten, embed_onehot, embed_ind, quantize, stats)
    /\ flatten = concat input
    /\ (forall t b, t < T -> b < B ->
          let x := nth b (nth t input []) [] in
          let i := nth b (nth t embed_ind []) 0%Z in
          let d := fun k => computed_dist K x (column k (embed self)) in
          (0 <= i < Z.of_nat (n_embed self))%Z
          /\ ((forall k, k < n_embed self -> is_nan (d k) = false) ->
              (forall k, k < n_embed self ->
                 leb (d (Z.to_nat i)) (d k) = true)
              /\ (forall k, k < Z.to_nat i ->
                    ltb (d (Z.to_nat i)) (d k) = true))
          /\ (forall j, j < n_embed self -> is_nan (d j) = true ->
                (forall k, k < j -> is_nan (d k) = false) ->
                i = Z.of_nat j)
          /\ nth b (nth t quantize []) []
             = column (Z.to_nat i) (embed self))
    /\ exists self' quantize' diff stats',
         Quantize_forward K w self device_count input input_mask
         = Some (self', (quantize', diff, embed_ind, stats')).
Proof.
  intros Hwf HT Hin Hmask Hw.
  pose proof Hwf as (HC & HK & HE & _).
  destruct (assign32_eval K self T B input input_mask Hwf HT Hin Hmask)
    as (stats & Ea).
  destruct (forward32_eval K w self device_count T B input input_mask
              Hwf HT Hin Hmask Hw) as (self' & diff & stats' & Er & _).
  do 5 eexists. split; [exact Ea|]. split; [reflexivity|]. split.
  - intros t b Ht Hb. cbv zeta.
    pose proof (shape3_rows T B _ input Hin) as Hrows.
    rewrite (nth2_map_map _ T B input t b [] 0%Z Hrows Ht Hb).
    rewrite (nth2_map_map _ T B input t b [] [] Hrows Ht Hb).
    set (x := nth b (nth t input []) []).
    set (E := embed self) in *. set (n := n_embed self) in *.
    pose proof (nearest32_range K E n x HK) as Hr.
    assert (Hd : forall k, k < n ->
              nth k (dist_row K E n x) zero
              = computed_dist K x (column k E))
      by (intros k Hk; apply (dist_row32_nth K (dim self)); assumption).
    split; [exact Hr|]. split; [|split; [|reflexivity]].
    + intros Hnan.
      destruct (nearest32_spec K E n x HK) as [Hmin Hfirst].
      { apply Forall_nth. intros k d Hk.
        rewrite dist_row32_length in Hk.
        rewrite (nth_indep _ d zero)
          by (rewrite dist_row32_length; exact Hk).
        rewrite Hd by exact Hk. apply Hnan. exact Hk. }
      split.
      * intros k Hk. specialize (Hmin k Hk).
        rewrite !Hd in Hmin by lia. exact Hmin.
      * intros k Hk. specialize (Hfirst k Hk).
        rewrite !Hd in Hfirst by lia. exact Hfirst.
    + intros j Hj Hnan Hbefore.
      apply (nearest32_nan K E n x j Hj).
      * rewrite Hd by exact Hj. exact Hnan.
      * intros k Hk. rewrite Hd by lia. apply Hbefore. exact Hk.
  - do 4 eexists. exact Er.
Qed.

(** C3. On well-shaped arguments the tensor [forward] returns first,
    [input + (quantize - input).detach()], holds at [[t][b][c]], for
    the entry [x] of the input, the entry [q] of the code assigned to
    the position, [embed[c][embed_ind[t][b]]] of the codebook the call
    started with, and the mask [m] as a number, the float32 value
    [x * m + (q * m - x * m)].  Where the mask is true and [x] and [q]
    are numbers of float32 this is [x + (q - x)], every operation
    rounded, which is [q] when [x] and [q] are finite and the
    difference [q - x] is a number of float32; where the mask is false
    and [x] and [q] are finite it is zero. *)
Theorem straight_through_rounds (K : Kernels) (w : Comm) (self : Quantize)
    (device_count T B : nat) (input : tensor3)
    (input_mask : list (list bool)) :
  wf_quantize self -> 1 <= T ->
  shape3 T B (dim self) input -> shape2 T B input_mask ->
  comm_ok (dim self) (n_embed self) w ->
  exists self' quantize diff embed_ind stats,
    Quantize_forward K w self device_count input input_mask
    = Some (self', (quantize, diff, embed_ind, stats))
    /\ shape3 T B (dim self) quantize
    /\ forall t b c, t < T -> b < B -> c < dim self ->
         let x := nth c (nth b (nth t input []) []) zero in
         let q := nth c (column (Z.to_nat (nth b (nth t embed_ind []) 0%Z))
                                (embed self)) zero in
         let m := nth b (nth t input_mask []) false in
         let y := nth c (nth b (nth t quantize []) []) zero in
         y = add (mul x (of_bool m)) (sub (mul q (of_bool m))
                                          (mul x (of_bool m)))
         /\ (m = true -> is_float32 x -> is_float32 q ->
             y = add x (sub q x)
             /\ (forall a e, x = Fin a -> q = Fin e ->
                   round32 (e - a)%Qc = Fin (e - a)%Qc -> y = q))
         /\ (m = false -> finite x = true -> finite q = true -> y = zero).
Proof.
  intros Hwf HT Hin Hmask Hw.
  pose proof Hwf as (HC & HK & HE & _).
  destruct (forward32_eval K w self device_count T B input input_mask
              Hwf HT Hin Hmask Hw) as (self' & diff & stats' & Er & _).
  pose proof (shape3_rows T B _ input Hin) as Hrows.
  assert (Hcl : forall x, length (code K (embed self) (n_embed self) x)
                          = dim self)
    by (intros x; apply (code32_length K _ (n_embed self)); exact HE).
  do 5 eexists. split; [exact Er|]. split.
  - destruct Hin as [HinT Hins]. destruct Hmask as [HmT Hms].
    unfold map_tb. split; [rewrite length_map, length_combine; lia|].
    rewrite Forall_forall. intros r Hr. apply in_map_iff in Hr.
    destruct Hr as ([xr mr] & <- & Hp).
    destruct (in_combine_shape _ _ _ _ _ Hins Hms Hp) as [[Hx Hxs] Hmr].
    cbn [fst snd] in *. split; [rewrite length_map, length_combine; lia|].
    rewrite Forall_forall. intros v Hv. apply in_map_iff in Hv.
    destruct Hv as ([x m] & <- & Hxm). cbn [fst snd].
    apply in_combine_l in Hxm. rewrite Forall_forall in Hxs.
    rewrite ste_out32_length; rewrite ?Hcl; auto. symmetry. auto.
  - intros t b c Ht Hb Hc. cbv zeta.
    rewrite (map_tb_nth _ T B input input_mask t b [] false [])
      by assumption.
    rewrite (nth2_map_map _ T B input t b [] 0%Z Hrows Ht Hb).
    set (x := nth b (nth t input []) []).
    assert (Hx : length x = dim self)
      by (apply (shape3_vector T B); assumption).
    fold (code K (embed self) (n_embed self) x).
    rewrite ste_out32_nth by (rewrite ?Hcl; lia).
    set (m := nth b (nth t input_mask []) false).
    set (xc := nth c x zero).
    set (qc := nth c (code K (embed self) (n_embed self) x) zero).
    split; [reflexivity|]. split.
    + intros -> Hfx Hfq. rewrite !mul_one32 by assumption.
      split; [reflexivity|].
      intros a e -> -> Hsub. unfold sub. cbn [neg add].
      change (e + - a)%Qc with (e - a)%Qc. rewrite Hsub. cbn [add].
      replace (a + (e - a))%Qc with e by ring. exact Hfq.
    + intros -> Hfx Hfq. rewrite !mul_zero32 by assumption.
      reflexivity.
Qed.

End Returned32.

(** ** [VQVAE.extract_codes] in float32 *)

Section ExtractCodes32.
Import Torch Shape Float32 Torch32 vqvae_lm32 Shape32.
Local Open Scope nat_scope.

Lemma shape3_size_gen {A : Type} (B C T : nat) (x : list (list (list A))) :
  shape3 B C T x -> 1 <= B -> 1 <= C ->
  size1 x = C /\ size2 x = T.
Proof.
  intros [Hx Hxs] HB HC. destruct x as [|xb x]; simpl in *; [lia|].
  inversion Hxs as [|? ? Hsh _]. destruct Hsh as [Hb Hbs].
  unfold size1, size2. simpl. split; [exact Hb|].
  destruct xb as [|r xb]; simpl in *; [lia|].
  inversion Hbs as [|? ? Hr _]. exact Hr.
Qed.

Lemma shape3_map_gen {A A' : Type} (f : A -> A') (B C T : nat)
    (x : list (list (list A))) :
  shape3 B C T x -> shape3 B C T (map (map (map f)) x).
Proof.
  intros [Hx Hxs]. split; [rewrite length_map; exact Hx|].
  rewrite Forall_forall in *. intros yb Hyb.
  apply in_map_iff in Hyb. destruct Hyb as (xb & <- & Hin).
  apply shape2_map. apply Hxs. exact Hin.
Qed.

Lemma permute120_shape32 (T B C : nat) (x : tensor3) :
  shape3 T B C x -> 1 <= T -> 1 <= B -> shape3 B C T (permute120 x).
Proof.
  intros Hx HT HB. destruct (shape3_size_gen T B C x Hx HT HB) as [S1 S2].
  destruct Hx as [Hx _]. unfold permute120. rewrite S1, S2. split.
  - rewrite length_map, length_seq. reflexivity.
  - rewrite Forall_forall. intros r Hr. apply in_map_iff in Hr.
    destruct Hr as (b & <- & _). split.
    + rewrite length_map, length_seq. reflexivity.
    + rewrite Forall_forall. intros v Hv. apply in_map_iff in Hv.
      destruct Hv as (c & <- & _). rewrite length_map. exact Hx.
Qed.

Lemma permute201_shape32 (B C T : nat) (x : tensor3) :
  shape3 B C T x -> 1 <= B -> 1 <= C -> shape3 T B C (permute201 x).
Proof.
  intros Hx HB HC. destruct (shape3_size_gen B C T x Hx HB HC) as [S1 S2].
  destruct Hx as [Hx Hxs]. unfold permute201. rewrite S2. split.
  - rewrite length_map, length_seq. reflexivity.
  - rewrite Forall_forall. intros r Hr. apply in_map_iff in Hr.
    destruct Hr as (t & <- & _). split.
    + rewrite length_map. exact Hx.
    + rewrite Forall_forall in *. intros v Hv. apply in_map_iff in Hv.
      destruct Hv as (xb & <- & Hxb). rewrite length_map.
      apply (Hxs _ Hxb).
Qed.

(** The shape of the output of a [Conv1d] of [C'] filters on [C]
    channels. *)
Lemma conv1d32_shape (K : Kernels) (B C C' T : nat) (L : Conv1d)
    (x : tensor3) :
  shape3 B C T x -> 1 <= B -> 1 <= C ->
  (0 < stride L)%Z -> (0 < kernel_size L)%Z -> (0 <= padding L)%Z ->
  (kernel_size L <= Z.of_nat T + 2 * padding L)%Z ->
  length (weight L) = C' -> length (bias L) = C' ->
  Forall (fun w => length w = C) (weight L) ->
  exists y,
    conv1d K L x = Some y
    /\ shape3 B C' (Z.to_nat (conv1d_out_len L T)) y.
Proof.
  intros Hx HB HC Hs Hk Hp HT Hw Hb Hws.
  destruct (shape3_size_gen _ _ _ _ Hx HB HC) as [S1 S2].
  exists (map (conv1d_example K L) x). split.
  - unfold conv1d. rewrite S1, S2.
    replace (forallb _ (weight L)) with true.
    2:{ symmetry. apply forallb_forall. intros w Hin.
        rewrite Forall_forall in Hws. apply Nat.eqb_eq. auto. }
    rewrite Hw, Hb, Nat.eqb_refl.
    destruct (Z.leb_spec (stride L) 0); [lia|].
    destruct (Z.leb_spec (kernel_size L) 0); [lia|].
    destruct (Z.ltb_spec (padding L) 0); [lia|].
    destruct (Z.ltb_spec (Z.of_nat T + 2 * padding L) (kernel_size L));
      [lia|].
    reflexivity.
  - destruct Hx as [Hx Hxs]. split; [rewrite length_map; exact Hx|].
    rewrite Forall_forall in *. intros yb Hyb.
    apply in_map_iff in Hyb. destruct Hyb as (xb & <- & Hin).
    specialize (Hxs _ Hin).
    unfold conv1d_example. rewrite (shape2_size _ _ _ Hxs HC). split.
    + rewrite length_map, length_combine. lia.
    + rewrite Forall_forall. intros r Hr.
      apply in_map_iff in Hr. destruct Hr as (p & <- & _).
      rewrite length_map, length_seq. reflexivity.
Qed.

(** [x * new_mask.type_as(x).unsqueeze(1)] keeps the shape. *)
Lemma mul3_mask32 (B C T : nat) (x : tensor3) (mask : list (list bool)) :
  shape3 B C T x -> shape2 B T mask ->
  exists z,
    mul3 x (unsqueeze1 (map (map of_bool) mask)) = Some z
    /\ shape3 B C T z.
Proof.
  intros [Hx Hxs] [Hm Hms].
  exists (map (fun p =>
                 map (fun xc =>
                        map (fun q => mul (fst q) (of_bool (snd q)))
                            (combine xc (snd p)))
                     (fst p))
              (combine x mask)).
  split.
  - unfold mul3, unsqueeze1. rewrite map_map.
    rewrite (bcast_same_length _
               (fun xb m1 =>
                  map (fun xc => map (fun q => mul (fst q) (snd q))
                                     (combine xc (hd [] m1))) xb)).
    + f_equal. rewrite combine_map_r, map_map. apply map_ext.
      intros [xb mr]. simpl.
      apply map_ext. intros xc. rewrite combine_map_r, map_map. reflexivity.
    + rewrite length_map. congruence.
    + intros p Hp. rewrite combine_map_r in Hp. apply in_map_iff in Hp.
      destruct Hp as ([xb mr] & <- & Hin). simpl.
      destruct (in_combine_shape _ _ _ _ _ Hxs Hms Hin) as [[Hb Hbs] Hr].
      simpl in *.
      apply (bcast_single_r _
               (fun xc m1 => map (fun q => mul (fst q) (snd q))
                                 (combine xc m1))).
      intros xc Hxc. rewrite Forall_forall in Hbs. specialize (Hbs _ Hxc).
      apply (bcast_same_length (lift2 mul) mul).
      * rewrite length_map. congruence.
      * intros; reflexivity.
  - split.
    + rewrite length_map, length_combine. lia.
    + rewrite Forall_forall. intros yb Hyb.
      apply in_map_iff in Hyb. destruct Hyb as ([xb mr] & <- & Hin).
      destruct (in_combine_shape _ _ _ _ _ Hxs Hms Hin) as [[Hb Hbs] Hr].
      simpl in *. split; [rewrite length_map; exact Hb|].
      rewrite Forall_forall in *. intros r Hq.
      apply in_map_iff in Hq. destruct Hq as (xc & <- & Hxc).
      rewrite length_map, length_combine, (Hbs _ Hxc). lia.
Qed.

(** One turn of the loop of [ConvEncoder.forward]: the lengths are
    divided by the stride, and the mask is that of the new lengths. *)
Lemma forward_step32_masks (K : Kernels) (B C T : nat) (x : tensor3)
    (l : list Z) (om : option (list (list bool))) (L : Conv1d) :
  batch_ok B C T x l -> wf_layer C L ->
  exists (T' : nat) (x' : tensor3) (m : list (list bool)),
    let l' := map (fun v => (v - 1) / stride L + 1)%Z l in
    forward_step K (x, l, om) (L, stride L) = Some (x', l', Some m)
    /\ batch_ok B C T' x' l'
    /\ valid_mask B T' l' m.
Proof.
  intros (HB & HC & HT & HT63 & Hx & Hlen & Hl & Hin)
         (Hk & Hodd & Hp & Hs & Hw & Hb & Hws).
  pose proof (Z.div_mod (kernel_size L) 2 ltac:(lia)) as Hdm.
  assert (Hol : conv1d_out_len L T = ((Z.of_nat T - 1) / stride L + 1)%Z).
  { unfold conv1d_out_len. do 2 f_equal. lia. }
  destruct (conv1d32_shape K B C C T L x Hx HB HC) as (y & Ey & Hy);
    try assumption; try lia.
  rewrite Hol in Hy.
  assert (Hne : l <> []) by (destruct l; simpl in *; [lia | discriminate]).
  assert (Hl63 : Forall (fun v => 1 <= v < 2 ^ 63)%Z l).
  { eapply Forall_impl; [|exact Hl]. simpl. intros; lia. }
  destruct (compute_conv_mask_facts l (stride L) Hne Hl63 Hs)
    as (T' & m & Em & Hin' & Hb' & Hm & Hnth).
  cbv zeta in *.
  set (l' := map (fun v => ((v - 1) / stride L + 1)%Z) l) in *.
  pose proof (strided_max l (stride L) T T' ltac:(lia) Hl Hin Hin' Hb') as ET.
  rewrite <- ET, Nat2Z.id in Hy. rewrite Hlen in Hm.
  apply (shape3_map_gen relu) in Hy.
  destruct (mul3_mask32 B C T' _ m Hy Hm) as (z & Ez & Hz).
  exists T', z, m.
  assert (HT' : 1 <= T').
  { pose proof (Z.div_pos (Z.of_nat T - 1) (stride L)). lia. }
  assert (HT'63 : (Z.of_nat T' < 2 ^ 63)%Z).
  { assert ((Z.of_nat T - 1) / stride L <= Z.of_nat T - 1)%Z
      by (apply Z.div_le_upper_bound; nia).
    lia. }
  assert (Hl'len : length l' = B) by (unfold l'; rewrite length_map; exact Hlen).
  split; [|split].
  - unfold forward_step. simpl fst. simpl snd.
    rewrite Ey, Em, Ez. reflexivity.
  - exact (conj HB (conj HC (conj HT' (conj HT'63
             (conj Hz (conj Hl'len (conj Hb' Hin'))))))).
  - split; [exact Hm|].
    intros i t Hi Ht. rewrite Hnth by lia. apply Z.ltb_lt.
Qed.

Lemma forward_loop32_masks (K : Kernels) (B C : nat)
    (layers : list (Conv1d * Z)) :
  Forall (fun ls => wf_layer C (fst ls) /\ stride (fst ls) = snd ls) layers ->
  layers <> [] ->
  forall (T : nat) (x : tensor3) (l : list Z)
         (om : option (list (list bool))),
    batch_ok B C T x l ->
    exists (T' : nat) (x' : tensor3) (m : list (list bool)),
      let l' := strided_lengths (map snd layers) l in
      forward_loop K layers (x, l, om) = Some (x', l', Some m)
      /\ batch_ok B C T' x' l'
      /\ valid_mask B T' l' m.
Proof.
  induction layers as [|[L s] r IH]; intros Hwf Hne T x l om Hok;
    [congruence|].
  inversion Hwf as [|? ? [HL Hs] Hr]; subst. simpl in Hs. subst s.
  destruct (forward_step32_masks K B C T x l om L Hok HL)
    as (T1 & x1 & m1 & E1 & Hok1 & Hm1).
  cbv zeta in *.
  cbn [forward_loop map snd strided_lengths fold_left].
  rewrite E1.
  destruct r as [|ls r'].
  - exists T1, x1, m1. simpl. auto.
  - apply (IH Hr ltac:(discriminate) T1 x1 _ (Some m1) Hok1).
Qed.

Lemma init_layers32_wf (C : nat) (kernels strides : list Z)
    (params : list (tensor3 * tensor1)) (qparams : tensor3 * tensor1) :
  Forall (fun k => 1 <= k /\ k mod 2 = 1)%Z kernels ->
  Forall (fun s => 1 <= s < 2 ^ 63)%Z strides ->
  Forall (fun p => length (fst p) = C /\ length (snd p) = C
                   /\ Forall (fun w => length w = C) (fst p)) params ->
  let self := ConvEncoder_init kernels strides params qparams in
  Forall (fun ls => wf_layer C (fst ls) /\ stride (fst ls) = snd ls)
         (combine (conv_blocks self) (vqvae_lm32.strides self)).
Proof.
  intros Hk Hs Hp. simpl.
  revert strides params Hs Hp.
  induction Hk as [|k ks [Hk1 Hk2] _ IH]; intros strides params Hs Hp;
    [constructor|].
  destruct Hs as [|s ss Hs1 Hs]; [constructor|].
  destruct Hp as [|[w b] ps (Hw & Hb & Hws) Hp]; [constructor|].
  simpl. constructor.
  - simpl. unfold wf_layer. simpl. auto 10.
  - apply IH; assumption.
Qed.

(** [ConvEncoder.forward] on a batch: the output of shape
    [T' x B x C'] and the mask of the last layer. *)
Lemma conv_encoder_forward32_eval (K : Kernels) (B C C' T : nat)
    (kernels strides : list Z) (params : list (tensor3 * tensor1))
    (qparams : tensor3 * tensor1) (input : tensor3) (lengths : list Z) :
  Forall (fun k => 1 <= k /\ k mod 2 = 1)%Z kernels ->
  Forall (fun s => 1 <= s < 2 ^ 63)%Z strides ->
  Forall (fun p => length (fst p) = C /\ length (snd p) = C
                   /\ Forall (fun w => length w = C) (fst p)) params ->
  length (fst qparams) = C' -> length (snd qparams) = C' ->
  Forall (fun w => length w = C) (fst qparams) -> 1 <= C' ->
  batch_ok B C T input lengths ->
  let self := ConvEncoder_init kernels strides params qparams in
  combine (conv_blocks self) (vqvae_lm32.strides self) <> [] ->
  exists (T' : nat) (out : tensor3) (m : list (list bool)),
    let l := strided_lengths
               (map snd (combine (conv_blocks self)
                                 (vqvae_lm32.strides self)))
               lengths in
    ConvEncoder_forward K self input lengths = Some (out, Some m)
    /\ 1 <= T'
    /\ shape3 T' B C' out
    /\ valid_mask B T' l m.
Proof.
  intros Hk Hs Hp Hq1 Hq2 Hq3 HC' Hok self Hne.
  pose proof (init_layers32_wf C kernels strides params qparams Hk Hs Hp)
    as Hwf.
  cbv zeta in Hwf. fold self in Hwf.
  destruct (forward_loop32_masks K B C _ Hwf Hne T input lengths None Hok)
    as (T' & x & m & E & Hok' & Hm).
  cbv zeta in *.
  destruct Hok' as (HB & HC & HT' & _ & Hx & _).
  destruct (conv1d32_shape K B C C' T' (quant_conv self) x Hx HB HC)
    as (y & Ey & Hy); simpl; try assumption; try lia.
  exists T', (permute201 y), m.
  split; [|split; [exact HT'|split; [|exact Hm]]].
  - unfold ConvEncoder_forward. rewrite E. fold self. rewrite Ey.
    reflexivity.
  - apply permute201_shape32; try assumption.
    replace T' with (Z.to_nat (conv1d_out_len (quant_conv self) T'));
      [exact Hy|].
    unfold conv1d_out_len. simpl.
    rewrite Z.div_1_r. lia.
Qed.

(** The input of the convolutional encoder: the output of the text
    encoder, every vector multiplied by 0 at a padded position and by
    1 at another. *)
Lemma conv_inpt32_eval (T B C : nat) (eo : EncoderOut) :
  shape3 T B C (encoder_out eo) ->
  shape2 B T (encoder_padding_mask eo) -> 1 <= B ->
  let encoding_mask :=
    map (map (fun b => of_bool (negb b))) (encoder_padding_mask eo) in
  exists conv_inpt,
    mul3 (encoder_out eo)
         (unsqueeze_last
            (transpose zero (size1 encoding_mask) encoding_mask))
    = Some conv_inpt
    /\ shape3 T B C conv_inpt
    /\ forall t b, t < T -> b < B ->
         nth b (nth t conv_inpt []) []
         = vmask (nth b (nth t (encoder_out eo) []) [])
                 (negb (nth t (nth b (encoder_padding_mask eo) []) true)).
Proof.
  intros Hx Hpm HB. cbv zeta.
  set (pm := encoder_padding_mask eo) in *.
  assert (Hs : size1 (map (map (fun b => of_bool (negb b))) pm) = T)
    by (apply (shape2_size B T); [apply shape2_map; exact Hpm | exact HB]).
  rewrite Hs.
  change zero with ((fun b => of_bool (negb b)) true).
  rewrite transpose_map.
  replace (map (map (fun b => of_bool (negb b))) (transpose true T pm))
    with (map (map of_bool) (map (map negb) (transpose true T pm))).
  2:{ rewrite map_map. apply map_ext. intros r. apply map_map. }
  assert (Ht : shape2 T B (transpose true T pm)).
  { destruct Hpm as [Hpm _]. rewrite <- Hpm. apply transpose_shape. }
  assert (Hm : shape2 T B (map (map negb) (transpose true T pm)))
    by (apply shape2_map; exact Ht).
  pose proof (shape3_rows T B C _ Hx) as Hrows.
  pose proof (mul3_mask_last32 T B (fun a => a) (encoder_out eo) _ Hrows Hm)
    as E.
  rewrite map_map_id in E. cbv beta in E.
  eexists. split; [exact E|]. split.
  - destruct Hx as [HxT Hxs]. destruct Hm as [HmT Hms].
    unfold map_tb. split; [rewrite length_map, length_combine; lia|].
    rewrite Forall_forall. intros r Hr. apply in_map_iff in Hr.
    destruct Hr as ([xr mr] & <- & Hp).
    destruct (in_combine_shape _ _ _ _ _ Hxs Hms Hp) as [[Hxr Hxrs] Hmr].
    cbn [fst snd] in *. split; [rewrite length_map, length_combine; lia|].
    rewrite Forall_forall. intros v Hv. apply in_map_iff in Hv.
    destruct Hv as ([x m] & <- & Hxm). cbn [fst snd].
    apply in_combine_l in Hxm. rewrite Forall_forall in Hxrs.
    unfold vmask. rewrite length_map. auto.
  - intros t b Ht' Hb.
    rewrite (map_tb_nth _ T B (encoder_out eo) _ t b [] false [])
      by assumption.
    rewrite (nth2_map_map negb T B _ t b true false Ht Ht' Hb).
    rewrite (transpose_nth true B T pm b t)
      by (destruct Hpm; assumption).
    reflexivity.
Qed.

(** C9. For a text encoder output of shape [T x B x C] on a batch whose
    greatest length is [T], a convolutional encoder built from odd
    kernel sizes with at least one layer, and a well-shaped bottom
    quantizer, [extract_codes] gives the convolutional encoder the
    output of the text encoder, multiplied by 0 at the padded positions
    and by 1 at the others, gives the quantizer the output
    [text_conv_out] of the convolutional encoder, and returns a tensor
    of shape [B x T'] of integers.  Where the mask of the convolutional
    encoder is true (the positions before the strided length of the
    example) it holds the index [i = embed_ind[t][b]] of the quantizer,
    in [[0, n_embed)]: with [d k] the float32 value of
    [|x|^2 - 2 x . embed[:, k] + |embed[:, k]|^2] for
    [x = text_conv_out[t][b]], if no [d k] is NaN then [d i] is a least
    one and every [d k] of a code before [i] is greater, and if some
    [d k] is NaN then [i] is the first such [k].  Where the mask is
    false it holds -1. *)
Theorem extract_codes_holds_assigned (K : Kernels) (w : Comm)
    (enc : list (list Z) -> option EncoderOut)
    (kernels strides : list Z)
    (params : list (tensor3 * tensor1)) (qparams : tensor3 * tensor1)
    (q : Quantize) (device_count : nat)
    (full_tokens : list (list Z)) (full_lengths : list Z)
    (eo : EncoderOut) (T B C : nat) :
  enc full_tokens = Some eo ->
  shape3 T B C (encoder_out eo) ->
  shape2 B T (encoder_padding_mask eo) ->
  1 <= B -> 1 <= C -> 1 <= T -> (Z.of_nat T < 2 ^ 63)%Z ->
  length full_lengths = B ->
  Forall (fun v => 1 <= v <= Z.of_nat T)%Z full_lengths ->
  In (Z.of_nat T) full_lengths ->
  Forall (fun k => 1 <= k /\ k mod 2 = 1)%Z kernels ->
  Forall (fun s => 1 <= s < 2 ^ 63)%Z strides ->
  Forall (fun p => length (fst p) = C /\ length (snd p) = C
                   /\ Forall (fun w => length w = C) (fst p)) params ->
  length (fst qparams) = dim q -> length (snd qparams) = dim q ->
  Forall (fun w => length w = C) (fst qparams) ->
  wf_quantize q -> comm_ok (dim q) (n_embed q) w ->
  let conv := ConvEncoder_init kernels strides params qparams in
  combine (conv_blocks conv) (vqvae_lm32.strides conv) <> [] ->
  let self := {| text_encoder := enc;
                 text_conv_encoder := conv;
                 bottom_quantizer := Some q |} in
  let l := strided_lengths
             (map snd (combine (conv_blocks conv)
                               (vqvae_lm32.strides conv)))
             full_lengths in
  exists self' codes (T' : nat) conv_inpt text_conv_out mask
         q' quantize diff embed_ind stats,
    extract_codes K w self device_count full_tokens full_lengths
    = Some (self', codes)
    /\ shape3 T B C conv_inpt
    /\ (forall t b, t < T -> b < B ->
          nth b (nth t conv_inpt []) []
          = vmask (nth b (nth t (encoder_out eo) []) [])
                  (negb (nth t (nth b (encoder_padding_mask eo) []) true)))
    /\ ConvEncoder_forward K conv (permute120 conv_inpt) full_lengths
       = Some (text_conv_out, Some mask)
    /\ Quantize_forward K w q device_count text_conv_out
         (transpose false T' mask)
       = Some (q', (quantize, diff, embed_ind, stats))
    /\ bottom_quantizer self' = Some q'
    /\ shape2 B T' codes
    /\ shape2 B T' mask
    /\ forall b t, b < B -> t < T' ->
         (nth t (nth b mask []) false = true
          <-> (Z.of_nat t < nth b l 0)%Z)
         /\ if nth t (nth b mask []) false
            then
              let x := nth b (nth t text_conv_out []) [] in
              let i := nth t (nth b codes []) 0%Z in
              let d := fun k => computed_dist K x (column k (embed q)) in
              i = nth b (nth t embed_ind []) 0%Z
              /\ (0 <= i < Z.of_nat (n_embed q))%Z
              /\ ((forall k, k < n_embed q -> is_nan (d k) = false) ->
                  (forall k, k < n_embed q ->
                     leb (d (Z.to_nat i)) (d k) = true)
                  /\ (forall k, k < Z.to_nat i ->
                        ltb (d (Z.to_nat i)) (d k) = true))
              /\ (forall j, j < n_embed q -> is_nan (d j) = true ->
                    (forall k, k < j -> is_nan (d k) = false) ->
                    i = Z.of_nat j)
            else nth t (nth b codes []) 0%Z = (-1)%Z.
Proof.
  intros Henc Hx Hpm HB HC HT HT63 Hlen Hl HinT Hk Hs Hp Hq1 Hq2 Hq3
         Hwf Hw conv Hne self l.
  pose proof Hwf as (HCq & HK & HE & _).
  destruct (conv_inpt32_eval T B C eo Hx Hpm HB) as (ci & Eci & Hci & Hciv).
  cbv zeta in Eci.
  pose proof (permute120_shape32 T B C ci Hci HT HB) as Hperm.
  assert (Hok : batch_ok B C T (permute120 ci) full_lengths)
    by (unfold batch_ok; auto 10).
  destruct (conv_encoder_forward32_eval K B C (dim q) T kernels strides
              params qparams (permute120 ci) full_lengths
              Hk Hs Hp Hq1 Hq2 Hq3 HCq Hok Hne)
    as (T' & out & m & Ef & HT' & Hout & Hm).
  cbv zeta in Ef, Hm. fold conv in Ef, Hm. fold l in Hm.
  destruct Hm as (Hmsh & Hiff).
  assert (Hsm : size1 m = T') by (apply (shape2_size B T'); assumption).
  assert (Hmt : shape2 T' B (transpose false T' m)).
  { destruct Hmsh as [Hmlen _]. rewrite <- Hmlen. apply transpose_shape. }
  destruct (forward32_eval K w q device_count T' B out (transpose false T' m)
              Hwf HT' Hout Hmt Hw)
    as (q' & diff & stats & Er & _).
  cbv zeta in Er.
  set (E := embed q) in *. set (n := n_embed q) in *.
  set (ei := map (map (nearest K E n)) out) in *.
  pose proof (shape3_rows T' B _ out Hout) as Hrows.
  assert (Hei : shape2 T' B ei) by (apply shape2_map; exact Hrows).
  assert (Hse : size1 ei = B) by (apply (shape2_size T' B); assumption).
  assert (Het : shape2 B T' (transpose 0%Z B ei)).
  { destruct Hei as [Heilen _]. rewrite <- Heilen. apply transpose_shape. }
  assert (Hnm : shape2 B T' (map (map negb) m))
    by (apply shape2_map; exact Hmsh).
  pose proof (masked_fill_eval B T' _ _ (-1)%Z Het Hnm) as Emf.
  eexists. exists (map_tb (fun (a : Z) (mb : bool) => if mb then (-1)%Z else a)
                     (transpose 0%Z B ei) (map (map negb) m)).
  exists T', ci, out, m, q'. do 2 eexists. exists ei. eexists.
  split; [|split; [exact Hci|split; [exact Hciv|split; [exact Ef|
    split; [exact Er|split; [|split; [|split; [exact Hmsh|]]]]]]]].
  - unfold extract_codes. unfold self at 1. cbn [text_encoder].
    rewrite Henc, Eci. unfold self at 1. cbn [text_conv_encoder].
    rewrite Ef. unfold self at 1. cbn [bottom_quantizer].
    rewrite Hsm, Er. fold ei. rewrite Hse, Emf. reflexivity.
  - reflexivity.
  - apply (map_tb_shape_gen _ B T'); assumption.
  - intros b t Hb Ht. split; [apply Hiff; assumption|].
    rewrite (map_tb_nth _ B T' _ _ b t 0%Z false 0%Z) by assumption.
    rewrite (nth2_map_map negb B T' m b t false false Hmsh Hb Ht).
    destruct (nth t (nth b m []) false) eqn:Em; simpl; [|reflexivity].
    rewrite (transpose_nth 0%Z T' B ei t b) by (destruct Hei; assumption).
    split; [reflexivity|].
    unfold ei.
    rewrite (nth2_map_map _ T' B out t b [] 0%Z Hrows Ht Hb).
    set (x := nth b (nth t out []) []).
    pose proof (nearest32_range K E n x HK) as Hr.
    assert (Hd : forall k, k < n ->
              nth k (dist_row K E n x) zero
              = computed_dist K x (column k E))
      by (intros k Hk'; apply (dist_row32_nth K (dim q)); assumption).
    split; [exact Hr|]. split.
    + intros Hnan.
      destruct (nearest32_spec K E n x HK) as [Hmin Hfirst].
      { apply Forall_nth. intros k d Hk'.
        rewrite dist_row32_length in Hk'.
        rewrite (nth_indep _ d zero)
          by (rewrite dist_row32_length; exact Hk').
        rewrite Hd by exact Hk'. apply Hnan. exact Hk'. }
      split.
      * intros k Hk'. specialize (Hmin k Hk').
        rewrite !Hd in Hmin by lia. exact Hmin.
      * intros k Hk'. specialize (Hfirst k Hk').
        rewrite !Hd in Hfirst by lia. exact Hfirst.
    + intros j Hj Hnan Hbefore.
      apply (nearest32_nan K E n x j Hj).
      * rewrite Hd by exact Hj. exact Hnan.
      * intros k Hk'. rewrite Hd by lia. apply Hbefore. exact Hk'.
Qed.

End ExtractCodes32.

(** ** The properties on the concrete instances *)

Section Instances.
Import Torch Shape vqvae_lm.
Local Open Scope nat_scope.

Ltac shapes :=
  repeat match goal with
         | |- _ /\ _ => split
         | |- Forall _ _ => constructor
         | |- shape2 _ _ _ => split
         | |- shape3 _ _ _ _ => split
         | |- wf_quantize _ => unfold wf_quantize
         | |- batch_ok _ _ _ _ _ => unfold batch_ok
         | |- In _ _ => simpl; tauto
         | |- _ = _ => reflexivity
         | |- (_ <= _)%nat => simpl; lia
         | |- (_ < _)%nat => simpl; lia
         | |- (_ <= _)%Z => simpl; lia
         | |- (_ < _)%Z => simpl; lia
         | |- _ <> _ => discriminate
         end.

Lemma alone_ok (C K : nat) : comm_ok C K Example.alone.
Proof. split; intros t Ht; exact Ht. Defined.

Lemma vadd_length (K : nat) (u v : list Qc) :
  length u = K -> length v = K -> length (vadd u v) = K.
Proof.
  intros Hu Hv. unfold vadd. rewrite length_map, length_combine. lia.
Defined.

Lemma madd_shape (C K : nat) (a b : list (list Qc)) :
  shape2 C K a -> shape2 C K b -> shape2 C K (madd a b).
Proof.
  intros [Ha Has] [Hb Hbs]. unfold madd. split.
  - rewrite length_map, length_combine. lia.
  - rewrite Forall_forall. intros r Hr. apply in_map_iff in Hr.
    destruct Hr as ([u v] & <- & Hin).
    destruct (in_combine_shape _ _ _ _ _ Has Hbs Hin) as [Hu Hv].
    apply vadd_length; assumption.
Defined.

(** The sum over a group whose members contribute tensors of the shapes
    of the statistics gives back tensors of these shapes. *)
Lemma sum_group_ok (C K : nat) (peers1 : list (list Qc))
    (peers2 : list (list (list Qc))) :
  Forall (fun t => length t = K) peers1 ->
  Forall (shape2 C K) peers2 ->
  comm_ok C K (sum_group peers1 peers2).
Proof.
  intros H1 H2. split; simpl.
  - induction H1 as [|p ps Hp _ IH]; intros t Ht; simpl; [exact Ht|].
    apply IH. apply vadd_length; assumption.
  - induction H2 as [|p ps Hp _ IH]; intros t Ht; simpl; [exact Ht|].
    apply IH. apply madd_shape; assumption.
Defined.

Lemma conv_encoder_copies_agree_witness :
  conv_encoder.compute_conv_mask Example.lengths 2
  = vqvae_lm.compute_conv_mask Example.lengths 2
  /\ conv_encoder.ConvEncoder_forward
       (conv_encoder.ConvEncoder_init Example.kernels Example.strides_
          Example.params Example.qparams)
       Example.batch Example.lengths
     = vqvae_lm.ConvEncoder_forward
         (vqvae_lm.ConvEncoder_init Example.kernels Example.strides_
            Example.params Example.qparams)
         Example.batch Example.lengths
  /\ (forall kernels strides params qparams,
        let a := conv_encoder.ConvEncoder_init kernels strides params qparams in
        let b := vqvae_lm.ConvEncoder_init kernels strides params qparams in
        conv_encoder.strides a = vqvae_lm.strides b
        /\ conv_encoder.conv_blocks a = vqvae_lm.conv_blocks b
        /\ conv_encoder.quant_conv a = vqvae_lm.quant_conv b).
Proof.
  apply (conv_encoder_copies_agree
           (conv_encoder.ConvEncoder_init Example.kernels Example.strides_
              Example.params Example.qparams)
           (vqvae_lm.ConvEncoder_init Example.kernels Example.strides_
              Example.params Example.qparams)
           Example.batch Example.lengths 2); reflexivity.
Defined.



Lemma eval_mode_keeps_buffers_witness :
  (forall self' out,
     run Example.alone
         (Quantize_forward Example.quantizer_eval 1 Example.input
            Example.input_mask)
     = Some (self', out) ->
     self' = Example.quantizer_eval
     /\ embed self' = embed Example.quantizer_eval
     /\ cluster_size self' = cluster_size Example.quantizer_eval
     /\ embed_avg self' = embed_avg Example.quantizer_eval)
  /\ (forall T B,
        wf_quantize Example.quantizer_eval -> 1 <= T ->
        shape3 T B (dim Example.quantizer_eval) Example.input ->
        shape2 T B Example.input_mask ->
        exists out,
          run Example.alone
              (Quantize_forward Example.quantizer_eval 1 Example.input
                 Example.input_mask)
          = Some (Example.quantizer_eval, out)).
Proof.
  apply (eval_mode_keeps_buffers Example.alone Example.quantizer_eval 1
           Example.input Example.input_mask).
  reflexivity.
Defined.



Lemma collectives_only_in_training_witness :
  let xs := combine (concat Example.input) (concat Example.input_mask) in
  collectives Example.with_peer
    (Quantize_forward Example.quantizer 2 Example.input Example.input_mask)
  = [Reduced1 (cluster_sum_of (embed Example.quantizer)
                 (n_embed Example.quantizer) xs);
     Reduced2 (embed_sum_of (embed Example.quantizer)
                 (dim Example.quantizer) (n_embed Example.quantizer) xs)].
Proof.
  destruct (collectives_only_in_training Example.with_peer
              Example.quantizer 2 Example.input Example.input_mask)
    as (_ & _ & H & _).
  apply (H 2 2); shapes.
Defined.

End Instances.

Section Instances32.
Import Torch Shape Float32 Torch32 vqvae_lm32 Shape32.
Local Open Scope nat_scope.

Ltac shapes32 :=
  repeat match goal with
         | |- _ /\ _ => split
         | |- Forall _ _ => constructor
         | |- wf_quantize _ => unfold wf_quantize
         | |- shape2 _ _ _ => unfold shape2
         | |- shape3 _ _ _ _ => unfold shape3
         | |- comm_ok _ _ _ => unfold comm_ok; simpl; auto
         | |- In _ _ => simpl; tauto
         | |- _ = _ => reflexivity
         | |- (_ <= _)%nat => simpl; lia
         | |- (_ < _)%nat => simpl; lia
         | |- (_ <= _)%Z => simpl; lia
         | |- (_ < _)%Z => simpl; lia
         | |- _ <> _ => discriminate
         end.

Lemma quantize_assigns_least_computed_witness :
  exists flatten embed_onehot embed_ind quantize stats,
    assign sequential Example32.quantizer Example32.input
      Example32.input_mask
    = Some (flatten, embed_onehot, embed_ind, quantize, stats)
    /\ flatten = concat Example32.input
    /\ (forall t b, t < 2 -> b < 2 ->
          let x := nth b (nth t Example32.input []) [] in
          let i := nth b (nth t embed_ind []) 0%Z in
          let d := fun k =>
            computed_dist sequential x
              (column k (embed Example32.quantizer)) in
          (0 <= i < Z.of_nat (n_embed Example32.quantizer))%Z
          /\ ((forall k, k < n_embed Example32.quantizer ->
                 is_nan (d k) = false) ->
              (forall k, k < n_embed Example32.quantizer ->
                 leb (d (Z.to_nat i)) (d k) = true)
              /\ (forall k, k < Z.to_nat i ->
                    ltb (d (Z.to_nat i)) (d k) = true))
          /\ (forall j, j < n_embed Example32.quantizer ->
                is_nan (d j) = true ->
                (forall k, k < j -> is_nan (d k) = false) ->
                i = Z.of_nat j)
          /\ nth b (nth t quantize []) []
             = column (Z.to_nat i) (embed Example32.quantizer))
    /\ exists self' quantize' diff stats',
         Quantize_forward sequential Example32.alone Example32.quantizer 1
           Example32.input Example32.input_mask
         = Some (self', (quantize', diff, embed_ind, stats')).
Proof.
  apply (quantize_assigns_least_computed sequential Example32.alone
           Example32.quantizer 1 2 2 Example32.input Example32.input_mask);
    shapes32.
Defined.

(** For the codes 4099 and 4096 and the input 4097 the two entries of
    [dist] are both 0 in float32, so [forward] assigns the code 4099,
    at the squared distance 4, and not the code 4096, at the squared
    distance 1. *)
Lemma quantize_assigns_nearest_counterexample :
  exists self' quantize diff stats,
    Quantize_forward sequential Example32.alone Example32.close_codes 1
      Example32.close_input [[true]]
    = Some (self', (quantize, diff, [[0%Z]], stats))
    /\ (Shape.sqdist (map exact [Example32.fz 4097])
          (map exact (column 1 (embed Example32.close_codes)))
        < Shape.sqdist (map exact [Example32.fz 4097])
            (map exact (column 0 (embed Example32.close_codes))))%Qc.
Proof.
  do 4 eexists. split.
  - vm_compute. reflexivity.
  - vm_compute. reflexivity.
Qed.

Lemma straight_through_rounds_witness :
  exists self' quantize diff embed_ind stats,
    Quantize_forward sequential Example32.alone Example32.quantizer 1
      Example32.input Example32.input_mask
    = Some (self', (quantize, diff, embed_ind, stats))
    /\ shape3 2 2 (dim Example32.quantizer) quantize
    /\ forall t b c, t < 2 -> b < 2 -> c < dim Example32.quantizer ->
         let x := nth c (nth b (nth t Example32.input []) []) zero in
         let q := nth c (column (Z.to_nat (nth b (nth t embed_ind []) 0%Z))
                                (embed Example32.quantizer)) zero in
         let m := nth b (nth t Example32.input_mask []) false in
         let y := nth c (nth b (nth t quantize []) []) zero in
         y = add (mul x (of_bool m)) (sub (mul q (of_bool m))
                                          (mul x (of_bool m)))
         /\ (m = true -> is_float32 x -> is_float32 q ->
             y = add x (sub q x)
             /\ (forall a e, x = Fin a -> q = Fin e ->
                   round32 (e - a)%Qc = Fin (e - a)%Qc -> y = q))
         /\ (m = false -> finite x = true -> finite q = true -> y = zero).
Proof.
  apply (straight_through_rounds sequential Example32.alone
           Example32.quantizer 1 2 2 Example32.input Example32.input_mask);
    shapes32.
Defined.

(** For the code 0.1 the value returned at the unmasked position,
    where the input is 0.7, is 838861/8388608, the float32 sum of 0.7
    and of the float32 difference of 0.1 and 0.7, and not the code,
    0.1 in float32, which is 13421773/134217728; and the value
    returned at the masked position, where the input is infinity, is
    NaN, the product of infinity and 0, and not zero. *)
Lemma straight_through_keeps_value_counterexample :
  exists self' quantize diff stats,
    Quantize_forward sequential Example32.alone Example32.tenth_code 1
      Example32.tenth_input Example32.tenth_mask
    = Some (self', (quantize, diff, [[0%Z; 0%Z]], stats))
    /\ is_float32 Example32.seven_tenths
    /\ is_float32 Example32.tenth
    /\ exact (nth 0 (nth 0 (nth 0 quantize []) []) zero)
       = Q2Qc (838861 # 8388608)
    /\ exact (nth 0 (column 0 (embed Example32.tenth_code)) zero)
       = Q2Qc (13421773 # 134217728)
    /\ nth 0 (nth 0 (nth 0 quantize []) []) zero
       <> nth 0 (column 0 (embed Example32.tenth_code)) zero
    /\ nth 0 (nth 1 (nth 0 quantize []) []) zero = NaN
    /\ NaN <> zero.
Proof.
  do 4 eexists. split; [vm_compute; reflexivity|].
  split; [vm_compute; reflexivity|].
  split; [vm_compute; reflexivity|].
  split; [apply Qc_is_canon; vm_compute; reflexivity|].
  split; [apply Qc_is_canon; vm_compute; reflexivity|].
  split; [|split; [vm_compute; reflexivity | discriminate]].
  intros H. apply (f_equal exact) in H. apply (f_equal this) in H.
  vm_compute in H. discriminate H.
Qed.

Lemma extract_codes_holds_assigned_witness :
  let conv := ConvEncoder_init Example32.kernels Example32.strides_
                Example32.params Example32.qparams in
  let self := {| text_encoder := Example32.encoder;
                 text_conv_encoder := conv;
                 bottom_quantizer := Some Example32.quantizer |} in
  let l := strided_lengths
             (map snd (combine (conv_blocks conv)
                               (vqvae_lm32.strides conv)))
             Example32.lengths in
  let eo := Example32.encoder_output in
  let q := Example32.quantizer in
  exists self' codes (T' : nat) conv_inpt text_conv_out mask
         q' quantize diff embed_ind stats,
    extract_codes sequential Example32.alone self 1 [] Example32.lengths
    = Some (self', codes)
    /\ shape3 5 2 1 conv_inpt
    /\ (forall t b, t < 5 -> b < 2 ->
          nth b (nth t conv_inpt []) []
          = vmask (nth b (nth t (encoder_out eo) []) [])
                  (negb (nth t (nth b (encoder_padding_mask eo) []) true)))
    /\ ConvEncoder_forward sequential conv (permute120 conv_inpt)
         Example32.lengths
       = Some (text_conv_out, Some mask)
    /\ Quantize_forward sequential Example32.alone q 1 text_conv_out
         (transpose false T' mask)
       = Some (q', (quantize, diff, embed_ind, stats))
    /\ bottom_quantizer self' = Some q'
    /\ shape2 2 T' codes
    /\ shape2 2 T' mask
    /\ forall b t, b < 2 -> t < T' ->
         (nth t (nth b mask []) false = true
          <-> (Z.of_nat t < nth b l 0)%Z)
         /\ if nth t (nth b mask []) false
            then
              let x := nth b (nth t text_conv_out []) [] in
              let i := nth t (nth b codes []) 0%Z in
              let d := fun k =>
                computed_dist sequential x (column k (embed q)) in
              i = nth b (nth t embed_ind []) 0%Z
              /\ (0 <= i < Z.of_nat (n_embed q))%Z
              /\ ((forall k, k < n_embed q -> is_nan (d k) = false) ->
                  (forall k, k < n_embed q ->
                     leb (d (Z.to_nat i)) (d k) = true)
                  /\ (forall k, k < Z.to_nat i ->
                        ltb (d (Z.to_nat i)) (d k) = true))
              /\ (forall j, j < n_embed q -> is_nan (d j) = true ->
                    (forall k, k < j -> is_nan (d k) = false) ->
                    i = Z.of_nat j)
            else nth t (nth b codes []) 0%Z = (-1)%Z.
Proof.
  apply (extract_codes_holds_assigned sequential Example32.alone
           Example32.encoder
           Example32.kernels Example32.strides_ Example32.params
           Example32.qparams
           Example32.quantizer 1 [] Example32.lengths
           Example32.encoder_output 5 2 1);
    [reflexivity | shapes32 | shapes32 | lia | lia | lia | simpl; lia
    | reflexivity | shapes32 | shapes32 | shapes32 | shapes32 | shapes32
    | reflexivity | reflexivity | shapes32 | shapes32
    | shapes32 | discriminate].
Defined.

(** The text encoder returning 4097 at the one position of a batch of
    one example, and the convolutional encoder leaving it as it is,
    [extract_codes] returns the index 0 at that position, of the code
    4099, at the squared distance 4 from the output 4097 of the
    convolutional encoder: the code 4096, of index 1, is at the
    squared distance 1. *)
Lemma extract_codes_nearest_counterexample :
  let conv := ConvEncoder_init [1%Z] [1%Z] Example32.unit_params
                Example32.unit_qparams in
  let self := {| text_encoder := Example32.close_encoder;
                 text_conv_encoder := conv;
                 bottom_quantizer := Some Example32.close_codes |} in
  exists self' conv_inpt text_conv_out,
    extract_codes sequential Example32.alone self 1 [[0%Z]] [1%Z]
    = Some (self', [[0%Z]])
    /\ mul3 Example32.close_input
         (unsqueeze_last (transpose zero 1 [[of_bool (negb false)]]))
       = Some conv_inpt
    /\ ConvEncoder_forward sequential conv (permute120 conv_inpt) [1%Z]
       = Some (text_conv_out, Some [[true]])
    /\ map exact (nth 0 (nth 0 text_conv_out []) [])
       = [Q2Qc (inject_Z 4097)]
    /\ (Shape.sqdist (map exact (nth 0 (nth 0 text_conv_out []) []))
          (map exact (column 1 (embed Example32.close_codes)))
        < Shape.sqdist (map exact (nth 0 (nth 0 text_conv_out []) []))
            (map exact (column 0 (embed Example32.close_codes))))%Qc.
Proof.
  do 3 eexists. split; [vm_compute; reflexivity|].
  split; [vm_compute; reflexivity|].
  split; [vm_compute; reflexivity|].
  split; [|vm_compute; reflexivity].
  cbn [map nth]. f_equal. apply Qc_is_canon. vm_compute. reflexivity.
Qed.

End Instances32.

(** * Further properties of the code *)

Section ConvMaskEdges.
Import Torch Shape.
Local Open Scope Z_scope.

Lemma valid_lengths_map (lengths : list Z) (s : Z) :
  iadd_scalar
    (map (fun x => wrap64 (Z.quot x s)) (isub_scalar lengths 1)) 1
  = map (fun l => valid_length l s) lengths.
Proof.
  unfold iadd_scalar, isub_scalar, valid_length. rewrite !map_map.
  reflexivity.
Qed.

Lemma compute_conv_mask_unfold (lengths : list Z) (s : Z) :
  vqvae_lm.compute_conv_mask lengths s
  = if s =? 0 then None
    else
      let valid := map (fun l => valid_length l s) lengths in
      match imax valid with
      | Some m =>
          if m <? 0 then None
          else Some (valid,
                     map (fun x => map (fun t => t <? x)
                                       (map Z.of_nat (seq 0 (Z.to_nat m))))
                         valid)
      | None => None
      end.
Proof.
  unfold vqvae_lm.compute_conv_mask, idiv_scalar.
  destruct (s =? 0); [reflexivity|].
  rewrite valid_lengths_map. cbv zeta.
  destruct (imax (map (fun l => valid_length l s) lengths)) as [m|];
    [|reflexivity].
  unfold arange. destruct (m <? 0); [reflexivity|].
  replace (length lengths)
    with (length (map (fun l => valid_length l s) lengths))
    by apply length_map.
  rewrite lt_unsqueeze1_expand. reflexivity.
Qed.

Lemma imax_negative (l : list Z) (m : Z) :
  imax l = Some m -> (m < 0 <-> Forall (fun v => v < 0) l).
Proof.
  intros H. destruct (imax_spec l m H) as [Hin Hall].
  rewrite Forall_forall in *. split.
  - intros Hm v Hv. specialize (Hall v Hv). lia.
  - intros Hneg. apply Hneg. exact Hin.
Qed.

Lemma compute_conv_mask_none (lengths : list Z) (s : Z) :
  vqvae_lm.compute_conv_mask lengths s = None
  <-> lengths = [] \/ s = 0
      \/ Forall (fun l => valid_length l s < 0) lengths.
Proof.
  rewrite compute_conv_mask_unfold.
  destruct (Z.eqb_spec s 0) as [->|Hs]; [tauto|]. cbv zeta.
  destruct lengths as [|l0 r].
  { simpl. tauto. }
  set (valid := map (fun l => valid_length l s) (l0 :: r)).
  destruct (imax valid) as [m|] eqn:Em.
  2:{ unfold valid in Em. simpl in Em. discriminate. }
  pose proof (imax_negative valid m Em) as Hneg.
  unfold valid in Hneg. rewrite Forall_map in Hneg.
  destruct (Z.ltb_spec m 0) as [Hm|Hm].
  - split; [intros _; right; right; apply Hneg; exact Hm | reflexivity].
  - split; [discriminate|].
    intros [H|[H|H]]; [discriminate | contradiction |].
    apply Hneg in H. lia.
Qed.

(** X1. [compute_conv_mask] raises exactly on an empty batch
    ([torch.max] of a tensor without elements), on the stride 0 (the
    division of integers by zero), and when every valid length is
    negative ([torch.arange] of a negative bound); the two copies
    agree. *)
Theorem compute_conv_mask_raises (lengths : list Z) (s : Z) :
  (vqvae_lm.compute_conv_mask lengths s = None
   <-> lengths = [] \/ s = 0
       \/ Forall (fun l => valid_length l s < 0) lengths)
  /\ (conv_encoder.compute_conv_mask lengths s = None
      <-> lengths = [] \/ s = 0
          \/ Forall (fun l => valid_length l s < 0) lengths).
Proof.
  split; [|rewrite compute_conv_mask_same]; apply compute_conv_mask_none.
Qed.

Lemma quot_small (a s : Z) :
  - 2 ^ 63 <= a < 2 ^ 63 -> 1 <= s -> - 2 ^ 63 <= Z.quot a s < 2 ^ 63.
Proof.
  intros Ha Hs.
  destruct (Z_le_gt_dec 0 a) as [H0|H0].
  - rewrite Z.quot_div_nonneg by lia.
    pose proof (Z.div_pos a s ltac:(lia) ltac:(lia)).
    pose proof (Z.div_le_upper_bound a s a ltac:(lia) ltac:(nia)). lia.
  - replace a with (- (- a)) by lia. rewrite Z.quot_opp_l by lia.
    rewrite Z.quot_div_nonneg by lia.
    pose proof (Z.div_pos (- a) s ltac:(lia) ltac:(lia)).
    pose proof (Z.div_le_upper_bound (- a) s (- a) ltac:(lia) ltac:(nia)).
    lia.
Qed.

Lemma valid_length_nonneg (l s : Z) :
  0 <= l < 2 ^ 63 -> 2 <= s < 2 ^ 63 ->
  valid_length l s = (if l =? 0 then 1 else (l - 1) / s + 1)
  /\ 1 <= valid_length l s < 2 ^ 63.
Proof.
  intros Hl Hs. unfold valid_length.
  rewrite (wrap64_small (l - 1)) by lia.
  pose proof (quot_small (l - 1) s ltac:(lia) ltac:(lia)) as Hq.
  rewrite (wrap64_small (Z.quot (l - 1) s)) by exact Hq.
  destruct (Z.eqb_spec l 0) as [->|Hn].
  - change (0 - 1) with (- (1)). rewrite Z.quot_opp_l by lia.
    rewrite Z.quot_small by lia. simpl. split; [reflexivity|].
    rewrite wrap64_small by lia. lia.
  - rewrite Z.quot_div_nonneg by lia.
    pose proof (Z.div_pos (l - 1) s ltac:(lia) ltac:(lia)).
    pose proof (Z.div_le_upper_bound (l - 1) s (l - 1) ltac:(lia) ltac:(nia)).
    rewrite wrap64_small by lia. lia.
Qed.

(** X2. With a stride of at least 2, a batch of non-negative lengths
    gets valid lengths of at least 1: a sequence of length 0 has the
    valid length 1, since the integer division truncates [-1 / stride]
    to 0, and the first position of every example is marked valid. *)
Theorem compute_conv_mask_keeps_a_position (lengths : list Z) (s : Z) :
  lengths <> [] ->
  Forall (fun l => 0 <= l < 2 ^ 63) lengths ->
  2 <= s < 2 ^ 63 ->
  exists (valid_lengths : list Z) (mask : list (list bool)),
    vqvae_lm.compute_conv_mask lengths s = Some (valid_lengths, mask)
    /\ conv_encoder.compute_conv_mask lengths s = Some (valid_lengths, mask)
    /\ valid_lengths
       = map (fun l => if l =? 0 then 1 else (l - 1) / s + 1) lengths
    /\ forall i : nat,
         (i < length lengths)%nat ->
         1 <= nth i valid_lengths 0
         /\ nth 0%nat (nth i mask []) false = true
         /\ (nth i lengths 0 = 0 -> nth i valid_lengths 0 = 1).
Proof.
  intros Hne Hl Hs.
  assert (Hv : map (fun l => valid_length l s) lengths
               = map (fun l => if l =? 0 then 1 else (l - 1) / s + 1)
                     lengths).
  { apply map_ext_in. intros l Hin. rewrite Forall_forall in Hl.
    apply valid_length_nonneg; auto. }
  assert (Hpos : Forall (fun v => 1 <= v < 2 ^ 63)
                        (map (fun l => valid_length l s) lengths)).
  { rewrite Forall_map. rewrite Forall_forall in *. intros l Hin.
    apply valid_length_nonneg; auto. }
  pose proof (compute_conv_mask_unfold lengths s) as E.
  destruct (Z.eqb_spec s 0) as [?|_]; [lia|]. cbv zeta in E.
  set (valid := map (fun l => valid_length l s) lengths) in *.
  destruct (imax valid) as [m|] eqn:Em.
  2:{ destruct lengths; [contradiction | discriminate]. }
  destruct (imax_spec valid m Em) as [Hin Hall].
  assert (Hm : 1 <= m).
  { rewrite Forall_forall in Hpos. apply Hpos in Hin. lia. }
  destruct (Z.ltb_spec m 0) as [?|_]; [lia|].
  do 2 eexists.
  split; [exact E|]. split; [rewrite compute_conv_mask_same; exact E|].
  split; [exact Hv|].
  intros i Hi.
  assert (Hiv : (i < length valid)%nat)
    by (unfold valid; rewrite length_map; exact Hi).
  assert (Hvi : 1 <= nth i valid 0 < 2 ^ 63).
  { rewrite Forall_forall in Hpos. apply Hpos. apply nth_In. exact Hiv. }
  split; [lia|]. split.
  - rewrite (nth_map_in _ valid i 0 []) by exact Hiv.
    rewrite mask_row_nth by lia.
    apply Z.ltb_lt. simpl. lia.
  - intros Hz. rewrite Hv.
    rewrite (nth_map_in _ lengths i 0 0) by exact Hi.
    rewrite Hz. reflexivity.
Qed.

Lemma compute_conv_mask_keeps_a_position_witness :
  exists (valid_lengths : list Z) (mask : list (list bool)),
    vqvae_lm.compute_conv_mask [0; 3] 2 = Some (valid_lengths, mask)
    /\ conv_encoder.compute_conv_mask [0; 3] 2 = Some (valid_lengths, mask)
    /\ valid_lengths
       = map (fun l => if l =? 0 then 1 else (l - 1) / 2 + 1) [0; 3]
    /\ forall i : nat,
         (i < length [0; 3])%nat ->
         1 <= nth i valid_lengths 0
         /\ nth 0%nat (nth i mask []) false = true
         /\ (nth i [0; 3] 0 = 0 -> nth i valid_lengths 0 = 1).
Proof.
  apply (compute_conv_mask_keeps_a_position [0; 3] 2).
  - discriminate.
  - repeat constructor; lia.
  - lia.
Defined.

End ConvMaskEdges.

Section StrideProduct.
Import Torch Shape vqvae_lm.
Local Open Scope Z_scope.

Lemma stride_product_pos (ss : list Z) :
  Forall (fun s => 1 <= s) ss -> 1 <= stride_product ss.
Proof.
  induction 1 as [|s ss Hs _ IH]; simpl; [lia | nia].
Qed.

Lemma strided_lengths_product (ss : list Z) (l : list Z) :
  Forall (fun s => 1 <= s) ss ->
  strided_lengths ss l
  = map (fun v => (v - 1) / stride_product ss + 1) l.
Proof.
  intros H. revert l. induction H as [|s ss Hs Hss IH]; intros l.
  - simpl. rewrite <- (map_id l) at 1. apply map_ext. intros v.
    rewrite Z.div_1_r. lia.
  - unfold strided_lengths in *. simpl. rewrite IH, map_map.
    apply map_ext. intros v.
    pose proof (stride_product_pos ss Hss).
    replace ((v - 1) / s + 1 - 1) with ((v - 1) / s) by lia.
    rewrite Z.div_div by lia. reflexivity.
Qed.

Lemma init_layer_strides (kernels strides : list Z)
    (params : list (tensor3 * tensor1)) (qparams : tensor3 * tensor1) :
  length strides = length kernels -> length params = length kernels ->
  let self := ConvEncoder_init kernels strides params qparams in
  map snd (combine (conv_blocks self) (vqvae_lm.strides self)) = strides
  /\ length (combine (conv_blocks self) (vqvae_lm.strides self))
     = length kernels.
Proof.
  intros Hs Hp. cbv zeta. simpl.
  assert (Hl : length
                 (map (fun p : Z * Z * (tensor3 * tensor1) =>
                         {| weight := fst (snd p); bias := snd (snd p);
                            kernel_size := fst (fst p);
                            padding := fst (fst p) / 2;
                            stride := snd (fst p) |})
                      (combine (combine kernels strides) params))
               = length strides).
  { rewrite length_map, !length_combine. lia. }
  split.
  - apply map_snd_combine. exact Hl.
  - rewrite length_combine, Hl. lia.
Qed.

(** [ConvEncoder.forward] on a batch, with the activation the last
    layer leaves and the output of [quant_conv] before the
    permutation. *)
Lemma conv_encoder_forward_full (B C C' T : nat)
    (kernels strides : list Z) (params : list (tensor3 * tensor1))
    (qparams : tensor3 * tensor1) (input : tensor3) (lengths : list Z) :
  Forall (fun k => 1 <= k /\ k mod 2 = 1) kernels ->
  Forall (fun s => 1 <= s < 2 ^ 63) strides ->
  Forall (fun p => length (fst p) = C /\ length (snd p) = C
                   /\ Forall (fun w => length w = C) (fst p)) params ->
  length (fst qparams) = C' -> length (snd qparams) = C' ->
  Forall (fun w => length w = C) (fst qparams) -> (1 <= C')%nat ->
  batch_ok B C T input lengths ->
  let self := ConvEncoder_init kernels strides params qparams in
  combine (conv_blocks self) (vqvae_lm.strides self) <> [] ->
  exists (T' : nat) (x : tensor3) (m : list (list bool)) (y : tensor3),
    let l := strided_lengths
               (map snd (combine (conv_blocks self) (vqvae_lm.strides self)))
               lengths in
    ConvEncoder_forward self input lengths = Some (permute201 y, Some m)
    /\ y = map (conv1d_example (quant_conv self)) x
    /\ batch_ok B C T' x l
    /\ masked B C T' x l m
    /\ shape3 B C' T' y.
Proof.
  intros Hk Hs Hp Hq1 Hq2 Hq3 HC' Hok self Hne.
  pose proof (init_layers_wf C kernels strides params qparams Hk Hs Hp)
    as Hwf.
  cbv zeta in Hwf. fold self in Hwf.
  destruct (forward_loop_masks B C _ Hwf Hne T input lengths None Hok)
    as (T' & x & m & E & Hok' & Hm).
  cbv zeta in *.
  pose proof Hok' as (HB & HC & HT' & _ & Hx & _).
  destruct (conv1d_shape_gen B C C' T' (quant_conv self) x Hx HB HC)
    as (y & Ey & Hy); simpl; try assumption; try lia.
  assert (Ey' : y = map (conv1d_example (quant_conv self)) x).
  { unfold conv1d in Ey.
    destruct (_ || _ || _) in Ey; [discriminate|].
    injection Ey as <-. reflexivity. }
  exists T', x, m, y.
  split; [|split; [exact Ey'|split; [exact Hok'|split; [exact Hm|]]]].
  - unfold ConvEncoder_forward. rewrite E. fold self. rewrite Ey.
    reflexivity.
  - replace T' with (Z.to_nat (conv1d_out_len (quant_conv self) T'));
      [exact Hy|].
    unfold conv1d_out_len. simpl.
    rewrite Z.div_1_r. lia.
Qed.

(** X3. The layers compose: for an encoder built from odd kernel sizes
    with one stride for each kernel, on a batch whose greatest length is
    [T], [ConvEncoder.forward] returns an output of [T'] time steps and
    a mask of shape [B x T'], where [T' = (T - 1) / P + 1] for the
    product [P] of all the strides, and the mask of the example [b] is
    true exactly before [(lengths[b] - 1) / P + 1]. *)
Theorem conv_encoder_mask_total_stride (B C C' T : nat)
    (kernels strides : list Z) (params : list (tensor3 * tensor1))
    (qparams : tensor3 * tensor1) (input : tensor3) (lengths : list Z) :
  kernels <> [] ->
  length strides = length kernels -> length params = length kernels ->
  Forall (fun k => 1 <= k /\ k mod 2 = 1) kernels ->
  Forall (fun s => 1 <= s < 2 ^ 63) strides ->
  Forall (fun p => length (fst p) = C /\ length (snd p) = C
                   /\ Forall (fun w => length w = C) (fst p)) params ->
  length (fst qparams) = C' -> length (snd qparams) = C' ->
  Forall (fun w => length w = C) (fst qparams) -> (1 <= C')%nat ->
  batch_ok B C T input lengths ->
  let self := ConvEncoder_init kernels strides params qparams in
  let P := stride_product strides in
  exists (T' : nat) (out : tensor3) (m : list (list bool)),
    ConvEncoder_forward self input lengths = Some (out, Some m)
    /\ Z.of_nat T' = (Z.of_nat T - 1) / P + 1
    /\ shape3 T' B C' out
    /\ shape2 B T' m
    /\ forall b t : nat,
         (b < B)%nat -> (t < T')%nat ->
         (nth t (nth b m []) false = true
          <-> Z.of_nat t < (nth b lengths 0 - 1) / P + 1).
Proof.
  intros Hkne Hls Hlp Hk Hs Hp Hq1 Hq2 Hq3 HC' Hok self P.
  destruct (init_layer_strides kernels strides params qparams Hls Hlp)
    as [Hsnd Hlen].
  cbv zeta in Hsnd, Hlen. fold self in Hsnd, Hlen.
  assert (Hne : combine (conv_blocks self) (vqvae_lm.strides self) <> []).
  { intros E. rewrite E in Hlen. simpl in Hlen.
    destruct kernels; [contradiction | discriminate]. }
  destruct (conv_encoder_forward_full B C C' T kernels strides params
              qparams input lengths Hk Hs Hp Hq1 Hq2 Hq3 HC' Hok Hne)
    as (T' & x & m & y & Ef & _ & Hok' & Hm & Hy).
  cbv zeta in Ef, Hok', Hm. fold self in Ef, Hok', Hm.
  rewrite Hsnd in Hok', Hm.
  assert (Hs1 : Forall (fun s => 1 <= s) strides).
  { rewrite Forall_forall in *. intros s Hin. apply Hs in Hin. lia. }
  rewrite (strided_lengths_product strides lengths Hs1) in Hok', Hm.
  fold P in Hok', Hm.
  pose proof (stride_product_pos strides Hs1) as HP. fold P in HP.
  destruct Hok as (HB & HC & HT & HT63 & Hx & Hll & Hl & HinT).
  destruct Hok' as (_ & _ & HT' & _ & _ & _ & Hl' & HinT').
  destruct Hm as (Hmsh & Hiff & _).
  exists T', (permute201 y), m.
  split; [exact Ef|]. split.
  { apply (strided_max lengths P T T'); assumption. }
  split; [apply permute201_shape; assumption|].
  split; [exact Hmsh|].
  intros b t Hb Ht. rewrite (Hiff b t Hb Ht).
  rewrite (nth_map_in _ lengths b 0 0) by lia. reflexivity.
Qed.






End StrideProduct.

Section NoLayer.
Import Torch Shape vqvae_lm.
Local Open Scope nat_scope.

(** X5. An encoder whose [zip(conv_blocks, strides)] is empty returns
    the mask [None] with the output of [quant_conv] on the input itself,
    and [extract_codes] then raises, as it does for a model built
    without a quantizer: it never returns codes, and it calls no
    collective operation. *)
Theorem extract_codes_needs_layer_and_quantizer (w : Comm) (vq : VQVAE)
    (device_count : nat) (full_tokens : list (list Z))
    (full_lengths : list Z) :
  combine (conv_blocks (text_conv_encoder vq))
          (strides (text_conv_encoder vq)) = []
  \/ bottom_quantizer vq = None ->
  run w (extract_codes vq device_count full_tokens full_lengths) = None
  /\ collectives w (extract_codes vq device_count full_tokens full_lengths)
     = []
  /\ (combine (conv_blocks (text_conv_encoder vq))
              (strides (text_conv_encoder vq)) = [] ->
      forall x l,
        ConvEncoder_forward (text_conv_encoder vq) x l
        = match conv1d (quant_conv (text_conv_encoder vq)) x with
          | Some y => Some (permute201 y, None)
          | None => None
          end).
Proof.
  intros H.
  assert (Hf : combine (conv_blocks (text_conv_encoder vq))
                       (strides (text_conv_encoder vq)) = [] ->
               forall x l,
                 ConvEncoder_forward (text_conv_encoder vq) x l
                 = match conv1d (quant_conv (text_conv_encoder vq)) x with
                   | Some y => Some (permute201 y, None)
                   | None => None
                   end).
  { intros E x l. unfold ConvEncoder_forward. rewrite E. reflexivity. }
  split; [|split; [|exact Hf]].
  - unfold extract_codes. rewrite run_bind, run_lift.
    destruct (text_encoder vq full_tokens) as [eo|]; [|reflexivity].
    rewrite run_bind, run_lift.
    destruct (mul3 _ _) as [ci|]; [|reflexivity].
    rewrite run_bind, run_lift.
    destruct H as [H|H].
    + rewrite (Hf H).
      destruct (conv1d _ _) as [y|]; reflexivity.
    + destruct (ConvEncoder_forward _ _ _) as [[out [m|]]|];
        try reflexivity.
      rewrite run_bind, run_lift. cbn [run bind lift].
      rewrite H. reflexivity.
  - unfold extract_codes. rewrite collectives_bind, collectives_lift, run_lift.
    destruct (text_encoder vq full_tokens) as [eo|]; [|reflexivity].
    rewrite collectives_bind, collectives_lift, run_lift.
    destruct (mul3 _ _) as [ci|]; [|reflexivity].
    rewrite collectives_bind, collectives_lift, run_lift.
    destruct H as [H|H].
    + rewrite (Hf H).
      destruct (conv1d _ _) as [y|]; reflexivity.
    + destruct (ConvEncoder_forward _ _ _) as [[out [m|]]|];
        try reflexivity.
      rewrite collectives_bind, collectives_lift, run_lift.
      cbn [collectives bind lift app].
      rewrite H. reflexivity.
Qed.

End NoLayer.

Section EvenKernel.
Import Torch Shape.
Local Open Scope Z_scope.

(** The product of an activation of [T1] time steps with a mask of [T']
    time steps raises when the two sizes differ and none of them
    is 1. *)
Lemma mul3_mask_mismatch (B C T1 T' : nat) (x : tensor3)
    (m : list (list bool)) :
  shape3 B C T1 x -> shape2 B T' m ->
  (1 <= B)%nat -> (1 <= C)%nat ->
  T1 <> T' -> T1 <> 1%nat -> T' <> 1%nat ->
  mul3 x (unsqueeze1 (map (map of_bool) m)) = None.
Proof.
  intros [Hx Hxs] [Hm Hms] HB HC Hne H1 H1'.
  destruct x as [|xb x]; simpl in Hx; [lia|].
  destruct m as [|mb m]; simpl in Hm; [lia|].
  inversion Hxs as [|? ? Hsh _]. destruct Hsh as [Hxb Hxbs].
  inversion Hms as [|? ? Hmb _].
  assert (Hrow : forall r : tensor1,
            length r = T1 ->
            bcast (lift2 Qcmult) r (map of_bool mb) = None).
  { intros r Hr. unfold bcast. rewrite length_map.
    destruct (Nat.eqb_spec (length r) (length mb)) as [E|_]; [lia|].
    destruct r as [|a [|a' r]], (map of_bool mb) as [|b [|b' mb']] eqn:Emb;
      try reflexivity; simpl in Hr;
      apply (f_equal (@length Qc)) in Emb; rewrite length_map in Emb;
      simpl in Emb; lia. }
  assert (Hex : bcast (bcast (lift2 Qcmult)) xb [map of_bool mb] = None).
  { destruct xb as [|c0 xb]; simpl in Hxb; [lia|].
    inversion Hxbs as [|? ? Hc0 _].
    unfold bcast at 1.
    destruct (Nat.eqb_spec (length (c0 :: xb)) (length [map of_bool mb]))
      as [E|E].
    - simpl. rewrite (Hrow c0 Hc0). reflexivity.
    - destruct xb as [|c1 xb]; [simpl in E; lia|].
      simpl. rewrite (Hrow c0 Hc0). reflexivity. }
  unfold mul3, unsqueeze1. simpl map. unfold bcast at 1.
  simpl length. rewrite !length_map.
  replace (S (length x) =? S (length m))%nat with true
    by (symmetry; apply Nat.eqb_eq; simpl in *; lia).
  simpl. rewrite Hex. reflexivity.
Qed.

(** X13. The encoder needs odd kernel sizes: when the first kernel size
    is even, on a batch whose greatest length [T] is a multiple of the
    stride and at least twice the stride, the convolution returns one
    time step more than the mask has, and [forward] raises. *)
Theorem conv_encoder_even_kernel_raises (B C T : nat)
    (k s : Z) (kernels strides : list Z)
    (p : tensor3 * tensor1) (params : list (tensor3 * tensor1))
    (qparams : tensor3 * tensor1) (input : tensor3) (lengths : list Z) :
  2 <= k -> k mod 2 = 0 ->
  1 <= s < 2 ^ 63 ->
  Z.of_nat T mod s = 0 -> 2 * s <= Z.of_nat T ->
  length (fst p) = C -> length (snd p) = C ->
  Forall (fun w => length w = C) (fst p) ->
  batch_ok B C T input lengths ->
  vqvae_lm.ConvEncoder_forward
    (vqvae_lm.ConvEncoder_init (k :: kernels) (s :: strides) (p :: params)
       qparams)
    input lengths = None
  /\ conv_encoder.ConvEncoder_forward
       (conv_encoder.ConvEncoder_init (k :: kernels) (s :: strides)
          (p :: params) qparams)
       input lengths = None.
Proof.
  intros Hk Hev Hs Hmod H2s Hp1 Hp2 Hp3 Hok.
  assert (Hv : vqvae_lm.ConvEncoder_forward
                 (vqvae_lm.ConvEncoder_init (k :: kernels) (s :: strides)
                    (p :: params) qparams)
                 input lengths = None).
  { destruct Hok as (HB & HC & HT & HT63 & Hx & Hlen & Hl & Hin).
    set (L := {| weight := fst p; bias := snd p; kernel_size := k;
                 padding := k / 2; stride := s |}).
    pose proof (Z.div_mod k 2 ltac:(lia)) as Hk2.
    destruct (conv1d_shape_gen B C C T L input Hx HB HC)
      as (y & Ey & Hy);
      try (unfold L; cbn [weight bias kernel_size padding stride];
           first [assumption | lia]).
    assert (Hout : conv1d_out_len L T = Z.of_nat T / s + 1).
    { unfold conv1d_out_len, L. cbn [weight bias kernel_size padding stride].
      replace (Z.of_nat T + 2 * (k / 2) - k) with (Z.of_nat T) by lia.
      reflexivity. }
    rewrite Hout in Hy.
    assert (Hne : lengths <> [])
      by (destruct lengths; simpl in *; [lia | discriminate]).
    assert (Hl63 : Forall (fun v => 1 <= v < 2 ^ 63) lengths).
    { eapply Forall_impl; [|exact Hl]. simpl. intros; lia. }
    destruct (compute_conv_mask_facts lengths s Hne Hl63 Hs)
      as (T' & m & Em & Hin' & Hb' & Hm & Hnth).
    cbv zeta in *.
    pose proof (strided_max lengths s T T' ltac:(lia) Hl Hin Hin' Hb')
      as ET.
    assert (Hq : Z.of_nat T = s * (Z.of_nat T / s))
      by (apply Z.div_exact; lia).
    assert (Hq2 : 2 <= Z.of_nat T / s)
      by (apply Z.div_le_lower_bound; lia).
    assert (Hq1 : (Z.of_nat T - 1) / s = Z.of_nat T / s - 1).
    { symmetry. apply Z.div_unique with (r := s - 1); lia. }
    rewrite Hlen in Hm. apply relu_shape in Hy.
    unfold vqvae_lm.ConvEncoder_forward. simpl combine.
    cbn [vqvae_lm.forward_loop]. unfold vqvae_lm.forward_step.
    cbn [fst snd]. fold L. rewrite Ey, Em.
    rewrite (mul3_mask_mismatch B C _ T' _ m Hy Hm HB HC); try lia.
    reflexivity. }
  split; [exact Hv|].
  rewrite <- Hv.
  unfold conv_encoder.ConvEncoder_forward, vqvae_lm.ConvEncoder_forward.
  cbn [conv_encoder.conv_blocks conv_encoder.strides
       conv_encoder.ConvEncoder_init conv_encoder.quant_conv
       vqvae_lm.conv_blocks vqvae_lm.strides vqvae_lm.ConvEncoder_init
       vqvae_lm.quant_conv].
  rewrite forward_loop_same. reflexivity.
Qed.

End EvenKernel.

Section Rationals.
Import Torch Shape vqvae_lm.
Local Open Scope Qc_scope.

Lemma of_nat_zero (n : nat) : of_nat n = 0 -> n = 0%nat.
Proof.
  unfold of_nat. intros H. apply Q2Qc_eq_iff in H.
  unfold Qeq in H. simpl in H. lia.
Qed.

Lemma sum_nonneg_zero (p r : Qc) : 0 <= p -> 0 <= r -> p + r = 0 -> p = 0.
Proof.
  intros Hp Hr H. apply Qcle_antisym; [|exact Hp].
  rewrite <- H. replace p with (p + 0) at 1 by ring.
  apply Qcplus_le_compat; [apply Qcle_refl | exact Hr].
Qed.

Lemma pow2_zero (a : Qc) : pow2 a = 0 -> a = 0.
Proof.
  unfold pow2. intros H. destruct (Qcmult_integral _ _ H); assumption.
Qed.

Lemma qsum_nonneg_zero (l : list Qc) :
  Forall (fun a => 0 <= a) l -> qsum l = 0 -> Forall (fun a => a = 0) l.
Proof.
  induction 1 as [|a l Ha Hl IH]; intros H; constructor.
  - simpl in H. apply (sum_nonneg_zero a (qsum l)); auto.
    apply qsum_nonneg. exact Hl.
  - apply IH. simpl in H.
    pose proof (qsum_nonneg l Hl) as Hq.
    rewrite Qcplus_comm in H.
    apply (sum_nonneg_zero (qsum l) a); auto.
Qed.

Lemma div_zero (s n : Qc) : n <> 0 -> s / n = 0 -> s = 0.
Proof.
  intros Hn H. replace s with (s / n * n) by (field; exact Hn).
  rewrite H. ring.
Qed.

Lemma mul_nonneg (a b : Qc) : 0 <= a -> 0 <= b -> 0 <= a * b.
Proof.
  intros Ha Hb. replace 0 with (0 * b) by ring.
  apply Qcmult_le_compat_r; assumption.
Qed.

Lemma sqdist_nonneg (x e : tensor1) : 0 <= sqdist x e.
Proof.
  unfold sqdist. apply qsum_nonneg. rewrite Forall_map, Forall_forall.
  intros p _. apply pow2_nonneg.
Qed.

Lemma sqdist_self (x : tensor1) : sqdist x x = 0.
Proof.
  unfold sqdist. apply qsum_zeros. rewrite Forall_map, Forall_forall.
  intros [a b] Hin. simpl.
  assert (a = b).
  { clear -Hin. induction x as [|c x IH]; simpl in Hin; [contradiction|].
    destruct Hin as [H|H]; [injection H; congruence | auto]. }
  subst. unfold pow2. ring.
Qed.

Lemma sqdist_zero (x e : tensor1) :
  length x = length e -> sqdist x e = 0 -> x = e.
Proof.
  revert e. induction x as [|a x IH]; intros [|b e] Hl H;
    simpl in Hl; try discriminate; [reflexivity|].
  unfold sqdist in H. simpl in H.
  assert (Hr : 0 <= qsum (map (fun p => pow2 (fst p - snd p)) (combine x e)))
    by apply (sqdist_nonneg x e).
  pose proof (pow2_nonneg (a - b)) as Hp.
  pose proof (sum_nonneg_zero _ _ Hp Hr H) as H1.
  apply pow2_zero in H1.
  assert (a = b) by (replace a with (a - b + b) by ring; rewrite H1; ring).
  subst. f_equal. apply IH; [lia|].
  unfold sqdist. rewrite H1 in H. unfold pow2 in H at 1.
  replace (0 * 0) with 0 in H by ring. rewrite Qcplus_0_l in H. exact H.
Qed.

Lemma vsub_zero (u v : tensor1) :
  length u = length v -> Forall (fun a => a = 0) (vsub u v) -> u = v.
Proof.
  revert v. induction u as [|a u IH]; intros [|b v] Hl H;
    simpl in Hl; try discriminate; [reflexivity|].
  unfold vsub in H. simpl in H. inversion H as [|? ? H1 H2].
  f_equal.
  - replace a with (a - b + b) by ring. rewrite H1. ring.
  - apply IH; [lia | exact H2].
Qed.

End Rationals.

Section QuantizeInvariant.
Import Torch Shape vqvae_lm.
Local Open Scope nat_scope.

Lemma init_wf (dim n_embed : nat) (decay eps : Qc) (embed0 : tensor2) :
  1 <= dim -> 1 <= n_embed -> shape2 dim n_embed embed0 ->
  wf_quantize (Quantize_init dim n_embed decay eps embed0).
Proof.
  intros Hd Hn He. unfold wf_quantize. simpl.
  repeat split; try assumption; try apply He.
  apply repeat_length.
Qed.

Lemma updated_wf (self : Quantize) (cs : tensor1) (es : tensor2) :
  wf_quantize self ->
  length cs = n_embed self -> shape2 (dim self) (n_embed self) es ->
  wf_quantize (updated self cs es).
Proof.
  intros (HC & HK & HE & Hcl & [Hal Har]) Hcs [Hel Her].
  assert (Hcs' : length (ema (decay self) (cluster_size self) cs)
                 = n_embed self) by (apply ema_length; assumption).
  assert (Havg : shape2 (dim self) (n_embed self)
                   (map (fun p => ema (decay self) (fst p) (snd p))
                        (combine (embed_avg self) es))).
  { split.
    - rewrite length_map, length_combine. lia.
    - rewrite Forall_map, Forall_forall. intros [a b] Hin.
      destruct (in_combine_shape _ _ _ _ _ Har Her Hin) as [Ha Hb].
      simpl in *. apply ema_length; assumption. }
  unfold wf_quantize, updated. cbn [dim n_embed embed cluster_size embed_avg].
  split; [exact HC|]. split; [exact HK|].
  split; [|split; [exact Hcs' | exact Havg]].
  destruct Havg as [Hl Hr]. split.
  - rewrite length_map. exact Hl.
  - rewrite Forall_map. rewrite Forall_forall in *. intros row Hin.
    rewrite length_map, length_combine, length_map, Hcs', (Hr row Hin).
    lia.
Qed.

(** The module [forward] leaves, on well-shaped arguments. *)
Lemma forward_state (w : Comm) (self : Quantize) (device_count T B : nat)
    (input : tensor3) (input_mask : list (list bool)) :
  wf_quantize self -> 1 <= T ->
  shape3 T B (dim self) input -> shape2 T B input_mask ->
  comm_ok (dim self) (n_embed self) w ->
  exists self' out,
    run w (Quantize_forward self device_count input input_mask)
    = Some (self', out)
    /\ wf_quantize self'
    /\ dim self' = dim self /\ n_embed self' = n_embed self
    /\ decay self' = decay self /\ eps self' = eps self
    /\ training self' = training self.
Proof.
  intros Hwf HT Hin Hmask Hw.
  destruct (forward_eval w self device_count T B input input_mask
              Hwf HT Hin Hmask Hw) as (stats & Er).
  cbv zeta in Er.
  destruct (training self) eqn:Etr;
    [|exists self; eexists; split; [exact Er|]; rewrite Etr; auto 10].
  set (xs := combine (concat input) (concat input_mask)) in *.
  do 2 eexists. split; [exact Er|].
  destruct (fed_shapes (dim self) (n_embed self) w device_count
              (cluster_sum_of (embed self) (n_embed self) xs)
              (embed_sum_of (embed self) (dim self) (n_embed self) xs) Hw
              (cluster_sum_of_length _ _ _) (embed_sum_of_shape _ _ _ _))
    as [H1 H2].
  split; [apply updated_wf; assumption|].
  cbn [updated dim n_embed decay eps training]. rewrite Etr.
  repeat split; reflexivity.
Qed.

(** X6. The shapes [__init__] gives the buffers are an invariant of
    [forward]: from a well-shaped module, any number of successive
    calls on well-shaped batches return, in training mode as in
    evaluation mode, and leave a well-shaped module with the same
    [dim], [n_embed], [decay], [eps] and mode. *)
Theorem quantize_keeps_shapes (w : Comm) (device_count : nat)
    (batches : list (tensor3 * list (list bool))) (self : Quantize) :
  wf_quantize self ->
  comm_ok (dim self) (n_embed self) w ->
  Forall (fun b => exists T B,
            1 <= T /\ shape3 T B (dim self) (fst b)
            /\ shape2 T B (snd b)) batches ->
  exists self',
    forward_all w device_count self batches = Some self'
    /\ wf_quantize self'
    /\ dim self' = dim self /\ n_embed self' = n_embed self
    /\ decay self' = decay self /\ eps self' = eps self
    /\ training self' = training self.
Proof.
  intros Hwf Hw Hb. revert self Hwf Hw Hb.
  induction batches as [|[x m] r IH]; intros self Hwf Hw Hb.
  - exists self. simpl. auto 10.
  - inversion Hb as [|? ? (T & B & HT & Hx & Hm) Hr]; subst.
    simpl in Hx, Hm.
    destruct (forward_state w self device_count T B x m Hwf HT Hx Hm Hw)
      as (s1 & out & E & Hwf1 & Hd & Hn & Hdec & Heps & Htr).
    assert (Hw1 : comm_ok (dim s1) (n_embed s1) w) by (rewrite Hd, Hn; exact Hw).
    assert (Hr1 : Forall (fun b => exists T B,
                            1 <= T /\ shape3 T B (dim s1) (fst b)
                            /\ shape2 T B (snd b)) r)
      by (rewrite Hd; exact Hr).
    destruct (IH s1 Hwf1 Hw1 Hr1)
      as (s2 & E2 & Hwf2 & Hd2 & Hn2 & Hdec2 & Heps2 & Htr2).
    exists s2. simpl. rewrite E. split; [exact E2|].
    split; [exact Hwf2|]. repeat split; congruence.
Qed.

(** X7. What [forward] returns first, second and third depends only on
    the input, the mask and the codebook [embed] the call started with:
    two modules with the same codebook return the same [quantize],
    [diff] and [embed_ind], whatever their modes, their other buffers,
    their [decay] and [eps], the device counts and the process
    groups. *)
Theorem quantize_output_ignores_mode (w1 w2 : Comm)
    (self1 self2 : Quantize) (device_count1 device_count2 T B : nat)
    (input : tensor3) (input_mask : list (list bool)) :
  wf_quantize self1 -> wf_quantize self2 ->
  dim self2 = dim self1 -> n_embed self2 = n_embed self1 ->
  embed self2 = embed self1 ->
  1 <= T ->
  shape3 T B (dim self1) input -> shape2 T B input_mask ->
  comm_ok (dim self1) (n_embed self1) w1 ->
  comm_ok (dim self1) (n_embed self1) w2 ->
  exists s1 s2 quantize diff embed_ind stats1 stats2,
    run w1 (Quantize_forward self1 device_count1 input input_mask)
    = Some (s1, (quantize, diff, embed_ind, stats1))
    /\ run w2 (Quantize_forward self2 device_count2 input input_mask)
       = Some (s2, (quantize, diff, embed_ind, stats2)).
Proof.
  intros Hwf1 Hwf2 Hd Hn He HT Hin Hmask Hw1 Hw2.
  destruct (forward_eval w1 self1 device_count1 T B input input_mask
              Hwf1 HT Hin Hmask Hw1) as (st1 & E1).
  rewrite <- Hd in Hin. rewrite <- Hd, <- Hn in Hw2.
  destruct (forward_eval w2 self2 device_count2 T B input input_mask
              Hwf2 HT Hin Hmask Hw2) as (st2 & E2).
  cbv zeta in E1, E2. rewrite He, Hn in E2.
  do 7 eexists. split; [exact E1 | exact E2].
Qed.

End QuantizeInvariant.

Section MovingCounts.
Import Torch Shape vqvae_lm.
Local Open Scope nat_scope.

Lemma ema_nonneg (d : Qc) (a b : tensor1) :
  (Q2Qc 0 <= d)%Qc -> (d <= Q2Qc 1)%Qc ->
  Forall (fun c => (Q2Qc 0 <= c)%Qc) a ->
  Forall (fun c => (Q2Qc 0 <= c)%Qc) b ->
  Forall (fun c => (Q2Qc 0 <= c)%Qc) (ema d a b).
Proof.
  intros Hd0 Hd1 Ha Hb. unfold ema.
  rewrite Forall_map, Forall_forall. intros [x y] Hin.
  destruct (in_combine_shape _ _ _ _ _ Ha Hb Hin) as [Hx Hy].
  simpl in *.
  replace (Q2Qc 0) with (Q2Qc 0 + Q2Qc 0)%Qc by ring.
  apply Qcplus_le_compat; apply mul_nonneg; try assumption.
  unfold Qcminus. replace (Q2Qc 0) with (d + - d)%Qc by ring.
  apply Qcplus_le_compat; [exact Hd1 | apply Qcle_refl].
Qed.

(** The module a training call on one device leaves. *)
Lemma forward_single_device (w : Comm) (self : Quantize)
    (device_count T B : nat) (input : tensor3)
    (input_mask : list (list bool)) :
  wf_quantize self -> training self = true -> device_count <= 1 ->
  1 <= T ->
  shape3 T B (dim self) input -> shape2 T B input_mask ->
  comm_ok (dim self) (n_embed self) w ->
  let xs := combine (concat input) (concat input_mask) in
  exists out,
    run w (Quantize_forward self device_count input input_mask)
    = Some (updated self (cluster_sum_of (embed self) (n_embed self) xs)
              (embed_sum_of (embed self) (dim self) (n_embed self) xs),
            out).
Proof.
  intros Hwf Htr Hdc HT Hin Hmask Hw xs.
  destruct (forward_eval w self device_count T B input input_mask
              Hwf HT Hin Hmask Hw) as (stats & Er).
  cbv zeta in Er. rewrite Htr in Er. unfold fed1, fed2 in Er.
  destruct (Nat.ltb_spec 1 device_count) as [?|_]; [lia|].
  eexists. exact Er.
Qed.

(** X9. With a decay between 0 and 1, the moving counts stay
    non-negative over a call on one device, in either mode. *)
Theorem cluster_size_stays_nonnegative (w : Comm) (self : Quantize)
    (device_count T B : nat) (input : tensor3)
    (input_mask : list (list bool)) :
  wf_quantize self -> device_count <= 1 -> 1 <= T ->
  shape3 T B (dim self) input -> shape2 T B input_mask ->
  comm_ok (dim self) (n_embed self) w ->
  (Q2Qc 0 <= decay self)%Qc -> (decay self <= Q2Qc 1)%Qc ->
  Forall (fun c => (Q2Qc 0 <= c)%Qc) (cluster_size self) ->
  exists self' out,
    run w (Quantize_forward self device_count input input_mask)
    = Some (self', out)
    /\ Forall (fun c => (Q2Qc 0 <= c)%Qc) (cluster_size self').
Proof.
  intros Hwf Hdc HT Hin Hmask Hw Hd0 Hd1 Hcs.
  destruct (training self) eqn:Htr.
  - destruct (forward_single_device w self device_count T B input
                input_mask Hwf Htr Hdc HT Hin Hmask Hw) as (out & Er).
    cbv zeta in Er.
    do 2 eexists. split; [exact Er|].
    cbn [updated cluster_size].
    apply ema_nonneg; try assumption.
    unfold cluster_sum_of. rewrite Forall_map, Forall_forall.
    intros k _. apply of_nat_nonneg.
  - destruct (forward_eval w self device_count T B input input_mask
                Hwf HT Hin Hmask Hw) as (stats & Er).
    cbv zeta in Er. rewrite Htr in Er.
    do 2 eexists. split; [exact Er | exact Hcs].
Qed.

End MovingCounts.

Section Rejected.
Import Torch Shape vqvae_lm.
Local Open Scope nat_scope.

Lemma traverse_length {A B : Type} (f : A -> option B) (l : list A)
    (z : list B) :
  traverse f l = Some z -> length z = length l.
Proof.
  revert z. induction l as [|a l IH]; intros z H; simpl in H.
  - injection H as <-. reflexivity.
  - destruct (f a); [|discriminate].
    destruct (traverse f l) as [bs|]; [|discriminate].
    injection H as <-. simpl. rewrite (IH bs eq_refl). reflexivity.
Qed.

Lemma bcast_length_same {A B C : Type} (f : A -> B -> option C)
    (x : list A) (y : list B) (z : list C) :
  length x = length y -> bcast f x y = Some z -> length z = length x.
Proof.
  intros Hl H. unfold bcast in H. rewrite Hl, Nat.eqb_refl in H.
  apply traverse_length in H. rewrite H, length_combine. lia.
Qed.

Lemma bcast_length_single {A B C : Type} (f : A -> B -> option C)
    (x : list A) (b : B) (z : list C) :
  bcast f x [b] = Some z -> length z = length x.
Proof.
  intros H. unfold bcast in H.
  destruct (Nat.eqb_spec (length x) (length [b])) as [E|E].
  - apply traverse_length in H. rewrite H, length_combine. simpl in *. lia.
  - destruct x as [|a [|a' x]]; apply traverse_length in H; exact H.
Qed.

Lemma matmul_length (n : nat) (a b p : tensor2) :
  matmul n a b = Some p -> length p = length a.
Proof.
  unfold matmul. destruct (forallb _ a); [|discriminate].
  intros H. injection H as <-. apply length_map.
Qed.

Lemma view_rows_length (n : nat) (l : list Qc) (rows : tensor2) :
  view_rows n l = Some rows ->
  n <> 0 /\ length l mod n = 0 /\ length rows = length l / n.
Proof.
  unfold view_rows. destruct (Nat.eqb_spec n 0) as [|Hn]; [discriminate|].
  destruct (Nat.eqb_spec (length l mod n) 0) as [Hm|]; [|discriminate].
  intros H. injection H as <-.
  rewrite length_map, length_seq. auto.
Qed.

Lemma view2_length {A : Type} (T B : nat) (l : list A)
    (m : list (list A)) :
  view2 T B l = Some m -> length l = T * B.
Proof.
  unfold view2. destruct (Nat.eqb_spec (length l) (T * B)); [auto|].
  discriminate.
Qed.

Lemma index_rows_length (m : tensor2) (mask : list bool) (r : tensor2) :
  index_rows m mask = Some r -> length m = length mask.
Proof.
  unfold index_rows. destruct (Nat.eqb_spec (length m) (length mask));
    [auto | discriminate].
Qed.

(** The sizes [forward] needs to agree, whatever the module holds. *)
Lemma assign_lengths (self : Quantize) (input : tensor3)
    (input_mask : list (list bool))
    (r : tensor2 * tensor2 * list (list Z) * tensor3 * stats_t) :
  assign self input input_mask = Some r ->
  dim self <> 0
  /\ length (concat (concat input)) mod dim self = 0
  /\ length (concat (concat input)) / dim self
     = length input * size1 input
  /\ length input * size1 input = length (concat input_mask).
Proof.
  unfold assign. intros H.
  destruct (view_rows _ _) as [flatten|] eqn:E1; [|discriminate].
  destruct (matmul _ _ _) as [p|] eqn:E2; [|discriminate].
  destruct (sub2 _ _) as [d|] eqn:E3; [|discriminate].
  destruct (add2 _ _) as [dist|] eqn:E4; [|discriminate].
  destruct (traverse argmax _) as [ei|] eqn:E5; [|discriminate].
  destruct (traverse (one_hot _) _) as [oh|] eqn:E6; [|discriminate].
  destruct (view2 _ _ _) as [ei2|] eqn:E7; [|discriminate].
  destruct (embed_code _ _) as [q|] eqn:E8; [|discriminate].
  destruct (index_rows _ _) as [sel|] eqn:E9; [|discriminate].
  clear H.
  destruct (view_rows_length _ _ _ E1) as (Hn & Hmod & Hfl).
  apply matmul_length in E2. rewrite length_map in E2.
  apply bcast_length_same in E3.
  2:{ unfold sum1_keepdim. rewrite !length_map. congruence. }
  unfold sum1_keepdim in E3. rewrite !length_map in E3.
  apply bcast_length_single in E4.
  apply traverse_length in E5. rewrite length_map in E5.
  apply traverse_length in E6.
  apply view2_length in E7.
  apply index_rows_length in E9.
  repeat split; try assumption; congruence.
Qed.

(** X12. [forward] raises, before it touches a buffer or calls a
    collective operation, on an input whose last dimension is not
    [dim], and on a mask that has not one entry for each input
    vector. *)
Theorem quantize_rejects_wrong_sizes (w : Comm) (self : Quantize)
    (device_count T B C : nat) (input : tensor3)
    (input_mask : list (list bool)) :
  1 <= T -> 1 <= B -> shape3 T B C input ->
  C <> dim self \/ length (concat input_mask) <> T * B ->
  assign self input input_mask = None
  /\ run w (Quantize_forward self device_count input input_mask) = None
  /\ collectives w (Quantize_forward self device_count input input_mask)
     = [].
Proof.
  intros HT HB Hin Hbad.
  assert (Ha : assign self input input_mask = None).
  { destruct (assign self input input_mask) as [r|] eqn:E; [|reflexivity].
    exfalso.
    destruct (assign_lengths _ _ _ _ E) as (Hn & Hmod & Hdiv & Hmask).
    destruct (shape3_concat T B C input Hin) as [Hall Hl].
    rewrite (length_concat_rows C) in Hmod, Hdiv by exact Hall.
    rewrite Hl in Hmod, Hdiv.
    pose proof (shape3_rows T B C input Hin) as Hrows.
    rewrite (shape2_size T B input Hrows HT) in Hdiv, Hmask.
    destruct Hin as [HlT _]. rewrite HlT in Hdiv, Hmask.
    destruct Hbad as [Hbad|Hbad]; [|lia].
    apply Hbad.
    apply Nat.Div0.div_exact in Hmod. rewrite Hdiv in Hmod. nia. }
  split; [exact Ha|]. split.
  - rewrite forward_run, Ha. reflexivity.
  - rewrite forward_collectives, Ha. reflexivity.
Qed.

End Rejected.

Section Scatter.
Import Torch Shape.
Local Open Scope nat_scope.

Lemma set_nth_length {A : Type} (i : nat) (v : A) (l : list A) :
  i < length l -> length (set_nth i v l) = length l.
Proof.
  intros Hi. unfold set_nth.
  rewrite length_app, length_firstn. cbn [length].
  rewrite length_skipn. lia.
Qed.

Lemma set_nth_same {A : Type} (i : nat) (v d : A) (l : list A) :
  i < length l -> nth i (set_nth i v l) d = v.
Proof.
  intros Hi. unfold set_nth.
  rewrite app_nth2; rewrite length_firstn; [|lia].
  replace (i - Nat.min i (length l)) with 0 by lia. reflexivity.
Qed.

Lemma set_nth_other {A : Type} (i j : nat) (v d : A) (l : list A) :
  i < length l -> j <> i -> nth j (set_nth i v l) d = nth j l d.
Proof.
  intros Hi Hj. unfold set_nth.
  destruct (Nat.lt_ge_cases j i) as [Hlt|Hge].
  - rewrite app_nth1 by (rewrite length_firstn; lia).
    rewrite <- (firstn_skipn i l) at 2.
    rewrite app_nth1 by (rewrite length_firstn; lia). reflexivity.
  - rewrite app_nth2; rewrite length_firstn; [|lia].
    replace (Nat.min i (length l)) with i by lia.
    destruct (j - i) as [|k] eqn:E; [lia|]. cbn [nth].
    rewrite nth_skipn. f_equal. lia.
Qed.

(** A row of [scatter] whose indices are distinct and inside the row:
    every index receives its source, the other positions are kept. *)
Lemma scatter_row_spec (index : list Z) :
  forall (self src : list Z) (d : Z),
    length index <= length src ->
    Forall (fun i => (0 <= i < Z.of_nat (length self))%Z) index ->
    NoDup index ->
    exists r,
      scatter_row self index src = Some r
      /\ length r = length self
      /\ (forall t, t < length index ->
            nth (Z.to_nat (nth t index 0%Z)) r d = nth t src d)
      /\ (forall j, ~ In (Z.of_nat j) index -> nth j r d = nth j self d).
Proof.
  induction index as [|i index IH]; intros self src d Hl Hr Hn.
  - exists self. simpl. split; [reflexivity|]. split; [reflexivity|].
    split; [intros t Ht; lia | intros; reflexivity].
  - destruct src as [|v src]; [simpl in Hl; lia|].
    inversion Hr as [|? ? Hi Hr']. inversion Hn as [|? ? Hni Hn']. subst.
    assert (Hlen : length (set_nth (Z.to_nat i) v self) = length self)
      by (apply set_nth_length; lia).
    destruct (IH (set_nth (Z.to_nat i) v self) src d) as (r & E & Hrl & Hat & Hkeep).
    { simpl in Hl. lia. }
    { rewrite Hlen. exact Hr'. }
    { exact Hn'. }
    exists r. simpl.
    destruct (Z.leb_spec 0 i); [|lia].
    destruct (Z.ltb_spec i (Z.of_nat (length self))); [|lia].
    simpl. split; [exact E|]. split; [congruence|]. split.
    + intros [|t] Ht.
      * simpl. rewrite Hkeep by (rewrite Z2Nat.id by lia; exact Hni).
        apply set_nth_same. lia.
      * simpl. apply Hat. simpl in Ht. lia.
    + intros j Hj. rewrite Hkeep by (intros H'; apply Hj; right; exact H').
      apply set_nth_other; [lia|].
      intros ->. apply Hj. left. lia.
Qed.

Lemma scatter1_spec (index : list (list Z)) :
  forall (self src : list (list Z)),
    length index <= length self -> length index <= length src ->
    (forall b, b < length index ->
       exists r, scatter_row (nth b self []) (nth b index []) (nth b src [])
                 = Some r) ->
    exists res,
      scatter1 self index src = Some res
      /\ length res = length self
      /\ (forall b, b < length index ->
            scatter_row (nth b self []) (nth b index []) (nth b src [])
            = Some (nth b res []))
      /\ (forall b, length index <= b -> nth b res [] = nth b self []).
Proof.
  induction index as [|i index IH]; intros self src Hs Hv Hrow.
  - exists self. simpl. split; [reflexivity|]. split; [reflexivity|].
    split; [intros b Hb; lia | intros; reflexivity].
  - destruct self as [|s self]; [simpl in Hs; lia|].
    destruct src as [|v src]; [simpl in Hv; lia|].
    destruct (Hrow 0 ltac:(simpl; lia)) as (r & Er). simpl in Er.
    destruct (IH self src) as (rest & E & Hl & Hat & Hkeep).
    { simpl in Hs. lia. }
    { simpl in Hv. lia. }
    { intros b Hb. apply (Hrow (S b)). simpl. lia. }
    exists (r :: rest). simpl. rewrite Er, E.
    split; [reflexivity|]. split; [simpl; lia|]. split.
    + intros [|b] Hb; [exact Er|]. apply Hat. simpl in Hb. lia.
    + intros [|b] Hb; [simpl in Hb; lia|]. apply Hkeep. simpl in Hb. lia.
Qed.

Lemma setitem_mask_spec (self : list (list Z)) (mask : list (list bool))
    (v : Z) (out : list (list Z)) :
  setitem_mask self mask v = Some out ->
  length out = length self
  /\ forall b, b < length self ->
       length (nth b mask []) = length (nth b self [])
       /\ nth b out []
          = map (fun q : Z * bool => if snd q then v else fst q)
                (combine (nth b self []) (nth b mask [])).
Proof.
  unfold setitem_mask.
  destruct (Nat.eqb_spec (length self) (length mask)) as [El|]; [|discriminate].
  intros H.
  destruct (traverse_nth _ _ _ ([], []) [] H) as [Hl Hn].
  rewrite length_combine in Hl, Hn.
  split; [lia|]. intros b Hb.
  specialize (Hn b ltac:(lia)). rewrite combine_nth in Hn by exact El.
  cbn [fst snd] in Hn.
  destruct (Nat.eqb_spec (length (nth b self [])) (length (nth b mask [])))
    as [E|]; [|discriminate].
  injection Hn as Hn. split; [lia | congruence].
Qed.

Lemma setitem_mask_eval (B T : nat) (self : list (list Z))
    (mask : list (list bool)) (v : Z) :
  shape2 B T self -> shape2 B T mask ->
  setitem_mask self mask v
  = Some (map_tb (fun (a : Z) (m : bool) => if m then v else a) self mask).
Proof.
  intros [Hs Hss] [Hm Hms]. unfold setitem_mask, map_tb.
  replace (length self =? length mask) with true
    by (symmetry; apply Nat.eqb_eq; lia).
  apply traverse_map_some. intros [s m] Hin. cbn [fst snd].
  destruct (in_combine_shape _ _ _ _ _ Hss Hms Hin) as [Ha Hb].
  simpl in Ha, Hb.
  replace (length s =? length m) with true
    by (symmetry; apply Nat.eqb_eq; lia).
  reflexivity.
Qed.

(** Whatever the mask, an assignment through a mask changes a value
    only to [v]. *)
Lemma setitem_mask_only (self : list (list Z)) (mask : list (list bool))
    (v : Z) (out : list (list Z)) :
  setitem_mask self mask v = Some out ->
  length out = length self
  /\ (forall b, length (nth b out []) = length (nth b self []))
  /\ (forall b t,
        nth t (nth b out []) 0%Z = nth t (nth b self []) 0%Z
        \/ nth t (nth b out []) 0%Z = v).
Proof.
  intros H. destruct (setitem_mask_spec _ _ _ _ H) as [Hl Hrow].
  split; [exact Hl|].
  assert (Hover : forall b, length self <= b ->
            nth b out [] = [] /\ nth b self [] = []).
  { intros b Hb. split; apply nth_overflow; lia. }
  split.
  - intros b. destruct (Nat.lt_ge_cases b (length self)) as [Hb|Hb].
    + destruct (Hrow b Hb) as [E1 E2].
      rewrite E2, length_map, length_combine. lia.
    + destruct (Hover b Hb) as [-> ->]. reflexivity.
  - intros b t. destruct (Nat.lt_ge_cases b (length self)) as [Hb|Hb].
    + destruct (Hrow b Hb) as [E1 E2]. rewrite E2.
      destruct (Nat.lt_ge_cases t (length (nth b self []))) as [Ht|Ht].
      * rewrite (nth_map_in _ _ t (0%Z, false) 0%Z)
          by (rewrite length_combine; lia).
        rewrite combine_nth by lia. cbn [fst snd].
        destruct (nth t (nth b mask []) false); auto.
      * left. rewrite !nth_overflow; auto.
        rewrite length_map, length_combine. lia.
    + destruct (Hover b Hb) as [-> ->]. left. reflexivity.
Qed.

End Scatter.

Section MaskWords.
Import Torch Shape vqvae_lm.
Local Open Scope nat_scope.

Lemma shape2_of_nth {A : Type} (R n : nat) (m : list (list A)) :
  length m = R -> (forall b, b < R -> length (nth b m []) = n) ->
  shape2 R n m.
Proof.
  intros Hl H. split; [exact Hl|].
  apply Forall_nth. intros b d Hb. rewrite (nth_indep _ d []) by exact Hb.
  apply H. lia.
Qed.

Lemma ige2_rows (r mls : list Z) :
  ige2 (expand_rows (length mls) r) (map (fun x => [x]) mls)
  = Some (map (fun ml => map (fun t => (ml <=? t)%Z) r) mls).
Proof.
  unfold ige2, expand_rows.
  rewrite (bcast_same_length _
             (fun (row : list Z) (s : list Z) =>
                map (fun t => (hd 0%Z s <=? t)%Z) row)).
  - rewrite combine_map_r, combine_repeat_l, !map_map. reflexivity.
  - rewrite repeat_length, length_map. reflexivity.
  - intros [row s] Hin. cbn [fst snd].
    apply in_combine_r in Hin. apply in_map_iff in Hin.
    destruct Hin as (ml & <- & _). cbn [hd].
    apply (bcast_single_r _ (fun a b : Z => (b <=? a)%Z)).
    intros a _. reflexivity.
Qed.

(** The number of words dropped is that of the float32 product: of
    10 words at the rate 0.7 it is 7, the product rounding to 7, and of
    41 words at the rate 1/41 it is 0. *)
Lemma mask_length_rounds :
  mask_length (Q2Qc (7 # 10)) 10 = 7%Z
  /\ mask_length (Q2Qc (1 # 41)) 41 = 0%Z
  /\ mask_length (Q2Qc (1 # 2)) 5 = 2%Z.
Proof. repeat split; vm_compute; reflexivity. Qed.

(** X14. [mask_words] replaces by [pad_index], in each example, the
    tokens at the positions that come first in the sorted order of the
    scores, as many as [(lengths[b].float() * word_drop_rate).long()],
    the integer part of the float32 product, whether they hold padding
    or not; every other token is kept. *)
Theorem mask_words_drops_first_sorted (self : Model) (B T : nat)
    (sorted_idx src_tokens : list (list Z)) (lengths : list Z) :
  1 <= B ->
  shape2 B T src_tokens -> length lengths = B ->
  shape2 B T sorted_idx ->
  Forall (fun row => NoDup row
                     /\ Forall (fun i => (0 <= i < Z.of_nat T)%Z) row)
         sorted_idx ->
  exists out,
    mask_words self sorted_idx src_tokens lengths = Some out
    /\ shape2 B T out
    /\ forall b t, b < B -> t < T ->
         let j := Z.to_nat (nth t (nth b sorted_idx []) 0%Z) in
         let dropped :=
           mask_length (word_drop_rate self) (nth b lengths 0%Z) in
         nth j (nth b out []) 0%Z
         = if (Z.of_nat t <? dropped)%Z then pad_index self
           else nth j (nth b src_tokens []) 0%Z.
Proof.
  intros HB Hsrc Hlen Hidx Hperm.
  set (r := map Z.of_nat (seq 0 T)).
  set (mls := map (mask_length (word_drop_rate self)) lengths).
  set (mask0 := map (fun ml => map (fun t => long_of_bool (ml <=? t)%Z) r) mls).
  assert (Hmls : length mls = B) by (unfold mls; rewrite length_map; exact Hlen).
  assert (Hr : length r = T) by (unfold r; rewrite length_map, length_seq; reflexivity).
  assert (Hm0 : shape2 B T mask0).
  { unfold mask0. split; [rewrite length_map; exact Hmls|].
    rewrite Forall_map, Forall_forall. intros ml _.
    rewrite length_map. exact Hr. }
  assert (Hrowlen : forall b, b < B ->
            length (nth b mask0 []) = T /\ length (nth b sorted_idx []) = T
            /\ NoDup (nth b sorted_idx [])
            /\ Forall (fun i => (0 <= i < Z.of_nat T)%Z) (nth b sorted_idx [])).
  { intros b Hb. destruct Hm0 as [Hl0 Hr0], Hidx as [Hli Hri].
    rewrite Forall_forall in Hr0, Hri, Hperm.
    assert (In (nth b sorted_idx []) sorted_idx) by (apply nth_In; lia).
    split; [apply Hr0, nth_In; lia|]. split; [auto|]. apply Hperm. auto. }
  destruct (scatter1_spec sorted_idx mask0 mask0) as (res & Es & Hrl & Hat & _).
  { destruct Hm0, Hidx. lia. }
  { destruct Hm0, Hidx. lia. }
  { intros b Hb. destruct Hidx as [Hli _]. rewrite Hli in Hb.
    destruct (Hrowlen b Hb) as (H1 & H2 & H3 & H4).
    destruct (scatter_row_spec (nth b sorted_idx []) (nth b mask0 [])
                (nth b mask0 []) 0%Z) as (x & Ex & _); try lia.
    - rewrite H1. exact H4.
    - exact H3.
    - exists x. exact Ex. }
  assert (Hres : forall b, b < B ->
            length (nth b res []) = T
            /\ forall t, t < T ->
                 nth (Z.to_nat (nth t (nth b sorted_idx []) 0%Z))
                     (nth b res []) 0%Z
                 = nth t (nth b mask0 []) 0%Z).
  { intros b Hb. destruct (Hrowlen b Hb) as (H1 & H2 & H3 & H4).
    destruct (scatter_row_spec (nth b sorted_idx []) (nth b mask0 [])
                (nth b mask0 []) 0%Z) as (x & Ex & Hxl & Hxat & _); try lia.
    - rewrite H1. exact H4.
    - exact H3.
    - destruct Hidx as [Hli _].
      rewrite (Hat b ltac:(lia)) in Ex. injection Ex as <-.
      split; [congruence|]. intros t Ht. apply Hxat. lia. }
  assert (Hrs : shape2 B T res).
  { apply shape2_of_nth; [destruct Hm0; congruence|].
    intros b Hb. apply Hres. exact Hb. }
  set (h := fun x : Z => negb (1 - x =? 0)%Z).
  pose proof (setitem_mask_eval B T src_tokens (map (map h) res)
                (pad_index self) Hsrc (shape2_map h B T res Hrs)) as Eset.
  eexists. split; [|split].
  - unfold mask_words. cbv zeta.
    rewrite (shape2_size B T src_tokens Hsrc HB).
    unfold arange. destruct (Z.ltb_spec (Z.of_nat T) 0) as [?|_]; [lia|].
    rewrite Nat2Z.id. fold r. destruct Hsrc as [Hsl _]. rewrite Hsl.
    fold mls. rewrite <- Hmls at 1. rewrite ige2_rows.
    replace (map (map long_of_bool)
               (map (fun ml => map (fun t => (ml <=? t)%Z) r) mls))
      with mask0
      by (unfold mask0; rewrite map_map; apply map_ext; intros ml;
          rewrite map_map; reflexivity).
    rewrite Es. fold h. exact Eset.
  - apply (map_tb_shape_gen _ B T); [exact Hsrc|].
    apply shape2_map. exact Hrs.
  - intros b t Hb Ht j dropped.
    destruct (Hrowlen b Hb) as (H1 & H2 & H3 & H4).
    destruct (Hres b Hb) as [Hrl' Hrat].
    assert (Hj : j < T).
    { rewrite Forall_forall in H4.
      specialize (H4 (nth t (nth b sorted_idx []) 0%Z)
                     ltac:(apply nth_In; lia)).
      unfold j. lia. }
    rewrite (map_tb_nth _ B T src_tokens (map (map h) res) b j 0%Z false 0%Z)
      by (try assumption; apply shape2_map; exact Hrs).
    rewrite (nth2_map_map h B T res b j 0%Z false Hrs Hb Hj).
    unfold j at 1. rewrite (Hrat t Ht).
    unfold mask0.
    rewrite (nth_map_in _ mls b 0%Z []) by lia.
    rewrite (nth_map_in _ r t 0%Z 0%Z) by lia.
    unfold r at 1. rewrite (nth_map_in _ (seq 0 T) t 0 0%Z)
      by (rewrite length_seq; exact Ht).
    rewrite seq_nth by exact Ht. simpl (0 + t).
    unfold mls. rewrite (nth_map_in _ lengths b 0%Z 0%Z) by lia.
    fold dropped. unfold h, long_of_bool.
    destruct (Z.leb_spec dropped (Z.of_nat t)),
             (Z.ltb_spec (Z.of_nat t) dropped); try lia; reflexivity.
Qed.

End MaskWords.

Section Forward.
Import Torch Shape vqvae_lm.
Local Open Scope nat_scope.

(** Whatever the shapes and the sorted indices, [mask_words] changes a
    token only to [pad_index]. *)
Lemma mask_words_only (self : Model) (sorted_idx src_tokens : list (list Z))
    (lengths : list Z) (out : list (list Z)) :
  mask_words self sorted_idx src_tokens lengths = Some out ->
  length out = length src_tokens
  /\ (forall b, length (nth b out []) = length (nth b src_tokens []))
  /\ (forall b t,
        nth t (nth b out []) 0%Z = nth t (nth b src_tokens []) 0%Z
        \/ nth t (nth b out []) 0%Z = pad_index self).
Proof.
  unfold mask_words. cbv zeta.
  destruct (arange _) as [r|]; [|discriminate].
  destruct (ige2 _ _) as [m|]; [|discriminate].
  destruct (scatter1 _ _ _) as [m'|]; [|discriminate].
  apply setitem_mask_only.
Qed.

(** X15. [forward] changes [decoder_tokens] in place only by putting
    [pad_index] at some positions, and only in training mode with a
    positive [word_drop_rate]: otherwise the decoder reads the tokens
    it was given. *)
Theorem forward_only_pads_decoder_tokens (w : Comm) (self : Model)
    (device_count : nat) (sorted_idx decoder_tokens : list (list Z))
    (lengths : list Z) (full_tokens : list (list Z)) (update_steps : Z)
    (self' : Model) (tokens' : list (list Z))
    (out : tensor3 * Diff * stats_t) :
  run w (VQVAE_forward self device_count sorted_idx decoder_tokens lengths
           full_tokens update_steps)
  = Some (self', tokens', out) ->
  length tokens' = length decoder_tokens
  /\ (forall b, length (nth b tokens' []) = length (nth b decoder_tokens []))
  /\ (forall b t,
        nth t (nth b tokens' []) 0%Z = nth t (nth b decoder_tokens []) 0%Z
        \/ nth t (nth b tokens' []) 0%Z = pad_index self)
  /\ (model_training self = false \/ (word_drop_rate self <= Q2Qc 0)%Qc ->
      tokens' = decoder_tokens).
Proof.
  unfold VQVAE_forward. intros H.
  rewrite run_bind, run_lift in H.
  destruct (text_encoder (vqvae self) full_tokens) as [teo|]; [|discriminate].
  rewrite run_bind, run_lift in H.
  destruct (mul3 _ _) as [ci|]; [|discriminate].
  rewrite run_bind, run_lift in H.
  destruct (ConvEncoder_forward _ _ _) as [[tco mask]|]; [|discriminate].
  rewrite run_bind in H.
  destruct (run w _) as [[[[q quantize] diff] stats]|] in H; [|discriminate].
  rewrite run_bind, run_lift in H.
  destruct mask as [m|]; [|discriminate].
  rewrite run_bind in H.
  destruct (run w _) as [quantize'|] in H; [|discriminate].
  rewrite run_bind in H.
  destruct (model_training self && Qcltb (Q2Qc 0) (word_drop_rate self))
    eqn:Edrop.
  - rewrite run_lift in H.
    destruct (mask_words self sorted_idx decoder_tokens lengths) as [toks|]
      eqn:Emw; [|discriminate].
    rewrite run_bind, run_lift in H.
    destruct (decoder _ _ _ _) as [logits|]; [|discriminate].
    cbn [run] in H. injection H as _ <- _.
    destruct (mask_words_only _ _ _ _ _ Emw) as (H1 & H2 & H3).
    repeat split; try assumption.
    apply andb_true_iff in Edrop. destruct Edrop as [Etr Erate].
    intros [Hf|Hle]; [congruence|].
    apply Qcltb_lt in Erate. exfalso.
    apply (Qcle_not_lt _ _ Hle). exact Erate.
  - cbn [run] in H. rewrite run_bind, run_lift in H.
    destruct (decoder _ _ _ _) as [logits|]; [|discriminate].
    cbn [run] in H. injection H as _ <- _.
    repeat split; auto.
Qed.

(** X16. Without a quantizer, and during the pretraining steps
    ([update_steps <= pretrain_steps]), [forward] calls no collective
    operation and leaves the model as it is; the [diff] it returns is
    [new_zeros(1)] and the statistics are empty; the decoder reads the
    output of the convolutional encoder, passed through the bottom
    latent encoder if there is one, with the negated mask as its
    padding mask. *)
Theorem forward_pretraining_skips_quantizer (w : Comm) (self : Model)
    (device_count : nat) (sorted_idx decoder_tokens : list (list Z))
    (lengths : list Z) (full_tokens : list (list Z)) (update_steps : Z) :
  bottom_quantizer (vqvae self) = None
  \/ (update_steps <= pretrain_steps self)%Z ->
  collectives w
    (VQVAE_forward self device_count sorted_idx decoder_tokens lengths
       full_tokens update_steps)
  = []
  /\ forall self' tokens' logits diff stats,
       run w (VQVAE_forward self device_count sorted_idx decoder_tokens
                lengths full_tokens update_steps)
       = Some (self', tokens', (logits, diff, stats)) ->
       self' = self
       /\ diff = Vector [Q2Qc 0] /\ stats = []
       /\ exists conv_inpt text_conv_out mask quantize,
            ConvEncoder_forward (text_conv_encoder (vqvae self))
              (permute120 conv_inpt) lengths
            = Some (text_conv_out, Some mask)
            /\ match bottom_latent_encoder self with
               | Some f => f text_conv_out (map (map negb) mask)
                           = Some quantize
               | None => quantize = text_conv_out
               end
            /\ decoder self tokens'
                 {| encoder_out := quantize;
                    encoder_padding_mask := map (map negb) mask |}
                 (encoder_embedding self full_tokens)
               = Some logits.
Proof.
  intros Hpre.
  set (branch := fun tco (mask : option (list (list bool))) =>
         match bottom_quantizer (vqvae self) with
         | Some q =>
             if (pretrain_steps self <? update_steps)%Z
             then bind (lift mask)
                    (fun m =>
                       bind (Quantize_forward q device_count tco
                               (transpose false (size1 m) m))
                         (fun x =>
                            match x with
                            | (q', (quantize, diff, embed_ind, quantize_stats))
                              => Ret (Some q', quantize, Scalar diff,
                                      quantize_stats)
                            end))
             else Ret (Some q, tco, Vector [Q2Qc 0], [])
         | None => Ret (None, tco, Vector [Q2Qc 0], [])
         end).
  assert (Hb : forall tco mask,
            branch tco mask
            = Ret (bottom_quantizer (vqvae self), tco, Vector [Q2Qc 0], [])).
  { intros tco mask. unfold branch.
    destruct (bottom_quantizer (vqvae self)) as [q|]; [|reflexivity].
    destruct Hpre as [Hn|Hle]; [discriminate|].
    destruct (Z.ltb_spec (pretrain_steps self) update_steps); [lia|].
    reflexivity. }
  split.
  - unfold VQVAE_forward.
    rewrite collectives_bind, collectives_lift, run_lift.
    destruct (text_encoder (vqvae self) full_tokens) as [teo|]; [|reflexivity].
    rewrite collectives_bind, collectives_lift, run_lift.
    destruct (mul3 _ _) as [ci|]; [|reflexivity].
    rewrite collectives_bind, collectives_lift, run_lift.
    destruct (ConvEncoder_forward _ _ _) as [[tco mask]|]; [|reflexivity].
    fold (branch tco mask). rewrite Hb.
    cbn [bind collectives run app].
    rewrite collectives_bind, collectives_lift, run_lift.
    destruct mask as [m|]; [|reflexivity].
    rewrite collectives_bind.
    assert (Hl : forall A (p : Prog A) (o : option A),
              p = lift o -> collectives w p = [] /\ run w p = o).
    { intros A p o ->. split; [apply collectives_lift | apply run_lift]. }
    destruct (bottom_latent_encoder self) as [f|].
    + rewrite collectives_lift, run_lift.
      destruct (f tco (map (map negb) m)) as [quantize|]; [|reflexivity].
      rewrite collectives_bind.
      destruct (model_training self && Qcltb (Q2Qc 0) (word_drop_rate self)).
      * rewrite collectives_lift, run_lift.
        destruct (mask_words _ _ _ _) as [toks|]; [|reflexivity].
        rewrite collectives_bind, collectives_lift, run_lift.
        destruct (decoder _ _ _ _); reflexivity.
      * cbn [collectives run app].
        rewrite collectives_bind, collectives_lift, run_lift.
        destruct (decoder _ _ _ _); reflexivity.
    + cbn [collectives run app]. rewrite collectives_bind.
      destruct (model_training self && Qcltb (Q2Qc 0) (word_drop_rate self)).
      * rewrite collectives_lift, run_lift.
        destruct (mask_words _ _ _ _) as [toks|]; [|reflexivity].
        rewrite collectives_bind, collectives_lift, run_lift.
        destruct (decoder _ _ _ _); reflexivity.
      * cbn [collectives run app].
        rewrite collectives_bind, collectives_lift, run_lift.
        destruct (decoder _ _ _ _); reflexivity.
  - intros self' tokens' logits diff stats H.
    unfold VQVAE_forward in H.
    rewrite run_bind, run_lift in H.
    destruct (text_encoder (vqvae self) full_tokens) as [teo|]; [|discriminate].
    rewrite run_bind, run_lift in H.
    destruct (mul3 _ _) as [ci|]; [|discriminate].
    rewrite run_bind, run_lift in H.
    destruct (ConvEncoder_forward _ _ _) as [[tco mask]|] eqn:Ec;
      [|discriminate].
    fold (branch tco mask) in H. rewrite Hb in H.
    cbn [bind run] in H.
    rewrite run_bind, run_lift in H.
    destruct mask as [m|]; [|discriminate].
    rewrite run_bind in H.
    set (latent := match bottom_latent_encoder self with
                   | Some f => lift (f tco (map (map negb) m))
                   | None => Ret tco
                   end) in H.
    destruct (run w latent) as [quantize|] eqn:El; [|discriminate].
    rewrite run_bind in H.
    set (drop := if model_training self
                    && Qcltb (Q2Qc 0) (word_drop_rate self)
                 then lift (mask_words self sorted_idx decoder_tokens lengths)
                 else Ret decoder_tokens) in H.
    destruct (run w drop) as [toks|]; [|discriminate].
    rewrite run_bind, run_lift in H.
    destruct (decoder _ _ _ _) as [lg|] eqn:Ed; [|discriminate].
    cbn [run] in H. injection H as <- <- <- <- <-.
    split.
    { destruct self as [[te tc bq] ee ble dec pad rate pre tr]. reflexivity. }
    split; [reflexivity|]. split; [reflexivity|].
    exists ci, tco, m, quantize. split; [exact Ec|]. split; [|exact Ed].
    unfold latent in El. destruct (bottom_latent_encoder self) as [f|].
    + rewrite run_lift in El. exact El.
    + cbn [run] in El. injection El as <-. reflexivity.
Qed.

End Forward.

Section ForwardAndCodes.
Import Torch Shape vqvae_lm.
Local Open Scope nat_scope.

(** In evaluation mode [Quantize.forward] leaves the module as it
    is. *)
Lemma forward_eval_state (w : Comm) (self : Quantize) (device_count : nat)
    (input : tensor3) (input_mask : list (list bool)) (self' : Quantize)
    (out : tensor3 * Qc * list (list Z) * stats_t) :
  training self = false ->
  run w (Quantize_forward self device_count input input_mask)
  = Some (self', out) ->
  self' = self.
Proof.
  intros Htr H. rewrite forward_run, Htr in H.
  destruct (assign _ _ _) as [[[[[flatten onehot] ei] q] stats]|];
    [|discriminate].
  destruct (straight_through _ _ _) as [[q' diff]|]; [|discriminate].
  injection H as <- _. reflexivity.
Qed.

(** X17. [extract_codes] changes the model only through the call of the
    quantizer: the two encoders are kept; with the quantizer in
    evaluation mode the model is unchanged; with the quantizer in
    training mode the moving averages and the codebook are updated, as
    by a call of [Quantize.forward] on the output of the convolutional
    encoder. *)
Theorem extract_codes_updates_only_training_quantizer (w : Comm)
    (vq : VQVAE) (device_count : nat) (full_tokens : list (list Z))
    (full_lengths : list Z) (vq' : VQVAE) (codes : list (list Z)) :
  run w (extract_codes vq device_count full_tokens full_lengths)
  = Some (vq', codes) ->
  text_encoder vq' = text_encoder vq
  /\ text_conv_encoder vq' = text_conv_encoder vq
  /\ exists q q' conv_inpt text_conv_out mask out,
       bottom_quantizer vq = Some q
       /\ bottom_quantizer vq' = Some q'
       /\ ConvEncoder_forward (text_conv_encoder vq) (permute120 conv_inpt)
            full_lengths
          = Some (text_conv_out, Some mask)
       /\ run w (Quantize_forward q device_count text_conv_out
                   (transpose false (size1 mask) mask))
          = Some (q', out)
       /\ (training q = false -> q' = q /\ vq' = vq).
Proof.
  unfold extract_codes. intros H.
  rewrite run_bind, run_lift in H.
  destruct (text_encoder vq full_tokens) as [teo|]; [|discriminate].
  rewrite run_bind, run_lift in H.
  destruct (mul3 _ _) as [ci|]; [|discriminate].
  rewrite run_bind, run_lift in H.
  destruct (ConvEncoder_forward _ _ _) as [[tco mask]|] eqn:Ec;
    [|discriminate].
  rewrite run_bind, run_lift in H.
  destruct mask as [m|]; [|discriminate].
  rewrite run_bind, run_lift in H.
  destruct (bottom_quantizer vq) as [q|] eqn:Eq; [|discriminate].
  rewrite run_bind in H.
  destruct (run w (Quantize_forward _ _ _ _))
    as [[q' [[[quantize diff] ei] stats]]|] eqn:Er; [|discriminate].
  rewrite run_bind, run_lift in H.
  destruct (masked_fill _ _ _) as [r|]; [|discriminate].
  cbn [run] in H. injection H as <- <-.
  cbn [text_encoder text_conv_encoder bottom_quantizer].
  split; [reflexivity|]. split; [reflexivity|].
  exists q, q', ci, tco, m, (quantize, diff, ei, stats).
  repeat split; try assumption; try reflexivity.
  - apply (forward_eval_state _ _ _ _ _ _ _ H Er).
  - rewrite (forward_eval_state _ _ _ _ _ _ _ H Er).
    destruct vq as [te tc bq]. simpl in *. congruence.
Qed.

(** X18. After the pretraining steps, [forward] and [extract_codes]
    run the same call of the quantizer: the [diff] and the statistics
    [forward] returns are those of [Quantize.forward] on the output of
    the convolutional encoder, the decoder of a model without a bottom
    latent encoder reads its [quantize], and on the same model
    [extract_codes] returns the indices [embed_ind] of
    that call, with -1 where the mask is false, and leaves the same
    quantizer. *)
Theorem forward_and_extract_codes_agree (w : Comm) (self : Model)
    (device_count : nat) (sorted_idx decoder_tokens : list (list Z))
    (lengths : list Z) (full_tokens : list (list Z)) (update_steps : Z)
    (q : Quantize) (self' : Model) (tokens' : list (list Z))
    (logits : tensor3) (d : Diff) (stats : stats_t) :
  bottom_quantizer (vqvae self) = Some q ->
  (pretrain_steps self < update_steps)%Z ->
  run w (VQVAE_forward self device_count sorted_idx decoder_tokens lengths
           full_tokens update_steps)
  = Some (self', tokens', (logits, d, stats)) ->
  exists conv_inpt text_conv_out mask q' quantize diff embed_ind,
    ConvEncoder_forward (text_conv_encoder (vqvae self))
      (permute120 conv_inpt) lengths
    = Some (text_conv_out, Some mask)
    /\ run w (Quantize_forward q device_count text_conv_out
                (transpose false (size1 mask) mask))
       = Some (q', (quantize, diff, embed_ind, stats))
    /\ bottom_quantizer (vqvae self') = Some q'
    /\ d = Scalar diff
    /\ (bottom_latent_encoder self = None ->
        decoder self tokens'
          {| encoder_out := quantize;
             encoder_padding_mask := map (map negb) mask |}
          (encoder_embedding self full_tokens)
        = Some logits)
    /\ forall codes,
         masked_fill (transpose 0%Z (size1 embed_ind) embed_ind)
           (map (map negb) mask) (-1)%Z
         = Some codes ->
         run w (extract_codes (vqvae self) device_count full_tokens lengths)
         = Some (vqvae self', codes).
Proof.
  intros Eq Hsteps H. unfold VQVAE_forward in H.
  rewrite run_bind, run_lift in H.
  destruct (text_encoder (vqvae self) full_tokens) as [teo|] eqn:Et;
    [|discriminate].
  rewrite run_bind, run_lift in H.
  destruct (mul3 _ _) as [ci|] eqn:Em; [|discriminate].
  rewrite run_bind, run_lift in H.
  destruct (ConvEncoder_forward _ _ _) as [[tco mask]|] eqn:Ec;
    [|discriminate].
  rewrite Eq in H.
  destruct (Z.ltb_spec (pretrain_steps self) update_steps) as [_|?]; [|lia].
  rewrite !run_bind, run_lift in H.
  destruct mask as [m|]; [|discriminate].
  rewrite run_bind in H.
  destruct (run w (Quantize_forward _ _ _ _))
    as [[q' [[[quantize diff] ei] st]]|] eqn:Er; [|discriminate].
  cbn [run] in H. rewrite run_bind, run_lift in H. cbn [run] in H.
  rewrite run_bind in H.
  set (latent := match bottom_latent_encoder self with
                 | Some f => lift (f quantize (map (map negb) m))
                 | None => Ret quantize
                 end) in H.
  destruct (run w latent) as [quantize'|] eqn:El; [|discriminate].
  rewrite run_bind in H.
  set (drop := if model_training self
                  && Qcltb (Q2Qc 0) (word_drop_rate self)
               then lift (mask_words self sorted_idx decoder_tokens lengths)
               else Ret decoder_tokens) in H.
  destruct (run w drop) as [toks|]; [|discriminate].
  rewrite run_bind, run_lift in H.
  destruct (decoder _ _ _ _) as [lg|] eqn:Ed; [|discriminate].
  cbn [run] in H. injection H as <- <- <- <- <-.
  exists ci, tco, m, q', quantize, diff, ei.
  split; [exact Ec|]. split; [exact Er|]. split; [reflexivity|].
  split; [reflexivity|]. split.
  - intros Hn. unfold latent in El. rewrite Hn in El.
    cbn [run] in El. injection El as <-. exact Ed.
  - intros codes Hc. unfold extract_codes.
    rewrite run_bind, run_lift, Et.
    rewrite run_bind, run_lift, Em.
    rewrite run_bind, run_lift, Ec.
    rewrite run_bind, run_lift. cbn [run bind lift].
    rewrite run_bind, run_lift, Eq.
    rewrite run_bind, Er.
    rewrite run_bind, run_lift, Hc.
    reflexivity.
Qed.

End ForwardAndCodes.

Section Architecture.
Import Torch Shape vqvae_lm.
Local Open Scope string_scope.

Lemma base_architecture_steps (args : Namespace) :
  base_architecture args = assign_steps defaults args.
Proof.
  unfold base_architecture, defaults. cbv beta zeta.
  cbn [assign_steps assign_step fst snd]. reflexivity.
Qed.

Lemma getattr_setattr (args : Namespace) (n k : string) (v : value) :
  getattr (setattr args n v) k
  = if String.eqb n k then Some v else getattr args k.
Proof.
  induction args as [|[a x] r IH]; simpl.
  - reflexivity.
  - destruct (String.eqb_spec a n) as [->|Hn]; simpl.
    + destruct (String.eqb n k); reflexivity.
    + destruct (String.eqb_spec a k) as [->|Hk].
      * destruct (String.eqb_spec n k) as [->|_]; [congruence | reflexivity].
      * exact IH.
Qed.

Lemma setattr_same (args : Namespace) (n : string) (v : value) :
  getattr args n = Some v -> setattr args n v = args.
Proof.
  induction args as [|[a x] r IH]; simpl; [discriminate|].
  destruct (String.eqb a n).
  - intros H. injection H as ->. reflexivity.
  - intros H. rewrite (IH H). reflexivity.
Qed.

Lemma getattr_assign_default (args : Namespace) (n k : string) (d : value) :
  getattr (assign_default n d args) k
  = if String.eqb n k
    then Some (match getattr args n with Some v => v | None => d end)
    else getattr args k.
Proof. unfold assign_default. apply getattr_setattr. Qed.

Lemma assign_default_present (args : Namespace) (n : string) (d v : value) :
  getattr args n = Some v -> assign_default n d args = args.
Proof.
  intros H. unfold assign_default. rewrite H. apply setattr_same. exact H.
Qed.

(** One assignment keeps every attribute that is set, and sets its
    own. *)
Lemma assign_step_keeps (s : string * default) (args args' : Namespace)
    (k : string) (v : value) :
  assign_step s args = Some args' ->
  getattr args k = Some v -> getattr args' k = Some v.
Proof.
  destruct s as [n [d|o]]; unfold assign_step, assign_default_attr; simpl.
  - intros H Hk. injection H as <-. rewrite getattr_assign_default.
    destruct (String.eqb_spec n k) as [->|_]; [rewrite Hk|]; auto.
  - destruct (getattr args o) as [d|]; [|discriminate].
    intros H Hk. injection H as <-. rewrite getattr_assign_default.
    destruct (String.eqb_spec n k) as [->|_]; [rewrite Hk|]; auto.
Qed.

Lemma assign_step_other (s : string * default) (args args' : Namespace)
    (k : string) :
  assign_step s args = Some args' -> k <> fst s ->
  getattr args' k = getattr args k.
Proof.
  destruct s as [n [d|o]]; unfold assign_step, assign_default_attr; simpl.
  - intros H Hk. injection H as <-. rewrite getattr_assign_default.
    destruct (String.eqb_spec n k) as [->|_]; [congruence | reflexivity].
  - destruct (getattr args o) as [d|]; [|discriminate].
    intros H Hk. injection H as <-. rewrite getattr_assign_default.
    destruct (String.eqb_spec n k) as [->|_]; [congruence | reflexivity].
Qed.

(** The value an assignment gives a missing attribute. *)
Lemma assign_step_sets (s : string * default) (args args' : Namespace) :
  assign_step s args = Some args' ->
  getattr args (fst s) = None ->
  getattr args' (fst s)
  = match snd s with
    | Const v => Some v
    | Attr other => getattr args other
    end.
Proof.
  destruct s as [n [d|o]]; unfold assign_step, assign_default_attr; simpl.
  - intros H Hn. injection H as <-. rewrite getattr_assign_default.
    rewrite String.eqb_refl, Hn. reflexivity.
  - destruct (getattr args o) as [d|] eqn:Eo; [|discriminate].
    intros H Hn. injection H as <-. rewrite getattr_assign_default.
    rewrite String.eqb_refl, Hn. reflexivity.
Qed.

Lemma assign_step_present (s : string * default) (args args' : Namespace) :
  assign_step s args = Some args' -> getattr args' (fst s) <> None.
Proof.
  destruct s as [n [d|o]]; unfold assign_step, assign_default_attr; simpl.
  - intros H. injection H as <-. rewrite getattr_assign_default.
    rewrite String.eqb_refl. discriminate.
  - destruct (getattr args o) as [d|] eqn:Eo; [|discriminate].
    intros H. injection H as <-. rewrite getattr_assign_default.
    rewrite String.eqb_refl. discriminate.
Qed.

Lemma assign_steps_keeps (l : list (string * default)) :
  forall (args args' : Namespace) (k : string) (v : value),
    assign_steps l args = Some args' ->
    getattr args k = Some v -> getattr args' k = Some v.
Proof.
  induction l as [|s l IH]; intros args args' k v H Hk; simpl in H.
  - injection H as <-. exact Hk.
  - destruct (assign_step s args) as [a|] eqn:Es; [|discriminate].
    apply (IH a args' k v H). apply (assign_step_keeps s args a k v Es Hk).
Qed.

Lemma assign_steps_other (l : list (string * default)) :
  forall (args args' : Namespace) (k : string),
    assign_steps l args = Some args' ->
    ~ In k (map fst l) -> getattr args' k = getattr args k.
Proof.
  induction l as [|s l IH]; intros args args' k H Hk; simpl in H.
  - injection H as <-. reflexivity.
  - destruct (assign_step s args) as [a|] eqn:Es; [|discriminate].
    rewrite (IH a args' k H) by (intros Hin; apply Hk; right; exact Hin).
    apply (assign_step_other s args a k Es).
    intros ->. apply Hk. left. reflexivity.
Qed.

Lemma assign_steps_present (l : list (string * default)) :
  forall (args args' : Namespace) (k : string),
    assign_steps l args = Some args' ->
    In k (map fst l) -> getattr args' k <> None.
Proof.
  induction l as [|s l IH]; intros args args' k H Hk; simpl in H.
  - contradiction.
  - destruct (assign_step s args) as [a|] eqn:Es; [|discriminate].
    destruct Hk as [<-|Hk]; [|apply (IH a args' k H Hk)].
    pose proof (assign_step_present s args a Es) as Hp.
    destruct (getattr a (fst s)) as [v|] eqn:Ev; [|congruence].
    rewrite (assign_steps_keeps l a args' (fst s) v H Ev). discriminate.
Qed.

Lemma existsb_eqb_In (o : string) (seen : list string) :
  existsb (String.eqb o) seen = true <-> In o seen.
Proof.
  rewrite existsb_exists. split.
  - intros (x & Hx & E). apply String.eqb_eq in E. subst. exact Hx.
  - intros H. exists o. split; [exact H | apply String.eqb_refl].
Qed.

(** A sequence of assignments in which every default that is an
    attribute was set before never raises. *)
Lemma assign_steps_total (l : list (string * default)) :
  forall (seen : list string) (args : Namespace),
    ordered seen l = true ->
    (forall o, In o seen -> getattr args o <> None) ->
    exists args', assign_steps l args = Some args'.
Proof.
  induction l as [|[n d] l IH]; intros seen args Ho Hseen; simpl.
  - eexists. reflexivity.
  - simpl in Ho. apply andb_true_iff in Ho. destruct Ho as [Hd Hl].
    assert (Hs : exists a, assign_step (n, d) args = Some a).
    { destruct d as [v|o]; unfold assign_step; simpl.
      - eexists. reflexivity.
      - apply existsb_eqb_In in Hd. unfold assign_default_attr.
        destruct (getattr args o) as [x|] eqn:Eo;
          [eexists; reflexivity|].
        exfalso. apply (Hseen o Hd Eo). }
    destruct Hs as (a & Es). rewrite Es.
    apply (IH (n :: seen) a Hl).
    intros o [<-|Hin].
    + apply (assign_step_present (n, d) args a Es).
    + specialize (Hseen o Hin).
      destruct (getattr args o) as [x|] eqn:Eo; [|congruence].
      rewrite (assign_step_keeps (n, d) args a o x Es Eo). discriminate.
Qed.

(** On a namespace that holds all the attributes, the assignments
    change nothing. *)
Lemma assign_steps_fixed (l : list (string * default)) :
  forall (seen : list string) (args : Namespace),
    ordered seen l = true ->
    (forall o, In o seen -> getattr args o <> None) ->
    (forall k, In k (map fst l) -> getattr args k <> None) ->
    assign_steps l args = Some args.
Proof.
  induction l as [|[n d] l IH]; intros seen args Ho Hseen Hall; simpl.
  - reflexivity.
  - simpl in Ho. apply andb_true_iff in Ho. destruct Ho as [Hd Hl].
    assert (Hn : getattr args n <> None) by (apply Hall; left; reflexivity).
    destruct (getattr args n) as [v|] eqn:En; [|congruence].
    assert (Es : assign_step (n, d) args = Some args).
    { destruct d as [x|o]; unfold assign_step; simpl.
      - rewrite (assign_default_present args n x v En). reflexivity.
      - apply existsb_eqb_In in Hd. unfold assign_default_attr.
        specialize (Hseen o Hd).
        destruct (getattr args o) as [x|] eqn:Eo; [|congruence].
        rewrite (assign_default_present args n x v En). reflexivity. }
    rewrite Es. apply (IH (n :: seen)); [exact Hl | |].
    + intros o [<-|Hin]; [congruence | auto].
    + intros k Hk. apply Hall. right. exact Hk.
Qed.

Lemma distinct_NoDup (l : list string) : distinct l = true -> NoDup l.
Proof.
  induction l as [|a l IH]; simpl; intros H; constructor.
  - apply andb_true_iff in H. destruct H as [H _].
    apply negb_true_iff in H. intros Hin.
    apply existsb_eqb_In in Hin. congruence.
  - apply IH. apply andb_true_iff in H. tauto.
Qed.

(** The final value of an attribute that was missing: its default, a
    default that is an attribute being read after all the
    assignments. *)
Lemma assign_steps_default (l : list (string * default)) :
  forall (args args' : Namespace) (n : string) (d : default),
    NoDup (map fst l) ->
    assign_steps l args = Some args' ->
    In (n, d) l -> getattr args n = None ->
    getattr args' n
    = match d with
      | Const v => Some v
      | Attr other => getattr args' other
      end.
Proof.
  induction l as [|s l IH]; intros args args' n d Hnd H Hin Hn; simpl in H.
  - contradiction.
  - destruct (assign_step s args) as [a|] eqn:Es; [|discriminate].
    inversion Hnd as [|? ? Hnotin Hnd']. subst.
    destruct Hin as [->|Hin].
    + pose proof (assign_step_sets (n, d) args a Es Hn) as Hv.
      simpl in Hv.
      pose proof (assign_step_present (n, d) args a Es) as Hp. simpl in Hp.
      destruct (getattr a n) as [v|] eqn:Ev; [|congruence].
      rewrite (assign_steps_keeps l a args' n v H Ev).
      destruct d as [x|o]; [exact Hv|].
      symmetry. apply (assign_steps_keeps l a args' o v H).
      unfold assign_step, assign_default_attr in Es. simpl in Es.
      destruct (getattr args o) as [y|] eqn:Eo; [|discriminate].
      injection Es as <-. rewrite getattr_assign_default.
      injection Hv as ->.
      destruct (String.eqb_spec n o) as [->|_]; [congruence | exact Eo].
    + apply (IH a args' n d Hnd' H Hin).
      rewrite (assign_step_other s args a n Es); [exact Hn|].
      intros ->. apply Hnotin. apply (in_map fst _ _ Hin).
Qed.

(** X19. [base_architecture] never raises; it keeps every attribute
    that is set, whatever its value (also [None]), sets the forty
    attributes of its assignments, touches no other attribute, and is
    idempotent. *)
Theorem base_architecture_fills_missing (args : Namespace) :
  exists args',
    base_architecture args = Some args'
    /\ (forall k v, getattr args k = Some v -> getattr args' k = Some v)
    /\ (forall k, In k (map fst defaults) -> getattr args' k <> None)
    /\ (forall k, ~ In k (map fst defaults) ->
          getattr args' k = getattr args k)
    /\ base_architecture args' = Some args'.
Proof.
  assert (Ho : ordered [] defaults = true) by (vm_compute; reflexivity).
  destruct (assign_steps_total defaults [] args Ho) as (args' & E).
  { intros o []. }
  exists args'.
  rewrite (base_architecture_steps args), (base_architecture_steps args').
  split; [exact E|]. split; [|split; [|split]].
  - intros k v. apply (assign_steps_keeps defaults args args' k v E).
  - intros k. apply (assign_steps_present defaults args args' k E).
  - intros k. apply (assign_steps_other defaults args args' k E).
  - apply (assign_steps_fixed defaults [] args' Ho).
    + intros o [].
    + intros k. apply (assign_steps_present defaults args args' k E).
Qed.

(** X20. An attribute that is missing gets its default; a default that
    is another attribute ([decoder_embed_dim], [decoder_ffn_embed_dim],
    [decoder_output_dim], [decoder_input_dim], [bottom_latent_dim]) is
    the value that attribute has after the call, given or default. *)
Theorem base_architecture_defaults (args : Namespace) :
  exists args',
    base_architecture args = Some args'
    /\ forall n d,
         In (n, d) defaults -> getattr args n = None ->
         getattr args' n
         = match d with
           | Const v => Some v
           | Attr other => getattr args' other
           end.
Proof.
  assert (Ho : ordered [] defaults = true) by (vm_compute; reflexivity).
  destruct (assign_steps_total defaults [] args Ho) as (args' & E).
  { intros o []. }
  exists args'. rewrite base_architecture_steps.
  split; [exact E|].
  intros n d. apply (assign_steps_default defaults args args' n d); auto.
  apply distinct_NoDup. vm_compute. reflexivity.
Qed.

End Architecture.

Section Blocks.
Import Torch conv_encoder Shape.
Local Open Scope nat_scope.

Lemma conv1d_some_shape (B C T : nat) (L : Conv1d) (x y : tensor3) :
  conv1d L x = Some y -> shape3 B C T x -> 1 <= B -> 1 <= C ->
  shape3 B (length (weight L)) (Z.to_nat (conv1d_out_len L T)) y.
Proof.
  intros H Hx HB HC.
  destruct (shape3_size _ _ _ _ Hx HB HC) as [S1 S2].
  unfold conv1d in H.
  destruct (Nat.eqb_spec (length (weight L)) (length (bias L))) as [E|E].
  2:{ cbn [negb] in H. rewrite orb_true_r in H. discriminate. }
  match type of H with
  | (if ?c then _ else _) = _ => destruct c; [discriminate|]
  end.
  injection H as <-.
  destruct Hx as [Hx Hxs]. split; [rewrite length_map; exact Hx|].
  rewrite Forall_forall in *. intros yb Hyb.
  apply in_map_iff in Hyb. destruct Hyb as (xb & <- & Hin).
  specialize (Hxs _ Hin).
  unfold conv1d_example. rewrite (shape2_size _ _ _ Hxs HC). split.
  - rewrite length_map, length_combine. lia.
  - rewrite Forall_forall. intros r Hr.
    apply in_map_iff in Hr. destruct Hr as (p & <- & _).
    rewrite length_map, length_seq. reflexivity.
Qed.

Lemma traverse_head {A B : Type} (f : A -> option B) (l : list A) (z0 : B)
    (z : list B) :
  traverse f l = Some (z0 :: z) ->
  exists a r, l = a :: r /\ f a = Some z0.
Proof.
  destruct l as [|a r]; simpl; [discriminate|].
  destruct (f a) as [b|] eqn:Ea; [|discriminate].
  destruct (traverse f r); [|discriminate].
  intros H. injection H as H1 H2. subst. exists a, r.
  split; [reflexivity | exact Ea].
Qed.

(** The first element of a broadcast operation comes from an element of
    each operand. *)
Lemma bcast_head {A B C : Type} (f : A -> B -> option C)
    (x : list A) (y : list B) (z0 : C) (z : list C) :
  bcast f x y = Some (z0 :: z) ->
  exists a b, In a x /\ In b y /\ f a b = Some z0.
Proof.
  unfold bcast. destruct (Nat.eqb (length x) (length y)).
  - intros H. apply traverse_head in H.
    destruct H as ([a b] & r & E & Hf).
    exists a, b. simpl in Hf. repeat split; [| |exact Hf].
    + apply (in_combine_l x y a b). rewrite E. left. reflexivity.
    + apply (in_combine_r x y a b). rewrite E. left. reflexivity.
  - destruct x as [|a [|a' x]], y as [|b [|b' y]]; try discriminate;
      intros H; apply traverse_head in H; destruct H as (c & r & E & Hf);
      try discriminate E; injection E as E1 E2; subst;
      match type of Hf with
      | f ?u ?v = _ => exists u, v
      end; simpl; auto.
Qed.

(** A product with a mask keeps the number of channels. *)
Lemma mul3_mask_channels (B C T : nat) (x z : tensor3)
    (m : list (list bool)) :
  shape3 B C T x ->
  mul3 x (unsqueeze1 (map (map of_bool) m)) = Some z ->
  z = [] \/ size1 z = C.
Proof.
  intros [Hx Hxs] H. destruct z as [|z0 z]; [left; reflexivity|]. right.
  unfold mul3 in H. apply bcast_head in H.
  destruct H as (xb & mb & Hxb & Hmb & Hf).
  unfold unsqueeze1 in Hmb. apply in_map_iff in Hmb.
  destruct Hmb as (row & <- & _).
  apply bcast_length_single in Hf.
  rewrite Forall_forall in Hxs. destruct (Hxs xb Hxb) as [Hl _].
  unfold size1. simpl. congruence.
Qed.

Lemma conv1d_channel_mismatch (C : nat) (L : Conv1d) (x : tensor3) :
  weight L <> [] -> Forall (fun w => length w = C) (weight L) ->
  size1 x <> C -> conv1d L x = None.
Proof.
  intros Hne Hw Hx. unfold conv1d.
  replace (forallb (fun w => length w =? size1 x) (weight L)) with false.
  - cbn [negb]. rewrite orb_true_r. reflexivity.
  - symmetry. destruct (weight L) as [|w ws]; [contradiction|].
    inversion Hw as [|? ? Hw0 _]. simpl.
    destruct (Nat.eqb_spec (length w) (size1 x)); [lia | reflexivity].
Qed.

(** X21. [ConvBlock] declares [conv2] with [input_channel] input
    channels but applies it to the output of [conv1], which has
    [output_channel] channels: when the two numbers differ, [forward]
    raises on every batch. *)
Theorem conv_block_needs_equal_channels (B Cin Cout T : nat)
    (kernel stride : Z) (p1 p2 pd : tensor3 * tensor1)
    (b1 b2 bd : BatchNorm1d) (x : tensor3) (input_length : list Z) :
  1 <= B -> 1 <= Cin -> 1 <= Cout -> Cout <> Cin ->
  shape3 B Cin T x ->
  length (fst p1) = Cout ->
  length (fst p2) = Cout -> Forall (fun w => length w = Cin) (fst p2) ->
  bn_shape b1 ->
  ConvBlock_forward (ConvBlock_init kernel stride p1 p2 pd b1 b2 bd) x
    input_length
  = None.
Proof.
  intros HB HCin HCout Hne Hx Hp1 Hp2 Hw2 Hb1.
  unfold ConvBlock_forward.
  cbn [ConvBlock_init cb_stride conv1 bn1 conv2 bn2 downsample fst snd].
  destruct (conv_encoder.compute_conv_mask _ _) as [[nl nm]|]; [|reflexivity].
  destruct (conv1d _ x) as [r|]; [|reflexivity].
  destruct (bd r) as [residual|]; [|reflexivity].
  destruct (conv1d _ x) as [y|] eqn:E1; [|reflexivity].
  pose proof (conv1d_some_shape B Cin T _ x y E1 Hx HB HCin) as Hy.
  cbn [weight] in Hy. rewrite Hp1 in Hy.
  destruct (b1 y) as [z|] eqn:Ez; [|reflexivity].
  pose proof (Hb1 _ _ _ y z Hy Ez) as Hz.
  apply relu_shape in Hz.
  destruct (mul3 _ _) as [u|] eqn:Eu; [|reflexivity].
  rewrite (conv1d_channel_mismatch Cin); [reflexivity | | |].
  - cbn [weight]. intros E. rewrite E in Hp2. simpl in Hp2. lia.
  - exact Hw2.
  - destruct (mul3_mask_channels B Cout _ _ u nm Hz Eu) as [->|Hu].
    + unfold size1. simpl. lia.
    + lia.
Qed.

Lemma traverse_all {A B' : Type} (f : A -> option B') (P : B' -> Prop)
    (l : list A) :
  (forall a, In a l -> exists b, f a = Some b /\ P b) ->
  exists bs, traverse f l = Some bs /\ length bs = length l /\ Forall P bs.
Proof.
  induction l as [|a l IH]; intros H.
  - exists []. simpl. auto.
  - destruct (H a (or_introl eq_refl)) as (b & Eb & Pb).
    destruct IH as (bs & Ebs & Hl & HP).
    { intros a' Ha'. apply H. right. exact Ha'. }
    exists (b :: bs). simpl. rewrite Eb, Ebs. simpl. auto.
Qed.

Lemma pad_last_shape (B C T : nat) (left right : Z) (x : tensor3) :
  (0 <= left)%Z -> (0 <= right)%Z -> shape3 B C T x ->
  exists x',
    pad_last left right x = Some x'
    /\ shape3 B C (Z.to_nat left + T + Z.to_nat right) x'.
Proof.
  intros Hl Hr [Hx Hxs].
  set (g := fun row : tensor1 =>
              (repeat (Q2Qc 0) (Z.to_nat left) ++ row)
              ++ repeat (Q2Qc 0) (Z.to_nat right)).
  exists (map (map g) x). split.
  - unfold pad_last. apply traverse_map_some. intros xb _.
    apply traverse_map_some. intros row _. unfold pad_row.
    destruct (Z.ltb_spec left 0); [lia|].
    destruct (Z.ltb_spec right 0); [lia|]. reflexivity.
  - split; [rewrite length_map; exact Hx|].
    rewrite Forall_map. rewrite Forall_forall in *. intros xb Hin.
    destruct (Hxs xb Hin) as [Hb Hbs]. split; [rewrite length_map; exact Hb|].
    rewrite Forall_map. rewrite Forall_forall in *. intros row Hrow.
    unfold g. rewrite !length_app, !repeat_length, (Hbs row Hrow). lia.
Qed.

(** A branch on [C] channels returns [S] channels and the time steps
    the mask of the block has, whether its kernel size is odd or
    even. *)
Lemma branch_ok (B C S T : nat) (convs : list Conv1d) (x : tensor3)
    (i : nat) (k s : Z) (p : tensor3 * tensor1) :
  nth_error convs i = Some (branch_conv s k p) ->
  (1 <= k)%Z -> (1 <= s)%Z -> filters S C p ->
  shape3 B C T x -> 1 <= B -> 1 <= C -> 1 <= T ->
  exists y,
    branch convs x (i, k) = Some y
    /\ shape3 B S (Z.to_nat ((Z.of_nat T - 1) / s + 1)) y.
Proof.
  intros Hn Hk Hs (Hp1 & Hp2 & Hp3) Hx HB HC HT.
  unfold branch. cbn [fst snd]. rewrite Hn.
  pose proof (Z.div_mod k 2 ltac:(lia)) as Hk2.
  pose proof (Z.mod_pos_bound k 2 ltac:(lia)) as Hm.
  destruct (Z.eqb_spec (k mod 2) 0) as [Hev|Hodd]; cbn [negb].
  - destruct (pad_last_shape B C T (k / 2) (k / 2 - 1) x
                ltac:(lia) ltac:(lia) Hx) as (x' & Ex & Hx').
    rewrite Ex.
    destruct (conv1d_shape_gen B C S _ (branch_conv s k p) x' Hx' HB HC)
      as (y & Ey & Hy);
      try (unfold branch_conv; cbn [weight bias kernel_size padding stride];
           first [assumption | lia]).
    { unfold branch_conv. cbn [weight bias kernel_size padding stride].
      destruct (Z.eqb_spec (k mod 2) 0); cbn [negb]; lia. }
    { unfold branch_conv. cbn [weight bias kernel_size padding stride].
      destruct (Z.eqb_spec (k mod 2) 0); cbn [negb]; lia. }
    exists y. split; [exact Ey|].
    replace (Z.to_nat ((Z.of_nat T - 1) / s + 1))
      with (Z.to_nat (conv1d_out_len (branch_conv s k p)
                        (Z.to_nat (k / 2) + T + Z.to_nat (k / 2 - 1))));
      [exact Hy|].
    unfold conv1d_out_len, branch_conv.
    cbn [weight bias kernel_size padding stride].
    destruct (Z.eqb_spec (k mod 2) 0); [|lia]. cbn [negb].
    f_equal. f_equal. f_equal. lia.
  - destruct (conv1d_shape_gen B C S T (branch_conv s k p) x Hx HB HC)
      as (y & Ey & Hy);
      try (unfold branch_conv; cbn [weight bias kernel_size padding stride];
           first [assumption | lia]).
    { unfold branch_conv. cbn [weight bias kernel_size padding stride].
      destruct (Z.eqb_spec (k mod 2) 0); cbn [negb]; lia. }
    { unfold branch_conv. cbn [weight bias kernel_size padding stride].
      destruct (Z.eqb_spec (k mod 2) 0); cbn [negb]; lia. }
    exists y. split; [exact Ey|].
    replace (Z.to_nat ((Z.of_nat T - 1) / s + 1))
      with (Z.to_nat (conv1d_out_len (branch_conv s k p) T));
      [exact Hy|].
    unfold conv1d_out_len, branch_conv.
    cbn [weight bias kernel_size padding stride].
    destruct (Z.eqb_spec (k mod 2) 0); [lia|]. cbn [negb].
    f_equal. f_equal. f_equal. lia.
Qed.

End Blocks.

Section MultiKernel.
Import Torch conv_encoder Shape.
Local Open Scope nat_scope.

Lemma in_enumerate {A : Type} (l : list A) (a : nat) (i : nat) (k : A) :
  In (i, k) (combine (seq a (length l)) l) ->
  a <= i /\ nth_error l (i - a) = Some k.
Proof.
  revert a. induction l as [|x l IH]; intros a H; simpl in H; [contradiction|].
  destruct H as [H|H].
  - injection H as <- <-. rewrite Nat.sub_diag. split; [lia | reflexivity].
  - destruct (IH (S a) H) as [Hle Hn]. split; [lia|].
    replace (i - a) with (S (i - S a)) by lia. exact Hn.
Qed.

Lemma nth_error_combine {A B' : Type} (l : list A) (r : list B') (i : nat)
    (k : A) :
  length r = length l -> nth_error l i = Some k ->
  exists p, In p r /\ nth_error (combine l r) i = Some (k, p).
Proof.
  revert r i. induction l as [|x l IH]; intros [|y r] [|i] Hl H;
    simpl in *; try discriminate.
  - injection H as <-. exists y. auto.
  - destruct (IH r i ltac:(lia) H) as (p & Hp & E). exists p. auto.
Qed.

(** The branches of a stage of the block, on [C] channels. *)
Lemma branches_ok (B C S T : nat) (kernels : list Z) (s : Z)
    (ps : list (tensor3 * tensor1)) (x : tensor3) :
  Forall (fun k => 1 <= k)%Z kernels -> (1 <= s)%Z ->
  length ps = length kernels -> Forall (filters S C) ps ->
  shape3 B C T x -> 1 <= B -> 1 <= C -> 1 <= T ->
  exists outs,
    traverse
      (branch (map (fun kp => branch_conv s (fst kp) (snd kp))
                   (combine kernels ps)) x)
      (enumerate kernels)
    = Some outs
    /\ length outs = length kernels
    /\ Forall (shape3 B S (Z.to_nat ((Z.of_nat T - 1) / s + 1))) outs.
Proof.
  intros Hk Hs Hl Hps Hx HB HC HT.
  destruct (traverse_all
              (branch (map (fun kp => branch_conv s (fst kp) (snd kp))
                           (combine kernels ps)) x)
              (shape3 B S (Z.to_nat ((Z.of_nat T - 1) / s + 1)))
              (enumerate kernels)) as (outs & E & Hlen & Hall).
  - intros [i k] Hin. unfold enumerate in Hin.
    destruct (in_enumerate kernels 0 i k Hin) as [_ Hn].
    rewrite Nat.sub_0_r in Hn.
    destruct (nth_error_combine kernels ps i k Hl Hn) as (p & Hp & Ep).
    apply (branch_ok B C S T _ x i k s p); try assumption.
    + apply (map_nth_error (fun kp => branch_conv s (fst kp) (snd kp))) in Ep.
      exact Ep.
    + rewrite Forall_forall in Hk. apply Hk.
      apply (nth_error_In kernels i Hn).
    + rewrite Forall_forall in Hps. apply Hps. exact Hp.
  - exists outs. split; [exact E|]. split; [|exact Hall].
    rewrite Hlen. unfold enumerate.
    rewrite length_combine, length_seq. lia.
Qed.

Lemma cat1_shape (B S T : nat) (ts : list tensor3) :
  ts <> [] -> Forall (shape3 B S T) ts -> 1 <= B -> 1 <= S ->
  exists y, cat1 ts = Some y /\ shape3 B (length ts * S) T y.
Proof.
  intros Hne Hall HB HS. destruct ts as [|t0 r]; [contradiction|].
  set (ts := t0 :: r) in *.
  assert (H0 : shape3 B S T t0) by (inversion Hall; assumption).
  exists (map (fun b => concat (map (fun t => nth b t []) ts)) (seq 0 B)).
  split.
  - unfold cat1, ts. fold ts.
    assert (Hf : forallb (fun t => Nat.eqb (length t) (length t0)
                                   && Nat.eqb (size2 t) (size2 t0)) ts
                 = true).
    + apply forallb_forall. intros t Ht.
      rewrite Forall_forall in Hall. specialize (Hall t Ht).
      destruct (shape3_size _ _ _ _ Hall HB HS) as [_ ->].
      destruct (shape3_size _ _ _ _ H0 HB HS) as [_ ->].
      destruct Hall as [-> _], H0 as [-> _].
      rewrite !Nat.eqb_refl. reflexivity.
    + rewrite Hf. destruct H0 as [-> _]. reflexivity.
  - split; [rewrite length_map, length_seq; reflexivity|].
    rewrite Forall_map, Forall_forall. intros b Hb.
    apply in_seq in Hb.
    assert (Hrows : Forall (shape2 S T) (map (fun t => nth b t []) ts)).
    { rewrite Forall_map. rewrite Forall_forall in *. intros t Ht.
      destruct (Hall t Ht) as [Hl Hr]. rewrite Forall_forall in Hr.
      apply Hr. apply nth_In. lia. }
    split.
    + rewrite (length_concat_rows S).
      * rewrite length_map. reflexivity.
      * eapply Forall_impl; [|exact Hrows]. intros a [H _]. exact H.
    + apply Forall_concat. eapply Forall_impl; [|exact Hrows].
      intros a [_ H]. exact H.
Qed.

Lemma add3_shape (B C T : nat) (a b : tensor3) :
  shape3 B C T a -> shape3 B C T b ->
  exists z, add3 a b = Some z /\ shape3 B C T z.
Proof.
  intros [Ha Has] [Hb Hbs].
  set (g1 := fun (u v : tensor1) =>
               map (fun p => (fst p + snd p)%Qc) (combine u v)).
  set (g2 := fun (u v : tensor2) =>
               map (fun p => g1 (fst p) (snd p)) (combine u v)).
  exists (map (fun p => g2 (fst p) (snd p)) (combine a b)). split.
  - unfold add3. apply bcast_same_length; [congruence|].
    intros [u v] Hin.
    destruct (in_combine_shape _ _ _ _ _ Has Hbs Hin) as [[Hu Hus] [Hv Hvs]].
    cbn [fst snd] in *.
    apply bcast_same_length; [congruence|].
    intros [r1 r2] Hin2.
    destruct (in_combine_shape _ _ _ _ _ Hus Hvs Hin2) as [H1 H2].
    cbn [fst snd] in *.
    apply (bcast_same_length (lift2 Qcplus) Qcplus); [congruence|].
    intros; reflexivity.
  - split; [rewrite length_map, length_combine; lia|].
    rewrite Forall_map, Forall_forall. intros [u v] Hin.
    destruct (in_combine_shape _ _ _ _ _ Has Hbs Hin) as [[Hu Hus] [Hv Hvs]].
    cbn [fst snd] in *. unfold g2. split.
    + rewrite length_map, length_combine. lia.
    + rewrite Forall_map, Forall_forall. intros [r1 r2] Hin2.
      destruct (in_combine_shape _ _ _ _ _ Hus Hvs Hin2) as [H1 H2].
      cbn [fst snd] in *. unfold g1.
      rewrite length_map, length_combine. lia.
Qed.

(** An activation multiplied by the mask of its lengths. *)
Lemma apply_mask_masked (B C T' : nat) (y : tensor3) (l' : list Z)
    (m : list (list bool)) :
  shape3 B C T' y -> shape2 B T' m ->
  (forall i t, i < B -> t < T' ->
     nth t (nth i m []) false = (Z.of_nat t <? nth i l' 0%Z)%Z) ->
  masked B C T' (apply_mask y m) l' m.
Proof.
  intros Hy Hm Hnth.
  pose proof (apply_mask_shape B C T' _ m Hy Hm) as Hsh.
  assert (Hzero : forall i c t, i < B -> c < C -> t < T' ->
            nth t (nth i m []) false = false ->
            at3 (apply_mask y m) i c t = Q2Qc 0).
  { intros i c t Hi Hc Ht Hf.
    rewrite (apply_mask_at B C T') by assumption.
    rewrite Hf. simpl. ring. }
  refine (conj Hm (conj _ (conj Hzero _))).
  - intros i t Hi Ht. rewrite Hnth by lia. apply Z.ltb_lt.
  - intros i c t Hi Hc Hge.
    destruct (Nat.lt_ge_cases t T') as [Ht|Ht].
    + apply Hzero; try assumption.
      rewrite Hnth by lia. apply Z.ltb_ge. exact Hge.
    + unfold at3. apply nth_overflow.
      rewrite (shape3_vector B C T' (apply_mask y m) i c Hsh Hi Hc).
      exact Ht.
Qed.

(** A block applied to a batch returns a batch, with its mask. *)
Lemma multi_kernel_block_step (B C S T : nat)
    (kernels : list Z) (stride : Z)
    (ps1 ps2 : list (tensor3 * tensor1)) (pd : tensor3 * tensor1)
    (b1 b2 bd : BatchNorm1d) (x : tensor3) (input_length : list Z) :
  batch_ok B C T x input_length ->
  kernels <> [] -> Forall (fun k => 1 <= k)%Z kernels ->
  (1 <= stride < 2 ^ 63)%Z -> 1 <= S ->
  length ps1 = length kernels -> length ps2 = length kernels ->
  Forall (filters S C) ps1 ->
  Forall (filters S (length kernels * S)) ps2 ->
  filters (length kernels * S) C pd ->
  let T' := Z.to_nat ((Z.of_nat T - 1) / stride + 1) in
  keeps_shape b1 B (length kernels * S) T' ->
  keeps_shape b2 B (length kernels * S) T' ->
  keeps_shape bd B (length kernels * S) T' ->
  exists (out : tensor3) (m : list (list bool)),
    let l' := map (fun v => (v - 1) / stride + 1)%Z input_length in
    MultiKernelConvBlock_forward
      (MultiKernelConvBlock_init kernels stride ps1 ps2 pd b1 b2 bd)
      x input_length
    = Some (out, l', m)
    /\ conv_encoder.compute_conv_mask input_length stride = Some (l', m)
    /\ batch_ok B (length kernels * S) T' out l'
    /\ masked B (length kernels * S) T' out l' m.
Proof.
  intros Hok Hkne Hk Hs HS Hl1 Hl2 Hps1 Hps2 (Hd1 & Hd2 & Hd3) T' Hb1 Hb2 Hbd.
  destruct Hok as (HB & HC & HT & HT63 & Hx & Hlen & Hl & Hin).
  set (n := length kernels) in *.
  assert (Hn : 1 <= n)
    by (unfold n; destruct kernels; simpl; [contradiction | lia]).
  assert (HnS : 1 <= n * S) by nia.
  assert (Hne : input_length <> [])
    by (destruct input_length; simpl in *; [lia | discriminate]).
  assert (Hl63 : Forall (fun v => 1 <= v < 2 ^ 63)%Z input_length).
  { eapply Forall_impl; [|exact Hl]. simpl. intros; lia. }
  destruct (compute_conv_mask_facts input_length stride Hne Hl63 Hs)
    as (T1 & m & Em & Hin' & Hb' & Hm & Hnth).
  cbv zeta in *.
  set (l' := map (fun v => (v - 1) / stride + 1)%Z input_length) in *.
  pose proof (strided_max input_length stride T T1 ltac:(lia) Hl Hin Hin' Hb')
    as ET.
  assert (ET' : T1 = T') by (unfold T'; lia).
  subst T1. rewrite Hlen in Hm.
  assert (HT' : 1 <= T').
  { pose proof (Z.div_pos (Z.of_nat T - 1) stride). lia. }
  assert (HT'63 : (Z.of_nat T' < 2 ^ 63)%Z).
  { assert ((Z.of_nat T - 1) / stride <= Z.of_nat T - 1)%Z
      by (apply Z.div_le_upper_bound; nia).
    lia. }
  (* the residual *)
  destruct (conv1d_shape_gen B C (n * S) T
              {| weight := fst pd; bias := snd pd; kernel_size := 1;
                 padding := 0; stride := stride |} x Hx HB HC)
    as (r & Er & Hr); cbn [weight bias kernel_size padding Torch.stride];
    try assumption; try lia.
  replace (Z.to_nat (conv1d_out_len _ T)) with T' in Hr
    by (unfold conv1d_out_len, T';
        cbn [weight bias kernel_size padding Torch.stride];
        f_equal; f_equal; f_equal; lia).
  destruct (Hbd r Hr) as (residual & Eres & Hres).
  (* the first stage *)
  destruct (branches_ok B C S T kernels stride ps1 x Hk ltac:(lia) Hl1 Hps1
              Hx HB HC HT) as (outs1 & Eo1 & Ho1l & Ho1).
  fold T' in Ho1.
  destruct (cat1_shape B S T' outs1) as (c1 & Ec1 & Hc1); try assumption.
  { intros E. rewrite E in Ho1l. simpl in Ho1l. fold n in Ho1l. lia. }
  rewrite Ho1l in Hc1. fold n in Hc1.
  destruct (Hb1 c1 Hc1) as (n1 & En1 & Hn1).
  apply relu_shape in Hn1.
  pose proof (mul3_mask B (n * S) T' _ m Hn1 Hm) as Em1.
  pose proof (apply_mask_shape B (n * S) T' _ m Hn1 Hm) as Hm1.
  (* the second stage *)
  destruct (branches_ok B (n * S) S T' kernels 1 ps2 _ Hk ltac:(lia) Hl2 Hps2
              Hm1 HB HnS HT') as (outs2 & Eo2 & Ho2l & Ho2).
  replace (Z.to_nat ((Z.of_nat T' - 1) / 1 + 1)) with T' in Ho2
    by (rewrite Z.div_1_r; lia).
  destruct (cat1_shape B S T' outs2) as (c2 & Ec2 & Hc2); try assumption.
  { intros E. rewrite E in Ho2l. simpl in Ho2l. fold n in Ho2l. lia. }
  rewrite Ho2l in Hc2. fold n in Hc2.
  destruct (Hb2 c2 Hc2) as (n2 & En2 & Hn2).
  destruct (add3_shape B (n * S) T' n2 residual Hn2 Hres)
    as (sum & Esum & Hsum).
  apply relu_shape in Hsum.
  pose proof (mul3_mask B (n * S) T' _ m Hsum Hm) as Em2.
  pose proof (apply_mask_shape B (n * S) T' _ m Hsum Hm) as Hm2.
  exists (apply_mask (map (map (map relu)) sum) m), m.
  assert (Hl'len : length l' = B)
    by (unfold l'; rewrite length_map; exact Hlen).
  split; [|split; [|split]].
  - unfold MultiKernelConvBlock_forward.
    cbn [MultiKernelConvBlock_init mk_stride mk_kernels conv_block_1 mk_bn1
         conv_block_2 mk_bn2 mk_downsample fst snd].
    rewrite compute_conv_mask_same, Em, Er, Eres, Eo1, Ec1, En1, Em1.
    rewrite Eo2, Ec2, En2, Esum, Em2. reflexivity.
  - rewrite compute_conv_mask_same. exact Em.
  - exact (conj HB (conj HnS (conj HT' (conj HT'63
             (conj Hm2 (conj Hl'len (conj Hb' Hin'))))))).
  - apply apply_mask_masked; try assumption.
    intros i t Hi Ht. apply Hnth; lia.
Qed.


End MultiKernel.

Section Residual.
Import Torch conv_encoder Shape.
Local Open Scope nat_scope.


End Residual.

Section FullEncoder.
Import Torch conv_encoder Shape.
Local Open Scope nat_scope.

Lemma blocks_loop_masks (S B : nat) (blocks : list MultiKernelConvBlock) :
  1 <= S -> blocks <> [] ->
  forall (C T : nat) (x : tensor3) (l : list Z)
         (om : option (list (list bool))),
    chain S B C T blocks -> batch_ok B C T x l ->
    exists (T' : nat) (x' : tensor3) (m : list (list bool)),
      let l' := strided_lengths (map mk_stride blocks) l in
      blocks_loop blocks (x, l, om) = Some (x', l', Some m)
      /\ batch_ok B (channels S C blocks) T' x' l'
      /\ masked B (channels S C blocks) T' x' l' m.
Proof.
  intros HS. induction blocks as [|block r IH]; intros Hne C T x l om Hch Hok;
    [congruence|].
  cbn [chain] in Hch.
  destruct Hch as (kernels & stride & ps1 & ps2 & pd & b1 & b2 & bd & ->
                   & Hkne & Hk & Hs & Hl1 & Hl2 & Hps1 & Hps2 & Hpd
                   & Hb1 & Hb2 & Hbd & Hr).
  destruct (multi_kernel_block_step B C S T kernels stride ps1 ps2 pd
              b1 b2 bd x l Hok Hkne Hk Hs HS Hl1 Hl2 Hps1 Hps2 Hpd
              Hb1 Hb2 Hbd) as (x1 & m1 & E1 & _ & Hok1 & Hm1).
  cbv zeta in *.
  cbn [blocks_loop fst snd map strided_lengths fold_left channels].
  rewrite E1.
  cbn [MultiKernelConvBlock_init mk_stride mk_kernels].
  destruct r as [|block' r'].
  - exists (Z.to_nat ((Z.of_nat T - 1) / stride + 1)), x1, m1.
    simpl. auto.
  - apply (IH ltac:(discriminate) _ _ x1 _ (Some m1) Hr Hok1).
Qed.

Lemma scale_shape (B T C : nat) (s : Qc) (e : tensor3) :
  shape3 B T C e ->
  shape3 B T C (map (map (map (fun a => (s * a)%Qc))) e).
Proof.
  intros [He Hes]. split; [rewrite length_map; exact He|].
  rewrite Forall_map. eapply Forall_impl; [|exact Hes].
  intros xb [Hb Hbs]. split; [rewrite length_map; exact Hb|].
  rewrite Forall_map. eapply Forall_impl; [|exact Hbs].
  intros row Hrow. cbv beta. rewrite length_map. exact Hrow.
Qed.

(** [x * m.unsqueeze(-1)] for [x] of shape [B x T x C] and [m] of shape
    [B x T]. *)
Lemma mul3_last_shape (B T C : nat) (x : tensor3) (m : tensor2) :
  shape3 B T C x -> shape2 B T m ->
  exists z, mul3 x (unsqueeze_last m) = Some z /\ shape3 B T C z.
Proof.
  intros [Hx Hxs] [Hm Hms].
  set (g1 := fun (u : tensor1) (a : Qc) => map (fun v => (v * a)%Qc) u).
  set (g2 := fun (u : tensor2) (r : tensor1) =>
               map (fun p => g1 (fst p) (snd p)) (combine u r)).
  exists (map (fun p => g2 (fst p) (snd p)) (combine x m)). split.
  - unfold mul3, unsqueeze_last.
    replace x with (map (fun u : tensor2 => u) x) at 1 by apply map_id.
    apply (bcast_map2 (bcast (bcast (lift2 Qcmult))) g2 (fun u => u)
             (map (fun a => [a])) x m); [congruence|].
    intros [u r] Hin. cbn [fst snd].
    destruct (in_combine_shape _ _ _ _ _ Hxs Hms Hin) as [[Hu Hus] Hr].
    cbn [fst snd] in *.
    replace u with (map (fun v : tensor1 => v) u) at 1 by apply map_id.
    apply (bcast_map2 (bcast (lift2 Qcmult)) g1 (fun v => v)
             (fun a => [a]) u r); [congruence|].
    intros [v a] _. cbn [fst snd].
    apply (bcast_single_r (lift2 Qcmult) Qcmult). reflexivity.
  - split; [rewrite length_map, length_combine; lia|].
    rewrite Forall_map, Forall_forall. intros [u r] Hin.
    destruct (in_combine_shape _ _ _ _ _ Hxs Hms Hin) as [[Hu Hus] Hr].
    cbn [fst snd] in *. unfold g2. split.
    + rewrite length_map, length_combine. lia.
    + rewrite Forall_map, Forall_forall. intros [v a] Hin2.
      apply in_combine_l in Hin2. rewrite Forall_forall in Hus.
      cbn [fst snd]. unfold g1. rewrite length_map. apply Hus. exact Hin2.
Qed.

Lemma transpose12_shape (B T C : nat) (x : tensor3) :
  shape3 B T C x -> 1 <= T -> shape3 B C T (transpose12 x).
Proof.
  intros [Hx Hxs] HT. unfold transpose12.
  split; [rewrite length_map; exact Hx|].
  rewrite Forall_map. eapply Forall_impl; [|exact Hxs].
  intros xb Hxb. cbv beta.
  rewrite (shape2_size T C xb Hxb HT).
  destruct Hxb as [<- _]. apply transpose_shape.
Qed.

(** X23. [FullConvEncoder.forward] binds [mask] in its loop over the
    blocks and [forward_embedding] binds [x] when there is a positional
    embedding: an encoder without a block or without positional
    embedding raises on every input. *)
Theorem full_conv_encoder_needs_block_and_positions
    (self : FullConvEncoder) (src_tokens : list (list Z))
    (length_ : list Z) :
  fc_conv_blocks self = [] \/ embed_positions self = None ->
  FullConvEncoder_forward self src_tokens length_ = None.
Proof.
  intros [H|H]; unfold FullConvEncoder_forward.
  - destruct (forward_embedding self src_tokens) as [[x e]|];
      [|reflexivity]. cbn [bind].
    destruct (mul3 _ _) as [y|]; [|reflexivity]. cbn [bind].
    rewrite H. cbn [blocks_loop bind].
    destruct (conv1d _ _); reflexivity.
  - unfold forward_embedding. rewrite H.
    destruct (embed_tokens self src_tokens); reflexivity.
Qed.

(** X24. The blocks of a [FullConvEncoder] compose: on [B x T] tokens
    with lengths of which [T] is the greatest, [forward] returns an
    output of shape [T' x B x C'] and a mask of shape [B x T'], where
    [T' = (T - 1) / P + 1] for the product [P] of the strides of the
    blocks, and the mask of the example [b] is true exactly before
    [(length[b] - 1) / P + 1]. *)
Theorem full_conv_encoder_mask_total_stride (S B C C' T : nat)
    (self : FullConvEncoder)
    (pos : list (list Z) -> option tensor3)
    (src_tokens : list (list Z)) (length_ : list Z) :
  1 <= B -> 1 <= C -> 1 <= T -> (Z.of_nat T < 2 ^ 63)%Z ->
  1 <= S -> 1 <= C' ->
  shape2 B T src_tokens ->
  length length_ = B ->
  Forall (fun v => 1 <= v <= Z.of_nat T)%Z length_ ->
  In (Z.of_nat T) length_ ->
  embeds (embed_tokens self) B T C src_tokens ->
  embed_positions self = Some pos -> embeds pos B T C src_tokens ->
  keeps_shape (fc_dropout self) B T C ->
  fc_conv_blocks self <> [] -> chain S B C T (fc_conv_blocks self) ->
  kernel_size (fc_quant_conv self) = 1%Z ->
  padding (fc_quant_conv self) = 0%Z ->
  stride (fc_quant_conv self) = 1%Z ->
  filters C' (channels S C (fc_conv_blocks self))
    (weight (fc_quant_conv self), bias (fc_quant_conv self)) ->
  let P := stride_product (map mk_stride (fc_conv_blocks self)) in
  exists (T' : nat) (out : tensor3) (m : list (list bool)),
    FullConvEncoder_forward self src_tokens length_ = Some (out, m)
    /\ Z.of_nat T' = ((Z.of_nat T - 1) / P + 1)%Z
    /\ shape3 T' B C' out
    /\ shape2 B T' m
    /\ forall b t : nat,
         b < B -> t < T' ->
         (nth t (nth b m []) false = true
          <-> (Z.of_nat t < (nth b length_ 0 - 1) / P + 1)%Z).
Proof.
  intros HB HC HT HT63 HS HC' Hsrc Hlen Hl HinT (e & Ee & He) Epos
         (p & Ep & Hp) Hdrop Hne Hch Hqk Hqp Hqs (Hq1 & Hq2 & Hq3) P.
  cbn [fst snd] in Hq1, Hq2, Hq3.
  pose proof (scale_shape B T C (embed_scale self) e He) as Hemb.
  destruct (add3_shape B T C _ p Hemb Hp) as (x0 & Ex0 & Hx0).
  destruct (Hdrop x0 Hx0) as (x1 & Ex1 & Hx1).
  set (g := fun t : Z =>
              of_bool (negb ((t =? fc_pad_index self)%Z
                             || (t =? fc_bos_index self)%Z))).
  assert (Hmask : shape2 B T (map (map g) src_tokens)).
  { destruct Hsrc as [H1 H2]. split; [rewrite length_map; exact H1|].
    rewrite Forall_map. eapply Forall_impl; [|exact H2].
    intros r Hr. cbv beta. rewrite length_map. exact Hr. }
  destruct (mul3_last_shape B T C x1 _ Hx1 Hmask) as (x2 & Ex2 & Hx2).
  pose proof (transpose12_shape B T C x2 Hx2 HT) as Hx3.
  assert (Hok : batch_ok B C T (transpose12 x2) length_).
  { exact (conj HB (conj HC (conj HT (conj HT63
             (conj Hx3 (conj Hlen (conj Hl HinT))))))). }
  destruct (blocks_loop_masks S B (fc_conv_blocks self) HS Hne C T
              (transpose12 x2) length_ None Hch Hok)
    as (T' & x' & m & Eloop & Hok' & Hm).
  cbv zeta in Eloop, Hok', Hm.
  assert (Hs1 : Forall (fun s => 1 <= s)%Z
                       (map mk_stride (fc_conv_blocks self))).
  { clear - Hch. revert C T Hch.
    induction (fc_conv_blocks self) as [|block r IH]; intros C T Hch;
      [constructor|].
    cbn [chain] in Hch.
    destruct Hch as (kernels & stride & ps1 & ps2 & pd & b1 & b2 & bd & ->
                     & _ & _ & Hs & _ & _ & _ & _ & _ & _ & _ & _ & Hr).
    simpl. constructor; [lia | exact (IH _ _ Hr)]. }
  rewrite (strided_lengths_product _ length_ Hs1) in Eloop, Hok', Hm.
  fold P in Eloop, Hok', Hm.
  pose proof (stride_product_pos _ Hs1) as HP. fold P in HP.
  pose proof Hok' as (_ & HCl & HT' & _ & Hx' & _ & Hl' & HinT').
  destruct Hm as (Hmsh & Hiff & _).
  destruct (conv1d_shape_gen B _ C' T' (fc_quant_conv self) x' Hx' HB HCl)
    as (y & Ey & Hy); try assumption; try lia.
  replace (Z.to_nat (conv1d_out_len (fc_quant_conv self) T')) with T' in Hy
    by (unfold conv1d_out_len; rewrite Hqk, Hqp, Hqs, Z.div_1_r; lia).
  exists T', (permute201 y), m.
  split; [|split; [|split; [|split]]].
  - unfold FullConvEncoder_forward, forward_embedding.
    rewrite Ee, Epos, Ep. cbn [bind]. rewrite Ex0. cbn [bind].
    rewrite Ex1. cbn [bind]. fold g. rewrite Ex2. cbn [bind].
    rewrite Eloop. cbn [bind]. rewrite Ey. reflexivity.
  - apply (strided_max length_ P T T'); assumption.
  - apply permute201_shape; assumption.
  - exact Hmsh.
  - intros b t Hb Ht. rewrite (Hiff b t Hb Ht).
    rewrite (nth_map_in _ length_ b 0%Z 0%Z) by lia. reflexivity.
Qed.

End FullEncoder.

Section RawLabels.
Import raw_label_dataset.
Local Open Scope Z_scope.

Lemma getitem_map {A B : Type} (f : A -> B) (l : list A) (index : Z) :
  getitem (map f l) index = option_map f (getitem l index).
Proof.
  unfold getitem. rewrite length_map.
  destruct ((index <? - Z.of_nat (length l))
            || (Z.of_nat (length l) <=? index))%bool; [reflexivity|].
  apply nth_error_map.
Qed.

Lemma getitem_none {A : Type} (l : list A) (index : Z) :
  getitem l index = None
  <-> index < - Z.of_nat (length l) \/ Z.of_nat (length l) <= index.
Proof.
  unfold getitem.
  destruct (Z.ltb_spec index (- Z.of_nat (length l))) as [H1|H1];
    [simpl; split; [left; exact H1 | reflexivity]|].
  destruct (Z.leb_spec (Z.of_nat (length l)) index) as [H2|H2];
    [simpl; split; [right; exact H2 | reflexivity]|].
  simpl. rewrite nth_error_None. split; [|lia].
  destruct (Z.ltb_spec index 0); lia.
Qed.

(** X25. For a dataset as [__init__] leaves it, [size(index)] is the
    length of the label [dataset[index]] for every integer [index],
    negative ones counting from the end, and both raise exactly when
    [index] is outside [-len(dataset) .. len(dataset) - 1]. *)
Theorem raw_label_size_is_length {A : Type} (labels : list (list A))
    (index : Z) :
  let self := RawLabelDataset_init labels in
  size self index
  = option_map (fun l => Z.of_nat (length l))
               (RawLabelDataset_getitem self index)
  /\ (RawLabelDataset_getitem self index = None
      <-> index < - RawLabelDataset_len self
          \/ RawLabelDataset_len self <= index).
Proof.
  cbv zeta. unfold size, RawLabelDataset_getitem, RawLabelDataset_len.
  cbn [RawLabelDataset_init raw_label_dataset.labels
       raw_label_dataset.sizes].
  split; [apply getitem_map | apply getitem_none].
Qed.

End RawLabels.

(** ** The further properties on the concrete instances *)

Section MoreInstances.
Import Torch Shape vqvae_lm.
Local Open Scope nat_scope.

Ltac shapes :=
  repeat match goal with
         | |- _ /\ _ => split
         | |- Forall _ _ => constructor
         | |- shape2 _ _ _ => split
         | |- shape3 _ _ _ _ => split
         | |- wf_quantize _ => unfold wf_quantize
         | |- batch_ok _ _ _ _ _ => unfold batch_ok
         | |- In _ _ => simpl; tauto
         | |- _ = _ => reflexivity
         | |- (_ <= _)%nat => simpl; lia
         | |- (_ < _)%nat => simpl; lia
         | |- (_ <= _)%Z => simpl; lia
         | |- (_ < _)%Z => simpl; lia
         | |- _ <> _ => discriminate
         end.

Lemma conv_encoder_mask_total_stride_witness :
  let self := ConvEncoder_init Example.kernels Example.strides_
                Example.params Example.qparams in
  let P := stride_product Example.strides_ in
  exists (T' : nat) (out : tensor3) (m : list (list bool)),
    ConvEncoder_forward self Example.batch Example.lengths
    = Some (out, Some m)
    /\ Z.of_nat T' = ((Z.of_nat 5 - 1) / P + 1)%Z
    /\ shape3 T' 2 2 out
    /\ shape2 2 T' m
    /\ forall b t : nat,
         (b < 2)%nat -> (t < T')%nat ->
         (nth t (nth b m []) false = true
          <-> (Z.of_nat t < (nth b Example.lengths 0 - 1) / P + 1)%Z).
Proof.
  apply (conv_encoder_mask_total_stride 2 1 2 5 Example.kernels
           Example.strides_ Example.params Example.qparams Example.batch
           Example.lengths);
    shapes.
Defined.


Lemma extract_codes_needs_layer_and_quantizer_witness :
  let vq := {| text_encoder := Example.encoder;
               text_conv_encoder :=
                 ConvEncoder_init [] [] [] Example.qparams;
               bottom_quantizer := Some Example.quantizer |} in
  run Example.alone (extract_codes vq 1 [] Example.lengths) = None
  /\ collectives Example.alone (extract_codes vq 1 [] Example.lengths) = []
  /\ (combine (conv_blocks (text_conv_encoder vq))
              (strides (text_conv_encoder vq)) = [] ->
      forall x l,
        ConvEncoder_forward (text_conv_encoder vq) x l
        = match conv1d (quant_conv (text_conv_encoder vq)) x with
          | Some y => Some (permute201 y, None)
          | None => None
          end).
Proof.
  apply (extract_codes_needs_layer_and_quantizer Example.alone
           {| text_encoder := Example.encoder;
              text_conv_encoder := ConvEncoder_init [] [] [] Example.qparams;
              bottom_quantizer := Some Example.quantizer |}
           1 [] Example.lengths).
  left. reflexivity.
Defined.

Lemma conv_encoder_even_kernel_raises_witness :
  vqvae_lm.ConvEncoder_forward
    (vqvae_lm.ConvEncoder_init [2%Z] [2%Z]
       [([[[Example.qz 1; Example.qz 1]]], [Example.qz 0])]
       Example.qparams)
    [[[Example.qz 1; Example.qz 2; Example.qz 3; Example.qz 4]]] [4%Z]
  = None
  /\ conv_encoder.ConvEncoder_forward
       (conv_encoder.ConvEncoder_init [2%Z] [2%Z]
          [([[[Example.qz 1; Example.qz 1]]], [Example.qz 0])]
          Example.qparams)
       [[[Example.qz 1; Example.qz 2; Example.qz 3; Example.qz 4]]] [4%Z]
     = None.
Proof.
  apply (conv_encoder_even_kernel_raises 1 1 4 2 2 [] []
           ([[[Example.qz 1; Example.qz 1]]], [Example.qz 0]) []
           Example.qparams
           [[[Example.qz 1; Example.qz 2; Example.qz 3; Example.qz 4]]]
           [4%Z]);
    shapes.
Defined.

Lemma quantize_keeps_shapes_witness :
  exists self',
    forward_all Example.alone 1 Example.quantizer
      [(Example.input, Example.input_mask);
       (Example.input, Example.input_mask)]
    = Some self'
    /\ wf_quantize self'
    /\ dim self' = dim Example.quantizer
    /\ n_embed self' = n_embed Example.quantizer
    /\ decay self' = decay Example.quantizer
    /\ eps self' = eps Example.quantizer
    /\ training self' = training Example.quantizer.
Proof.
  apply (quantize_keeps_shapes Example.alone 1
           [(Example.input, Example.input_mask);
            (Example.input, Example.input_mask)] Example.quantizer).
  - shapes.
  - apply (alone_ok 2 3).
  - repeat constructor; exists 2, 2; shapes.
Defined.

Lemma quantize_output_ignores_mode_witness :
  exists s1 s2 quantize diff embed_ind stats1 stats2,
    run Example.alone
        (Quantize_forward Example.quantizer 1 Example.input
           Example.input_mask)
    = Some (s1, (quantize, diff, embed_ind, stats1))
    /\ run Example.with_peer
           (Quantize_forward Example.quantizer_eval 2 Example.input
              Example.input_mask)
       = Some (s2, (quantize, diff, embed_ind, stats2)).
Proof.
  apply (quantize_output_ignores_mode Example.alone Example.with_peer
           Example.quantizer Example.quantizer_eval 1 2 2 2 Example.input
           Example.input_mask);
    [shapes | shapes | reflexivity | reflexivity | reflexivity | lia
    | shapes | shapes | apply (alone_ok 2 3)
    | apply (sum_group_ok 2 3); shapes].
Defined.

Lemma cluster_size_stays_nonnegative_witness :
  exists self' out,
    run Example.alone
        (Quantize_forward Example.quantizer 1 Example.input
           Example.input_mask)
    = Some (self', out)
    /\ Forall (fun c => (Q2Qc 0 <= c)%Qc) (cluster_size self').
Proof.
  apply (cluster_size_stays_nonnegative Example.alone Example.quantizer
           1 2 2 Example.input Example.input_mask);
    [shapes | lia | lia | shapes | shapes | apply (alone_ok 2 3)
    | vm_compute; discriminate | vm_compute; discriminate
    | repeat constructor; vm_compute; discriminate].
Defined.

Lemma quantize_rejects_wrong_sizes_witness :
  assign Example.quantizer [[[Example.qz 1; Example.qz 1; Example.qz 1]]]
    [[true]] = None
  /\ run Example.alone
         (Quantize_forward Example.quantizer 1
            [[[Example.qz 1; Example.qz 1; Example.qz 1]]] [[true]])
     = None
  /\ collectives Example.alone
       (Quantize_forward Example.quantizer 1
          [[[Example.qz 1; Example.qz 1; Example.qz 1]]] [[true]])
     = [].
Proof.
  apply (quantize_rejects_wrong_sizes Example.alone Example.quantizer
           1 1 1 3 [[[Example.qz 1; Example.qz 1; Example.qz 1]]]
           [[true]]);
    [lia | lia | shapes | left; simpl; lia].
Defined.

Lemma mask_words_drops_first_sorted_witness :
  exists out,
    mask_words Example.model Example.sorted_idx Example.decoder_tokens
      Example.lengths
    = Some out
    /\ shape2 2 5 out
    /\ forall b t, b < 2 -> t < 5 ->
         let j := Z.to_nat (nth t (nth b Example.sorted_idx []) 0%Z) in
         let dropped :=
           mask_length (word_drop_rate Example.model)
             (nth b Example.lengths 0%Z) in
         nth j (nth b out []) 0%Z
         = if (Z.of_nat t <? dropped)%Z then pad_index Example.model
           else nth j (nth b Example.decoder_tokens []) 0%Z.
Proof.
  apply (mask_words_drops_first_sorted Example.model 2 5
           Example.sorted_idx Example.decoder_tokens Example.lengths);
    [lia | shapes | reflexivity | shapes |].
  repeat constructor; simpl; intuition (try discriminate; try lia).
Defined.

Lemma forward_only_pads_decoder_tokens_witness :
  exists self' tokens' out,
    run Example.alone
        (VQVAE_forward Example.model 1 Example.sorted_idx
           Example.decoder_tokens Example.lengths [] 0%Z)
    = Some (self', tokens', out)
    /\ length tokens' = length Example.decoder_tokens
    /\ (forall b, length (nth b tokens' [])
                  = length (nth b Example.decoder_tokens []))
    /\ (forall b t,
          nth t (nth b tokens' []) 0%Z
          = nth t (nth b Example.decoder_tokens []) 0%Z
          \/ nth t (nth b tokens' []) 0%Z = pad_index Example.model)
    /\ (model_training Example.model = false
        \/ (word_drop_rate Example.model <= Q2Qc 0)%Qc ->
        tokens' = Example.decoder_tokens).
Proof.
  do 3 eexists.
  refine ((fun H => conj H
            (forward_only_pads_decoder_tokens Example.alone Example.model
               1 Example.sorted_idx Example.decoder_tokens
               Example.lengths [] 0%Z _ _ _ H)) _).
  vm_compute. reflexivity.
Defined.

Lemma forward_pretraining_skips_quantizer_witness :
  collectives Example.alone
    (VQVAE_forward Example.pretraining_model 1 Example.sorted_idx
       Example.decoder_tokens Example.lengths [] 0%Z)
  = []
  /\ forall self' tokens' logits diff stats,
       run Example.alone
           (VQVAE_forward Example.pretraining_model 1 Example.sorted_idx
              Example.decoder_tokens Example.lengths [] 0%Z)
       = Some (self', tokens', (logits, diff, stats)) ->
       self' = Example.pretraining_model
       /\ diff = Vector [Q2Qc 0] /\ stats = []
       /\ exists conv_inpt text_conv_out mask quantize,
            ConvEncoder_forward
              (text_conv_encoder (vqvae Example.pretraining_model))
              (permute120 conv_inpt) Example.lengths
            = Some (text_conv_out, Some mask)
            /\ match bottom_latent_encoder Example.pretraining_model with
               | Some f => f text_conv_out (map (map negb) mask)
                           = Some quantize
               | None => quantize = text_conv_out
               end
            /\ decoder Example.pretraining_model tokens'
                 {| encoder_out := quantize;
                    encoder_padding_mask := map (map negb) mask |}
                 (encoder_embedding Example.pretraining_model [])
               = Some logits.
Proof.
  apply (forward_pretraining_skips_quantizer Example.alone
           Example.pretraining_model 1 Example.sorted_idx
           Example.decoder_tokens Example.lengths [] 0%Z).
  right. simpl. lia.
Defined.

Lemma extract_codes_updates_only_training_quantizer_witness :
  exists vq' codes,
    run Example.alone
        (extract_codes (vqvae Example.model) 1 [] Example.lengths)
    = Some (vq', codes)
    /\ text_encoder vq' = text_encoder (vqvae Example.model)
    /\ text_conv_encoder vq' = text_conv_encoder (vqvae Example.model)
    /\ exists q q' conv_inpt text_conv_out mask out,
         bottom_quantizer (vqvae Example.model) = Some q
         /\ bottom_quantizer vq' = Some q'
         /\ ConvEncoder_forward (text_conv_encoder (vqvae Example.model))
              (permute120 conv_inpt) Example.lengths
            = Some (text_conv_out, Some mask)
         /\ run Example.alone
               (Quantize_forward q 1 text_conv_out
                  (transpose false (size1 mask) mask))
            = Some (q', out)
         /\ (training q = false -> q' = q /\ vq' = vqvae Example.model).
Proof.
  do 2 eexists.
  refine ((fun H => conj H
            (extract_codes_updates_only_training_quantizer Example.alone
               (vqvae Example.model) 1 [] Example.lengths _ _ H)) _).
  vm_compute. reflexivity.
Defined.

Lemma forward_and_extract_codes_agree_witness :
  exists self' tokens' logits d stats,
    run Example.alone
        (VQVAE_forward Example.model 1 Example.sorted_idx
           Example.decoder_tokens Example.lengths [] 0%Z)
    = Some (self', tokens', (logits, d, stats))
    /\ exists conv_inpt text_conv_out mask q' quantize diff embed_ind,
         ConvEncoder_forward (text_conv_encoder (vqvae Example.model))
           (permute120 conv_inpt) Example.lengths
         = Some (text_conv_out, Some mask)
         /\ run Example.alone
               (Quantize_forward Example.quantizer 1 text_conv_out
                  (transpose false (size1 mask) mask))
            = Some (q', (quantize, diff, embed_ind, stats))
         /\ bottom_quantizer (vqvae self') = Some q'
         /\ d = Scalar diff
         /\ (bottom_latent_encoder Example.model = None ->
             decoder Example.model tokens'
               {| encoder_out := quantize;
                  encoder_padding_mask := map (map negb) mask |}
               (encoder_embedding Example.model [])
             = Some logits)
         /\ forall codes,
              masked_fill (transpose 0%Z (size1 embed_ind) embed_ind)
                (map (map negb) mask) (-1)%Z
              = Some codes ->
              run Example.alone
                  (extract_codes (vqvae Example.model) 1 []
                     Example.lengths)
              = Some (vqvae self', codes).
Proof.
  do 5 eexists.
  refine ((fun H => conj H
            (forward_and_extract_codes_agree Example.alone Example.model
               1 Example.sorted_idx Example.decoder_tokens
               Example.lengths [] 0%Z Example.quantizer _ _ _ _ _
               eq_refl _ H)) _).
  - simpl. lia.
  - vm_compute. reflexivity.
Defined.

Lemma some_keeps_shape (B C T : nat) : Shape.keeps_shape Some B C T.
Proof. intros y Hy. exists y. split; [reflexivity | exact Hy]. Defined.

Lemma some_bn_shape : Shape.bn_shape Some.
Proof. intros B C T y z Hy E. injection E as <-. exact Hy. Defined.

Lemma conv_block_needs_equal_channels_witness :
  conv_encoder.ConvBlock_forward
    (conv_encoder.ConvBlock_init 1 1
       ([[[Example.one]]; [[Example.one]]],
        [Example.zero; Example.zero])
       ([[[Example.one]]; [[Example.one]]],
        [Example.zero; Example.zero])
       ([[[Example.one]]; [[Example.one]]],
        [Example.zero; Example.zero])
       Some Some Some)
    Example.signal [4%Z]
  = None.
Proof.
  apply (conv_block_needs_equal_channels 1 1 2 4);
    [shapes | shapes | shapes | lia | shapes | shapes | shapes | shapes
    | apply some_bn_shape].
Defined.


Lemma full_conv_encoder_needs_block_and_positions_witness :
  conv_encoder.FullConvEncoder_forward (Example.full_encoder [])
    [[5; 6; 7; 8]%Z] [4%Z]
  = None.
Proof.
  apply (full_conv_encoder_needs_block_and_positions
           (Example.full_encoder [])).
  left. reflexivity.
Defined.

Lemma full_conv_encoder_mask_total_stride_witness :
  exists (T' : nat) (out : tensor3) (m : list (list bool)),
    conv_encoder.FullConvEncoder_forward
      (Example.full_encoder [Example.block]) [[5; 6; 7; 8]%Z] [4%Z]
    = Some (out, m)
    /\ Z.of_nat T' = ((Z.of_nat 4 - 1) / 2 + 1)%Z
    /\ shape3 T' 1 1 out
    /\ shape2 1 T' m
    /\ forall b t : nat,
         b < 1 -> t < T' ->
         (nth t (nth b m []) false = true
          <-> (Z.of_nat t < (nth b [4%Z] 0 - 1) / 2 + 1)%Z).
Proof.
  apply (full_conv_encoder_mask_total_stride 1 1 1 1 4
           (Example.full_encoder [Example.block]) Example.embedding
           [[5; 6; 7; 8]%Z] [4%Z]);
    try apply some_keeps_shape;
    try (eexists; split; [reflexivity | shapes]);
    try (unfold Shape.filters; shapes; fail).
  cbn [Example.full_encoder conv_encoder.fc_conv_blocks Shape.chain].
  do 8 eexists. split; [reflexivity|].
  repeat (shapes; try apply some_keeps_shape; try exact I;
          try unfold Shape.filters).
Defined.


End MoreInstances.
